(** * Sudoku solver family: constraint model, propagation, exact search and
    population solvers, embedded from the Python sources

  The models of the source files come first, one module for each:
    - [Py]      the few Python built-ins the sources rely on;
    - [Sudo]    [sudo.py]: the model builder, [assign]/[eliminate] on a
                store of mutable candidate lists, [search] and [solve];
    - [Rand], [Gen]  the random source and the generator protocol;
    - [Abc]     [abc_solver.py];
    - [Aco]     [aco_solver.py];
    - [Hybrid]  [hybrid_abc_cp.py];
    - [Msabc]   [msabc_solver.py];
    - [Text], [SudoText], [App]  the [str] methods of the parsers, the text
                branch of [sudo.grid_values] and [parse_puzzle] of
                [sudoku_solver_app.py];
    - [Norvig]  [norvig.py];
    - [AbcDict] the dict branch of [ABCSolver.parse_input].
  The facts about them follow, one module per topic; the statements C1 to
  C10 and the further properties X1, X2, ... are marked in the comments of
  their theorems. *)

From Stdlib Require Import ZArith String Ascii List DecimalString QArith Qround Lia Permutation.
From Stdlib Require FinFun.
From stdpp Require Import base list.
Import ListNotations.

Local Open Scope string_scope.
Local Open Scope list_scope.
Local Open Scope Z_scope.

(* ===================================================================== *)
(** * Python built-ins                                                    *)
(* ===================================================================== *)

(** Exceptions that the modelled code can raise. *)
Inductive exn : Type :=
| ValueError | IndexError | KeyError | TypeError
| ZeroDivisionError | AttributeError.

(** Outcome of running a piece of Python: a value, an exception that
  propagates to the caller, or [Diverge] when the recursion or retry
  budget given to the model was not enough. *)
Inductive result (A : Type) : Type :=
| Return (a : A)
| Raise (e : exn)
| Diverge.
Arguments Return {A} a.
Arguments Raise {A} e.
Arguments Diverge {A}.

Definition bind {A B : Type} (m : result A) (f : A -> result B) : result B :=
match m with
| Return a => f a
| Raise e => Raise e
| Diverge => Diverge
end.

Notation "'let!' x ':=' m 'in' k" := (bind m (fun x => k))
(at level 10, x name, m at level 200, k at level 200).

Fixpoint mapM {A B : Type} (f : A -> result B) (l : list A) : result (list B) :=
match l with
| [] => Return []
| x :: l' =>
    let! y := f x in
    let! ys := mapM f l' in
    Return (y :: ys)
end.

Module Py.

(** [str(i)] for an int. *)
Definition str (z : Z) : string := NilZero.string_of_int (Z.to_int z).

(** [range(n)]. *)
Definition range (n : Z) : list Z := map Z.of_nat (seq 0 (Z.to_nat n)).

(** [range(0, stop, step)] for a positive [step], the only way the sources
    call it. *)
Definition range_step (stop step : Z) : list Z :=
  map (fun k => Z.of_nat k * step) (seq 0 (Z.to_nat ((stop + step - 1) / step))).

(** Iterating over a [str] yields its one-character strings. *)
Definition chars (s : string) : list string :=
  map (fun a => String a EmptyString) (list_ascii_of_string s).

(** [s[:n]]. *)
Definition prefix (n : Z) (s : string) : string := substring 0 (Z.to_nat n) s.

(** [l[k]] on a list: negative indices count from the end, anything out of
    range raises [IndexError]. *)
Definition index {A : Type} (l : list A) (k : Z) : result A :=
  let i := if k <? 0 then k + Z.of_nat (length l) else k in
  if i <? 0 then Raise IndexError
  else match nth_error l (Z.to_nat i) with
       | Some x => Return x
       | None => Raise IndexError
       end.

(** [s[k]] on a [str]. *)
Definition str_index (s : string) (k : Z) : result string := index (chars s) k.

(** [chr(c)]: [ValueError] outside the Unicode range.  The character is
    exact for code points below 256, which covers every board the builder
    accepts. *)
Definition chr (c : Z) : result string :=
  if (c <? 0) || (1114111 <? c) then Raise ValueError
  else Return (String (ascii_of_N (Z.to_N (c mod 256))) EmptyString).

(** [x in l] for a list of strings. *)
Definition mem (x : string) (l : list string) : bool :=
  existsb (String.eqb x) l.

(** [d[k]] on a dict kept as an association list in insertion order. *)
Fixpoint assoc {V : Type} (k : string) (d : list (string * V)) : option V :=
  match d with
  | [] => None
  | (k', v) :: d' => if String.eqb k k' then Some v else assoc k d'
  end.

Definition getitem {V : Type} (d : list (string * V)) (k : string) : result V :=
  match assoc k d with
  | Some v => Return v
  | None => Raise KeyError
  end.

(** [l.remove(x)]: drops the first occurrence, [ValueError] when absent. *)
Fixpoint remove (x : string) (l : list string) : result (list string) :=
  match l with
  | [] => Raise ValueError
  | y :: l' =>
      if String.eqb x y then Return l'
      else let! r := remove x l' in Return (y :: r)
  end.

(** Elements of a list with later repetitions dropped: the members of
    [set(l)], in order of first appearance. *)
Fixpoint dedup (l : list string) : list string :=
  match l with
  | [] => []
  | x :: l' => x :: List.filter (fun y => negb (String.eqb x y)) (dedup l')
  end.

End Py.

(* ===================================================================== *)
(** * sudo.py                                                             *)
(* ===================================================================== *)

Module Sudo.

Abbreviation cell := string (only parsing).
Abbreviation digit := string (only parsing).

(** [cross(A, B)]; [A] and [B] arrive as the sequences of their items. *)
Definition cross (A B : list string) : list string :=
  flat_map (fun a => map (fun b => String.append a b) B) A.

(** The tuple returned by [initialize_structures]. *)
Record model : Type := Model {
  rows : string;
  cols : list string;
  squares : list cell;
  unitlist : list (list cell);
  units : list (cell * list (list cell));
  peers : list (cell * list cell);
  subgrid_rows : Z;
  subgrid_cols : Z;
  digits : list digit
}.

(** [while size % subgrid_rows != 0: subgrid_rows -= 1], started at [k]. *)
Fixpoint subgrid_rows_from (size : Z) (k : nat) : result Z :=
  match k with
  | O => Raise ZeroDivisionError
  | S k' =>
      if size mod Z.of_nat k =? 0 then Return (Z.of_nat k)
      else subgrid_rows_from size k'
  end.

(** [digits]: '1'..'9', then letters. *)
Definition make_digits (size : Z) : result (list digit) :=
  let low := map (fun i => Py.str (i + 1)) (Py.range (Z.min size 9)) in
  if 9 <? size then
    let! high := mapM (fun i => Py.chr (65 + i)) (Py.range (size - 9)) in
    Return (low ++ high)
  else Return low.

Definition column_units (rows : string) (cols : list string) : list (list cell) :=
  map (fun c => map (fun r => String.append r c) (Py.chars rows)) cols.

Definition row_units (rows : string) (cols : list string) : list (list cell) :=
  map (fun r => map (fun c => String.append r c) cols) (Py.chars rows).

(** One subgrid: [rows[i+x] + cols[j+y]] for [x], [y] in the box. *)
Definition subgrid (rows : string) (cols : list string) (sr sc i j : Z)
  : result (list cell) :=
  let! per_row :=
    mapM (fun x =>
            mapM (fun y =>
                    let! row := Py.str_index rows (i + x) in
                    let! col := Py.index cols (j + y) in
                    Return (String.append row col))
                 (Py.range sc))
         (Py.range sr) in
  Return (concat per_row).

Definition subgrid_units (rows : string) (cols : list string) (size sr sc : Z)
  : result (list (list cell)) :=
  let! per_band :=
    mapM (fun i => mapM (fun j => subgrid rows cols sr sc i j)
                        (Py.range_step size sc))
         (Py.range_step size sr) in
  Return (concat per_band).

(** The union of the units in [us] minus [{s}] (the set the source builds
    for [peers[s]]), as the list of its members.  Python walks a set in an
    order of its own; the list has the members in the order of their first
    appearance, and the proofs only use which cells are in it. *)
Definition peers_of (s : cell) (us : list (list cell)) : list cell :=
  List.filter (fun s2 => negb (String.eqb s2 s)) (Py.dedup (concat us)).

(** [int(size**0.5)] is the integer square root for every size that can
    reach this line with a result. *)
Definition initialize_structures (size : Z) : result model :=
  if size <? 1 then Raise ValueError
  else
    let rows := Py.prefix size "ABCDEFGHIJKLMNOPQRSTUVWXYZ" in
    let cols := map (fun i => Py.str (i + 1)) (Py.range size) in
    let squares := cross (Py.chars rows) cols in
    let! subgrid_rows := subgrid_rows_from size (Z.to_nat (Z.sqrt size)) in
    let subgrid_cols := size / subgrid_rows in
    let! digits := make_digits size in
    let! boxes := subgrid_units rows cols size subgrid_rows subgrid_cols in
    let unitlist := column_units rows cols ++ row_units rows cols ++ boxes in
    let units :=
      map (fun s => (s, List.filter (fun u => Py.mem s u) unitlist)) squares in
    let peers :=
      map (fun s => (s, peers_of s (List.filter (fun u => Py.mem s u) unitlist)))
          squares in
    Return (Model rows cols squares unitlist units peers
                  subgrid_rows subgrid_cols digits).

(** ** The store of candidate lists

    A candidate-set assignment ([values]) is a dict from cells to Python
    lists, and [eliminate] changes those lists in place
    ([values[s].remove(d)]).  The lists therefore live in a store and a dict
    holds references into it; copying a dict item by item ([v.copy()])
    allocates new lists, copying only the dict ([dict.copy()]) does not. *)

Abbreviation loc := nat (only parsing).
Abbreviation store := (list (list digit)) (only parsing).
Abbreviation dict := (list (cell * loc)) (only parsing).

(** Store-passing computations that can raise. *)
Definition M (A : Type) : Type := store -> result (A * store).

Definition ret {A : Type} (a : A) : M A := fun h => Return (a, h).

Definition bindM {A B : Type} (m : M A) (f : A -> M B) : M B :=
  fun h => match m h with
           | Return (a, h') => f a h'
           | Raise e => Raise e
           | Diverge => Diverge
           end.

Notation "'do!' x ':=' m 'in' k" := (bindM m (fun x => k))
  (at level 10, x name, m at level 200, k at level 200).

Definition lift {A : Type} (r : result A) : M A :=
  fun h => match r with
           | Return a => Return (a, h)
           | Raise e => Raise e
           | Diverge => Diverge
           end.

Definition out_of_fuel {A : Type} : M A := fun _ => Diverge.

(** Reading through a reference, writing through it, and allocating. *)
Definition load (l : loc) : M (list digit) :=
  fun h => Return (default [] (h !! l), h).
Definition write (l : loc) (c : list digit) : M unit :=
  fun h => Return (tt, <[l := c]> h).
Definition alloc (c : list digit) : M loc :=
  fun h => Return (length h, h ++ [c]).

(** [for x in l: if not f(x): return False] followed by a fall-through. *)
Fixpoint all_ok {A : Type} (f : A -> M bool) (l : list A) : M bool :=
  match l with
  | [] => ret true
  | x :: l' => do! b := f x in if b then all_ok f l' else ret false
  end.

(** The fourth argument of [assign] and [eliminate]: the peers dict at every
    call inside [sudo.py]; [hybrid_abc_cp.py] passes the board size. *)
Inductive peers_arg : Type :=
  | PeersDict (d : list (cell * list cell))
  | AnInt (n : Z).

(** [peers[s]]: an int is not subscriptable. *)
Definition subscript (p : peers_arg) (s : cell) : result (list cell) :=
  match p with
  | PeersDict d => Py.getitem d s
  | AnInt _ => Raise TypeError
  end.

(** [eliminate(values, s, d, peers)]; [true] stands for the returned
    [values], [false] for [False].  [fuel] bounds the depth of the recursion. *)
Fixpoint eliminate (fuel : nat) (values : dict) (s : cell) (d : digit)
  (peers : peers_arg) : M bool :=
  match fuel with
  | O => out_of_fuel
  | S fuel' =>
      do! l := lift (Py.getitem values s) in
      do! c := load l in
      if negb (Py.mem d c) then ret true
      else
        do! c' := lift (Py.remove d c) in
        do! _ := write l c' in
        match c' with
        | [] => ret false
        | [d2] =>
            do! ps := lift (subscript peers s) in
            all_ok (fun s2 => eliminate fuel' values s2 d2 peers) ps
        | _ => ret true
        end
  end.

(** [assign(values, s, d, peers)]. *)
Definition assign (fuel : nat) (values : dict) (s : cell) (d : digit)
  (peers : peers_arg) : M bool :=
  do! l := lift (Py.getitem values s) in
  do! c := load l in
  let other_values := List.filter (fun v => negb (String.eqb v d)) c in
  all_ok (fun d2 => eliminate fuel values s d2 peers) other_values.

(** [{s: digits.copy() for s in squares}]. *)
Fixpoint fresh_values (squares : list cell) (digits : list digit) : M dict :=
  match squares with
  | [] => ret []
  | s :: rest =>
      do! l := alloc digits in
      do! vs := fresh_values rest digits in
      ret ((s, l) :: vs)
  end.

(** [{k: v.copy() for k, v in values.items()}]. *)
Fixpoint copy_values (values : dict) : M dict :=
  match values with
  | [] => ret []
  | (k, l) :: rest =>
      do! c := load l in
      do! l' := alloc c in
      do! vs := copy_values rest in
      ret ((k, l') :: vs)
  end.

(** The puzzle as the mapping from cell to clue that the solvers receive:
    the items of the dict, in order. *)
Abbreviation grid := (list (cell * string)) (only parsing).

(** [key[1:]]. *)
Definition tail_of (key : string) : string :=
  match key with
  | EmptyString => EmptyString
  | String _ r => r
  end.

(** [grid_values(grid, size)] on a dict: every key must be a row label
    followed by a column label.  (The other branch of the source reads the
    same mapping out of a text.) *)
Definition grid_values (g : grid) (size : Z) : result grid :=
  let! m := initialize_structures size in
  let! _ := mapM (fun kv : cell * string =>
                    let! k0 := Py.str_index (fst kv) 0 in
                    if Py.mem k0 (Py.chars (rows m))
                       && Py.mem (tail_of (fst kv)) (cols m)
                    then Return tt else Raise ValueError) g in
  Return g.

(** The clue loop of [parse_grid]. *)
Fixpoint assign_clues (fuel : nat) (values : dict) (digits : list digit)
  (peers : peers_arg) (items : grid) : M bool :=
  match items with
  | [] => ret true
  | (s, d) :: rest =>
      if negb (String.eqb d ".") && Py.mem d digits then
        do! b := assign fuel values s d peers in
        if b then assign_clues fuel values digits peers rest else ret false
      else assign_clues fuel values digits peers rest
  end.

(** [parse_grid(grid, size)]: [None] stands for [False]. *)
Definition parse_grid (fuel : nat) (g : grid) (size : Z) : M (option dict) :=
  do! m := lift (initialize_structures size) in
  do! values := fresh_values (squares m) (digits m) in
  do! grid_dict := lift (grid_values g size) in
  do! b := assign_clues fuel values (digits m) (PeersDict (peers m)) grid_dict in
  ret (if b then Some values else None).

(** [len(values[s])] and [values[s][0]]. *)
Definition candidates (values : dict) (s : cell) : M (list digit) :=
  do! l := lift (Py.getitem values s) in load l.

(** [all(len(values[s]) == 1 for s in squares)]. *)
Fixpoint all_single (values : dict) (squares : list cell) : M bool :=
  match squares with
  | [] => ret true
  | s :: rest =>
      do! c := candidates values s in
      if Nat.eqb (length c) 1 then all_single values rest else ret false
  end.

(** [{s: values[s][0] for s in squares}]. *)
Fixpoint first_values (values : dict) (squares : list cell) : M (list (cell * digit)) :=
  match squares with
  | [] => ret []
  | s :: rest =>
      do! c := candidates values s in
      do! d := lift (Py.index c 0) in
      do! r := first_values values rest in
      ret ((s, d) :: r)
  end.

(** [(len(values[s]), s) for s in squares if len(values[s]) > 1]. *)
Fixpoint open_cells (values : dict) (squares : list cell)
  : M (list (nat * cell)) :=
  match squares with
  | [] => ret []
  | s :: rest =>
      do! c := candidates values s in
      do! r := open_cells values rest in
      ret (if Nat.ltb 1 (length c) then (length c, s) :: r else r)
  end.

(** Tuple comparison [(n1, s1) < (n2, s2)]. *)
Definition pair_lt (a b : nat * cell) : bool :=
  Nat.ltb (fst a) (fst b)
  || (Nat.eqb (fst a) (fst b) && String.ltb (snd a) (snd b)).

(** [min(...)]: [ValueError] on an empty sequence. *)
Definition py_min (l : list (nat * cell)) : result (nat * cell) :=
  match l with
  | [] => Raise ValueError
  | x :: r => Return (fold_left (fun m y => if pair_lt y m then y else m) r x)
  end.

(** A solution: [{s: values[s][0] for s in squares}]. *)
Abbreviation solution := (list (cell * digit)) (only parsing).

(** One round of the loop [for d in values[s]] of [search]: the copy, the
    speculative [assign] on the copy and the recursive call [recur] on what
    [assign] returned. *)
Definition speculate (recur : option dict -> M (option solution))
  (fuel : nat) (values : dict) (s : cell) (d : digit) (peers : peers_arg)
  : M (option solution) :=
  do! new_values := copy_values values in
  do! b := assign fuel new_values s d peers in
  recur (if b then Some new_values else None).

(** The loop [for d in values[s]] of [search]; [l] is the list [values[s]].
    The loop walks the list by index and looks at the list again at every
    step, as Python's list iterator does; [idx] holds the indices still to
    visit. *)
Fixpoint try_candidates (recur : option dict -> M (option solution))
  (fuel : nat) (values : dict) (s : cell) (l : loc) (peers : peers_arg)
  (idx : list nat) : M (option solution) :=
  match idx with
  | [] => ret None
  | i :: idx' =>
      do! c := load l in
      match nth_error c i with
      | None => ret None
      | Some d =>
          do! r := speculate recur fuel values s d peers in
          match r with
          | Some (_ :: _) => ret r
          | _ => try_candidates recur fuel values s l peers idx'
          end
      end
  end.

(** [search(values, size)].  Candidate lists never grow, so the length of
    [values[s]] when the loop starts bounds the indices it visits. *)
Fixpoint search (fuel : nat) (values : option dict) (size : Z)
  : M (option solution) :=
  match fuel with
  | O => out_of_fuel
  | S fuel' =>
      match values with
      | None => ret None
      | Some values =>
          do! m := lift (initialize_structures size) in
          do! done := all_single values (squares m) in
          if done then
            do! sol := first_values values (squares m) in ret (Some sol)
          else
            do! cells := open_cells values (squares m) in
            do! ns := lift (py_min cells) in
            let s := snd ns in
            do! l := lift (Py.getitem values s) in
            do! c0 := load l in
            try_candidates (fun v => search fuel' v size) fuel' values s l
                           (PeersDict (peers m)) (seq 0 (length c0))
      end
  end.

(** [solve(grid, size)]; every value of the solution is a [str], so the
    final conversion loop copies it item by item. *)
Definition solve (fuel : nat) (g : grid) (size : Z) : M (option solution) :=
  do! values := parse_grid fuel g size in
  match values with
  | None | Some [] => ret None
  | Some _ =>
      do! solution := search fuel values size in
      match solution with
      | None | Some [] => ret None
      | Some sol => ret (Some sol)
      end
  end.

End Sudo.

(* ===================================================================== *)
(** * The random source and the generator protocol                        *)
(* ===================================================================== *)

(** The solvers draw from Python's [random] module.  A run is modelled
    against an arbitrary stream of raw draws: every theorem below holds for
    all streams.  Each operation can return exactly the values the library
    function can return. *)
Module Rand.

Record rng : Type := Rng { draws : nat -> nat; pos : nat }.

Definition next (g : rng) : nat * rng :=
  (draws g (pos g), Rng (draws g) (S (pos g))).

(** [random.randint(a, b)]. *)
Definition randint (a b : Z) (g : rng) : result (Z * rng) :=
  let (n, g') := next g in
  if b <? a then Raise ValueError
  else Return (a + Z.of_nat n mod (b - a + 1), g').

(** [random.choice(l)]. *)
Definition choice {A : Type} (l : list A) (g : rng) : result (A * rng) :=
  let (n, g') := next g in
  match nth_error l (n mod length l) with
  | Some x => Return (x, g')
  | None => Raise IndexError
  end.

(** Removes the item at position [k]. *)
Fixpoint take_out {A : Type} (k : nat) (l : list A) : option (A * list A) :=
  match l, k with
  | [], _ => None
  | x :: l', O => Some (x, l')
  | x :: l', S k' =>
      match take_out k' l' with
      | Some (y, r) => Some (y, x :: r)
      | None => None
      end
  end.

(** A random order of [l]: the first [n] picks without replacement.
    [random.shuffle(l)] and [random.sample(l, len(l))] are [pick (length l) l]. *)
Fixpoint pick {A : Type} (n : nat) (l : list A) (g : rng) : list A * rng :=
  match n with
  | O => ([], g)
  | S n' =>
      let (k, g') := next g in
      match take_out (k mod length l) l with
      | Some (x, r) => let (xs, g'') := pick n' r g' in (x :: xs, g'')
      | None => ([], g')
      end
  end.

Definition shuffle {A : Type} (l : list A) (g : rng) : list A * rng :=
  pick (length l) l g.

(** [random.sample(l, k)]: [ValueError] when [k] is negative or larger than
    the population. *)
Definition sample {A : Type} (l : list A) (k : Z) (g : rng) : result (list A * rng) :=
  if (k <? 0) || (Z.of_nat (length l) <? k) then Raise ValueError
  else Return (pick (Z.to_nat k) l g).

(** [int(round(x + random.random() * d))] for ints [x] and [d >= 0]: the
    draw is in [0, 1), so the result is any int from [x] to [x + d]. *)
Definition perturb (x d : Z) (g : rng) : Z * rng :=
  let (n, g') := next g in (x + Z.of_nat n mod (d + 1), g').

(** [random.random() < p] for a probability strictly between 0 and 1. *)
Definition chance (g : rng) : bool * rng :=
  let (n, g') := next g in (Nat.even n, g').

End Rand.

(** A generator: code that changes a state, yields values on the way and
    returns, raises or runs out of budget.  The yields made so far are kept
    when it stops early. *)
Definition Gen (S Y A : Type) : Type := S -> list Y * result (A * S).

Module Gen.

Definition ret {S Y A : Type} (a : A) : Gen S Y A := fun st => ([], Return (a, st)).

Definition bind {S Y A B : Type} (m : Gen S Y A) (f : A -> Gen S Y B) : Gen S Y B :=
  fun st =>
    match m st with
    | (ys, Return (a, st')) => let (zs, r) := f a st' in (ys ++ zs, r)
    | (ys, Raise e) => (ys, Raise e)
    | (ys, Diverge) => (ys, Diverge)
    end.

Definition yield {S Y : Type} (y : Y) : Gen S Y unit := fun st => ([y], Return (tt, st)).

Definition lift {S Y A : Type} (r : result A) : Gen S Y A :=
  fun st => ([], match r with
                 | Return a => Return (a, st)
                 | Raise e => Raise e
                 | Diverge => Diverge
                 end).

(** A solver's generator runs on the solver object and the random source. *)
Definition read {S Y A : Type} (f : S -> result A) : Gen (S * Rand.rng) Y A :=
  fun s => ([], match f (fst s) with
                | Return a => Return (a, s)
                | Raise e => Raise e
                | Diverge => Diverge
                end).

Definition update {S Y : Type} (f : S -> result S) : Gen (S * Rand.rng) Y unit :=
  fun s => ([], match f (fst s) with
                | Return st' => Return (tt, (st', snd s))
                | Raise e => Raise e
                | Diverge => Diverge
                end).

Definition random {S Y A : Type} (f : S -> Rand.rng -> result (A * Rand.rng))
  : Gen (S * Rand.rng) Y A :=
  fun s => ([], match f (fst s) (snd s) with
                | Return (a, g') => Return (a, (fst s, g'))
                | Raise e => Raise e
                | Diverge => Diverge
                end).

Definition get {S Y : Type} : Gen S Y S := fun st => ([], Return (st, st)).
Definition put {S Y : Type} (st : S) : Gen S Y unit := fun _ => ([], Return (tt, st)).

(** [for x in l: body(x)]. *)
Fixpoint for_each {S Y A : Type} (l : list A) (body : A -> Gen S Y unit) : Gen S Y unit :=
  match l with
  | [] => ret tt
  | x :: l' => bind (body x) (fun _ => for_each l' body)
  end.

(** [for _ in range(n): ...] around a body that tells whether the loop goes
    on ([false] stands for a [return] or a [break] inside the body). *)
Fixpoint repeat_for {S Y : Type} (n : nat) (body : Gen S Y bool) : Gen S Y unit :=
  match n with
  | O => ret tt
  | S n' => bind body (fun continue => if continue then repeat_for n' body else ret tt)
  end.

(** [while True: ...] around such a body.  The loop has no bound of its own:
    [fuel] is the number of rounds that are looked at, and a loop that is
    still running after them has not returned. *)
Fixpoint repeat_while {S Y : Type} (fuel : nat) (body : Gen S Y bool) : Gen S Y unit :=
  match fuel with
  | O => fun _ => ([], Diverge)
  | S fuel' => bind body (fun continue => if continue then repeat_while fuel' body else ret tt)
  end.

End Gen.

Notation "'gen!' x ':=' m 'in' k" := (Gen.bind m (fun x => k))
  (at level 10, x name, m at level 200, k at level 200).

(* ===================================================================== *)
(** * abc_solver.py                                                       *)
(* ===================================================================== *)

Notation "'let!' ' p ':=' m 'in' k" :=
  (bind m (fun x => match x with p => k end))
  (at level 10, p pattern, m at level 200, k at level 200).

Module Abc.

(** A numpy 2-D int array, row by row, and a boolean array of the same
    shape.  Every index the solver computes is non-negative. *)
Abbreviation grid := (list (list Z)) (only parsing).
Abbreviation mask := (list (list bool)) (only parsing).

(** [a[r, c]]. *)
Definition at2 {A : Type} (a : list (list A)) (r c : Z) : result A :=
  let! row := Py.index a r in Py.index row c.

(** [l[k] = x]. *)
Definition set_at {A : Type} (l : list A) (k : Z) (x : A) : result (list A) :=
  let i := if k <? 0 then k + Z.of_nat (length l) else k in
  if (i <? 0) || (Z.of_nat (length l) <=? i) then Raise IndexError
  else Return (<[Z.to_nat i := x]> l).

(** [a[r, c] = v]. *)
Definition set2 (a : grid) (r c : Z) (v : Z) : result grid :=
  let! row := Py.index a r in
  let! row' := set_at row c v in
  set_at a r row'.

(** The attributes of an [ABCSolver]. *)
Record solver : Type := Solver {
  size : Z;
  subgrid_rows : Z;
  subgrid_cols : Z;
  puzzle : grid;
  fixed_cells : mask;
  max_cycles : Z;
  employed_bees : nat;
  onlooker_bees : Z;
  scout_limit : Z;
  population : list grid;
  fitnesses : list Q;
  best_solution : grid;
  best_fitness : Q;
  trials : list Z
}.

(** [range(a, b)]. *)
Definition range_from (a b : Z) : list Z := map (fun k => a + k) (Py.range (b - a)).

(** The cells of the box with corner [(box_r, box_c)], row by row. *)
Definition box_cells (sr sc box_r box_c : Z) : list (Z * Z) :=
  flat_map (fun r => map (fun c => (r, c)) (range_from box_c (box_c + sc)))
           (range_from box_r (box_r + sr)).

(** The corners of the boxes, in the order of the two [range(0, size, _)]
    loops. *)
Definition box_corners (n sr sc : Z) : list (Z * Z) :=
  flat_map (fun br => map (fun bc => (br, bc)) (Py.range_step n sc))
           (Py.range_step n sr).

(** [existing]: the values of the fixed cells of a box. *)
Fixpoint existing_clues (fixed : mask) (sol : grid) (cells : list (Z * Z))
  : result (list Z) :=
  match cells with
  | [] => Return []
  | (r, c) :: rest =>
      let! f := at2 fixed r c in
      if f then
        let! v := at2 sol r c in
        let! e := existing_clues fixed sol rest in
        Return (v :: e)
      else existing_clues fixed sol rest
  end.

(** [[i+1 for i in range(size) if (i+1) not in existing]]. *)
Definition missing_digits (n : Z) (existing : list Z) : list Z :=
  List.filter (fun d => negb (existsb (Z.eqb d) existing))
              (map (fun i => i + 1) (Py.range n)).

(** The second pass over a box: the free cells take [missing[idx]] in turn. *)
Fixpoint fill_box (fixed : mask) (missing : list Z) (cells : list (Z * Z))
  (idx : Z) (sol : grid) : result grid :=
  match cells with
  | [] => Return sol
  | (r, c) :: rest =>
      let! f := at2 fixed r c in
      if f then fill_box fixed missing rest idx sol
      else
        let! v := Py.index missing idx in
        let! sol' := set2 sol r c v in
        fill_box fixed missing rest (idx + 1) sol'
  end.

(** One member of the population: the body of the outer loop of
    [initialize_population]. *)
Fixpoint fill_boxes (st : solver) (corners : list (Z * Z)) (sol : grid)
  (g : Rand.rng) : result (grid * Rand.rng) :=
  match corners with
  | [] => Return (sol, g)
  | (br, bc) :: rest =>
      let cells := box_cells (subgrid_rows st) (subgrid_cols st) br bc in
      let! existing := existing_clues (fixed_cells st) sol cells in
      let (missing, g') := Rand.shuffle (missing_digits (size st) existing) g in
      let! sol' := fill_box (fixed_cells st) missing cells 0 sol in
      fill_boxes st rest sol' g'
  end.

Definition new_member (st : solver) (g : Rand.rng) : result (grid * Rand.rng) :=
  fill_boxes st (box_corners (size st) (subgrid_rows st) (subgrid_cols st))
             (puzzle st) g.

(** [initialize_population()]. *)
Fixpoint members (st : solver) (n : nat) (g : Rand.rng)
  : result (list grid * Rand.rng) :=
  match n with
  | O => Return ([], g)
  | S n' =>
      let! ' (sol, g1) := new_member st g in
      let! ' (rest, g2) := members st n' g1 in
      Return (sol :: rest, g2)
  end.

Definition initialize_population (st : solver) (g : Rand.rng)
  : result (list grid * Rand.rng) :=
  members st (employed_bees st) g.

(** [len(set(row))]. *)
Fixpoint distinct (l : list Z) : Z :=
  match l with
  | [] => 0
  | x :: l' => (if existsb (Z.eqb x) l' then 0 else 1) + distinct l'
  end.

(** The rows of [solution.T]. *)
Definition columns (a : grid) : list (list Z) :=
  match a with
  | [] => []
  | row0 :: _ => map (fun j => map (fun row => nth j row 0) a) (seq 0 (length row0))
  end.

Definition penalty (n : Z) (a : grid) : Z :=
  fold_left (fun p row => p + (n - distinct row)) (columns a)
            (fold_left (fun p row => p + (n - distinct row)) a 0).

(** [evaluate(solution)]; the division is exact here, and comparisons of two
    such fitness values come out as on the floats. *)
Definition evaluate (st : solver) (a : grid) : result Q :=
  let p := penalty (size st) a in
  if 1 + p =? 0 then Raise ZeroDivisionError
  else Return (1 / inject_Z (1 + p))%Q.

(** The loop that draws a cell until it is not fixed. *)
Fixpoint pick_free (fuel : nat) (st : solver) (g : Rand.rng)
  : result (Z * Z * Rand.rng) :=
  match fuel with
  | O => Diverge
  | S fuel' =>
      let! ' (row, g1) := Rand.randint 0 (size st - 1) g in
      let! ' (col, g2) := Rand.randint 0 (size st - 1) g1 in
      let! f := at2 (fixed_cells st) row col in
      if f then pick_free fuel' st g2 else Return (row, col, g2)
  end.

(** [np.array_equal(a, b)]. *)
Definition array_equal (a b : grid) : bool :=
  Nat.eqb (length a) (length b)
  && forallb (fun rows => Nat.eqb (length (fst rows)) (length (snd rows))
                          && forallb (fun xy => fst xy =? snd xy)
                                     (combine (fst rows) (snd rows)))
             (combine a b).

(** The loop that draws a member until it differs from the current one. *)
Fixpoint pick_other (fuel : nat) (st : solver) (current : grid) (g : Rand.rng)
  : result (grid * Rand.rng) :=
  match fuel with
  | O => Diverge
  | S fuel' =>
      let! ' (nb, g1) := Rand.choice (population st) g in
      if array_equal nb current then pick_other fuel' st current g1
      else Return (nb, g1)
  end.

(** The two wrap-around branches after the rounding. *)
Definition wrap (n v : Z) : Z :=
  if n <? v then v mod n + 1
  else if v <? 1 then n - (Z.abs v mod n)
  else v.

(** [for pos in positions: ...]: the first position that is not fixed takes
    [x_ij] and the chosen cell takes [v_ij]. *)
Fixpoint swap_first (fixed : mask) (positions : list (Z * Z)) (new_solution : grid)
  (row col x_ij v_ij : Z) : result grid :=
  match positions with
  | [] => Return new_solution
  | (r, c) :: rest =>
      let! f := at2 fixed r c in
      if f then swap_first fixed rest new_solution row col x_ij v_ij
      else
        let! n1 := set2 new_solution r c x_ij in
        set2 n1 row col v_ij
  end.

(** The cells of a slice that hold [v]; a slice stops at the array bounds. *)
Definition positions_of (a : grid) (cells : list (Z * Z)) (v : Z) : list (Z * Z) :=
  List.filter (fun rc => match at2 a (fst rc) (snd rc) with
                         | Return x => x =? v
                         | _ => false
                         end) cells.

(** [neighbor_search(current_solution)]; [fuel] bounds the two retry loops. *)
Definition neighbor_search (fuel : nat) (st : solver) (current_solution : grid)
  (g : Rand.rng) : result (grid * Rand.rng) :=
  let! ' (row, col, g1) := pick_free fuel st g in
  let block_row := (row / subgrid_rows st) * subgrid_rows st in
  let block_col := (col / subgrid_cols st) * subgrid_cols st in
  let! ' (neighbor_solution, g2) := pick_other fuel st current_solution g1 in
  let! x_ij := at2 current_solution row col in
  let! x_kj := at2 neighbor_solution row col in
  let (v0, g3) := Rand.perturb x_ij (Z.abs (x_ij - x_kj)) g2 in
  let v_ij := wrap (size st) v0 in
  let block := box_cells (subgrid_rows st) (subgrid_cols st) block_row block_col in
  let! new_solution :=
    match positions_of current_solution block v_ij with
    | [] => set2 current_solution row col v_ij
    | positions =>
        swap_first (fixed_cells st) positions current_solution row col x_ij v_ij
    end in
  Return (new_solution, g3).

(** ** The state changes of [solve] *)

Definition set_member (i : Z) (a : grid) (fit : Q) (st : solver) : result solver :=
  let! pop := set_at (population st) i a in
  let! fits := set_at (fitnesses st) i fit in
  let! trs := set_at (trials st) i 0 in
  Return (Solver (size st) (subgrid_rows st) (subgrid_cols st) (puzzle st)
                 (fixed_cells st) (max_cycles st) (employed_bees st)
                 (onlooker_bees st) (scout_limit st)
                 pop fits (best_solution st) (best_fitness st) trs).

Definition bump_trial (i : Z) (st : solver) : result solver :=
  let! t := Py.index (trials st) i in
  let! trs := set_at (trials st) i (t + 1) in
  Return (Solver (size st) (subgrid_rows st) (subgrid_cols st) (puzzle st)
                 (fixed_cells st) (max_cycles st) (employed_bees st)
                 (onlooker_bees st) (scout_limit st)
                 (population st) (fitnesses st) (best_solution st)
                 (best_fitness st) trs).

Definition set_best (a : grid) (fit : Q) (st : solver) : solver :=
  Solver (size st) (subgrid_rows st) (subgrid_cols st) (puzzle st)
         (fixed_cells st) (max_cycles st) (employed_bees st)
         (onlooker_bees st) (scout_limit st)
         (population st) (fitnesses st) a fit (trials st).

(** The solver and its random source are the state of the generator; it
    yields pairs of a grid and a fitness. *)
Abbreviation state := (solver * Rand.rng)%type (only parsing).
Abbreviation progress := (grid * Q)%type (only parsing).

Definition read {A : Type} (f : solver -> result A) : Gen state progress A :=
  fun s => ([], match f (fst s) with
                | Return a => Return (a, s)
                | Raise e => Raise e
                | Diverge => Diverge
                end).

Definition update (f : solver -> result solver) : Gen state progress unit :=
  fun s => ([], match f (fst s) with
                | Return st' => Return (tt, (st', snd s))
                | Raise e => Raise e
                | Diverge => Diverge
                end).

Definition random {A : Type} (f : solver -> Rand.rng -> result (A * Rand.rng))
  : Gen state progress A :=
  fun s => ([], match f (fst s) (snd s) with
                | Return (a, g') => Return (a, (fst s, g'))
                | Raise e => Raise e
                | Diverge => Diverge
                end).

(** The body shared by the employed and the onlooker loops for member [i];
    only the employed bees count a trial on a worse neighbor. *)
Definition visit (fuel : nat) (employed : bool) (i : Z) : Gen state progress unit :=
  gen! current := read (fun st => Py.index (population st) i) in
  gen! neighbor := random (fun st g => neighbor_search fuel st current g) in
  gen! neighbor_fit := read (fun st => evaluate st neighbor) in
  gen! fit_i := read (fun st => Py.index (fitnesses st) i) in
  gen! _ := (if Qle_bool fit_i neighbor_fit
             then update (set_member i neighbor neighbor_fit)
             else if employed then update (bump_trial i) else Gen.ret tt) in
  gen! best := read (fun st => Return (best_fitness st)) in
  if Qle_bool best neighbor_fit
  then update (fun st => Return (set_best neighbor neighbor_fit st))
  else Gen.ret tt.

Definition bee_indices (st : solver) : list Z := Py.range (Z.of_nat (employed_bees st)).

Definition employed_phase (fuel : nat) : Gen state progress unit :=
  gen! bees := read (fun st => Return (bee_indices st)) in
  Gen.for_each bees (visit fuel true).

(** [sum(self.fitnesses)]. *)
Definition total (fits : list Q) : Q := fold_left Qplus fits 0%Q.

(** [range(int(probability * self.onlooker_bees))], with the product taken
    exactly; the floats can round it across an integer, which changes how
    often the body of the loop runs and nothing else. *)
Definition onlooker_turns (fit_i sum_fitness : Q) (onlookers : Z) : list Z :=
  Py.range (Qfloor (fit_i / sum_fitness * inject_Z onlookers)).

Definition onlooker_phase (fuel : nat) : Gen state progress unit :=
  gen! sum_fitness := read (fun st => Return (total (fitnesses st))) in
  if Qlt_le_dec 0 sum_fitness then
    gen! bees := read (fun st => Return (bee_indices st)) in
    Gen.for_each bees (fun i =>
      gen! fit_i := read (fun st => Py.index (fitnesses st) i) in
      gen! onlookers := read (fun st => Return (onlooker_bees st)) in
      Gen.for_each (onlooker_turns fit_i sum_fitness onlookers)
                   (fun _ => visit fuel false i))
  else Gen.ret tt.

(** [max(l)] and [l.index(x)] on a list of ints. *)
Definition max_of (l : list Z) : result Z :=
  match l with
  | [] => Raise ValueError
  | x :: r => Return (fold_left Z.max r x)
  end.

Fixpoint index_of (x : Z) (l : list Z) : result Z :=
  match l with
  | [] => Raise ValueError
  | y :: r => if x =? y then Return 0 else let! k := index_of x r in Return (k + 1)
  end.

Definition scout_phase : Gen state progress unit :=
  gen! worst := read (fun st => max_of (trials st)) in
  gen! limit := read (fun st => Return (scout_limit st)) in
  if limit <? worst then
    gen! idx := read (fun st => index_of worst (trials st)) in
    gen! fresh := random initialize_population in
    gen! member := Gen.lift (Py.index fresh 0) in
    gen! fit := read (fun st => evaluate st member) in
    gen! _ := update (set_member idx member fit) in
    gen! best := read (fun st => Return (best_fitness st)) in
    if Qle_bool best fit
    then update (fun st => Return (set_best member fit st))
    else Gen.ret tt
  else Gen.ret tt.

(** One round of the loop of [solve]; [false] when it returned. *)
Definition cycle (fuel : nat) : Gen state progress bool :=
  gen! best := read (fun st => Return (best_fitness st)) in
  if Qeq_bool best 1 then
    gen! solution := read (fun st => Return (best_solution st)) in
    gen! _ := Gen.yield (solution, 1%Q) in
    Gen.ret false
  else
    gen! _ := employed_phase fuel in
    gen! _ := onlooker_phase fuel in
    gen! _ := scout_phase in
    gen! now := read (fun st => Return (best_solution st, best_fitness st)) in
    gen! _ := Gen.yield now in
    Gen.ret true.

(** [solve()]: [for cycle in range(self.max_cycles)]. *)
Definition solve (fuel : nat) : Gen state progress unit :=
  gen! n := read (fun st => Return (max_cycles st)) in
  Gen.repeat_for (Z.to_nat n) (cycle fuel).

(** [max(population, key=evaluate)]: the first member of greatest fitness. *)
Fixpoint best_of (st : solver) (pop : list grid) : result (grid * Q) :=
  match pop with
  | [] => Raise ValueError
  | a :: rest =>
      let! fa := evaluate st a in
      match rest with
      | [] => Return (a, fa)
      | _ =>
          let! ' (b, fb) := best_of st rest in
          Return (if Qle_bool fb fa then (a, fa) else (b, fb))
      end
  end.

(** [ABCSolver(puzzle_input, size, population_size)] for a puzzle given as an
    array. *)
Definition init (puzzle_input : grid) (n : Z) (population_size : nat)
  (g : Rand.rng) : result (solver * Rand.rng) :=
  let! m := Sudo.initialize_structures n in
  let fixed := map (map (fun v => negb (v =? 0))) puzzle_input in
  let st0 := Solver n (Sudo.subgrid_rows m) (Sudo.subgrid_cols m) puzzle_input
                    fixed 100000 population_size
                    (Z.of_nat population_size * 2) 10 [] [] [] 0%Q [] in
  let! ' (pop, g') := initialize_population st0 g in
  let! fits := mapM (evaluate st0) pop in
  let! ' (best, _) := best_of st0 pop in
  let! best_fit := evaluate st0 best in
  Return (Solver n (Sudo.subgrid_rows m) (Sudo.subgrid_cols m) puzzle_input
                 fixed 100000 population_size
                 (Z.of_nat population_size * 2) 10
                 pop fits best best_fit
                 (map (fun _ => 0) (seq 0 population_size)),
          g').

End Abc.

(* ===================================================================== *)
(** * aco_solver.py                                                       *)
(* ===================================================================== *)

(** The candidate lists of the Ant-Colony solver are changed in place, as in
    [sudo.py], but no list is ever reachable from two dicts that are both
    read later: every ant starts from item-by-item copies of [self.values],
    and the shallow [ant['values'].copy()] that [_assign_value] works on
    either replaces the ant's dict or belongs to an ant that is dropped.  The
    propagation functions also return the dict they were given.  The model
    therefore threads the dict as a value.

    Of the pheromone table only what can raise is kept: the table decides
    which of the possible values [_choose_value] returns, and the model
    leaves that choice to the stream of draws. *)

Module Aco.
Import Sudo.

Abbreviation candidates := (list (cell * list digit)) (only parsing).

(** The objects that [list.index] compares here: a [str] or a list of
    [str]. *)
Inductive obj : Type :=
| Str (s : string)
| Lst (l : list string).

Definition obj_eqb (a b : obj) : bool :=
  match a, b with
  | Str x, Str y => String.eqb x y
  | Lst x, Lst y =>
      Nat.eqb (length x) (length y)
      && forallb (fun p => String.eqb (fst p) (snd p)) (combine x y)
  | _, _ => false
  end.

(** [l.index(x)]: [ValueError] when no item equals [x]. *)
Fixpoint list_index (l : list obj) (x : obj) : result Z :=
  match l with
  | [] => Raise ValueError
  | y :: r =>
      if obj_eqb y x then Return 0
      else let! k := list_index r x in Return (k + 1)
  end.

(** [d[k] = v] on a dict kept in insertion order. *)
Fixpoint setitem {V : Type} (d : list (string * V)) (k : string) (v : V)
  : list (string * V) :=
  match d with
  | [] => [(k, v)]
  | (k', v') :: d' =>
      if String.eqb k k' then (k', v) :: d' else (k', v') :: setitem d' k v
  end.

(** The attributes of an [ACOSolver] that [solve] reads or writes. *)
Record solver : Type := Solver {
  size : Z;
  squares : list cell;
  units : list (cell * list (list cell));
  peers : list (cell * list cell);
  digits : list digit;
  num_ants : Z;
  bve_rate : Q;
  values : candidates;
  best_pheromone_to_add : Q;
  best_solution : option candidates;
  best_fixed : Z
}.

(** [for x in l: values = f(values, x); if values is False: return False],
    then [return values].  [None] stands for [False]. *)
Fixpoint thread {A : Type} (f : candidates -> A -> result (option candidates))
  (values : candidates) (l : list A) : result (option candidates) :=
  match l with
  | [] => Return (Some values)
  | x :: l' =>
      let! r := f values x in
      match r with
      | Some values' => thread f values' l'
      | None => Return None
      end
  end.

(** [[s for s in u if d in values[s]]]. *)
Fixpoint places (values : candidates) (d : digit) (u : list cell) : result (list cell) :=
  match u with
  | [] => Return []
  | s :: r =>
      let! l := Py.getitem values s in
      let! ps := places values d r in
      Return (if Py.mem d l then s :: ps else ps)
  end.

(** The loop [for v in other_values] of [_assign_value] around a given
    [_eliminate_value]. *)
Definition assign_with
  (eliminate : candidates -> cell -> digit -> result (option candidates))
  (values : candidates) (s : cell) (d : digit) : result (option candidates) :=
  let! l := Py.getitem values s in
  let other_values := List.filter (fun v => negb (String.eqb v d)) l in
  thread (fun values v => eliminate values s v) values other_values.

(** [_eliminate_value(values, s, d)]: the peer rule for a cell left with one
    value, then the unit rule for the digit that was removed.  [fuel] bounds
    the depth of the recursion. *)
Fixpoint eliminate_value (fuel : nat) (st : solver) (values : candidates)
  (s : cell) (d : digit) : result (option candidates) :=
  match fuel with
  | O => Diverge
  | S fuel' =>
      let! l := Py.getitem values s in
      if negb (Py.mem d l) then Return (Some values)
      else
        let! l' := Py.remove d l in
        let values := setitem values s l' in
        match l' with
        | [] => Return None
        | _ =>
            let! r :=
              match l' with
              | [d2] =>
                  let! ps := Py.getitem (peers st) s in
                  thread (fun values s2 => eliminate_value fuel' st values s2 d2)
                         values ps
              | _ => Return (Some values)
              end in
            match r with
            | None => Return None
            | Some values =>
                let! us := Py.getitem (units st) s in
                thread (fun values u =>
                          let! dplaces := places values d u in
                          match dplaces with
                          | [] => Return None
                          | [p] => assign_with (eliminate_value fuel' st) values p d
                          | _ => Return (Some values)
                          end)
                       values us
            end
        end
  end.

(** [_assign_value(values, s, d)]. *)
Definition assign_value (fuel : nat) (st : solver) (values : candidates)
  (s : cell) (d : digit) : result (option candidates) :=
  assign_with (eliminate_value fuel st) values s d.

(** [_initialize_values(grid)]. *)
Definition initialize_values (fuel : nat) (st : solver) (grid : list (cell * string))
  : result (option candidates) :=
  thread (fun values sd =>
            if Py.mem (snd sd) (digits st)
            then assign_value fuel st values (fst sd) (snd sd)
            else Return (Some values))
         (map (fun s => (s, digits st)) (squares st)) grid.

(** [ACOSolver(puzzle_dict, size, num_ants, bve_rate=bve_rate)]. *)
Definition init (fuel : nat) (puzzle_dict : list (cell * string)) (n : Z)
  (ants : Z) (bve : Q) : result solver :=
  let! m := initialize_structures n in
  let st0 := Solver n (Sudo.squares m) (Sudo.units m) (Sudo.peers m) (Sudo.digits m)
                    ants bve [] 0%Q None 0 in
  let! values := initialize_values fuel st0 puzzle_dict in
  match values with
  | None => Raise ValueError
  | Some v =>
      Return (Solver n (Sudo.squares m) (Sudo.units m) (Sudo.peers m) (Sudo.digits m)
                     ants bve v 0%Q None 0)
  end.

(** ** The ants *)

Record ant : Type := Ant {
  ant_values : candidates;
  fixed : Z;
  solution : list (cell * digit);
  valid : bool;
  current_cell : cell
}.

(** [{s: self.values[s].copy() for s in self.squares}]. *)
Definition copy_of (st : solver) : result candidates :=
  mapM (fun s => let! l := Py.getitem (values st) s in Return (s, l)) (squares st).

(** The ants of one cycle, each on its starting cell. *)
Definition hatch (st : solver) (g : Rand.rng) : result (list ant * Rand.rng) :=
  let! copies := mapM (fun _ => copy_of st) (Py.range (num_ants st)) in
  let! ' (starting_cells, g') := Rand.sample (squares st) (num_ants st) g in
  Return (map (fun p => Ant (fst p) 0 [] true (snd p)) (combine copies starting_cells),
          g').

(** [_choose_value(values, s, cell_idx)]: the only possible value, or one of
    them; with nothing to choose from, both ways of choosing raise. *)
Definition choose_value (st : solver) (values : candidates) (s : cell) (g : Rand.rng)
  : result (digit * Rand.rng) :=
  let! l := Py.getitem values s in
  match List.filter (fun d => Py.mem d (digits st)) l with
  | [] => Raise ValueError
  | [d] => Return (d, g)
  | possible_values => Rand.choice possible_values g
  end.

(** [sum(1 for s in self.squares if len(values[s]) == 1)]. *)
Fixpoint count_fixed (sqs : list cell) (values : candidates) : result Z :=
  match sqs with
  | [] => Return 0
  | s :: r =>
      let! l := Py.getitem values s in
      let! k := count_fixed r values in
      Return ((if Nat.eqb (length l) 1 then 1 else 0) + k)
  end.

(** The body of the loop [for ant in ants] for one ant.  An ant that is no
    longer valid is never read again, so its other fields are left as they
    were. *)
Definition step (fuel : nat) (st : solver) (a : ant) (g : Rand.rng)
  : result (ant * Rand.rng) :=
  if negb (valid a) then Return (a, g)
  else
    let s := current_cell a in
    let! l := Py.getitem (ant_values a) s in
    let! ' (moved, g1) :=
      (if Nat.ltb 1 (length l) then
         let! cell_idx := list_index (map Str (squares st)) (Str s) in
         let! ' (chosen_value, g1) := choose_value st (ant_values a) s g in
         let! new_values := assign_value fuel st (ant_values a) s chosen_value in
         match new_values with
         | None => Return (None, g1)
         | Some nv =>
             let! value_idx := list_index (map Str (digits st)) (Str chosen_value) in
             Return (Some (nv, setitem (solution a) s chosen_value), g1)
         end
       else Return (Some (ant_values a, solution a), g)) in
    match moved with
    | None => Return (Ant (ant_values a) (fixed a) (solution a) false s, g1)
    | Some (vals, sol) =>
        let! k := count_fixed (squares st) vals in
        let! current_index := list_index (map Str (squares st)) (Str s) in
        if size st ^ 2 =? 0 then Raise ZeroDivisionError
        else
          let! next := Py.index (squares st) ((current_index + 1) mod (size st ^ 2)) in
          Return (Ant vals k sol true next, g1)
    end.

(** [for ant in ants: ...]. *)
Fixpoint each_ant (fuel : nat) (st : solver) (ants : list ant) (g : Rand.rng)
  : result (list ant * Rand.rng) :=
  match ants with
  | [] => Return ([], g)
  | a :: r =>
      let! ' (a', g1) := step fuel st a g in
      let! ' (r', g2) := each_ant fuel st r g1 in
      Return (a' :: r', g2)
  end.

(** [for _ in range(self.size**2): for ant in ants: ...]. *)
Fixpoint rounds (fuel : nat) (st : solver) (n : nat) (ants : list ant) (g : Rand.rng)
  : result (list ant * Rand.rng) :=
  match n with
  | O => Return (ants, g)
  | S n' =>
      let! ' (ants', g') := each_ant fuel st ants g in
      rounds fuel st n' ants' g'
  end.

(** The ants of one cycle after their walk. *)
Definition walk (fuel : nat) (st : solver) (g : Rand.rng) : result (list ant * Rand.rng) :=
  let! ' (ants, g1) := hatch st g in
  rounds fuel st (Z.to_nat (size st ^ 2)) ants g1.

(** [max(valid_ants, key=lambda x: x['fixed'])]: the first ant of greatest
    [fixed]. *)
Definition iteration_best (a0 : ant) (rest : list ant) : ant :=
  fold_left (fun m a => if fixed m <? fixed a then a else m) rest a0.

(** [size**2 / (size**2 - best_fixed + 1e-6)]; the comparisons made with it
    only depend on its sign. *)
Definition delta_tau (n k : Z) : Q :=
  (inject_Z (n ^ 2) / (inject_Z (n ^ 2 - k) + (1 # 1000000)))%Q.

(** [if iteration_best['fixed'] >= self.best_fixed: ...]. *)
Definition adopt (a : ant) (st : solver) : solver :=
  if best_fixed st <=? fixed a then
    let d := delta_tau (size st) (fixed a) in
    Solver (size st) (squares st) (units st) (peers st) (digits st)
           (num_ants st) (bve_rate st) (values st)
           (if Qlt_le_dec (best_pheromone_to_add st) d then d
            else best_pheromone_to_add st)
           (Some (ant_values a)) (fixed a)
  else st.

(** [_global_pheromone_update()].  The value looked up in [self.digits] is
    the candidate list of the cell, not the digit in it. *)
Definition global_pheromone_update (st : solver) : result unit :=
  match best_solution st with
  | None | Some [] => Return tt
  | Some best =>
      if Qle_bool (best_pheromone_to_add st) 0 then Return tt
      else
        let! _ := mapM (fun s =>
                          match Py.assoc s best with
                          | Some l =>
                              if Nat.eqb (length l) 1 then
                                let! value := list_index (map Str (digits st)) (Lst l) in
                                Return tt
                              else Return tt
                          | None => Return tt
                          end) (squares st) in
        Return tt
  end.

(** [self.best_pheromone_to_add *= (1 - self.bve_rate)]. *)
Definition decay (st : solver) : solver :=
  Solver (size st) (squares st) (units st) (peers st) (digits st)
         (num_ants st) (bve_rate st) (values st)
         (best_pheromone_to_add st * (1 - bve_rate st))%Q
         (best_solution st) (best_fixed st).

(** [self.best_fixed / (self.size**2)]. *)
Definition fitness (st : solver) : result Q :=
  if size st ^ 2 =? 0 then Raise ZeroDivisionError
  else Return (inject_Z (best_fixed st) / inject_Z (size st ^ 2))%Q.

(** The generator yields pairs of a dict (or [None]) and a score. *)
Abbreviation state := (solver * Rand.rng)%type (only parsing).
Abbreviation progress := (option candidates * Q)%type (only parsing).

(** One round of [while True]; [false] stands for the [break]. *)
Definition cycle (fuel : nat) : Gen state progress bool :=
  gen! ants := Gen.random (walk fuel) in
  match List.filter valid ants with
  | [] =>
      gen! _ := Gen.yield (Some [], 0%Q) in
      Gen.ret true
  | a0 :: rest =>
      gen! _ := Gen.update (fun st => Return (adopt (iteration_best a0 rest) st)) in
      gen! _ := Gen.read global_pheromone_update in
      gen! _ := Gen.update (fun st => Return (decay st)) in
      gen! now := Gen.read (fun st => let! f := fitness st in
                                      Return (best_solution st, f)) in
      gen! _ := Gen.yield now in
      gen! solved := Gen.read (fun st => Return (best_fixed st =? size st ^ 2)) in
      Gen.ret (negb solved)
  end.

(** [solve()]: the loop has no bound of its own; [cycles] is the number of
    cycles that are looked at, [fuel] bounds the recursion of the propagation
    inside each. *)
Definition solve (fuel cycles : nat) : Gen state progress unit :=
  gen! _ := Gen.repeat_while cycles (cycle fuel) in
  gen! best := Gen.read (fun st => Return (best_solution st)) in
  Gen.yield (best, 1%Q).

End Aco.

(* ===================================================================== *)
(** * hybrid_abc_cp.py                                                    *)
(* ===================================================================== *)

(** The Hybrid solver works on the candidate-set assignments of [sudo.py]
    and calls its [assign], which changes the candidate lists in place; the
    dict copies it makes ([values.copy()]) share their lists with the
    original.  The model therefore runs on the store of [Sudo]. *)

Module Hybrid.
Import Sudo.

Notation "'do!' ' p ':=' m 'in' k" :=
  (bindM m (fun x => match x with p => k end))
  (at level 10, p pattern, m at level 200, k at level 200).

(** The attributes of a [HybridABCSolver]. *)
Record solver : Type := Solver {
  size : Z;
  squares : list cell;
  units : list (cell * list (list cell));
  peers : list (cell * list cell);
  digits : list digit;
  puzzle : dict;
  fixed_cells : list cell;
  max_cycles : Z;
  employed_bees : Z;
  onlooker_bees : Z;
  scout_limit : Z;
  population : list dict;
  fitnesses : list Q;
  best_solution : dict;
  best_fitness : Q;
  trials : list Z
}.

(** [copy.deepcopy(values)]: a new list for every list of the dict, one for
    each list however many keys hold it. *)
Fixpoint deepcopy_from (memo : list (loc * loc)) (values : dict) : M dict :=
  match values with
  | [] => ret []
  | (k, l) :: rest =>
      match List.find (fun p => Nat.eqb (fst p) l) memo with
      | Some (_, l') =>
          do! vs := deepcopy_from memo rest in
          ret ((k, l') :: vs)
      | None =>
          do! c := load l in
          do! l' := alloc c in
          do! vs := deepcopy_from ((l, l') :: memo) rest in
          ret ((k, l') :: vs)
      end
  end.

Definition deepcopy (values : dict) : M dict := deepcopy_from [] values.

(** [assign(values.copy(), s, d, self.size, self.units, self.peers)]: six
    arguments for the four parameters of [sudo.assign]. *)
Definition assign_with_six_arguments : M bool := lift (Raise TypeError).

(** The loop over the clues in [dict_to_values]; [None] stands for a
    [values] that has become [False]. *)
Fixpoint clue_loop (st : solver) (values : option dict) (items : grid)
  : M (option dict) :=
  match items with
  | [] => ret values
  | (s, d) :: rest =>
      if Py.mem d (digits st) then
        match values with
        | None => lift (Raise AttributeError)
        | Some v =>
            do! b := assign_with_six_arguments in
            clue_loop st (if b then Some v else None) rest
        end
      else clue_loop st values rest
  end.

(** [dict_to_values(puzzle_dict)]. *)
Definition dict_to_values (st : solver) (puzzle_dict : grid) : M (option dict) :=
  do! values := fresh_values (squares st) (digits st) in
  clue_loop st (Some values) puzzle_dict.

(** The loop [for d in random.sample(values[s], len(values[s]))] of
    [create_cp_solution]; [true] when it ended with a [break]. *)
Fixpoint first_fit (values : dict) (s : cell) (ds : list digit) : M bool :=
  match ds with
  | [] => ret false
  | d :: rest =>
      do! b := assign_with_six_arguments in
      match values with
      | _ :: _ => if b then ret true else first_fit values s rest
      | [] => first_fit values s rest
      end
  end.

(** The loop over the cells in [create_cp_solution].  [assign] returns the
    dict it was given, so [values] stays a dict over the same lists. *)
Fixpoint fill_cells (values : dict) (sqs : list cell) (g : Rand.rng) : M Rand.rng :=
  match sqs with
  | [] => ret g
  | s :: rest =>
      do! c := candidates values s in
      if Nat.eqb (length c) 1 then fill_cells values rest g
      else
        do! ' (ds, g1) := lift (Rand.sample c (Z.of_nat (length c)) g) in
        do! _ := first_fit values s ds in
        fill_cells values rest g1
  end.

(** [create_cp_solution()]. *)
Definition create_cp_solution (st : solver) (g : Rand.rng) : M (dict * Rand.rng) :=
  do! values := deepcopy (puzzle st) in
  do! g' := fill_cells values (squares st) g in
  ret (values, g').

(** [sum(1 for s in self.squares if len(values[s]) == 1)]. *)
Fixpoint count_fixed (sqs : list cell) (values : dict) : M Z :=
  match sqs with
  | [] => ret 0
  | s :: rest =>
      do! c := candidates values s in
      do! k := count_fixed rest values in
      ret ((if Nat.eqb (length c) 1 then 1 else 0) + k)
  end.

(** [evaluate(values)].  The scores are the floats of [k / size**2]; for
    the boards that the builder accepts they compare with each other, and
    with 0.999, as the exact quotients do. *)
Definition evaluate (st : solver) (values : dict) : M Q :=
  do! fixed := count_fixed (squares st) values in
  if fixed =? size st ^ 2 then ret 1%Q
  else if size st ^ 2 =? 0 then lift (Raise ZeroDivisionError)
  else ret (inject_Z fixed / inject_Z (size st ^ 2))%Q.

(** The loop [while True] of [neighbor_search]. *)
Fixpoint pick_cell (fuel : nat) (st : solver) (new_values : dict) (g : Rand.rng)
  : M (cell * Rand.rng) :=
  match fuel with
  | O => out_of_fuel
  | S fuel' =>
      do! ' (s, g1) := lift (Rand.choice (squares st) g) in
      if Py.mem s (fixed_cells st) then pick_cell fuel' st new_values g1
      else
        do! c := candidates new_values s in
        if Nat.ltb 1 (length c) then ret (s, g1)
        else pick_cell fuel' st new_values g1
  end.

(** The loop [for d in random.sample(new_values[s], len(new_values[s]))] of
    [neighbor_search].  The call is
    [assign(new_values.copy(), s, d, self.size)]: the copy holds the lists
    of [new_values], and the board size arrives where [assign] expects the
    peers. *)
Fixpoint try_moves (fuel : nat) (st : solver) (new_values : dict) (s : cell)
  (ds : list digit) : M (option dict) :=
  match ds with
  | [] => ret None
  | d :: rest =>
      do! b := assign fuel new_values s d (AnInt (size st)) in
      match new_values with
      | _ :: _ => if b then ret (Some new_values) else try_moves fuel st new_values s rest
      | [] => try_moves fuel st new_values s rest
      end
  end.

(** [neighbor_search(current_solution)]. *)
Definition neighbor_search (fuel : nat) (st : solver) (current_solution : dict)
  (g : Rand.rng) : M (dict * Rand.rng) :=
  do! new_values := deepcopy current_solution in
  do! ' (s, g1) := pick_cell fuel st new_values g in
  do! c := candidates new_values s in
  do! ' (ds, g2) := lift (Rand.sample c (Z.of_nat (length c)) g1) in
  do! candidate := try_moves fuel st new_values s ds in
  match candidate with
  | Some v => ret (v, g2)
  | None => ret (new_values, g2)
  end.

(** ** The state changes of [solve] *)

Definition with_population (st : solver) (pop : list dict) (fits : list Q)
  (trs : list Z) : solver :=
  Solver (size st) (squares st) (units st) (peers st) (digits st) (puzzle st)
         (fixed_cells st) (max_cycles st) (employed_bees st) (onlooker_bees st)
         (scout_limit st) pop fits (best_solution st) (best_fitness st) trs.

Definition set_member (i : Z) (a : dict) (fit : Q) (st : solver) : result solver :=
  let! pop := Abc.set_at (population st) i a in
  let! fits := Abc.set_at (fitnesses st) i fit in
  let! trs := Abc.set_at (trials st) i 0 in
  Return (with_population st pop fits trs).

Definition bump_trial (i : Z) (st : solver) : result solver :=
  let! t := Py.index (trials st) i in
  let! trs := Abc.set_at (trials st) i (t + 1) in
  Return (with_population st (population st) (fitnesses st) trs).

Definition set_best (a : dict) (fit : Q) (st : solver) : solver :=
  Solver (size st) (squares st) (units st) (peers st) (digits st) (puzzle st)
         (fixed_cells st) (max_cycles st) (employed_bees st) (onlooker_bees st)
         (scout_limit st) (population st) (fitnesses st) a fit (trials st).

(** What is yielded first: a candidate-set assignment, or the dict of the
    first candidates that ends a cycle. *)
Inductive yielded : Type :=
| Values (d : dict)
| Firsts (d : list (cell * digit)).

(** The generator runs on the solver, the store and the random source. *)
Abbreviation state := (solver * store * Rand.rng)%type (only parsing).
Abbreviation progress := (yielded * Q)%type (only parsing).

(** Reading and changing the attributes of the solver. *)
Definition attr {A : Type} (f : solver -> result A) : Gen state progress A :=
  Gen.read (fun s : solver * store => f (fst s)).

Definition modify (f : solver -> result solver) : Gen state progress unit :=
  Gen.update (fun s : solver * store => let! st' := f (fst s) in Return (st', snd s)).

(** Running a method on the store, with or without draws. *)
Definition run {A : Type} (f : solver -> Rand.rng -> M (A * Rand.rng))
  : Gen state progress A :=
  fun s => ([], match f (fst (fst s)) (snd s) (snd (fst s)) with
                | Return ((a, g'), h') => Return (a, ((fst (fst s), h'), g'))
                | Raise e => Raise e
                | Diverge => Diverge
                end).

Definition look {A : Type} (f : solver -> M A) : Gen state progress A :=
  fun s => ([], match f (fst (fst s)) (snd (fst s)) with
                | Return (a, h') => Return (a, ((fst (fst s), h'), snd s))
                | Raise e => Raise e
                | Diverge => Diverge
                end).

(** The body shared by the employed and the onlooker loops for member [i];
    only the employed bees count a trial on a neighbor that is not better. *)
Definition visit (fuel : nat) (employed : bool) (i : Z) : Gen state progress unit :=
  gen! current := attr (fun st => Py.index (population st) i) in
  gen! neighbor := run (fun st g => neighbor_search fuel st current g) in
  gen! neighbor_fit := look (fun st => evaluate st neighbor) in
  gen! fit_i := attr (fun st => Py.index (fitnesses st) i) in
  gen! _ := (if Qlt_le_dec fit_i neighbor_fit
             then modify (set_member i neighbor neighbor_fit)
             else if employed then modify (bump_trial i) else Gen.ret tt) in
  gen! best := attr (fun st => Return (best_fitness st)) in
  if Qlt_le_dec best neighbor_fit then
    gen! _ := modify (fun st => Return (set_best neighbor neighbor_fit st)) in
    gen! now := attr (fun st => Return (Values (best_solution st), best_fitness st)) in
    Gen.yield now
  else Gen.ret tt.

Definition employed_phase (fuel : nat) : Gen state progress unit :=
  gen! bees := attr (fun st => Return (Py.range (employed_bees st))) in
  Gen.for_each bees (visit fuel true).

Definition onlooker_phase (fuel : nat) : Gen state progress unit :=
  gen! total_fitness := attr (fun st => Return (Abc.total (fitnesses st))) in
  if Qlt_le_dec 0 total_fitness then
    gen! bees := attr (fun st => Return (Py.range (employed_bees st))) in
    Gen.for_each bees (fun i =>
      gen! fit_i := attr (fun st => Py.index (fitnesses st) i) in
      gen! onlookers := attr (fun st => Return (onlooker_bees st)) in
      Gen.for_each (Abc.onlooker_turns fit_i total_fitness onlookers)
                   (fun _ => visit fuel false i))
  else Gen.ret tt.

(** [scout_phase()]. *)
Definition scout (st : solver) (g : Rand.rng) : M (solver * Rand.rng) :=
  do! worst := lift (Abc.max_of (trials st)) in
  do! idx := lift (Abc.index_of worst (trials st)) in
  do! ' (member, g') := create_cp_solution st g in
  do! pop := lift (Abc.set_at (population st) idx member) in
  do! fit := evaluate (with_population st pop (fitnesses st) (trials st)) member in
  do! fits := lift (Abc.set_at (fitnesses st) idx fit) in
  do! trs := lift (Abc.set_at (trials st) idx 0) in
  ret (with_population st pop fits trs, g').

Definition scout_phase : Gen state progress unit :=
  gen! worst := attr (fun st => Abc.max_of (trials st)) in
  gen! limit := attr (fun st => Return (scout_limit st)) in
  if limit <? worst then
    gen! st' := run scout in
    gen! _ := modify (fun _ => Return st') in
    gen! new_fit := attr (fun st => let! k := Abc.index_of 0 (trials st) in
                                    Py.index (fitnesses st) k) in
    gen! best := attr (fun st => Return (best_fitness st)) in
    if Qlt_le_dec best new_fit then
      gen! member := attr (fun st => let! k := Abc.index_of 0 (trials st) in
                                     Py.index (population st) k) in
      gen! _ := modify (fun st => Return (set_best member new_fit st)) in
      gen! now := attr (fun st => Return (Values (best_solution st), best_fitness st)) in
      Gen.yield now
    else Gen.ret tt
  else Gen.ret tt.

(** [{k: v[0] for k, v in self.best_solution.items()}]. *)
Fixpoint firsts (values : dict) : M (list (cell * digit)) :=
  match values with
  | [] => ret []
  | (k, l) :: rest =>
      do! c := load l in
      do! d := lift (Py.index c 0) in
      do! r := firsts rest in
      ret ((k, d) :: r)
  end.

(** One round of the loop of [solve]; [false] when it returned. *)
Definition cycle (fuel : nat) : Gen state progress bool :=
  gen! best := attr (fun st => Return (best_fitness st)) in
  if Qle_bool (999 # 1000) best then
    gen! solution := attr (fun st => Return (best_solution st)) in
    gen! _ := Gen.yield (Values solution, 1%Q) in
    Gen.ret false
  else
    gen! _ := employed_phase fuel in
    gen! _ := onlooker_phase fuel in
    gen! _ := scout_phase in
    gen! best_solution_yield := look (fun st => firsts (best_solution st)) in
    gen! fit := attr (fun st => Return (best_fitness st)) in
    gen! _ := Gen.yield (Firsts best_solution_yield, fit) in
    Gen.ret true.

(** [solve()]. *)
Definition solve (fuel : nat) : Gen state progress unit :=
  gen! n := attr (fun st => Return (max_cycles st)) in
  Gen.repeat_for (Z.to_nat n) (cycle fuel).

(** ** The constructor *)

(** [[self.create_cp_solution() for _ in range(self.employed_bees)]]. *)
Fixpoint members (st : solver) (n : nat) (g : Rand.rng) : M (list dict * Rand.rng) :=
  match n with
  | O => ret ([], g)
  | S n' =>
      do! ' (a, g1) := create_cp_solution st g in
      do! ' (rest, g2) := members st n' g1 in
      ret (a :: rest, g2)
  end.

(** [{s for s in self.squares if len(self.puzzle[s]) == 1}]. *)
Fixpoint single_cells (values : dict) (sqs : list cell) : M (list cell) :=
  match sqs with
  | [] => ret []
  | s :: rest =>
      do! c := candidates values s in
      do! r := single_cells values rest in
      ret (if Nat.eqb (length c) 1 then s :: r else r)
  end.

(** [np.argmax(l)]: the first position of the greatest item. *)
Fixpoint argmax_from (l : list Q) (i : Z) (best_i : Z) (best_q : Q) : Z :=
  match l with
  | [] => best_i
  | q :: r => if Qlt_le_dec best_q q then argmax_from r (i + 1) i q
              else argmax_from r (i + 1) best_i best_q
  end.

Definition argmax (l : list Q) : result Z :=
  match l with
  | [] => Raise ValueError
  | q :: r => Return (argmax_from r 1 0 q)
  end.

Definition max_fitness (l : list Q) : result Q :=
  match l with
  | [] => Raise ValueError
  | q :: r => Return (fold_left (fun m x => if Qlt_le_dec m x then x else m) r q)
  end.

(** [[self.evaluate(sol) for sol in self.population]]. *)
Fixpoint evaluate_all (st : solver) (pop : list dict) : M (list Q) :=
  match pop with
  | [] => ret []
  | a :: r =>
      do! q := evaluate st a in
      do! qs := evaluate_all st r in
      ret (q :: qs)
  end.

(** [HybridABCSolver(puzzle_dict, size)].  A [self.puzzle] that is [False]
    cannot be subscripted when the fixed cells are collected. *)
Definition init (puzzle_dict : grid) (n : Z) (g : Rand.rng) : M (solver * Rand.rng) :=
  do! m := lift (initialize_structures n) in
  let st0 := Solver n (Sudo.squares m) (Sudo.units m) (Sudo.peers m) (Sudo.digits m)
                    [] [] 1000 10 20 10 [] [] [] 0%Q [] in
  do! values := dict_to_values st0 puzzle_dict in
  match values with
  | None => lift (Raise TypeError)
  | Some v =>
      do! fixed := single_cells v (Sudo.squares m) in
      let st1 := Solver n (Sudo.squares m) (Sudo.units m) (Sudo.peers m) (Sudo.digits m)
                        v fixed 1000 10 20 10 [] [] [] 0%Q [] in
      do! ' (pop, g') := members st1 10 g in
      do! fits := evaluate_all st1 pop in
      do! k := lift (argmax fits) in
      do! best := lift (Py.index pop k) in
      do! best_fit := lift (max_fitness fits) in
      ret (Solver n (Sudo.squares m) (Sudo.units m) (Sudo.peers m) (Sudo.digits m)
                  v fixed 1000 10 20 10 pop fits best best_fit
                  (map (fun _ => 0) (seq 0 10)),
           g')
  end.

End Hybrid.

(* ===================================================================== *)
(** * msabc_solver.py                                                     *)
(* ===================================================================== *)

Module Msabc.

(** The attributes that [MSABCSolver.__init__] binds; [global_fitness] is
    [None] while it is [-np.inf]. *)
Record solver : Type := Solver {
  size : Z;
  population_size : nat;
  num_swarms : Z;
  max_cycles : Z;
  rcloud : Q;
  swarms : list Abc.solver;
  global_best : option (list (list Z));
  global_fitness : option Q
}.

(** The names that can be looked up on an [MSABCSolver]: what [__init__]
    binds and the two methods of the class. *)
Definition names : list string :=
  ["size"; "population_size"; "num_swarms"; "max_cycles"; "rcloud"; "swarms";
   "global_best"; "global_fitness"; "solve"; "get_solution"].

(** The names that can be looked up on an [ABCSolver]. *)
Definition swarm_names : list string :=
  ["size"; "rows"; "cols"; "squares"; "unitlist"; "units"; "peers";
   "subgrid_rows"; "subgrid_cols"; "digits"; "grid"; "fixed_cells"; "max_cycles";
   "population_size"; "employed_bees"; "onlooker_bees"; "scout_limit";
   "population"; "fitnesses"; "best_solution"; "best_fitness"; "trials";
   "parse_input"; "initialize_population"; "evaluate"; "neighbor_search"; "solve"].

(** [obj.name]: [AttributeError] for a name the object does not have. *)
Definition getattr {A : Type} (known : list string) (name : string) (value : A)
  : result A :=
  if Py.mem name known then Return value else Raise AttributeError.

(** [MSABCSolver(puzzle_input, size, population_size, num_swarms, rcloud,
    max_cycles)]. *)
Fixpoint build (puzzle_input : list (list Z)) (n : Z) (population : nat)
  (k : nat) (g : Rand.rng) : result (list Abc.solver * Rand.rng) :=
  match k with
  | O => Return ([], g)
  | S k' =>
      let! ' (sw, g1) := Abc.init puzzle_input n population g in
      let! ' (rest, g2) := build puzzle_input n population k' g1 in
      Return (sw :: rest, g2)
  end.

Definition init (puzzle_input : list (list Z)) (n : Z) (population : nat)
  (swarm_count : Z) (cloud : Q) (cycles : Z) (g : Rand.rng)
  : result (solver * Rand.rng) :=
  let! ' (sws, g') := build puzzle_input n population (Z.to_nat swarm_count) g in
  Return (Solver n population swarm_count cycles cloud sws None None, g').

(** [swarm.best_fitness > self.global_fitness]. *)
Definition above (fit : Q) (seen : option Q) : bool :=
  match seen with
  | None => true
  | Some q => if Qlt_le_dec q fit then true else false
  end.

Definition set_global (a : list (list Z)) (fit : Q) (st : solver) : solver :=
  Solver (size st) (population_size st) (num_swarms st) (max_cycles st) (rcloud st)
         (swarms st) (Some a) (Some fit).

Abbreviation state := (solver * Rand.rng)%type (only parsing).
Abbreviation progress := (option (list (list Z)) * option Q)%type (only parsing).

(** The body of the loop over the sub-swarms.  The two calls go through
    names that an [ABCSolver] does not have; the sub-swarm itself stands for
    what they would leave behind. *)
Definition advance (swarm : Abc.solver) : Gen state progress unit :=
  gen! abc := Gen.lift (getattr swarm_names "abc" swarm) in
  gen! update_best := Gen.lift (getattr swarm_names "update_best" swarm) in
  gen! seen := Gen.read (fun st => Return (global_fitness st)) in
  if above (Abc.best_fitness swarm) seen then
    Gen.update (fun st => Return (set_global (Abc.best_solution swarm)
                                             (Abc.best_fitness swarm) st))
  else Gen.ret tt.

(** One round of the loop of [solve]; [false] stands for the [break]. *)
Definition cycle : Gen state progress bool :=
  gen! subswarms := Gen.read (fun st => getattr names "subswarms" (swarms st)) in
  gen! _ := Gen.for_each subswarms advance in
  gen! now := Gen.read (fun st => Return (global_best st, global_fitness st)) in
  gen! _ := Gen.yield now in
  gen! fit := Gen.read (fun st => Return (global_fitness st)) in
  Gen.ret (match fit with
           | Some q => negb (Qeq_bool q 1)
           | None => true
           end).

(** [solve()]. *)
Definition solve : Gen state progress unit :=
  gen! n := Gen.read (fun st => Return (max_cycles st)) in
  Gen.repeat_for (Z.to_nat n) cycle.

End Msabc.

(* ===================================================================== *)
(** * Text: the [str] methods that the parsers use                        *)
(* ===================================================================== *)

(** A Python [str] is modelled by a string of characters with code points
    below 256; the predicates below are the Unicode ones on that range. *)
Module Text.

Definition code (c : ascii) : nat := nat_of_ascii c.

(** [c.isspace()], which is also what [strip()] and [split()] take for
    blank: TAB to CR, FS to US, the space, NEL and the no-break space. *)
Definition isspace (c : ascii) : bool :=
  (Nat.leb 9 (code c) && Nat.leb (code c) 13)
  || (Nat.leb 28 (code c) && Nat.leb (code c) 32)
  || Nat.eqb (code c) 133 || Nat.eqb (code c) 160.

(** The characters '0' to '9'. *)
Definition isdecimal (c : ascii) : bool :=
  Nat.leb 48 (code c) && Nat.leb (code c) 57.

(** [c.isdigit()]: the decimal digits and the superscripts two, three and
    one. *)
Definition isdigit_char (c : ascii) : bool :=
  isdecimal c || Nat.eqb (code c) 178 || Nat.eqb (code c) 179 || Nat.eqb (code c) 185.

Definition is_empty (s : string) : bool :=
  match s with
  | EmptyString => true
  | String _ _ => false
  end.

Fixpoint lstrip (s : string) : string :=
  match s with
  | EmptyString => EmptyString
  | String c r => if isspace c then lstrip r else s
  end.

Fixpoint rstrip (s : string) : string :=
  match s with
  | EmptyString => EmptyString
  | String c r =>
      let r' := rstrip r in
      if isspace c && is_empty r' then EmptyString else String c r'
  end.

(** [s.strip()]. *)
Definition strip (s : string) : string := rstrip (lstrip s).

(** [s.split(sep)] for a separator of one character: the pieces between the
    separators, empty ones included. *)
Fixpoint split_on (sep : ascii) (s : string) : list string :=
  match s with
  | EmptyString => [EmptyString]
  | String c r =>
      if Ascii.eqb c sep then EmptyString :: split_on sep r
      else match split_on sep r with
           | [] => [String c EmptyString]
           | w :: ws => String c w :: ws
           end
  end.

(** The word that is being read and the words after it. *)
Fixpoint words (s : string) : string * list string :=
  match s with
  | EmptyString => (EmptyString, [])
  | String c r =>
      let (w, ws) := words r in
      if isspace c then (EmptyString, if is_empty w then ws else w :: ws)
      else (String c w, ws)
  end.

(** [s.split()]: the runs of characters that are not blank. *)
Definition split (s : string) : list string :=
  let (w, ws) := words s in if is_empty w then ws else w :: ws.

(** [s.isdigit()]: at least one character, and digits only. *)
Definition isdigit (s : string) : bool :=
  negb (is_empty s) && forallb isdigit_char (list_ascii_of_string s).

Definition digit_value (c : ascii) : Z := Z.of_nat (code c) - 48.

(** The digits after a digit of an int literal, with single underscores
    between digits: the value and the number of digits. *)
Fixpoint digits_from (s : string) (acc : Z) (n : nat) : option (Z * nat) :=
  match s with
  | EmptyString => Some (acc, n)
  | String c r =>
      if isdecimal c then digits_from r (10 * acc + digit_value c) (S n)
      else if Ascii.eqb c "_"%char then
        match r with
        | String c2 r2 =>
            if isdecimal c2 then digits_from r2 (10 * acc + digit_value c2) (S n)
            else None
        | EmptyString => None
        end
      else None
  end.

(** [int(s)] for a [str]: blanks around the literal are dropped, a sign may
    come first.  [max_str_digits] is the interpreter's limit on the number
    of digits ([sys.get_int_max_str_digits()], 4300 unless it was changed, 0
    for none); it is looked at for literals of more than 640 digits. *)
Definition int (max_str_digits : nat) (s : string) : result Z :=
  let t := strip s in
  let (negative, body) :=
    match t with
    | String "+"%char r => (false, r)
    | String "-"%char r => (true, r)
    | _ => (false, t)
    end in
  match body with
  | String c r =>
      if isdecimal c then
        match digits_from r (digit_value c) 1 with
        | Some (v, n) =>
            if Nat.ltb 640 n && Nat.ltb 0 max_str_digits && Nat.ltb max_str_digits n
            then Raise ValueError
            else Return (if negative then - v else v)
        | None => Raise ValueError
        end
      else Raise ValueError
  | EmptyString => Raise ValueError
  end.

Definition newline : ascii := ascii_of_nat 10.

(** [[line.strip() for line in text.split('\n') if line.strip()]]. *)
Definition stripped_lines (text : string) : list string :=
  List.filter (fun line => negb (is_empty line)) (map strip (split_on newline text)).

End Text.

(* ===================================================================== *)
(** * sudo.py: a puzzle given as a text                                   *)
(* ===================================================================== *)

Module SudoText.
Import Sudo Text.

(** The characters that count as cells of the puzzle. *)
Definition puzzle_alphabet : list string :=
  Py.chars "0123456789ABCDEFGHIJKLMNOPQRSTUVWXYZ.".

(** The loops [for row in rows: for col in cols] that fill [grid_dict], over
    the cell ids in the order of the loops. *)
Fixpoint fill_dict (cell_ids : list cell) (puzzle_chars : list string) (index : Z)
  (grid_dict : list (cell * string)) : result (list (cell * string)) :=
  match cell_ids with
  | [] => Return grid_dict
  | cell_id :: rest =>
      let! val := Py.index puzzle_chars index in
      fill_dict rest puzzle_chars (index + 1)
                (Aco.setitem grid_dict cell_id (if String.eqb val "0" then "." else val))
  end.

(** [grid_values(grid, size)] for a [str]. *)
Definition grid_values (max_str_digits : nat) (grid : string) (size : Z)
  : result (list (cell * string)) :=
  let! m := initialize_structures size in
  let lines := stripped_lines grid in
  let! lines :=
    match lines with
    | first :: rest =>
        if isdigit first then
          let! k := int max_str_digits first in
          Return (if k =? size then rest else lines)
        else Return lines
    | [] => Return lines
    end in
  let puzzle_chars :=
    flat_map (fun line => List.filter (fun c => Py.mem c puzzle_alphabet) (Py.chars line))
             lines in
  if negb (Z.of_nat (length puzzle_chars) =? size * size) then Raise ValueError
  else
    fill_dict (flat_map (fun row => map (fun col => String.append row col) (cols m))
                        (Py.chars (rows m)))
              puzzle_chars 0 [].

(** [parse_grid(grid, size)] for a [str]. *)
Definition parse_grid (max_str_digits : nat) (fuel : nat) (grid : string) (size : Z)
  : M (option dict) :=
  do! m := lift (initialize_structures size) in
  do! values := fresh_values (squares m) (digits m) in
  do! grid_dict := lift (grid_values max_str_digits grid size) in
  do! b := assign_clues fuel values (digits m) (PeersDict (peers m)) grid_dict in
  ret (if b then Some values else None).

(** [solve(grid, size)] for a [str]. *)
Definition solve (max_str_digits : nat) (fuel : nat) (grid : string) (size : Z)
  : M (option solution) :=
  do! values := parse_grid max_str_digits fuel grid size in
  match values with
  | None | Some [] => ret None
  | Some _ =>
      do! solution := search fuel values size in
      match solution with
      | None | Some [] => ret None
      | Some sol => ret (Some sol)
      end
  end.

End SudoText.

(* ===================================================================== *)
(** * sudoku_solver_app.py: reading the puzzle file                       *)
(* ===================================================================== *)

Module App.
Import Text.

(** What a call can come to besides the outcomes of [result]: [chr] of an
    int that does not fit a C int raises [OverflowError]. *)
Inductive outcome (A : Type) : Type :=
| Result (r : result A)
| RaiseOverflowError.
Arguments Result {A} r.
Arguments RaiseOverflowError {A}.

(** The cell that [parse_puzzle] makes of one value of a line; [None] when
    [OverflowError] leaves the [try] block, which catches [ValueError]
    only.  (The letter is exact for numbers up to 200, see [Py.chr].) *)
Definition cell_of (max_str_digits : nat) (size : Z) (val : string) : option string :=
  if String.eqb val "0" || String.eqb val "." then Some "."
  else
    match int max_str_digits val with
    | Return num =>
        if (1 <=? num) && (num <=? size) then
          if num <=? 9 then Some (Py.str num)
          else if 2147483647 <? 65 + num - 10 then None
          else match Py.chr (65 + num - 10) with
               | Return c => Some c
               | _ => Some "."
               end
        else Some "."
    | _ => Some "."
    end.

(** The loops over the lines and their values. *)
Fixpoint cells_of (max_str_digits : nat) (size : Z) (vals : list string)
  : option (list string) :=
  match vals with
  | [] => Some []
  | val :: rest =>
      match cell_of max_str_digits size val with
      | None => None
      | Some c =>
          match cells_of max_str_digits size rest with
          | None => None
          | Some cs => Some (c :: cs)
          end
      end
  end.

(** [parse_puzzle(content)]: the size and the cells as one string. *)
Definition parse_puzzle (max_str_digits : nat) (content : string)
  : outcome (Z * string) :=
  match stripped_lines content with
  | [] => Result (Raise ValueError)
  | first :: puzzle_lines =>
      if negb (isdigit first) then Result (Raise ValueError)
      else
        match int max_str_digits first with
        | Return size =>
            match cells_of max_str_digits size (flat_map split puzzle_lines) with
            | None => RaiseOverflowError
            | Some cells =>
                let puzzle_str := String.concat "" cells in
                if negb (Z.of_nat (String.length puzzle_str) =? size * size)
                then Result (Raise ValueError)
                else Result (Return (size, puzzle_str))
            end
        | Raise e => Result (Raise e)
        | Diverge => Result Diverge
        end
  end.

(** The text that the app hands to [grid_values]:
    [f"{puzzle_size}\n{puzzle_str}"]. *)
Definition with_size_line (puzzle_size : Z) (puzzle_str : string) : string :=
  String.append (Py.str puzzle_size) (String newline puzzle_str).

End App.

(* ===================================================================== *)
(** * norvig.py                                                           *)
(* ===================================================================== *)

(** The module works on the 9 x 9 board.  A [Grid] is a dict from squares to
    digit sets, and a digit set is a [str] of digits; [fill] and [eliminate]
    rebind [grid[s]] in the dict they are given, so they are functions from
    the dict before the call to the result and the dict after it.

    [peers[s]] is a Python [set]: the order in which a loop walks it is not
    fixed by the source.  The functions below take the dict [peers] with
    every set as the list of its members in the order of the walk. *)
Module Norvig.

Abbreviation Square := string (only parsing).
Abbreviation Digit := ascii (only parsing).
Abbreviation DigitSet := string (only parsing).
Abbreviation Grid := (list (string * string)) (only parsing).

(** [cross(A, B)]. *)
Definition cross (A B : string) : list Square :=
  flat_map (fun a => map (fun b => String.append a b) (Py.chars B)) (Py.chars A).

Definition digits : string := "123456789".
Definition rows : string := "ABCDEFGHI".
Definition cols : string := digits.
Definition squares : list Square := cross rows cols.

Definition all_boxes : list (list Square) :=
  flat_map (fun rs => map (fun cs => cross rs cs) ["123"; "456"; "789"])
           ["ABC"; "DEF"; "GHI"].

Definition all_units : list (list Square) :=
  map (fun c => cross rows c) (Py.chars cols)
  ++ map (fun r => cross r cols) (Py.chars rows)
  ++ all_boxes.

(** [units]: for every square the units that hold it. *)
Definition units : list (Square * list (list Square)) :=
  map (fun s => (s, List.filter (fun u => Py.mem s u) all_units)) squares.

(** The members of the set [peers[s]]: the squares of the units of [s] other
    than [s], each once. *)
Definition peer_set (s : Square) : list Square :=
  List.filter (fun s2 => negb (String.eqb s2 s))
              (Py.dedup (concat (List.filter (fun u => Py.mem s u) all_units))).

(** [d in c] for a digit and a digit set. *)
Definition has (d : Digit) (c : DigitSet) : bool :=
  existsb (Ascii.eqb d) (list_ascii_of_string c).

(** [c.replace(d, '')]. *)
Fixpoint without (d : Digit) (c : DigitSet) : DigitSet :=
  match c with
  | EmptyString => EmptyString
  | String a r => if Ascii.eqb a d then without d r else String a (without d r)
  end.

(** [all(f(x) for x in xs)] for an [f] that works on the grid: the walk
    stops at the first result that is not true. *)
Fixpoint all_of {A : Type} (f : Grid -> A -> result (bool * Grid)) (grid : Grid)
  (xs : list A) : result (bool * Grid) :=
  match xs with
  | [] => Return (true, grid)
  | x :: rest =>
      let! ' (ok, grid') := f grid x in
      if ok then all_of f grid' rest else Return (false, grid')
  end.

(** [[s for s in u if d in grid[s]]]. *)
Fixpoint dplaces (grid : Grid) (d : Digit) (u : list Square) : result (list Square) :=
  match u with
  | [] => Return []
  | s :: rest =>
      let! c := Py.getitem grid s in
      let! ps := dplaces grid d rest in
      Return (if has d c then s :: ps else ps)
  end.

(** [fill(grid, s, d)] around a given [eliminate]; [true] stands for the
    grid that is returned, [false] for [None]. *)
Definition fill_with (eliminate : Grid -> Square -> Digit -> result (bool * Grid))
  (grid : Grid) (s : Square) (d : Digit) : result (bool * Grid) :=
  let! c := Py.getitem grid s in
  if String.eqb c (String d EmptyString) then Return (true, grid)
  else
    all_of (fun grid d2 => eliminate grid s d2) grid
           (List.filter (fun d2 => negb (Ascii.eqb d2 d)) (list_ascii_of_string c)).

(** [eliminate(grid, s, d)]; [fuel] bounds the depth of the recursion. *)
Fixpoint eliminate (fuel : nat) (peers : list (Square * list Square)) (grid : Grid)
  (s : Square) (d : Digit) : result (bool * Grid) :=
  match fuel with
  | O => Diverge
  | S fuel' =>
      let! c := Py.getitem grid s in
      if negb (has d c) then Return (true, grid)
      else
        let c' := without d c in
        let grid := Aco.setitem grid s c' in
        match c' with
        | EmptyString => Return (false, grid)
        | String d2 rest =>
            let! ' (ok, grid) :=
              match rest with
              | EmptyString =>
                  let! ps := Py.getitem peers s in
                  all_of (fun grid s2 => eliminate fuel' peers grid s2 d2) grid ps
              | _ => Return (true, grid)
              end in
            if negb ok then Return (false, grid)
            else
              let! us := Py.getitem units s in
              all_of (fun grid u =>
                        let! places := dplaces grid d u in
                        match places with
                        | [] => Return (false, grid)
                        | [p] => fill_with (eliminate fuel' peers) grid p d
                        | _ => Return (true, grid)
                        end)
                     grid us
        end
  end.

(** [fill(grid, s, d)]. *)
Definition fill (fuel : nat) (peers : list (Square * list Square)) (grid : Grid)
  (s : Square) (d : Digit) : result (bool * Grid) :=
  fill_with (eliminate fuel peers) grid s d.

(** The loop of [constrain] over the squares of the puzzle; what [fill]
    returns is not looked at. *)
Fixpoint constrain_loop (fuel : nat) (peers : list (Square * list Square))
  (items : Grid) (result_grid : Grid) : result Grid :=
  match items with
  | [] => Return result_grid
  | (s, c) :: rest =>
      match c with
      | String d EmptyString =>
          let! ' (_, result_grid') := fill fuel peers result_grid s d in
          constrain_loop fuel peers rest result_grid'
      | _ => constrain_loop fuel peers rest result_grid
      end
  end.

(** [constrain(grid)]. *)
Definition constrain (fuel : nat) (peers : list (Square * list Square)) (grid : Grid)
  : result Grid :=
  constrain_loop fuel peers grid (map (fun s => (s, digits)) squares).

(** The squares with more than one digit, each with the length of its digit
    set. *)
Fixpoint open_squares (grid : Grid) (sqs : list Square) : result (list (nat * Square)) :=
  match sqs with
  | [] => Return []
  | s :: rest =>
      let! c := Py.getitem grid s in
      let! r := open_squares grid rest in
      Return (if Nat.ltb 1 (String.length c) then (String.length c, s) :: r else r)
  end.

(** [min(..., default=None, key=...)]: the first item with the least key. *)
Fixpoint min_by_key (l : list (nat * Square)) : option (nat * Square) :=
  match l with
  | [] => None
  | x :: rest =>
      match min_by_key rest with
      | Some y => if Nat.ltb (fst y) (fst x) then Some y else Some x
      | None => Some x
      end
  end.

(** The loop [for d in grid[s]] of [search]; [recur] is [search] itself. *)
Fixpoint try_digits (recur : option Grid -> result (option Grid))
  (fill_copy : Digit -> result (bool * Grid)) (ds : list Digit) : result (option Grid) :=
  match ds with
  | [] => Return None
  | d :: rest =>
      let! ' (ok, grid') := fill_copy d in
      let! solution := recur (if ok then Some grid' else None) in
      match solution with
      | Some (kv :: sol) => Return (Some (kv :: sol))
      | _ => try_digits recur fill_copy rest
      end
  end.

(** [search(grid)]; [None] stands for [None]. *)
Fixpoint search (fuel : nat) (peers : list (Square * list Square)) (grid : option Grid)
  : result (option Grid) :=
  match fuel with
  | O => Diverge
  | S fuel' =>
      match grid with
      | None => Return None
      | Some g =>
          let! open := open_squares g squares in
          match min_by_key open with
          | None => Return (Some g)
          | Some (_, s) =>
              let! c := Py.getitem g s in
              try_digits (search fuel' peers) (fun d => fill fuel' peers g s d)
                         (list_ascii_of_string c)
          end
      end
  end.

(** [x in y] for two strings. *)
Fixpoint is_substring (x y : string) : bool :=
  String.prefix x y
  || match y with
     | EmptyString => false
     | String _ r => is_substring x r
     end.

(** [{solution[s] for s in unit} == set(digits)]. *)
Definition unit_complete (solution : Grid) (unit : list Square) : result bool :=
  let! vals := mapM (fun s => Py.getitem solution s) unit in
  Return (forallb (fun v => Py.mem v (Py.chars digits)) vals
          && forallb (fun d => Py.mem d vals) (Py.chars digits)).

(** [all(...)] over tests that can raise: the first false ends the walk. *)
Fixpoint all_true {A : Type} (f : A -> result bool) (xs : list A) : result bool :=
  match xs with
  | [] => Return true
  | x :: rest =>
      let! b := f x in
      if b then all_true f rest else Return false
  end.

(** [is_solution(solution, puzzle)]. *)
Definition is_solution (solution : option Grid) (puzzle : Grid) : result bool :=
  match solution with
  | None => Return false
  | Some sol =>
      let! inside := all_true (fun s => let! v := Py.getitem sol s in
                                        let! p := Py.getitem puzzle s in
                                        Return (is_substring v p)) squares in
      if inside then all_true (unit_complete sol) all_units else Return false
  end.

End Norvig.

(* ===================================================================== *)
(** * abc_solver.py: a puzzle given as a dict                             *)
(* ===================================================================== *)

Module AbcDict.
Import Abc Text.

(** [ord(c.upper())] for a character with a code point below 256: the small
    letters go to the capitals 32 below, the micro sign to the Greek capital
    mu and the y with diaeresis to its capital, both outside the range; the
    sharp s becomes two characters, of which [ord] raises [TypeError]. *)
Definition ord_upper (c : ascii) : result Z :=
  let n := Z.of_nat (code c) in
  if (97 <=? n) && (n <=? 122) then Return (n - 32)
  else if n =? 181 then Return 924
  else if n =? 223 then Raise TypeError
  else if (224 <=? n) && (n <=? 254) && negb (n =? 247) then Return (n - 32)
  else if n =? 255 then Return 376
  else Return n.

(** [l.index(x)] on a list of strings. *)
Fixpoint list_index (l : list string) (x : string) : result Z :=
  match l with
  | [] => Raise ValueError
  | y :: r =>
      if String.eqb y x then Return 0
      else let! k := list_index r x in Return (k + 1)
  end.

(** [np.zeros((size, size), dtype=int)]. *)
Definition zeros (size : Z) : list (list Z) :=
  repeat (repeat 0 (Z.to_nat size)) (Z.to_nat size).

(** The loop of [parse_input] over the items of the dict. *)
Fixpoint parse_items (max_str_digits : nat) (digits : list string)
  (items : list (string * string)) (grid : list (list Z)) : result (list (list Z)) :=
  match items with
  | [] => Return grid
  | (cell, value) :: rest =>
      if Py.mem value digits then
        match cell with
        | EmptyString => Raise IndexError
        | String c0 tail =>
            let! o := ord_upper c0 in
            let row := o - 65 in
            let! k := int max_str_digits tail in
            let col := k - 1 in
            let! i := list_index digits value in
            let! grid' := set2 grid row col (i + 1) in
            parse_items max_str_digits digits rest grid'
        end
      else parse_items max_str_digits digits rest grid
  end.

(** [parse_input(puzzle_input)] for a dict. *)
Definition parse_input (max_str_digits : nat) (size : Z) (digits : list string)
  (puzzle_input : list (string * string)) : result (list (list Z)) :=
  parse_items max_str_digits digits puzzle_input (zeros size).

(** [ABCSolver(puzzle_input, size, population_size)] for a puzzle given as a
    dict: the array of [parse_input] takes the place of the given array. *)
Definition init (max_str_digits : nat) (puzzle_input : list (string * string)) (n : Z)
  (population_size : nat) (g : Rand.rng) : result (solver * Rand.rng) :=
  let! m := Sudo.initialize_structures n in
  let! grid := parse_input max_str_digits n (Sudo.digits m) puzzle_input in
  Abc.init grid n population_size g.

End AbcDict.

(* ===================================================================== *)
(** * Facts about the Python built-ins                                    *)
(* ===================================================================== *)

Module PyFacts.

Lemma bind_Return {A B : Type} (m : result A) (f : A -> result B) (b : B) :
  bind m f = Return b -> exists a, m = Return a /\ f a = Return b.
Proof. destruct m; simpl; intros H; try discriminate. eauto. Qed.

(** A successful [mapM] ran its function successfully on every item. *)
Lemma mapM_Return_each {A B : Type} (f : A -> result B) (l : list A) (ys : list B) :
  mapM f l = Return ys -> forall x, In x l -> exists y, f x = Return y.
Proof.
  revert ys. induction l as [|a l IH]; intros ys H x Hx; [destruct Hx|].
  simpl in H. apply bind_Return in H as (y & Hy & H).
  apply bind_Return in H as (ys' & Hys & _).
  destruct Hx as [->|Hx]; eauto.
Qed.

Lemma mapM_Return_length {A B : Type} (f : A -> result B) (l : list A) (ys : list B) :
  mapM f l = Return ys -> length ys = length l.
Proof.
  revert ys. induction l as [|a l IH]; simpl; intros ys H.
  - injection H as <-. reflexivity.
  - apply bind_Return in H as (y & _ & H).
    apply bind_Return in H as (ys' & Hys & H). injection H as <-.
    simpl. f_equal. eauto.
Qed.

Lemma mem_In (x : string) (l : list string) : Py.mem x l = true <-> In x l.
Proof.
  unfold Py.mem. rewrite existsb_exists. split.
  - intros (y & Hy & E). apply String.eqb_eq in E. now subst.
  - intros H. exists x. split; [assumption | apply String.eqb_refl].
Qed.

Lemma mem_false (x : string) (l : list string) : Py.mem x l = false <-> ~ In x l.
Proof.
  rewrite <- mem_In. destruct (Py.mem x l); split; intros; congruence.
Qed.

Lemma assoc_In {V : Type} (k : string) (d : list (string * V)) (v : V) :
  Py.assoc k d = Some v -> In (k, v) d.
Proof.
  induction d as [|[k' v'] d IH]; simpl; [discriminate|].
  destruct (String.eqb k k') eqn:E.
  - apply String.eqb_eq in E. intros [= ->]. left. now subst.
  - intros H. right. auto.
Qed.

Lemma assoc_In_key {V : Type} (k : string) (d : list (string * V)) (v : V) :
  Py.assoc k d = Some v -> In k (map fst d).
Proof. intros H. apply assoc_In in H. apply (in_map fst) in H. exact H. Qed.

Lemma assoc_None {V : Type} (k : string) (d : list (string * V)) :
  Py.assoc k d = None <-> ~ In k (map fst d).
Proof.
  induction d as [|[k' v'] d IH]; simpl; [tauto|].
  destruct (String.eqb k k') eqn:E.
  - apply String.eqb_eq in E. subst. split; [discriminate | tauto].
  - apply String.eqb_neq in E. rewrite IH. split; [intros H [?|?]; congruence | tauto].
Qed.

(** Looking a key up in a dict built by a comprehension over its keys. *)
Lemma assoc_map_key {V : Type} (f : string -> V) (keys : list string) (k : string) :
  In k keys -> Py.assoc k (map (fun s => (s, f s)) keys) = Some (f k).
Proof.
  induction keys as [|a keys IH]; simpl; [tauto|].
  intros H. destruct (String.eqb k a) eqn:E.
  - apply String.eqb_eq in E. now subst.
  - apply String.eqb_neq in E. destruct H as [->|H]; [congruence | auto].
Qed.

Lemma assoc_map_key_inv {V : Type} (f : string -> V) (keys : list string) (k : string) (v : V) :
  Py.assoc k (map (fun s => (s, f s)) keys) = Some v -> In k keys /\ v = f k.
Proof.
  induction keys as [|a keys IH]; simpl; [discriminate|].
  destruct (String.eqb k a) eqn:E.
  - apply String.eqb_eq in E. subst. intros [= <-]. auto.
  - intros H. destruct (IH H). auto.
Qed.

Lemma dedup_In (x : string) (l : list string) : In x (Py.dedup l) <-> In x l.
Proof.
  induction l as [|a l IH]; simpl; [tauto|].
  rewrite filter_In, IH. destruct (String.eqb a x) eqn:E.
  - apply String.eqb_eq in E. subst. tauto.
  - apply String.eqb_neq in E. simpl. split; [tauto|].
    intros [?|?]; [congruence | auto].
Qed.

Lemma dedup_NoDup (l : list string) : List.NoDup (Py.dedup l).
Proof.
  induction l as [|a l IH]; simpl; constructor.
  - rewrite filter_In. intros [_ H]. now rewrite String.eqb_refl in H.
  - now apply List.NoDup_filter.
Qed.

(** A boolean test for [NoDup] on strings. *)
Fixpoint nodupb (l : list string) : bool :=
  match l with
  | [] => true
  | x :: l' => negb (Py.mem x l') && nodupb l'
  end.

Lemma nodupb_NoDup (l : list string) : nodupb l = true -> List.NoDup l.
Proof.
  induction l as [|a l IH]; simpl; intros H; constructor;
    apply andb_prop in H as [H1 H2]; auto.
  apply negb_true_iff in H1. now apply mem_false.
Qed.

Lemma index_Return_bound {A : Type} (l : list A) (k : Z) (x : A) :
  0 <= k -> Py.index l k = Return x -> (Z.to_nat k < length l)%nat.
Proof.
  intros Hk. unfold Py.index.
  destruct (k <? 0) eqn:E; [apply Z.ltb_lt in E; lia|]. rewrite E.
  destruct (nth_error l (Z.to_nat k)) eqn:N; [|discriminate].
  intros _. apply nth_error_Some. congruence.
Qed.

Lemma substring0_length (n : nat) (s : string) :
  (String.length (substring 0 n s) <= String.length s)%nat.
Proof.
  revert n. induction s as [|a s IH]; intros [|n]; simpl; try lia.
  specialize (IH n). lia.
Qed.

Lemma chars_length (s : string) : length (Py.chars s) = String.length s.
Proof.
  unfold Py.chars. rewrite length_map.
  induction s; simpl; congruence.
Qed.

Lemma range_In (n k : Z) : In k (Py.range n) <-> 0 <= k < n.
Proof.
  unfold Py.range. rewrite in_map_iff. split.
  - intros (i & <- & Hi). apply in_seq in Hi. lia.
  - intros H. exists (Z.to_nat k). split; [lia|]. apply in_seq. lia.
Qed.

Lemma range_step_In (stop step q : Z) :
  0 < step -> 0 <= q -> q * step < stop -> In (q * step) (Py.range_step stop step).
Proof.
  intros Hs Hq Hlt. unfold Py.range_step. apply in_map_iff.
  exists (Z.to_nat q). split; [f_equal; lia|]. apply in_seq.
  assert (q + 1 <= (stop + step - 1) / step)
    by (apply Z.div_le_lower_bound; [lia | nia]).
  lia.
Qed.

End PyFacts.

(* ===================================================================== *)
(** * sudo.py: the model builder                                          *)
(* ===================================================================== *)

Module BuilderFacts.
Import PyFacts Sudo.

(** The board sizes on which the builder is evaluated below. *)
Definition board_sizes : list Z := map Z.of_nat (seq 1 26).

Lemma board_sizes_In (size : Z) : 1 <= size <= 26 -> In size board_sizes.
Proof.
  intros H. unfold board_sizes. apply in_map_iff.
  exists (Z.to_nat size). split; [lia|]. apply in_seq. lia.
Qed.

(** [chk] holds of the model built for [size]. *)
Definition holds_at (chk : Z -> model -> bool) (size : Z) : bool :=
  match initialize_structures size with
  | Return m => chk size m
  | _ => false
  end.

Lemma subgrid_rows_from_spec (size : Z) (k : nat) (sr : Z) :
  subgrid_rows_from size k = Return sr ->
  1 <= sr <= Z.of_nat k /\ size mod sr = 0.
Proof.
  induction k as [|k IH]; [discriminate|].
  cbn [subgrid_rows_from].
  destruct (size mod Z.of_nat (S k) =? 0) eqn:E.
  - intros [= <-]. apply Z.eqb_eq in E. lia.
  - intros H. apply IH in H. lia.
Qed.

(** Shape of a returned model: the fields are the ones the builder computes. *)
Lemma initialize_structures_Return (size : Z) (m : model) :
  initialize_structures size = Return m ->
  1 <= size /\
  rows m = Py.prefix size "ABCDEFGHIJKLMNOPQRSTUVWXYZ" /\
  cols m = map (fun i => Py.str (i + 1)) (Py.range size) /\
  squares m = cross (Py.chars (rows m)) (cols m) /\
  subgrid_rows_from size (Z.to_nat (Z.sqrt size)) = Return (subgrid_rows m) /\
  subgrid_cols m = size / subgrid_rows m /\
  make_digits size = Return (digits m) /\
  (exists boxes,
      subgrid_units (rows m) (cols m) size (subgrid_rows m) (subgrid_cols m)
        = Return boxes /\
      unitlist m = column_units (rows m) (cols m) ++ row_units (rows m) (cols m) ++ boxes) /\
  units m = map (fun s => (s, List.filter (fun u => Py.mem s u) (unitlist m))) (squares m) /\
  peers m = map (fun s => (s, peers_of s (List.filter (fun u => Py.mem s u) (unitlist m))))
                (squares m).
Proof.
  unfold initialize_structures.
  destruct (size <? 1) eqn:E; [discriminate|]. apply Z.ltb_ge in E.
  intros H.
  apply bind_Return in H as (sr & Hsr & H).
  apply bind_Return in H as (ds & Hds & H).
  apply bind_Return in H as (boxes & Hb & H).
  injection H as <-. cbn.
  repeat split; eauto.
Qed.

(** Below 1 the explicit guard raises [ValueError]. *)
Lemma initialize_structures_below_1 (size : Z) :
  size < 1 -> initialize_structures size = Raise ValueError.
Proof.
  intros H. unfold initialize_structures.
  apply Z.ltb_lt in H. now rewrite H.
Qed.

(** A returned model means that [rows[size - 1]] was read, and the row
    alphabet has 26 letters. *)
Lemma initialize_structures_accepts (size : Z) (m : model) :
  initialize_structures size = Return m -> 1 <= size <= 26.
Proof.
  intros H. apply initialize_structures_Return in H
    as (H1 & Hrows & _ & _ & Hsr & Hsc & _ & (boxes & Hb & _) & _).
  split; [assumption|].
  apply subgrid_rows_from_spec in Hsr as [Hsr Hmod].
  set (sr := subgrid_rows m) in *. set (sc := subgrid_cols m) in *.
  assert (Hle : sr <= size).
  { pose proof (Z.sqrt_le_lin size). lia. }
  assert (Hdiv : size = sr * (size / sr)).
  { pose proof (Z.div_mod size sr). lia. }
  assert (Hsc1 : 1 <= sc).
  { subst sc. rewrite Hsc. apply Z.div_le_lower_bound; lia. }
  unfold subgrid_units in Hb.
  apply bind_Return in Hb as (bands & Hbands & _).
  (* the last band of boxes *)
  destruct (mapM_Return_each _ _ _ Hbands ((size / sr - 1) * sr)) as (band & Hband).
  { apply range_step_In; [lia | | nia]. rewrite Hsc in Hsc1. lia. }
  destruct (mapM_Return_each _ _ _ Hband (0 * sc)) as (box & Hbox).
  { apply range_step_In; lia. }
  unfold subgrid in Hbox.
  apply bind_Return in Hbox as (per_row & Hpr & _).
  destruct (mapM_Return_each _ _ _ Hpr (sr - 1)) as (row & Hrow).
  { apply range_In. lia. }
  destruct (mapM_Return_each _ _ _ Hrow 0) as (c & Hc).
  { apply range_In. lia. }
  apply bind_Return in Hc as (r & Hr & _).
  unfold Py.str_index in Hr.
  apply index_Return_bound in Hr; [|nia].
  rewrite chars_length, Hrows in Hr. unfold Py.prefix in Hr.
  pose proof (substring0_length (Z.to_nat size) "ABCDEFGHIJKLMNOPQRSTUVWXYZ") as Hlen.
  cbn [String.length] in Hlen.
  replace ((size / sr - 1) * sr + (sr - 1)) with (size - 1) in Hr by nia.
  lia.
Qed.

(** Every size from 1 to 26 gets a model. *)
Lemma initialize_structures_returns (size : Z) :
  1 <= size <= 26 -> exists m, initialize_structures size = Return m.
Proof.
  intros H.
  assert (A : forallb (holds_at (fun _ _ => true)) board_sizes = true)
    by (vm_compute; reflexivity).
  rewrite forallb_forall in A. specialize (A size (board_sizes_In size H)).
  unfold holds_at in A. destruct (initialize_structures size); try discriminate.
  eauto.
Qed.

(** A property checked on the 26 models holds of every returned model. *)
Lemma holds_at_all (chk : Z -> model -> bool) :
  forallb (holds_at chk) board_sizes = true ->
  forall size m, initialize_structures size = Return m -> chk size m = true.
Proof.
  intros A size m H. rewrite forallb_forall in A.
  pose proof (initialize_structures_accepts size m H) as Hr.
  specialize (A size (board_sizes_In size Hr)).
  unfold holds_at in A. now rewrite H in A.
Qed.

(** ** Units and peers of the returned model *)

Definition nat_of (size : Z) : nat := Z.to_nat size.

(** The unit counts, as a test on a model. *)
Definition unit_counts (size : Z) (m : model) : bool :=
  Nat.eqb (length (column_units (rows m) (cols m))) (nat_of size)
  && Nat.eqb (length (row_units (rows m) (cols m))) (nat_of size)
  && Nat.eqb (length (unitlist m)) (3 * nat_of size)
  && forallb (fun s =>
                Nat.eqb (length (List.filter (fun u => Py.mem s u) (unitlist m))) 3)
             (squares m)
  && (negb (size =? 9)
      || forallb (fun s =>
                    match Py.assoc s (peers m) with
                    | Some ps => nodupb ps && Nat.eqb (length ps) 20
                    | None => false
                    end)
                 (squares m)).

(** What the propagation proofs use of a model: distinct digits, one per
    cell of a unit, units made of distinct cells of the board, and a board of
    one cell has no peers. *)
Definition well_formed (size : Z) (m : model) : bool :=
  nodupb (digits m)
  && Nat.eqb (length (digits m)) (nat_of size)
  && nodupb (squares m)
  && Nat.eqb (length (squares m)) (nat_of size * nat_of size)
  && forallb (fun u =>
                nodupb u && Nat.eqb (length u) (nat_of size)
                && forallb (fun s => Py.mem s (squares m)) u)
             (unitlist m)
  && (negb (Nat.eqb (length (digits m)) 1)
      || forallb (fun p : cell * list cell =>
                    match snd p with [] => true | _ => false end)
                 (peers m)).

Lemma unit_counts_all (size : Z) (m : model) :
  initialize_structures size = Return m -> unit_counts size m = true.
Proof. apply holds_at_all. vm_compute. reflexivity. Qed.

Lemma well_formed_all (size : Z) (m : model) :
  initialize_structures size = Return m -> well_formed size m = true.
Proof. apply holds_at_all. vm_compute. reflexivity. Qed.

Lemma units_lookup (size : Z) (m : model) (s : cell) :
  initialize_structures size = Return m -> In s (squares m) ->
  Py.assoc s (units m) = Some (List.filter (fun u => Py.mem s u) (unitlist m)).
Proof.
  intros H Hs. apply initialize_structures_Return in H
    as (_ & _ & _ & _ & _ & _ & _ & _ & Hu & _).
  rewrite Hu. now apply (assoc_map_key (fun s => List.filter (fun u => Py.mem s u) (unitlist m))).
Qed.

Lemma peers_lookup (size : Z) (m : model) (s : cell) :
  initialize_structures size = Return m -> In s (squares m) ->
  Py.assoc s (peers m)
  = Some (peers_of s (List.filter (fun u => Py.mem s u) (unitlist m))).
Proof.
  intros H Hs. apply initialize_structures_Return in H
    as (_ & _ & _ & _ & _ & _ & _ & _ & _ & Hp).
  rewrite Hp.
  now apply (assoc_map_key
               (fun s => peers_of s (List.filter (fun u => Py.mem s u) (unitlist m)))).
Qed.

Lemma peers_lookup_inv (size : Z) (m : model) (s : cell) (ps : list cell) :
  initialize_structures size = Return m -> Py.assoc s (peers m) = Some ps ->
  In s (squares m)
  /\ ps = peers_of s (List.filter (fun u => Py.mem s u) (unitlist m)).
Proof.
  intros H Hs. apply initialize_structures_Return in H
    as (_ & _ & _ & _ & _ & _ & _ & _ & _ & Hp).
  rewrite Hp in Hs.
  now apply (assoc_map_key_inv
               (fun s => peers_of s (List.filter (fun u => Py.mem s u) (unitlist m)))) in Hs.
Qed.

(** Two different cells of one unit are peers of each other. *)
Lemma unit_mates_are_peers (size : Z) (m : model) (u : list cell) (s s2 : cell) :
  initialize_structures size = Return m ->
  In u (unitlist m) -> In s u -> In s2 u -> s2 <> s -> In s (squares m) ->
  exists ps, Py.assoc s (peers m) = Some ps /\ In s2 ps.
Proof.
  intros H Hu Hs Hs2 Hne Hsq.
  eexists. split; [eapply peers_lookup; eassumption|].
  unfold peers_of. apply filter_In. split.
  - apply dedup_In, in_concat. exists u. split; [|assumption].
    apply filter_In. split; [assumption | now apply mem_In].
  - apply negb_true_iff, String.eqb_neq. assumption.
Qed.

(** A peer of a cell shares a unit with it and is another cell. *)
Lemma peers_share_a_unit (size : Z) (m : model) (s s2 : cell) (ps : list cell) :
  initialize_structures size = Return m ->
  Py.assoc s (peers m) = Some ps -> In s2 ps ->
  s2 <> s /\ exists u, In u (unitlist m) /\ In s u /\ In s2 u.
Proof.
  intros H Hp Hin. destruct (peers_lookup_inv _ _ _ _ H Hp) as [_ ->].
  unfold peers_of in Hin. apply filter_In in Hin as [Hin Hne].
  apply negb_true_iff, String.eqb_neq in Hne. split; [assumption|].
  apply dedup_In, in_concat in Hin as (u & Hu & Hs2).
  apply filter_In in Hu as [Hu Hs]. apply mem_In in Hs. eauto.
Qed.

(** ** What the builder accepts *)

(** C10, as amended.  For the board sizes the 26 row labels can name, the
    builder raises [ValueError] exactly below 1 and returns the model for
    every other size; no size from 1 on is refused for its factorization,
    since the search for the subgrid height always stops at a divisor
    [r >= 1] of the size (with [c = size / r]). *)
Theorem builder_errors (size : Z) :
  size <= 26 ->
  (initialize_structures size = Raise ValueError <-> size < 1)
  /\ (1 <= size -> exists m, initialize_structures size = Return m)
  /\ (1 <= size ->
      exists r, subgrid_rows_from size (Z.to_nat (Z.sqrt size)) = Return r
                /\ 1 <= r /\ r * (size / r) = size).
Proof.
  intros Hle. split; [|split].
  - split; [|apply initialize_structures_below_1].
    intros H. destruct (Z.lt_ge_cases size 1) as [|Hge]; [assumption|].
    destruct (initialize_structures_returns size) as [m Hm]; [lia|]. congruence.
  - intros H. apply initialize_structures_returns. lia.
  - intros H. destruct (initialize_structures_returns size) as [m Hm]; [lia|].
    apply initialize_structures_Return in Hm as (_ & _ & _ & _ & Hsr & _).
    exists (subgrid_rows m). split; [assumption|].
    apply subgrid_rows_from_spec in Hsr as [Hsr Hmod].
    split; [lia|]. pose proof (Z.div_mod size (subgrid_rows m)). lia.
Qed.

Lemma builder_errors_witness :
  (initialize_structures 6 = Raise ValueError <-> 6 < 1)
  /\ (1 <= 6 -> exists m, initialize_structures 6 = Return m)
  /\ (1 <= 6 ->
      exists r, subgrid_rows_from 6 (Z.to_nat (Z.sqrt 6)) = Return r
                /\ 1 <= r /\ r * (6 / r) = 6).
Proof. apply (builder_errors 6). lia. Defined.

(** C10 as stated fails at 7 and at 36.  The size 7 has no factorization
    into two numbers above 1, yet the builder returns a model for it, with
    subgrids of 1 x 7.  The size 36 is at least 1 and is 6 x 6, yet the
    builder neither returns a model nor raises the configuration error; it
    stops with [IndexError] at [rows[i+x]]. *)
Lemma builder_at_7_and_36 :
  (exists m, initialize_structures 7 = Return m
             /\ subgrid_rows m = 1 /\ subgrid_cols m = 7)
  /\ (forall r c, 1 < r -> 1 < c -> r * c <> 7)
  /\ 1 <= 36 /\ 6 * 6 = 36
  /\ initialize_structures 36 = Raise IndexError
  /\ initialize_structures 36 <> Raise ValueError
  /\ ~ (exists m, initialize_structures 36 = Return m).
Proof.
  assert (E : initialize_structures 36 = Raise IndexError)
    by (vm_compute; reflexivity).
  split; [eexists; split; [vm_compute; reflexivity | split; reflexivity]|].
  split.
  { intros r c Hr Hc E7. assert (Hr3 : r <= 3) by nia.
    assert (Hr2 : r = 2 \/ r = 3) by lia. destruct Hr2; subst; lia. }
  repeat split; try lia; try assumption; rewrite E; [discriminate|].
  intros [m Hm]. discriminate.
Qed.

(** C4.  A returned model has [size] column units, [size] row units and
    [size] subgrid units, [3 * size] in all; the board has [size * size]
    cells, no two alike; every one of them is in exactly three units, those
    that [units] records for it; and on the 9 x 9 board every cell has 20
    pairwise different peers. *)
Theorem unit_structure (size : Z) (m : model) :
  initialize_structures size = Return m ->
  (exists boxes,
      unitlist m = column_units (rows m) (cols m) ++ row_units (rows m) (cols m) ++ boxes
      /\ Z.of_nat (length (column_units (rows m) (cols m))) = size
      /\ Z.of_nat (length (row_units (rows m) (cols m))) = size
      /\ Z.of_nat (length boxes) = size)
  /\ Z.of_nat (length (unitlist m)) = 3 * size
  /\ Z.of_nat (length (squares m)) = size * size
  /\ List.NoDup (squares m)
  /\ (forall s, In s (squares m) ->
        exists us, Py.assoc s (units m) = Some us
                   /\ us = List.filter (fun u => Py.mem s u) (unitlist m)
                   /\ length us = 3%nat)
  /\ (size = 9 ->
      forall s, In s (squares m) ->
        exists ps, Py.assoc s (peers m) = Some ps
                   /\ List.NoDup ps /\ length ps = 20%nat).
Proof.
  intros H.
  pose proof (initialize_structures_accepts _ _ H) as Hsize.
  pose proof (unit_counts_all _ _ H) as C. unfold unit_counts in C.
  apply andb_prop in C as [C Cp]. apply andb_prop in C as [C C3].
  apply andb_prop in C as [C Cn]. apply andb_prop in C as [Cc Cr].
  apply Nat.eqb_eq in Cc, Cr, Cn. unfold nat_of in *.
  rewrite forallb_forall in C3.
  pose proof (well_formed_all _ _ H) as W. unfold well_formed in W.
  apply andb_prop in W as [W _]. apply andb_prop in W as [W _].
  apply andb_prop in W as [W Wlen]. apply andb_prop in W as [_ Wnd].
  apply Nat.eqb_eq in Wlen. unfold nat_of in Wlen.
  split; [|split; [|split; [|split; [|split]]]].
  - pose proof (initialize_structures_Return _ _ H)
      as (_ & _ & _ & _ & _ & _ & _ & (boxes & _ & Hul) & _).
    exists boxes. split; [assumption|].
    rewrite Hul, !length_app in Cn. repeat split; lia.
  - lia.
  - rewrite Wlen. nia.
  - now apply nodupb_NoDup.
  - intros s Hs. eexists. split; [eapply units_lookup; eassumption|].
    split; [reflexivity|]. apply Nat.eqb_eq. now apply C3.
  - intros -> s Hs. cbn in Cp. rewrite forallb_forall in Cp.
    specialize (Cp s Hs). destruct (Py.assoc s (peers m)) as [ps|]; [|discriminate].
    apply andb_prop in Cp as [Cd Cl]. exists ps.
    split; [reflexivity|]. split; [now apply nodupb_NoDup | now apply Nat.eqb_eq].
Qed.

(** On the 9 x 9 board: 27 units, 81 cells, and the cell E5 is in three
    units and has 20 peers. *)
Lemma unit_structure_witness :
  exists m, initialize_structures 9 = Return m
            /\ Z.of_nat (length (unitlist m)) = 27
            /\ Z.of_nat (length (squares m)) = 81
            /\ In "E5" (squares m)
            /\ (exists us, Py.assoc "E5" (units m) = Some us /\ length us = 3%nat)
            /\ (exists ps, Py.assoc "E5" (peers m) = Some ps
                           /\ List.NoDup ps /\ length ps = 20%nat).
Proof.
  destruct (initialize_structures 9) as [m| |] eqn:E; try (vm_compute in E; discriminate).
  exists m. split; [reflexivity|].
  destruct (unit_structure 9 m E) as (_ & H1 & H2 & _ & H3 & H4).
  assert (Hin : In "E5" (squares m)).
  { apply mem_In.
    assert (A : forall size0 m0, initialize_structures size0 = Return m0 ->
                                 negb (size0 =? 9) || Py.mem "E5" (squares m0) = true)
      by (apply holds_at_all; vm_compute; reflexivity).
    exact (A 9 m E). }
  split; [exact H1|]. split; [exact H2|]. split; [exact Hin|]. split.
  - destruct (H3 "E5" Hin) as (us & Hu & _ & Hl). eauto.
  - exact (H4 eq_refl "E5" Hin).
Defined.

End BuilderFacts.

(* ===================================================================== *)
(** * sudo.py: what [assign], [eliminate] and [search] write              *)
(* ===================================================================== *)

Module StoreFacts.
Import PyFacts Sudo.

Lemma bindM_Return {A B : Type} (m : M A) (f : A -> M B) (h h' : store) (b : B) :
  bindM m f h = Return (b, h') ->
  exists a h1, m h = Return (a, h1) /\ f a h1 = Return (b, h').
Proof.
  unfold bindM. destruct (m h) as [[a h1]| |]; try discriminate. eauto.
Qed.

Lemma lift_Return {A : Type} (r : result A) (h h' : store) (a : A) :
  lift r h = Return (a, h') -> r = Return a /\ h' = h.
Proof. unfold lift. destruct r; try discriminate. intros [= -> ->]. auto. Qed.

Lemma ret_Return {A : Type} (a b : A) (h h' : store) :
  ret a h = Return (b, h') -> b = a /\ h' = h.
Proof. unfold ret. intros [= -> ->]. auto. Qed.

Lemma load_Return (l : loc) (h h' : store) (c : list digit) :
  load l h = Return (c, h') -> c = default [] (h !! l) /\ h' = h.
Proof. unfold load. intros [= <- <-]. auto. Qed.

(** Inversion of the first bind of the computation in [H]: the first step
    returned [a] in store [h1] ([H1]), and [H] is left with the rest. *)
Tactic Notation "step" hyp(H) "as" ident(a) ident(h1) ident(H1) :=
  apply bindM_Return in H as (a & h1 & H1 & H).

(** The same when the first step is pure ([lift]) or a [load]. *)
Tactic Notation "step_lift" hyp(H) "as" ident(a) ident(H1) :=
  let h1 := fresh "h" in
  apply bindM_Return in H as (a & h1 & H1 & H);
  apply lift_Return in H1 as [H1 ->].

Tactic Notation "step_load" hyp(H) "as" ident(a) ident(H1) :=
  let h1 := fresh "h" in
  apply bindM_Return in H as (a & h1 & H1 & H);
  apply load_Return in H1 as [H1 ->].

(** Case analysis on the test of the conditional at the head of [H]. *)
Ltac case_if H :=
  match type of H with
  | (if ?c then _ else _) _ = _ =>
      let E := fresh "E" in destruct c eqn:E
  | (if ?c then _ else _) = _ =>
      let E := fresh "E" in destruct c eqn:E
  end.

(** The references a dict holds. *)
Definition locs (values : dict) : list loc := map snd values.

(** [h'] differs from [h] only at the references in [ls]. *)
Definition writes_within (ls : list loc) (h h' : store) : Prop :=
  length h' = length h /\ forall l, ~ In l ls -> h' !! l = h !! l.

Lemma writes_within_refl (ls : list loc) (h : store) : writes_within ls h h.
Proof. split; auto. Qed.

Lemma writes_within_trans (ls : list loc) (h1 h2 h3 : store) :
  writes_within ls h1 h2 -> writes_within ls h2 h3 -> writes_within ls h1 h3.
Proof.
  intros [L1 F1] [L2 F2]. split; [congruence|].
  intros l Hl. rewrite F2, F1; auto.
Qed.

Lemma getitem_loc (values : dict) (s : cell) (l : loc) :
  Py.getitem values s = Return l -> Py.assoc s values = Some l /\ In l (locs values).
Proof.
  unfold Py.getitem. destruct (Py.assoc s values) as [l'|] eqn:E; [|discriminate].
  intros [= ->]. split; [reflexivity|].
  apply assoc_In in E. apply (in_map snd) in E. exact E.
Qed.

Lemma write_within (values : dict) (l : loc) (c : list digit) (h : store) :
  In l (locs values) -> writes_within (locs values) h (<[l := c]> h).
Proof.
  intros Hl. split; [apply length_insert|].
  intros l' Hl'. apply list_lookup_insert_ne. congruence.
Qed.

(** A loop of steps that each write within [ls] writes within [ls]. *)
Lemma all_ok_within {A : Type} (ls : list loc) (f : A -> M bool) (xs : list A) :
  (forall x h b h', In x xs -> f x h = Return (b, h') -> writes_within ls h h') ->
  forall h b h', all_ok f xs h = Return (b, h') -> writes_within ls h h'.
Proof.
  induction xs as [|x xs IH]; intros Hf h b h' H.
  - apply ret_Return in H as [_ ->]. apply writes_within_refl.
  - cbn [all_ok] in H. step H as ok h0 H0.
    assert (W : writes_within ls h h0) by (eapply Hf; [left; reflexivity | eassumption]).
    destruct ok.
    + eapply writes_within_trans; [exact W|].
      eapply IH in H; [exact H|].
      intros y h2 b2 h2' Hy H2. exact (Hf y h2 b2 h2' (or_intror Hy) H2).
    + apply ret_Return in H as [_ ->]. exact W.
Qed.

(** [eliminate] writes only into the lists of the dict it is given,
    whatever it is given as [peers] and whether it succeeds or not. *)
Lemma eliminate_within (fuel : nat) (values : dict) (peers : peers_arg) :
  forall s d h b h',
    eliminate fuel values s d peers h = Return (b, h') ->
    writes_within (locs values) h h'.
Proof.
  induction fuel as [|fuel IH]; intros s d h b h' H; [discriminate|].
  cbn [eliminate] in H. step_lift H as l Hl. step_load H as c Hc.
  apply getitem_loc in Hl as [_ Hl].
  case_if H.
  { apply ret_Return in H as [_ ->]. apply writes_within_refl. }
  step_lift H as c' Hc'. step H as u h1 Hw.
  unfold write in Hw. injection Hw as _ <-.
  pose proof (write_within values l c' h Hl) as W.
  destruct c' as [|d2 [|d3 rest]].
  - apply ret_Return in H as [_ ->]. exact W.
  - step_lift H as ps Hps. eapply writes_within_trans; [exact W|].
    eapply all_ok_within in H; [exact H|].
    intros s2 h2 b2 h2' _ H2. exact (IH _ _ _ _ _ H2).
  - apply ret_Return in H as [_ ->]. exact W.
Qed.

Lemma assign_within (fuel : nat) (values : dict) (peers : peers_arg)
  (s : cell) (d : digit) (h h' : store) (b : bool) :
  assign fuel values s d peers h = Return (b, h') ->
  writes_within (locs values) h h'.
Proof.
  unfold assign. intros H. step_lift H as l Hl. step_load H as c Hc.
  eapply all_ok_within in H; [exact H|].
  intros d2 h2 b2 h2' _ H2. exact (eliminate_within _ _ _ _ _ _ _ _ H2).
Qed.

(** [h'] keeps every list that [h] holds (and may hold more). *)
Definition extends (h h' : store) : Prop :=
  (length h <= length h')%nat
  /\ forall l, (l < length h)%nat -> h' !! l = h !! l.

Lemma extends_refl (h : store) : extends h h.
Proof. split; auto. Qed.

Lemma extends_trans (h1 h2 h3 : store) :
  extends h1 h2 -> extends h2 h3 -> extends h1 h3.
Proof.
  intros [L1 F1] [L2 F2]. split; [lia|].
  intros l Hl. rewrite F2, F1; auto. lia.
Qed.

(** Writing within references that [h0] does not have leaves [h0] alone. *)
Lemma writes_within_extends (ls : list loc) (h0 h h' : store) :
  (forall l, In l ls -> (length h0 <= l)%nat) ->
  writes_within ls h h' -> extends h0 h -> extends h0 h'.
Proof.
  intros Hls [L F] [L0 F0]. split; [lia|].
  intros l Hl. rewrite F; [auto|]. intros Hin. apply Hls in Hin. lia.
Qed.

Lemma alloc_extends (c : list digit) (h h' : store) (l : loc) :
  alloc c h = Return (l, h') ->
  l = length h /\ h' = h ++ [c] /\ extends h h'.
Proof.
  unfold alloc. intros [= <- <-]. repeat split.
  - rewrite length_app. lia.
  - intros l Hl. now apply lookup_app_l.
Qed.

(** The item-by-item copy allocates: its references are new and the old
    store is kept. *)
Lemma copy_values_alloc (values : dict) :
  forall h new_values h',
    copy_values values h = Return (new_values, h') ->
    extends h h'
    /\ length h' = (length h + length values)%nat
    /\ map fst new_values = map fst values
    /\ locs new_values = seq (length h) (length values).
Proof.
  induction values as [|[k l] values IH]; intros h nv h' H.
  - apply ret_Return in H as [-> ->]. cbn.
    repeat split; try apply extends_refl; try lia.
  - cbn [copy_values] in H. step_load H as c Hc. step H as l' h1 Ha.
    step H as vs h2 Hvs.
    apply alloc_extends in Ha as (-> & -> & E1).
    apply IH in Hvs as (E2 & L2 & K2 & S2).
    apply ret_Return in H as [-> ->].
    rewrite length_app in *. cbn [length] in *.
    split; [eapply extends_trans; eassumption|].
    split; [lia|]. split; [cbn; congruence|].
    cbn [locs map snd seq]. f_equal. unfold locs in S2. rewrite S2.
    f_equal. lia.
Qed.

(** The copy holds, cell by cell, the candidates of the original. *)
Lemma copy_values_content (values : dict) :
  forall h new_values h',
    (forall l, In l (locs values) -> (l < length h)%nat) ->
    copy_values values h = Return (new_values, h') ->
    Forall2 (fun old new => fst new = fst old /\ h' !! snd new = h !! snd old)
            values new_values.
Proof.
  induction values as [|[k l] values IH]; intros h nv h' Hwf H.
  - apply ret_Return in H as [-> ->]. constructor.
  - cbn [copy_values] in H. step_load H as c Hc. step H as l' h1 Ha.
    step H as vs h2 Hvs.
    pose proof (copy_values_alloc _ _ _ _ Hvs) as ([_ E2] & _).
    apply alloc_extends in Ha as (-> & -> & E1).
    assert (Hl : (l < length h)%nat) by (apply Hwf; left; reflexivity).
    apply IH in Hvs as F2.
    2:{ intros l0 Hl0. rewrite length_app. cbn.
        assert (l0 < length h)%nat by (apply Hwf; right; exact Hl0). lia. }
    apply ret_Return in H as [-> ->].
    constructor.
    + cbn [fst snd]. split; [reflexivity|]. rewrite E2.
      * rewrite (list_lookup_middle h [] c (length h) eq_refl).
        apply lookup_lt_is_Some_2 in Hl as [c0 Hc0]. rewrite Hc0 in *.
        cbn in Hc. congruence.
      * rewrite length_app. cbn. lia.
    + apply Forall2_same_length_lookup_2.
      { apply Forall2_length in F2. exact F2. }
      intros i [k1 l1] [k2 l2] Hi1 Hi2.
      pose proof (Forall2_lookup_lr _ _ _ _ _ _ F2 Hi1 Hi2) as [Hk Hx].
      cbn [fst snd] in *. split; [exact Hk|]. rewrite Hx. apply lookup_app_l.
      apply Hwf. right. apply list_elem_of_lookup_2 in Hi1.
      apply list_elem_of_In in Hi1. apply (in_map snd) in Hi1. exact Hi1.
Qed.

(** ** The store across a speculative branch *)

(** A branch leaves the store it started from as it was, whatever the
    recursive call, as long as that call does. *)
Lemma speculate_extends (recur : option dict -> M (option solution))
  (fuel : nat) (values : dict) (s : cell) (d : digit) (peers : peers_arg) :
  (forall v h r h', recur v h = Return (r, h') -> extends h h') ->
  forall h r h',
    speculate recur fuel values s d peers h = Return (r, h') -> extends h h'.
Proof.
  intros Hrec h r h' H. unfold speculate in H.
  step H as new_values h1 Hcopy. step H as b h2 Hassign.
  apply copy_values_alloc in Hcopy as (E1 & L1 & _ & S1).
  apply assign_within in Hassign.
  apply Hrec in H.
  eapply extends_trans; [|exact H].
  eapply writes_within_extends; [|exact Hassign|exact E1].
  intros l Hl. rewrite S1 in Hl. apply in_seq in Hl. lia.
Qed.

Lemma try_candidates_extends (recur : option dict -> M (option solution))
  (fuel : nat) (values : dict) (s : cell) (l : loc) (peers : peers_arg) :
  (forall v h r h', recur v h = Return (r, h') -> extends h h') ->
  forall idx h r h',
    try_candidates recur fuel values s l peers idx h = Return (r, h') ->
    extends h h'.
Proof.
  intros Hrec. induction idx as [|i idx IH]; intros h r h' H.
  - apply ret_Return in H as [_ ->]. apply extends_refl.
  - cbn [try_candidates] in H. step_load H as c Hc.
    destruct (nth_error c i) as [d|].
    2:{ apply ret_Return in H as [_ ->]. apply extends_refl. }
    step H as r1 h1 Hs.
    apply speculate_extends in Hs; [|exact Hrec].
    destruct r1 as [[|x sol]|].
    + eapply extends_trans; [exact Hs | eapply IH; exact H].
    + apply ret_Return in H as [_ ->]. exact Hs.
    + eapply extends_trans; [exact Hs | eapply IH; exact H].
Qed.

(** Reading the candidates does not change the store. *)
Lemma candidates_Return (values : dict) (s : cell) (h h' : store) (c : list digit) :
  candidates values s h = Return (c, h') ->
  h' = h /\ exists l, Py.assoc s values = Some l /\ c = default [] (h !! l).
Proof.
  unfold candidates. intros H. step_lift H as l Hl.
  apply load_Return in H as [-> ->]. apply getitem_loc in Hl as [Hl _]. eauto.
Qed.

Lemma all_single_store (values : dict) (sqs : list cell) :
  forall h b h', all_single values sqs h = Return (b, h') -> h' = h.
Proof.
  induction sqs as [|s sqs IH]; intros h b h' H.
  - now apply ret_Return in H.
  - cbn [all_single] in H. step H as c h1 Hc.
    apply candidates_Return in Hc as [-> _].
    case_if H; [eauto | now apply ret_Return in H].
Qed.

Lemma first_values_store (values : dict) (sqs : list cell) :
  forall h sol h', first_values values sqs h = Return (sol, h') -> h' = h.
Proof.
  induction sqs as [|s sqs IH]; intros h sol h' H.
  - now apply ret_Return in H.
  - cbn [first_values] in H. step H as c h1 Hc.
    apply candidates_Return in Hc as [-> _].
    step_lift H as d Hd. step H as r h2 Hr. apply IH in Hr as ->.
    now apply ret_Return in H.
Qed.

Lemma open_cells_store (values : dict) (sqs : list cell) :
  forall h cs h', open_cells values sqs h = Return (cs, h') -> h' = h.
Proof.
  induction sqs as [|s sqs IH]; intros h cs h' H.
  - now apply ret_Return in H.
  - cbn [open_cells] in H. step H as c h1 Hc.
    apply candidates_Return in Hc as [-> _].
    step H as r h2 Hr. apply IH in Hr as ->.
    now apply ret_Return in H.
Qed.

(** The whole search leaves the store it was given as it was: it writes only
    into the copies it makes. *)
Lemma search_extends (size : Z) (fuel : nat) :
  forall v h r h', search fuel v size h = Return (r, h') -> extends h h'.
Proof.
  induction fuel as [|fuel IH]; intros v h r h' H; [discriminate|].
  cbn [search] in H. destruct v as [values|].
  2:{ apply ret_Return in H as [_ ->]. apply extends_refl. }
  step_lift H as m Hm. step H as done h1 Hd.
  apply all_single_store in Hd as ->.
  destruct done.
  - step H as sol h1 Hsol. apply first_values_store in Hsol as ->.
    apply ret_Return in H as [_ ->]. apply extends_refl.
  - step H as cs h1 Hcs. apply open_cells_store in Hcs as ->.
    step_lift H as ns Hns. step_lift H as l Hl. step_load H as c0 Hc0.
    eapply try_candidates_extends; [|exact H]. exact IH.
Qed.

(** C3.  A speculative branch of the search -- the copy of the assignment,
    [assign] on the copy and the recursive search on the result -- works in
    lists of its own: when it comes back, with a failure or with a solution,
    the store it started from is still there, so every candidate list of the
    assignment held at the choice point is what it was, and the next
    candidate is tried from that state. *)
Theorem speculation_keeps_choice_point (fuel : nat) (size : Z) (values : dict)
  (s : cell) (d : digit) (peers : peers_arg) (h h' : store) (r : option solution) :
  speculate (fun v => search fuel v size) fuel values s d peers h = Return (r, h') ->
  extends h h'
  /\ forall t l, Py.assoc t values = Some l -> (l < length h)%nat ->
                 h' !! l = h !! l /\ candidates values t h' = Return (default [] (h !! l), h').
Proof.
  intros H. apply speculate_extends in H.
  2:{ intros v h0 r0 h0'. apply search_extends. }
  split; [exact H|]. intros t l Ht Hl. destruct H as [_ H].
  split; [now apply H|].
  unfold candidates, bindM, lift, Py.getitem, load. rewrite Ht.
  now rewrite H.
Qed.

End StoreFacts.

(* ===================================================================== *)
(** * sudo.py: what propagation establishes                               *)
(* ===================================================================== *)

Module PropagationFacts.
Import PyFacts Sudo BuilderFacts StoreFacts.

(** The candidates of cell [s] in store [h] under the dict [values]. *)
Definition view (values : dict) (h : store) (s : cell) : list digit :=
  match Py.assoc s values with
  | Some l => default [] (h !! l)
  | None => []
  end.

(** The dict holds a list of its own for every cell, and the store has it. *)
Definition wf (values : dict) (h : store) : Prop :=
  List.NoDup (locs values) /\ forall l, In l (locs values) -> (l < length h)%nat.

Lemma remove_spec (d : digit) (c c' : list digit) :
  Py.remove d c = Return c' ->
  incl c' c /\ length c = S (length c')
  /\ (List.NoDup c -> List.NoDup c' /\ ~ In d c').
Proof.
  revert c'. induction c as [|y c IH]; intros c' H; [discriminate|].
  cbn [Py.remove] in H. destruct (String.eqb d y) eqn:E.
  - injection H as <-. apply String.eqb_eq in E as <-.
    split; [apply incl_tl, incl_refl|]. split; [reflexivity|].
    intros N. inversion N; subst. auto.
  - apply bind_Return in H as (r & Hr & H). injection H as <-.
    apply String.eqb_neq in E.
    destruct (IH r Hr) as (I1 & L1 & N1).
    split; [|split].
    + intros x [->|Hx]; [left; reflexivity | right; auto].
    + cbn. congruence.
    + intros N. inversion N; subst. destruct (N1 H2) as [N2 N3].
      split; [constructor; auto | intros [?|?]; auto].
Qed.

Lemma same_loc_same_cell (values : dict) (s t : cell) (l : loc) :
  List.NoDup (locs values) ->
  Py.assoc s values = Some l -> Py.assoc t values = Some l -> s = t.
Proof.
  unfold locs. induction values as [|[k l0] values IH]; cbn; [discriminate|].
  intros N Hs Ht. inversion N as [|? ? Hnin N']; subst.
  destruct (String.eqb s k) eqn:Es, (String.eqb t k) eqn:Et.
  - apply String.eqb_eq in Es, Et. congruence.
  - injection Hs as <-. apply assoc_In in Ht. apply (in_map snd) in Ht. tauto.
  - injection Ht as <-. apply assoc_In in Hs. apply (in_map snd) in Hs. tauto.
  - auto.
Qed.

Section Views.
Variable values : dict.

Lemma view_write_same (h : store) (s : cell) (l : loc) (c : list digit) :
  wf values h -> Py.assoc s values = Some l ->
  view values (<[l := c]> h) s = c.
Proof.
  intros [_ W] Hs. unfold view. rewrite Hs.
  rewrite list_lookup_insert_eq; [reflexivity|].
  apply W. apply assoc_In in Hs. apply (in_map snd) in Hs. exact Hs.
Qed.

Lemma view_write_other (h : store) (s t : cell) (l : loc) (c : list digit) :
  wf values h -> Py.assoc s values = Some l -> t <> s ->
  view values (<[l := c]> h) t = view values h t.
Proof.
  intros [N _] Hs Hne. unfold view.
  destruct (Py.assoc t values) as [l'|] eqn:Ht; [|reflexivity].
  rewrite list_lookup_insert_ne; [reflexivity|].
  intros ->. apply Hne. eapply same_loc_same_cell; eassumption.
Qed.

Lemma wf_length (h h' : store) : length h' = length h -> wf values h -> wf values h'.
Proof. intros L [N W]. split; [exact N|]. intros l Hl. rewrite L. auto. Qed.

(** Candidate lists only lose members. *)
Definition shrinks (h h' : store) : Prop :=
  forall t, incl (view values h' t) (view values h t)
            /\ (List.NoDup (view values h t) -> List.NoDup (view values h' t)).

Lemma shrinks_refl (h : store) : shrinks h h.
Proof. intros t. split; [apply incl_refl | auto]. Qed.

Lemma shrinks_trans (h1 h2 h3 : store) :
  shrinks h1 h2 -> shrinks h2 h3 -> shrinks h1 h3.
Proof.
  intros S1 S2 t. destruct (S1 t) as [I1 N1], (S2 t) as [I2 N2].
  split; [eapply incl_tran; eassumption | auto].
Qed.

(** No candidate list of the dict repeats a digit. *)
Definition tidy (h : store) : Prop := forall t, List.NoDup (view values h t).

Lemma tidy_shrinks (h h' : store) : shrinks h h' -> tidy h -> tidy h'.
Proof. intros S T t. apply S, T. Qed.

Variable pd : list (cell * list cell).

(** No peer of [t] still admits a candidate of [t]. *)
Definition cleared (h : store) (t : cell) : Prop :=
  forall ps s2 x, Py.assoc t pd = Some ps -> In s2 ps ->
                  In x (view values h t) -> ~ In x (view values h s2).

Lemma cleared_shrinks (h h' : store) (t : cell) :
  shrinks h h' -> cleared h t -> cleared h' t.
Proof.
  intros S C ps s2 x Hps Hs2 Hx Hx2.
  apply (C ps s2 x Hps Hs2); [apply (S t) | apply (S s2)]; assumption.
Qed.

(** Every cell that came down to one candidate between [h] and [h'] has had
    that candidate removed from all its peers. *)
Definition settles (h h' : store) : Prop :=
  forall t, length (view values h' t) = 1%nat ->
            length (view values h t) <> 1%nat -> cleared h' t.

(** What one propagation step guarantees; [b] tells whether it succeeded. *)
Definition post (b : bool) (h h' : store) : Prop :=
  length h' = length h /\ shrinks h h' /\ (b = true -> settles h h').

Lemma post_refl (h : store) : post true h h.
Proof.
  split; [reflexivity|]. split; [apply shrinks_refl|].
  intros _ t H1 H2. congruence.
Qed.

Lemma post_trans (b : bool) (h1 h2 h3 : store) :
  post true h1 h2 -> post b h2 h3 -> post b h1 h3.
Proof.
  intros (L1 & S1 & T1) (L2 & S2 & T2).
  split; [congruence|]. split; [eapply shrinks_trans; eassumption|].
  intros Hb t H3 H1.
  destruct (Nat.eq_dec (length (view values h2 t)) 1%nat) as [E|E].
  - eapply cleared_shrinks; [exact S2|]. now apply T1.
  - now apply T2.
Qed.

Lemma post_weaken (b : bool) (h h' : store) : post b h h' -> post false h h'.
Proof. intros (L & S & _). split; [exact L|]. split; [exact S | discriminate]. Qed.

(** The loop [all_ok]: the steps compose, and what each successful step
    established of its item ([Q]) still holds at the end when later steps
    cannot undo it. *)
Lemma all_ok_post {A : Type} (f : A -> M bool) (Q : A -> store -> Prop) (xs : list A) :
  (forall x h b h', In x xs -> wf values h -> tidy h -> f x h = Return (b, h') ->
                    post b h h' /\ (b = true -> Q x h')) ->
  (forall x h h', Q x h -> shrinks h h' -> Q x h') ->
  forall h b h',
    wf values h -> tidy h -> all_ok f xs h = Return (b, h') ->
    post b h h' /\ (b = true -> forall x, In x xs -> Q x h').
Proof.
  intros Hf HQ. induction xs as [|x xs IH]; intros h b h' W T H.
  - apply ret_Return in H as [-> ->]. split; [apply post_refl|].
    intros _ x [].
  - cbn [all_ok] in H. step H as ok h1 H1.
    destruct (Hf x h ok h1 (or_introl eq_refl) W T H1) as [P1 Q1].
    destruct ok.
    + assert (W1 : wf values h1) by (eapply wf_length; [apply P1 | exact W]).
      assert (T1 : tidy h1) by (eapply tidy_shrinks; [apply P1 | exact T]).
      destruct (IH (fun y h2 b2 h2' Hy => Hf y h2 b2 h2' (or_intror Hy)) h1 b h' W1 T1 H)
        as [P2 Q2].
      split; [eapply post_trans; eassumption|].
      intros Hb y [<-|Hy]; [|now apply Q2].
      eapply HQ; [now apply Q1 | apply P2].
    + apply ret_Return in H as [-> ->]. split; [exact P1 | discriminate].
Qed.

(** [eliminate] with the peers dict: the step guarantee, and on success the
    digit is gone from the cell. *)
Lemma eliminate_post (fuel : nat) :
  forall s d h b h',
    wf values h -> tidy h ->
    eliminate fuel values s d (PeersDict pd) h = Return (b, h') ->
    post b h h' /\ (b = true -> ~ In d (view values h' s)).
Proof.
  induction fuel as [|fuel IH]; intros s d h b h' W T H; [discriminate|].
  cbn [eliminate] in H. step_lift H as l Hl. step_load H as c Hc.
  apply getitem_loc in Hl as [Hl _].
  assert (Hv : view values h s = c) by (unfold view; rewrite Hl; auto).
  case_if H.
  { apply ret_Return in H as [-> ->]. split; [apply post_refl|].
    intros _. rewrite Hv. apply mem_false. now apply negb_true_iff in E. }
  step_lift H as c' Hc'. step H as u h1 Hw.
  unfold write in Hw. injection Hw as _ <-.
  set (h1 := <[l := c']> h) in *.
  apply remove_spec in Hc' as (Hincl & Hlen & Hnd).
  pose proof (T s) as Ts. rewrite Hv in Ts. destruct (Hnd Ts) as [Nc' Hd].
  assert (V1 : view values h1 s = c') by (now apply view_write_same).
  assert (V2 : forall t, t <> s -> view values h1 t = view values h t)
    by (intros t Ht; now apply view_write_other with (s := s)).
  assert (S1 : shrinks h h1).
  { intros t. destruct (String.eqb_spec t s) as [->|Hne].
    - rewrite V1, Hv. auto.
    - rewrite V2 by assumption. split; [apply incl_refl | auto]. }
  assert (L1 : length h1 = length h) by apply length_insert.
  assert (P0 : post false h h1).
  { split; [exact L1|]. split; [exact S1 | discriminate]. }
  destruct c' as [|d2 [|d3 rest]].
  - apply ret_Return in H as [-> ->]. split; [exact P0 | discriminate].
  - step_lift H as ps Hps. cbn [subscript] in Hps.
    unfold Py.getitem in Hps.
    destruct (Py.assoc s pd) as [ps'|] eqn:Eps; [|discriminate].
    injection Hps as ->.
    eapply (all_ok_post _ (fun s2 h2 => ~ In d2 (view values h2 s2))) in H.
    + destruct H as [(L2 & S2 & T2) Q2].
      split; [split; [congruence|]; split; [eapply shrinks_trans; eassumption|]|].
      * intros Hb t Ht1 Ht0.
        destruct (String.eqb_spec t s) as [->|Hne].
        -- intros ps0 s2 x Hps0 Hs2 Hx. rewrite Eps in Hps0. injection Hps0 as <-.
           apply (S2 s) in Hx. rewrite V1 in Hx. destruct Hx as [<-|[]].
           now apply Q2.
        -- apply T2; [exact Hb | exact Ht1|]. now rewrite V2.
      * intros Hb Hin. apply (S2 s) in Hin. rewrite V1 in Hin. exact (Hd Hin).
    + intros s2 h2 b2 h2' _ W2 T2 H2. exact (IH _ _ _ _ _ W2 T2 H2).
    + intros s2 h2 h2' Hq Hs Hin. apply Hq. now apply (Hs s2).
    + eapply wf_length; eassumption.
    + eapply tidy_shrinks; eassumption.
  - apply ret_Return in H as [-> ->].
    split; [|intros _; now rewrite V1].
    split; [exact L1|]. split; [exact S1|].
    intros _ t Ht1 Ht0. destruct (String.eqb_spec t s) as [->|Hne].
    + rewrite V1 in Ht1. cbn in Ht1. lia.
    + rewrite V2 in Ht1 by assumption. congruence.
Qed.

(** [assign]: the step guarantee, and on success only [d] can be left. *)
Lemma assign_post (fuel : nat) (s : cell) (d : digit) (h h' : store) (b : bool) :
  wf values h -> tidy h ->
  assign fuel values s d (PeersDict pd) h = Return (b, h') ->
  post b h h' /\ (b = true -> forall x, In x (view values h' s) -> x = d).
Proof.
  intros W T H. unfold assign in H. step_lift H as l Hl. step_load H as c Hc.
  apply getitem_loc in Hl as [Hl _].
  assert (Hv : view values h s = c) by (unfold view; rewrite Hl; auto).
  eapply (all_ok_post _ (fun d2 h2 => ~ In d2 (view values h2 s))) in H.
  - destruct H as [P Q]. split; [exact P|].
    intros Hb x Hx. destruct (String.eqb_spec x d) as [|Hne]; [assumption|].
    exfalso. apply (Q Hb x); [|exact Hx].
    apply filter_In. split.
    + rewrite <- Hv. now apply (proj1 (proj2 P) s).
    + apply negb_true_iff. now apply String.eqb_neq.
  - intros d2 h2 b2 h2' _ W2 T2 H2. exact (eliminate_post _ _ _ _ _ _ W2 T2 H2).
  - intros d2 h2 h2' Hq Hs Hin. apply Hq. now apply (Hs s).
  - exact W.
  - exact T.
Qed.

End Views.

(** ** The invariant of the search *)

Section Search.
Variables (size : Z) (m : model).
Hypothesis Hm : initialize_structures size = Return m.

(** A propagated assignment: lists of its own for every cell, no repeated
    candidate, candidates taken from the digits, and every cell with one
    candidate left has seen it removed from all its peers. *)
Definition good (values : dict) (h : store) : Prop :=
  wf values h /\ tidy values h
  /\ (forall t, incl (view values h t) (digits m))
  /\ (forall t, length (view values h t) = 1%nat -> cleared values (peers m) h t).

Lemma good_post (values : dict) (h h' : store) :
  good values h -> post values (peers m) true h h' -> good values h'.
Proof.
  intros (W & T & I & C) (L & S & St).
  split; [eapply wf_length; eassumption|].
  split; [eapply tidy_shrinks; eassumption|].
  split; [intros t; eapply incl_tran; [apply (S t) | apply I]|].
  intros t Ht.
  destruct (Nat.eq_dec (length (view values h t)) 1%nat) as [E|E].
  - eapply cleared_shrinks; [exact S | now apply C].
  - now apply St.
Qed.

Lemma view_extends (values : dict) (h h' : store) (t : cell) :
  wf values h -> extends h h' -> view values h' t = view values h t.
Proof.
  intros [_ W] [_ E]. unfold view.
  destruct (Py.assoc t values) as [l|] eqn:Ht; [|reflexivity].
  rewrite E; [reflexivity|]. apply W.
  apply assoc_In in Ht. apply (in_map snd) in Ht. exact Ht.
Qed.

(** A store that keeps the lists of the dict keeps the invariant. *)
Lemma good_extends (values : dict) (h h' : store) :
  good values h -> extends h h' -> good values h'.
Proof.
  intros (W & T & I & C) E.
  assert (V : forall t, view values h' t = view values h t)
    by (intros t; now apply view_extends).
  split; [|split; [|split]].
  - destruct W as [N W]. split; [exact N|]. intros l Hl.
    specialize (W l Hl). destruct E as [E _]. lia.
  - intros t. rewrite V. apply T.
  - intros t. rewrite V. apply I.
  - intros t Ht ps s2 x Hps Hs2. rewrite !V. rewrite V in Ht.
    now apply (C t Ht ps s2 x).
Qed.

Lemma assign_good (fuel : nat) (values : dict) (s : cell) (d : digit) (h h' : store) :
  good values h ->
  assign fuel values s d (PeersDict (peers m)) h = Return (true, h') ->
  good values h'.
Proof.
  intros G H. eapply good_post; [exact G|].
  eapply assign_post; [apply G | apply G | exact H].
Qed.

Lemma assign_clues_good (fuel : nat) (values : dict) (items : grid) :
  forall h h',
    good values h ->
    assign_clues fuel values (digits m) (PeersDict (peers m)) items h = Return (true, h') ->
    good values h'.
Proof.
  induction items as [|[s d] items IH]; intros h h' G H.
  - apply ret_Return in H as [_ ->]. exact G.
  - cbn [assign_clues] in H. case_if H; [|eauto].
    step H as b h1 Ha. destruct b.
    + eapply IH; [|exact H]. eapply assign_good; eassumption.
    + apply ret_Return in H as [H _]. discriminate.
Qed.

(** The fresh assignment: one new list holding all digits per cell. *)
Lemma fresh_values_spec (sqs : list cell) (ds : list digit) :
  forall h values h',
    fresh_values sqs ds h = Return (values, h') ->
    extends h h'
    /\ length h' = (length h + length sqs)%nat
    /\ map fst values = sqs
    /\ locs values = seq (length h) (length sqs)
    /\ (forall l, In l (locs values) -> h' !! l = Some ds).
Proof.
  induction sqs as [|s sqs IH]; intros h values h' H.
  - apply ret_Return in H as [-> ->]. cbn.
    repeat split; try apply extends_refl; try lia; try tauto.
  - cbn [fresh_values] in H. step H as l h1 Ha. step H as vs h2 Hvs.
    apply alloc_extends in Ha as (-> & -> & E1).
    apply IH in Hvs as (E2 & L2 & K2 & S2 & C2).
    apply ret_Return in H as [-> ->].
    rewrite length_app in *. cbn [length] in *.
    split; [eapply extends_trans; eassumption|].
    split; [lia|]. split; [cbn; congruence|].
    split.
    + cbn [locs map snd seq]. f_equal. unfold locs in S2. rewrite S2.
      f_equal. lia.
    + intros l [<-|Hl]; [|now apply C2]. cbn [snd].
      destruct E2 as [_ E2]. rewrite E2.
      * apply list_lookup_middle. reflexivity.
      * rewrite length_app. cbn. lia.
Qed.

Lemma seq_NoDup_locs (values : dict) (a n : nat) :
  locs values = seq a n -> List.NoDup (locs values).
Proof. intros ->. apply List.seq_NoDup. Qed.

Lemma fresh_values_good (h h' : store) (values : dict) :
  fresh_values (squares m) (digits m) h = Return (values, h') ->
  good values h' /\ map fst values = squares m.
Proof.
  intros H. apply fresh_values_spec in H as (E & L & K & S & C).
  pose proof (well_formed_all _ _ Hm) as WF. unfold well_formed in WF.
  apply andb_prop in WF as [WF Hone]. apply andb_prop in WF as [WF _].
  apply andb_prop in WF as [WF _]. apply andb_prop in WF as [WF _].
  apply andb_prop in WF as [Hnd _]. apply nodupb_NoDup in Hnd.
  assert (V : forall t, view values h' t = digits m \/ view values h' t = []).
  { intros t. unfold view. destruct (Py.assoc t values) as [l|] eqn:Ht; [|auto].
    left. rewrite C; [reflexivity|].
    apply assoc_In in Ht. apply (in_map snd) in Ht. exact Ht. }
  split; [|exact K]. split; [|split; [|split]].
  - split; [eapply seq_NoDup_locs; exact S|].
    intros l Hl. rewrite S in Hl. apply in_seq in Hl. lia.
  - intros t. destruct (V t) as [-> | ->]; [exact Hnd | constructor].
  - intros t. destruct (V t) as [-> | ->]; [apply incl_refl | intros x []].
  - intros t Ht ps s2 x Hps Hs2.
    destruct (V t) as [Vt|Vt]; rewrite Vt in Ht; [|discriminate].
    apply orb_prop in Hone as [Hone|Hone].
    + apply negb_true_iff, Nat.eqb_neq in Hone. congruence.
    + rewrite forallb_forall in Hone. apply assoc_In in Hps.
      specialize (Hone _ Hps). cbn in Hone. destruct ps; [destruct Hs2 | discriminate].
Qed.

(** The copy of a good assignment is good, in the store after the copy. *)
Lemma copy_values_good (values new_values : dict) (h h' : store) :
  good values h ->
  copy_values values h = Return (new_values, h') ->
  good new_values h' /\ good values h'
  /\ forall t, view new_values h' t = view values h t.
Proof.
  intros G H.
  pose proof (copy_values_alloc _ _ _ _ H) as (E & L & K & S).
  pose proof G as (W & T & I & C).
  apply copy_values_content in H; [|apply W].
  assert (A : forall t, Py.assoc t new_values = None /\ Py.assoc t values = None
                        \/ exists l l', Py.assoc t new_values = Some l'
                                        /\ Py.assoc t values = Some l
                                        /\ h' !! l' = h !! l).
  { clear -H. induction H as [|[k l] [k' l'] vs nvs [Hk Hl] F IH]; intros t.
    - left. auto.
    - cbn [fst snd] in *. subst k'. cbn [Py.assoc].
      destruct (String.eqb t k); [right; eauto | apply IH]. }
  assert (V : forall t, view new_values h' t = view values h t).
  { intros t. unfold view.
    destruct (A t) as [[-> ->]|(l & l' & -> & -> & ->)]; reflexivity. }
  split; [|split; [exact (good_extends _ _ _ G E) | exact V]].
  split; [|split; [|split]].
  - split; [eapply seq_NoDup_locs; exact S|].
    intros l Hl. rewrite S in Hl. apply in_seq in Hl. lia.
  - intros t. rewrite V. apply T.
  - intros t. rewrite V. apply I.
  - intros t Ht ps s2 x Hps Hs2. rewrite !V. rewrite V in Ht.
    now apply (C t Ht ps s2 x).
Qed.

(** ** Solutions *)

(** What a solution gives to the cells of a unit. *)
Definition unit_digits (sol : solution) (u : list cell) : list (option digit) :=
  map (fun s => Py.assoc s sol) u.

(** A complete valid assignment: one digit for every cell of the board, and
    the digits of every row, column and subgrid unit are a permutation of the
    digit alphabet. *)
Definition valid (sol : solution) : Prop :=
  map fst sol = squares m
  /\ forall u, In u (unitlist m) ->
       exists ds, unit_digits sol u = map Some ds /\ Permutation ds (digits m).

Lemma all_single_true (values : dict) (sqs : list cell) :
  forall h h', all_single values sqs h = Return (true, h') ->
               forall s, In s sqs -> length (view values h s) = 1%nat.
Proof.
  induction sqs as [|s sqs IH]; intros h h' H t Ht; [destruct Ht|].
  cbn [all_single] in H. step H as c h1 Hc.
  apply candidates_Return in Hc as (-> & l & Hl & ->).
  case_if H; [|apply ret_Return in H as [H _]; discriminate].
  destruct Ht as [<-|Ht]; [|eauto].
  unfold view. rewrite Hl. now apply Nat.eqb_eq.
Qed.

Lemma first_values_spec (values : dict) (sqs : list cell) :
  forall h sol h', first_values values sqs h = Return (sol, h') ->
                   sol = map (fun s => (s, hd "" (view values h s))) sqs.
Proof.
  induction sqs as [|s sqs IH]; intros h sol h' H.
  - apply ret_Return in H as [-> _]. reflexivity.
  - cbn [first_values] in H. step H as c h1 Hc.
    apply candidates_Return in Hc as (-> & l & Hl & ->).
    step_lift H as d Hd. step H as r h2 Hr.
    pose proof (first_values_store _ _ _ _ _ Hr) as ->.
    apply IH in Hr as ->. apply ret_Return in H as [-> _].
    cbn [map]. f_equal. f_equal. unfold view. rewrite Hl.
    unfold Py.index in Hd. cbn in Hd. change (Z.to_nat 0) with 0%nat in Hd.
    destruct (default [] (h !! l)); [discriminate|]. cbn in *. congruence.
Qed.

(** When every cell has one candidate left, a good assignment is a valid
    solution. *)
Lemma solved_valid (values : dict) (h : store) :
  good values h ->
  (forall s, In s (squares m) -> length (view values h s) = 1%nat) ->
  valid (map (fun s => (s, hd "" (view values h s))) (squares m)).
Proof.
  intros (W & T & I & C) Hone.
  set (val := fun s => hd "" (view values h s)).
  pose proof (well_formed_all _ _ Hm) as WF. unfold well_formed in WF.
  apply andb_prop in WF as [WF _]. apply andb_prop in WF as [WF Hunits].
  apply andb_prop in WF as [WF _]. apply andb_prop in WF as [WF _].
  apply andb_prop in WF as [Hnd Hlen].
  apply nodupb_NoDup in Hnd. apply Nat.eqb_eq in Hlen.
  rewrite forallb_forall in Hunits.
  assert (Hin : forall s, In s (squares m) -> In (val s) (view values h s)).
  { intros s Hs. specialize (Hone s Hs). unfold val.
    destruct (view values h s); [discriminate | left; reflexivity]. }
  split.
  { rewrite map_map. cbn. apply map_id. }
  intros u Hu. specialize (Hunits u Hu).
  apply andb_prop in Hunits as [Hu1 Husq]. apply andb_prop in Hu1 as [Hund Hulen].
  apply nodupb_NoDup in Hund. apply Nat.eqb_eq in Hulen.
  rewrite forallb_forall in Husq.
  assert (Usq : forall s, In s u -> In s (squares m))
    by (intros s Hs; apply mem_In; auto).
  exists (map val u). split.
  - unfold unit_digits. rewrite map_map. apply map_ext_in.
    intros s Hs. apply (assoc_map_key val). now apply Usq.
  - apply NoDup_Permutation_bis.
    + apply Stdlib.Lists.Finite.Injective_map_NoDup_in; [|exact Hund].
      intros s s2 Hs Hs2 E.
      destruct (String.eqb_spec s2 s) as [->|Hne]; [reflexivity|]. exfalso.
      destruct (unit_mates_are_peers _ _ u s s2 Hm Hu Hs Hs2 Hne (Usq s Hs))
        as (ps & Hps & Hin2).
      apply (C s (Hone s (Usq s Hs)) ps s2 (val s) Hps Hin2).
      * apply Hin. auto.
      * rewrite E. apply Hin. auto.
    + rewrite length_map. lia.
    + intros x Hx. apply in_map_iff in Hx as (s & <- & Hs).
      apply (I s). apply Hin. auto.
Qed.

(** The loop over the candidates returns only valid solutions when the
    recursive call does. *)
Lemma try_candidates_sound (recur : option dict -> M (option solution))
  (fuel : nat) (values : dict) (s : cell) (l : loc) :
  (forall v h r h', recur v h = Return (r, h') -> extends h h') ->
  (forall nv h x sol h', good nv h -> recur (Some nv) h = Return (Some (x :: sol), h') ->
                         valid (x :: sol)) ->
  (forall h r h', recur None h = Return (r, h') -> r = None) ->
  forall idx h sol h',
    good values h ->
    try_candidates recur fuel values s l (PeersDict (peers m)) idx h
      = Return (Some sol, h') ->
    valid sol.
Proof.
  intros Hext Hrec Hnone. induction idx as [|i idx IH]; intros h sol h' G H.
  - apply ret_Return in H as [H _]. discriminate.
  - cbn [try_candidates] in H. step_load H as c Hc.
    destruct (nth_error c i) as [d|].
    2:{ apply ret_Return in H as [H _]. discriminate. }
    step H as r1 h1 Hs.
    assert (G1 : good values h1).
    { eapply good_extends; [exact G|]. eapply speculate_extends; [exact Hext | exact Hs]. }
    assert (V1 : forall x sol1, r1 = Some (x :: sol1) -> valid (x :: sol1)).
    { intros x sol1 ->. unfold speculate in Hs.
      step Hs as nv h2 Hcopy. step Hs as b h3 Hassign.
      destruct (copy_values_good _ _ _ _ G Hcopy) as (Gnv & _ & _).
      destruct b.
      - eapply Hrec; [|exact Hs]. eapply assign_good; eassumption.
      - apply Hnone in Hs. discriminate. }
    destruct r1 as [[|x sol1]|].
    + eapply IH; eassumption.
    + apply ret_Return in H as [H _]. injection H as ->. now apply V1.
    + eapply IH; eassumption.
Qed.

(** The search returns only valid solutions on a propagated assignment. *)
Lemma search_sound (fuel : nat) :
  forall values h sol h',
    good values h ->
    search fuel (Some values) size h = Return (Some sol, h') ->
    valid sol.
Proof.
  induction fuel as [|fuel IH]; intros values h sol h' G H; [discriminate|].
  cbn [search] in H. step_lift H as m' Hm'.
  rewrite Hm in Hm'. injection Hm' as <-.
  step H as done h1 Hd.
  pose proof (all_single_store _ _ _ _ _ Hd) as ->.
  destruct done.
  - step H as sol0 h1 Hsol. apply first_values_spec in Hsol as ->.
    apply ret_Return in H as [H _]. injection H as ->.
    apply solved_valid; [exact G|]. eapply all_single_true. exact Hd.
  - step H as cs h1 Hcs. apply open_cells_store in Hcs as ->.
    step_lift H as ns Hns. step_lift H as l Hl. step_load H as c0 Hc0.
    eapply try_candidates_sound; [| | |exact G|exact H].
    + intros v h0 r h0'. apply search_extends.
    + intros nv h0 x sol0 h0' G0 H0. eapply IH; eassumption.
    + intros h0 r h0' H0. destruct fuel; [discriminate|]. cbn [search] in H0.
      now apply ret_Return in H0.
Qed.

(** [parse_grid] returns a propagated assignment of the board. *)
Lemma parse_grid_good (fuel : nat) (g : grid) (values : dict) (h h' : store) :
  parse_grid fuel g size h = Return (Some values, h') ->
  good values h' /\ map fst values = squares m.
Proof.
  intros H. unfold parse_grid in H. step_lift H as m' Hm'.
  rewrite Hm in Hm'. injection Hm' as <-.
  step H as vs h1 Hf. step_lift H as gd Hgd. step H as b h2 Hc.
  apply ret_Return in H as [H ->]. destruct b; [|discriminate].
  injection H as ->. apply fresh_values_good in Hf as [G K].
  split; [|exact K]. eapply assign_clues_good; eassumption.
Qed.

End Search.

(** C1.  Whenever the exact search hands back a complete assignment -- from
    [solve] on a puzzle, or from [search] on the assignment that [parse_grid]
    made of a puzzle -- that assignment gives one digit to every cell of the
    board, and the digits of every row, every column and every subgrid unit
    are a permutation of the digit alphabet. *)
Theorem search_returns_valid_grids (fuel : nat) (g : grid) (size : Z)
  (h h' : store) (sol : solution) :
  solve fuel g size h = Return (Some sol, h')
  \/ (exists fuel' values h1,
        parse_grid fuel' g size h = Return (Some values, h1)
        /\ search fuel (Some values) size h1 = Return (Some sol, h')) ->
  exists m, initialize_structures size = Return m /\ valid m sol.
Proof.
  intros [H|(fuel' & values & h1 & Hp & Hs)].
  - unfold solve in H. step H as v h1 Hp.
    destruct v as [[|kv values]|];
      try (apply ret_Return in H as [H _]; discriminate).
    step H as r h2 Hs.
    destruct r as [[|x sol0]|];
      try (apply ret_Return in H as [H _]; discriminate).
    apply ret_Return in H as [H _]. injection H as ->.
    pose proof Hp as Hp'. unfold parse_grid in Hp'. step_lift Hp' as m Hm.
    exists m. split; [exact Hm|].
    destruct (parse_grid_good _ _ Hm _ _ _ _ _ Hp) as [G _].
    eapply search_sound; eassumption.
  - pose proof Hp as Hp'. unfold parse_grid in Hp'. step_lift Hp' as m Hm.
    exists m. split; [exact Hm|].
    destruct (parse_grid_good _ _ Hm _ _ _ _ _ Hp) as [G _].
    eapply search_sound; eassumption.
Qed.

End PropagationFacts.

(* ===================================================================== *)
(** * sudo.py on a 4 x 4 board                                            *)
(* ===================================================================== *)

Module Board4.
Import PyFacts Sudo BuilderFacts StoreFacts PropagationFacts.

(** Two clues: a 1 in C2 and a 1 in B3.  Together they leave A1 as the only
    cell of row A that can hold a 1. *)
Definition puzzle : grid := [("C2", "1"); ("B3", "1")].

(** The model of the 4 x 4 board. *)
Definition board : model :=
  Eval vm_compute in
    match initialize_structures 4 with
    | Return m => m
    | _ => Model "" [] [] [] [] [] 0 0 []
    end.

(** The assignment [parse_grid] makes of the puzzle, and its store. *)
Definition parsed : dict * store :=
  Eval vm_compute in
    match parse_grid 100 puzzle 4 [] with
    | Return (Some values, h) => (values, h)
    | _ => ([], [])
    end.

(** What [solve] returns on the puzzle. *)
Definition solved : solution * store :=
  Eval vm_compute in
    match solve 100 puzzle 4 [] with
    | Return (Some sol, h) => (sol, h)
    | _ => ([], [])
    end.

(** The store after the branch of the search that tries a 2 in A1. *)
Definition after_A1_2 : store :=
  Eval vm_compute in
    match speculate (fun v => search 100 v 4) 100 (fst parsed) "A1" "2"
                    (PeersDict (peers board)) (snd parsed) with
    | Return (_, h) => h
    | _ => []
    end.

(** The store after [eliminate(values, 'A1', '1', peers)] on the parsed
    puzzle. *)
Definition after_eliminate : store :=
  Eval vm_compute in
    match eliminate 100 (fst parsed) "A1" "1" (PeersDict (peers board)) (snd parsed) with
    | Return (_, h) => h
    | _ => []
    end.

Lemma search_returns_valid_grids_witness :
  exists m, initialize_structures 4 = Return m /\ valid m (fst solved).
Proof.
  apply (search_returns_valid_grids 100 puzzle 4 [] (snd solved) (fst solved)).
  left. vm_compute. reflexivity.
Defined.

(** The branch that tries a 2 in A1 fails, and it leaves the candidates of
    the choice point as they were. *)
Lemma speculation_keeps_choice_point_witness :
  speculate (fun v => search 100 v 4) 100 (fst parsed) "A1" "2"
            (PeersDict (peers board)) (snd parsed) = Return (None, after_A1_2)
  /\ extends (snd parsed) after_A1_2
  /\ forall t l, Py.assoc t (fst parsed) = Some l -> (l < length (snd parsed))%nat ->
                 after_A1_2 !! l = snd parsed !! l
                 /\ candidates (fst parsed) t after_A1_2
                    = Return (default [] (snd parsed !! l), after_A1_2).
Proof.
  assert (H : speculate (fun v => search 100 v 4) 100 (fst parsed) "A1" "2"
                (PeersDict (peers board)) (snd parsed) = Return (None, after_A1_2))
    by (vm_compute; reflexivity).
  split; [exact H|].
  exact (speculation_keeps_choice_point 100 4 (fst parsed) "A1" "2"
           (PeersDict (peers board)) (snd parsed) after_A1_2 None H).
Defined.

(** C2 fails on [sudo.eliminate].  On the assignment parsed from the puzzle,
    A1 is the only cell of row A that admits a 1.  Eliminating that 1 from A1
    leaves row A with no cell for it, yet [eliminate] returns the assignment
    ([true]) instead of [False]: it never looks at the units of the cell. *)
Theorem eliminate_misses_empty_unit :
  In ["A1"; "A2"; "A3"; "A4"] (unitlist board)
  /\ In "1" (view (fst parsed) (snd parsed) "A1")
  /\ eliminate 100 (fst parsed) "A1" "1" (PeersDict (peers board)) (snd parsed)
     = Return (true, after_eliminate)
  /\ forall s, In s ["A1"; "A2"; "A3"; "A4"] ->
               ~ In "1" (view (fst parsed) after_eliminate s).
Proof.
  split; [vm_compute; tauto|]. split; [vm_compute; tauto|].
  split; [vm_compute; reflexivity|].
  intros s Hs. cbn in Hs.
  destruct Hs as [<-|[<-|[<-|[<-|[]]]]]; vm_compute;
    intros H; repeat (destruct H as [H|H]; [discriminate|]); exact H.
Qed.

End Board4.

(* ===================================================================== *)
(** * Generators whose yielded fitness never falls                        *)
(* ===================================================================== *)

Module TraceFacts.

(** [lo <= y1 <= y2 <= ...]. *)
Fixpoint ascends (lo : Q) (ys : list Q) : Prop :=
  match ys with
  | [] => True
  | y :: r => (lo <= y)%Q /\ ascends y r
  end.

(** Every value is at least the one before it. *)
Definition nondecreasing (ys : list Q) : Prop :=
  match ys with
  | [] => True
  | y :: r => ascends y r
  end.

Lemma ascends_nondecreasing (lo : Q) (ys : list Q) : ascends lo ys -> nondecreasing ys.
Proof. destruct ys; cbn; tauto. Qed.

Lemma ascends_weaken (lo lo' : Q) (ys : list Q) :
  (lo' <= lo)%Q -> ascends lo ys -> ascends lo' ys.
Proof.
  destruct ys as [|y r]; cbn; [auto|]. intros H [H1 H2].
  split; [eapply Qle_trans; eassumption | assumption].
Qed.

Lemma last_cons_default (y lo : Q) (r : list Q) : List.last (y :: r) lo = List.last r y.
Proof.
  revert y lo. induction r as [|z r IH]; intros y lo; [reflexivity|].
  change (List.last (y :: z :: r) lo) with (List.last (z :: r) lo).
  now rewrite !IH.
Qed.

Lemma ascends_last (lo : Q) (ys : list Q) : ascends lo ys -> (lo <= List.last ys lo)%Q.
Proof.
  revert lo. induction ys as [|y r IH]; intros lo H; [apply Qle_refl|].
  destruct H as [H1 H2]. rewrite last_cons_default.
  eapply Qle_trans; [exact H1 | now apply IH].
Qed.

Lemma ascends_app (lo : Q) (ys zs : list Q) :
  ascends lo ys -> ascends (List.last ys lo) zs -> ascends lo (ys ++ zs).
Proof.
  revert lo. induction ys as [|y r IH]; intros lo H1 H2; [exact H2|].
  destruct H1 as [H H1]. cbn [app ascends]. split; [exact H|].
  apply IH; [exact H1|]. now rewrite last_cons_default in H2.
Qed.

Lemma last_app_default (lo : Q) (ys zs : list Q) :
  List.last (ys ++ zs) lo = List.last zs (List.last ys lo).
Proof.
  revert lo. induction ys as [|y r IH]; intros lo; [reflexivity|].
  cbn [app]. rewrite !last_cons_default. apply IH.
Qed.

Section Rising.
Context {S T : Type}.
Variable best : S -> Q.

(** Started in a state that satisfies [Pre], the generator yields fitness
    values that start at the tracked best and never fall; when it returns
    [a], the state satisfies [Post a] and, unless [a] says that the run is
    over ([keep a = false]), the tracked best is at least the last yield. *)
Definition rising {A : Type} (Pre : S -> Prop) (m : Gen S (T * Q) A)
  (Post : A -> S -> Prop) (keep : A -> bool) : Prop :=
  forall st, Pre st ->
    ascends (best st) (map snd (fst (m st)))
    /\ match snd (m st) with
       | Return (a, st') =>
           Post a st'
           /\ (keep a = true ->
               (List.last (map snd (fst (m st))) (best st) <= best st')%Q)
       | _ => True
       end.

Definition always {A : Type} (a : A) : bool := true.

Lemma rising_ret {A : Type} (Pre : S -> Prop) (a : A) (keep : A -> bool) :
  rising Pre (Gen.ret a) (fun b st => b = a /\ Pre st) keep.
Proof. intros st H. cbn. repeat split; auto. intros _. apply Qle_refl. Qed.

Lemma rising_bind {A B : Type} (Pre : S -> Prop) (Mid : A -> S -> Prop)
  (Post : B -> S -> Prop) (keep : B -> bool)
  (m : Gen S (T * Q) A) (f : A -> Gen S (T * Q) B) :
  rising Pre m Mid always ->
  (forall a, rising (Mid a) (f a) Post keep) ->
  rising Pre (Gen.bind m f) Post keep.
Proof.
  intros Hm Hf st HPre. specialize (Hm st HPre). unfold Gen.bind.
  destruct (m st) as [ys r]. cbn [fst snd] in Hm. destruct Hm as [Hys Hr].
  destruct r as [[a st']| |]; cbn [fst snd]; [|auto|auto].
  destruct Hr as [HMid Hlast]. specialize (Hlast eq_refl).
  specialize (Hf a st' HMid).
  destruct (f a st') as [zs r']. cbn [fst snd] in *.
  destruct Hf as [Hzs Hr'].
  rewrite map_app. split.
  - apply ascends_app; [exact Hys|]. eapply ascends_weaken; eassumption.
  - destruct r' as [[b st'']| |]; [|exact I|exact I].
    destruct Hr' as [HPost Hkeep]. split; [exact HPost|].
    intros Hk. specialize (Hkeep Hk). rewrite last_app_default.
    destruct (map snd zs) as [|z zs'] eqn:E.
    + cbn [List.last] in *. eapply Qle_trans; eassumption.
    + rewrite last_cons_default in *. exact Hkeep.
Qed.

Lemma rising_weaken {A : Type} (Pre Pre' : S -> Prop) (Post Post' : A -> S -> Prop)
  (keep : A -> bool) (m : Gen S (T * Q) A) :
  (forall st, Pre' st -> Pre st) ->
  (forall a st, Post a st -> Post' a st) ->
  rising Pre m Post keep -> rising Pre' m Post' keep.
Proof.
  intros H1 H2 H st HPre. specialize (H st (H1 st HPre)).
  destruct (m st) as [ys [[a st']| |]]; cbn [fst snd] in *; intuition.
Qed.

Lemma rising_lift {A : Type} (Pre : S -> Prop) (r : result A) (keep : A -> bool) :
  rising Pre (Gen.lift r) (fun a st => r = Return a /\ Pre st) keep.
Proof.
  intros st H. unfold Gen.lift. destruct r; cbn; auto.
  repeat split; auto. intros _. apply Qle_refl.
Qed.

(** A yield of the tracked best itself. *)
Lemma rising_yield (Pre : S -> Prop) (x : T) (q : Q) (keep : unit -> bool) :
  (forall st, Pre st -> (best st == q)%Q) ->
  rising Pre (Gen.yield (x, q)) (fun _ st => Pre st) keep.
Proof.
  intros H st HPre. specialize (H st HPre). cbn.
  assert (H1 : (best st <= q)%Q) by (apply Qle_lteq; right; exact H).
  assert (H2 : (q <= best st)%Q) by (apply Qle_lteq; right; symmetry; exact H).
  repeat split; auto.
Qed.

(** A loop whose body keeps an invariant. *)
Lemma rising_for_each {A : Type} (Inv : S -> Prop) (l : list A)
  (body : A -> Gen S (T * Q) unit) :
  (forall x, rising Inv (body x) (fun _ st => Inv st) always) ->
  rising Inv (Gen.for_each l body) (fun _ st => Inv st) always.
Proof.
  intros Hb. induction l as [|x l IH]; cbn [Gen.for_each].
  - intros st H. cbn. repeat split; auto. intros _. apply Qle_refl.
  - eapply rising_bind; [apply Hb|]. intros u. exact IH.
Qed.

(** The two loops over a body that keeps an invariant; nothing is asked of
    the state at the end of the run. *)
Lemma rising_repeat_for (Inv : S -> Prop) (body : Gen S (T * Q) bool) (n : nat) :
  rising Inv body (fun _ st => Inv st) (fun continue => continue) ->
  rising Inv (Gen.repeat_for n body) (fun _ _ => True) (fun _ => false).
Proof.
  intros Hb. induction n as [|n IH]; cbn [Gen.repeat_for].
  { intros st H. cbn. repeat split; auto. discriminate. }
  intros st HPre. specialize (Hb st HPre). unfold Gen.bind.
  destruct (body st) as [ys r]. cbn [fst snd] in Hb. destruct Hb as [Hys Hr].
  destruct r as [[continue st']| |]; cbn [fst snd]; [|auto|auto].
  destruct Hr as [HInv Hlast]. destruct continue.
  - specialize (Hlast eq_refl). specialize (IH st' HInv).
    destruct (Gen.repeat_for n body st') as [zs r']. cbn [fst snd] in *.
    destruct IH as [Hzs Hr']. rewrite map_app. split.
    + apply ascends_app; [exact Hys|]. eapply ascends_weaken; eassumption.
    + destruct r' as [[b st'']| |]; auto. split; [exact I | discriminate].
  - cbn. rewrite app_nil_r. split; [exact Hys|]. split; [exact I | discriminate].
Qed.

Lemma rising_repeat_while (Inv : S -> Prop) (body : Gen S (T * Q) bool) (fuel : nat) :
  rising Inv body (fun _ st => Inv st) (fun continue => continue) ->
  rising Inv (Gen.repeat_while fuel body) (fun _ _ => True) (fun _ => false).
Proof.
  intros Hb. induction fuel as [|n IH]; cbn [Gen.repeat_while].
  { intros st H. cbn. auto. }
  intros st HPre. specialize (Hb st HPre). unfold Gen.bind.
  destruct (body st) as [ys r]. cbn [fst snd] in Hb. destruct Hb as [Hys Hr].
  destruct r as [[continue st']| |]; cbn [fst snd]; [|auto|auto].
  destruct Hr as [HInv Hlast]. destruct continue.
  - specialize (Hlast eq_refl). specialize (IH st' HInv).
    destruct (Gen.repeat_while n body st') as [zs r']. cbn [fst snd] in *.
    destruct IH as [Hzs Hr']. rewrite map_app. split.
    + apply ascends_app; [exact Hys|]. eapply ascends_weaken; eassumption.
    + destruct r' as [[b st'']| |]; auto. split; [exact I | discriminate].
  - cbn. rewrite app_nil_r. split; [exact Hys|]. split; [exact I | discriminate].
Qed.

(** What the run yields, whatever its end. *)
Lemma rising_nondecreasing {A : Type} (Pre : S -> Prop) (m : Gen S (T * Q) A)
  (Post : A -> S -> Prop) (keep : A -> bool) (st : S) :
  rising Pre m Post keep -> Pre st -> nondecreasing (map snd (fst (m st))).
Proof. intros H HPre. eapply ascends_nondecreasing. apply (H st HPre). Qed.

End Rising.

End TraceFacts.

(* ===================================================================== *)
(** * Invariants of generators                                            *)
(* ===================================================================== *)

Module GenFacts.

Section Ensures.
Context {S Y : Type}.

(** When the generator, started in a state that meets [Pre], returns, its
    result and its final state meet [Post]. *)
Definition ensures {A : Type} (Pre : S -> Prop) (m : Gen S Y A)
  (Post : A -> S -> Prop) : Prop :=
  forall s, Pre s ->
            match snd (m s) with
            | Return (a, s') => Post a s'
            | _ => True
            end.

Lemma ensures_ret {A : Type} (Pre : S -> Prop) (a : A) :
  ensures Pre (Gen.ret a) (fun b s => b = a /\ Pre s).
Proof. intros s H. cbn. auto. Qed.

Lemma ensures_bind {A B : Type} (Pre : S -> Prop) (Mid : A -> S -> Prop)
  (Post : B -> S -> Prop) (m : Gen S Y A) (f : A -> Gen S Y B) :
  ensures Pre m Mid -> (forall a, ensures (Mid a) (f a) Post) ->
  ensures Pre (Gen.bind m f) Post.
Proof.
  intros H1 H2 s Hs. specialize (H1 s Hs). unfold Gen.bind.
  destruct (m s) as [ys [[a s']| |]]; cbn in *; auto.
  specialize (H2 a s' H1). destruct (f a s') as [zs r]. exact H2.
Qed.

Lemma ensures_weaken {A : Type} (Pre Pre' : S -> Prop) (Post Post' : A -> S -> Prop)
  (m : Gen S Y A) :
  ensures Pre m Post -> (forall s, Pre' s -> Pre s) ->
  (forall a s, Post a s -> Post' a s) -> ensures Pre' m Post'.
Proof.
  intros H Hp Hq s Hs. specialize (H s (Hp s Hs)).
  destruct (snd (m s)) as [[a s']| |]; auto.
Qed.

Lemma ensures_yield (Pre : S -> Prop) (y : Y) :
  ensures Pre (Gen.yield y) (fun _ s => Pre s).
Proof. intros s H. exact H. Qed.

Lemma ensures_lift {A : Type} (Pre : S -> Prop) (r : result A) :
  ensures Pre (Gen.lift r) (fun a s => r = Return a /\ Pre s).
Proof. intros s H. cbn. destruct r; auto. Qed.

Lemma ensures_for_each {A : Type} (Inv : S -> Prop) (l : list A)
  (body : A -> Gen S Y unit) :
  (forall x, In x l -> ensures Inv (body x) (fun _ s => Inv s)) ->
  ensures Inv (Gen.for_each l body) (fun _ s => Inv s).
Proof.
  induction l as [|x l IH]; intros H; cbn [Gen.for_each].
  - intros s Hs. exact Hs.
  - eapply ensures_bind; [apply H; now left|]. intros ?. apply IH.
    intros y Hy. apply H. now right.
Qed.

Lemma ensures_repeat_for (Inv : S -> Prop) (n : nat) (body : Gen S Y bool) :
  ensures Inv body (fun _ s => Inv s) ->
  ensures Inv (Gen.repeat_for n body) (fun _ s => Inv s).
Proof.
  intros H. induction n as [|n IH]; cbn [Gen.repeat_for].
  - intros s Hs. exact Hs.
  - eapply ensures_bind; [exact H|]. intros [|]; [exact IH|].
    intros s Hs. exact Hs.
Qed.

(** The same, with a property of everything that is yielded on the way,
    whatever the end of the run. *)
Definition emits {A : Type} (Q : Y -> Prop) (Pre : S -> Prop) (m : Gen S Y A)
  (Post : A -> S -> Prop) : Prop :=
  forall s, Pre s ->
            Forall Q (fst (m s))
            /\ match snd (m s) with
               | Return (a, s') => Post a s'
               | _ => True
               end.

Lemma emits_ret {A : Type} (Q : Y -> Prop) (Pre : S -> Prop) (a : A) :
  emits Q Pre (Gen.ret a) (fun b s => b = a /\ Pre s).
Proof. intros s H. cbn. auto. Qed.

Lemma emits_bind {A B : Type} (Q : Y -> Prop) (Pre : S -> Prop)
  (Mid : A -> S -> Prop) (Post : B -> S -> Prop)
  (m : Gen S Y A) (f : A -> Gen S Y B) :
  emits Q Pre m Mid -> (forall a, emits Q (Mid a) (f a) Post) ->
  emits Q Pre (Gen.bind m f) Post.
Proof.
  intros H1 H2 s Hs. destruct (H1 s Hs) as [Y1 R1]. unfold Gen.bind.
  destruct (m s) as [ys [[a s']| |]]; cbn [fst snd] in *; auto.
  destruct (H2 a s' R1) as [Y2 R2]. destruct (f a s') as [zs r]. cbn [fst snd] in *.
  split; [|exact R2]. apply Forall_app. auto.
Qed.

Lemma emits_weaken {A : Type} (Q : Y -> Prop) (Pre Pre' : S -> Prop)
  (Post Post' : A -> S -> Prop) (m : Gen S Y A) :
  emits Q Pre m Post -> (forall s, Pre' s -> Pre s) ->
  (forall a s, Post a s -> Post' a s) -> emits Q Pre' m Post'.
Proof.
  intros H Hp Hq s Hs. destruct (H s (Hp s Hs)) as [Y1 R1]. split; [exact Y1|].
  destruct (snd (m s)) as [[a s']| |]; auto.
Qed.

Lemma emits_yield (Q : Y -> Prop) (Pre : S -> Prop) (y : Y) :
  (forall s, Pre s -> Q y) -> emits Q Pre (Gen.yield y) (fun _ s => Pre s).
Proof. intros H s Hs. cbn. split; [|exact Hs]. constructor; [eauto | constructor]. Qed.

Lemma emits_repeat_while (Q : Y -> Prop) (Inv : S -> Prop) (n : nat)
  (body : Gen S Y bool) :
  emits Q Inv body (fun _ s => Inv s) ->
  emits Q Inv (Gen.repeat_while n body) (fun _ s => Inv s).
Proof.
  intros H. induction n as [|n IH]; cbn [Gen.repeat_while].
  - intros s Hs. cbn. auto.
  - eapply emits_bind; [exact H|]. intros [|]; [exact IH|].
    intros s Hs. cbn. auto.
Qed.

End Ensures.

Section Solver.
Context {S Y : Type}.

(** The three ways in which a generator touches the solver or the random
    source yield nothing. *)
Lemma emits_read {A : Type} (Q : Y -> Prop) (Pre : S * Rand.rng -> Prop)
  (f : S -> result A) :
  emits Q Pre (Gen.read f) (fun a s => Pre s /\ f (fst s) = Return a).
Proof.
  intros s H. unfold Gen.read. cbn [fst snd]. split; [constructor|].
  destruct (f (fst s)) as [a| |] eqn:E; [|exact I|exact I]. now split.
Qed.

Lemma emits_update (Q : Y -> Prop) (Pre Post : S * Rand.rng -> Prop)
  (f : S -> result S) :
  (forall s st', Pre s -> f (fst s) = Return st' -> Post (st', snd s)) ->
  emits Q Pre (Gen.update f) (fun _ s => Post s).
Proof.
  intros H s Hs. unfold Gen.update. cbn [fst snd]. split; [constructor|].
  destruct (f (fst s)) as [st'| |] eqn:E; [|exact I|exact I]. now apply H.
Qed.

Lemma emits_random {A : Type} (Q : Y -> Prop) (Pre : S * Rand.rng -> Prop)
  (Post : A -> S * Rand.rng -> Prop)
  (f : S -> Rand.rng -> result (A * Rand.rng)) :
  (forall s a g', Pre s -> f (fst s) (snd s) = Return (a, g') -> Post a (fst s, g')) ->
  emits Q Pre (Gen.random f) Post.
Proof.
  intros H s Hs. unfold Gen.random. cbn [fst snd]. split; [constructor|].
  destruct (f (fst s) (snd s)) as [[a g']| |] eqn:E; [|exact I|exact I]. now apply H.
Qed.

End Solver.

End GenFacts.

(* ===================================================================== *)
(** * abc_solver.py: the best fitness never falls                         *)
(* ===================================================================== *)

Module AbcTrace.
Import TraceFacts Abc.

(** The tracked global best of a run. *)
Definition best (s : solver * Rand.rng) : Q := best_fitness (fst s).

Definition any : solver * Rand.rng -> Prop := fun _ => True.

Lemma rising_read {A : Type} (f : solver -> result A) :
  rising best any (read f) (fun _ => any) always.
Proof.
  intros s _. unfold read. destruct (f (fst s)); cbn; auto.
  repeat split; auto. intros ?. apply Qle_refl.
Qed.

(** Reading an attribute tells its value in the state that follows. *)
Lemma rising_read_field {A : Type} (f : solver -> A) :
  rising best any (read (fun st => Return (f st))) (fun a s => f (fst s) = a) always.
Proof.
  intros s _. unfold read. cbn. repeat split; auto. intros ?. apply Qle_refl.
Qed.

Lemma rising_random {A : Type} (f : solver -> Rand.rng -> result (A * Rand.rng)) :
  rising best any (random f) (fun _ => any) always.
Proof.
  intros s _. unfold random. destruct (f (fst s) (snd s)) as [[a g']| |]; cbn; auto.
  repeat split; auto. intros ?. apply Qle_refl.
Qed.

(** A state change that does not lower the best fitness. *)
Lemma rising_update (Pre : solver -> Prop) (f : solver -> result solver) :
  (forall st st', Pre st -> f st = Return st' ->
                  (best_fitness st <= best_fitness st')%Q) ->
  rising best (fun s => Pre (fst s)) (update f) (fun _ => any) always.
Proof.
  intros H s HPre. unfold update. destruct (f (fst s)) as [st'| |] eqn:E; cbn; auto.
  repeat split; auto. intros ?. unfold best. cbn. eapply H; eassumption.
Qed.

Lemma set_member_best (i : Z) (a : grid) (fit : Q) (st st' : solver) :
  set_member i a fit st = Return st' -> best_fitness st' = best_fitness st.
Proof.
  unfold set_member. intros H.
  apply PyFacts.bind_Return in H as (pop & _ & H).
  apply PyFacts.bind_Return in H as (fits & _ & H).
  apply PyFacts.bind_Return in H as (trs & _ & H).
  injection H as <-. reflexivity.
Qed.

Lemma bump_trial_best (i : Z) (st st' : solver) :
  bump_trial i st = Return st' -> best_fitness st' = best_fitness st.
Proof.
  unfold bump_trial. intros H.
  apply PyFacts.bind_Return in H as (t & _ & H).
  apply PyFacts.bind_Return in H as (trs & _ & H).
  injection H as <-. reflexivity.
Qed.

(** The update of the best that follows a test [fit >= self.best_fitness]. *)
Lemma rising_new_best (seen : Q) (a : grid) (fit : Q) :
  Qle_bool seen fit = true ->
  rising best (fun s => best_fitness (fst s) = seen)
         (update (fun st => Return (set_best a fit st))) (fun _ => any) always.
Proof.
  intros Hle. apply (rising_update (fun st => best_fitness st = seen)).
  intros st st' <- [= <-]. cbn. now apply Qle_bool_iff.
Qed.

Ltac from_any := eapply rising_weaken; [intros ? _; exact I | intros ? ? _; exact I |].

Lemma rising_ret_any {A : Type} (a : A) :
  rising (T := list (list Z)) best any (Gen.ret a) (fun _ => any) always.
Proof. intros s _. cbn. repeat split; auto. intros ?. apply Qle_refl. Qed.

Lemma rising_visit (fuel : nat) (employed : bool) (i : Z) :
  rising best any (visit fuel employed i) (fun _ => any) always.
Proof.
  unfold visit.
  eapply rising_bind; [apply rising_read|]. intros current.
  eapply rising_bind; [apply rising_random|]. intros neighbor.
  eapply rising_bind; [apply rising_read|]. intros neighbor_fit.
  eapply rising_bind; [apply rising_read|]. intros fit_i.
  eapply rising_bind with (Mid := fun _ => any).
  { destruct (Qle_bool fit_i neighbor_fit); [|destruct employed].
    - apply (rising_update (fun _ => True)). intros st st' _ H.
      rewrite (set_member_best _ _ _ _ _ H). apply Qle_refl.
    - apply (rising_update (fun _ => True)). intros st st' _ H.
      rewrite (bump_trial_best _ _ _ H). apply Qle_refl.
    - apply rising_ret_any. }
  intros ?.
  eapply rising_bind; [apply rising_read_field|]. intros seen.
  destruct (Qle_bool seen neighbor_fit) eqn:E.
  - now apply rising_new_best.
  - eapply rising_weaken; [| |apply rising_ret_any]; intros; exact I.
Qed.

Lemma rising_employed_phase (fuel : nat) :
  rising best any (employed_phase fuel) (fun _ => any) always.
Proof.
  unfold employed_phase.
  eapply rising_bind; [apply rising_read|]. intros bees.
  apply rising_for_each. intros i. apply rising_visit.
Qed.

Lemma rising_onlooker_phase (fuel : nat) :
  rising best any (onlooker_phase fuel) (fun _ => any) always.
Proof.
  unfold onlooker_phase.
  eapply rising_bind; [apply rising_read|]. intros sum_fitness.
  destruct (Qlt_le_dec 0 sum_fitness); [|apply rising_ret_any].
  eapply rising_bind; [apply rising_read|]. intros bees.
  apply rising_for_each. intros i.
  eapply rising_bind; [apply rising_read|]. intros fit_i.
  eapply rising_bind; [apply rising_read|]. intros onlookers.
  apply rising_for_each. intros ?. apply rising_visit.
Qed.

Lemma rising_scout_phase :
  rising best any scout_phase (fun _ => any) always.
Proof.
  unfold scout_phase.
  eapply rising_bind; [apply rising_read|]. intros worst.
  eapply rising_bind; [apply rising_read|]. intros limit.
  destruct (limit <? worst); [|apply rising_ret_any].
  eapply rising_bind; [apply rising_read|]. intros idx.
  eapply rising_bind; [apply rising_random|]. intros fresh.
  eapply rising_bind with (Mid := fun _ => any).
  { eapply rising_weaken; [| |apply rising_lift with (Pre := any)]; intros; exact I. }
  intros member.
  eapply rising_bind; [apply rising_read|]. intros fit.
  eapply rising_bind with (Mid := fun _ => any).
  { apply (rising_update (fun _ => True)). intros st st' _ H.
    rewrite (set_member_best _ _ _ _ _ H). apply Qle_refl. }
  intros ?.
  eapply rising_bind; [apply rising_read_field|]. intros seen.
  destruct (Qle_bool seen fit) eqn:E.
  - now apply rising_new_best.
  - eapply rising_weaken; [| |apply rising_ret_any]; intros; exact I.
Qed.

Lemma rising_cycle (fuel : nat) :
  rising best any (cycle fuel) (fun _ => any) (fun continue => continue).
Proof.
  unfold cycle.
  eapply rising_bind; [apply rising_read_field|]. intros seen.
  destruct (Qeq_bool seen 1) eqn:E.
  - apply Qeq_bool_iff in E.
    eapply rising_bind with (Mid := fun _ s => best_fitness (fst s) = seen).
    { intros s Hs. cbn. repeat split; auto. intros ?. apply Qle_refl. }
    intros solution.
    eapply rising_bind with (Mid := fun _ => any).
    { eapply rising_weaken;
        [| |apply rising_yield with (Pre := fun s => best_fitness (fst s) = seen)].
      - intros s Hs. exact Hs.
      - intros; exact I.
      - intros s <-. exact E. }
    intros ?. intros s _. cbn. repeat split; auto. discriminate.
  - eapply rising_weaken with (Pre := any) (Post := fun _ => any);
      [intros; exact I | intros; exact I |].
    eapply rising_bind; [apply rising_employed_phase|]. intros ?.
    eapply rising_bind; [apply rising_onlooker_phase|]. intros ?.
    eapply rising_bind; [apply rising_scout_phase|]. intros ?.
    eapply rising_bind
      with (Mid := fun now s => best_fitness (fst s) = snd now).
    { intros s _. cbn. repeat split; auto. intros ?. apply Qle_refl. }
    intros [solution fit].
    eapply rising_bind with (Mid := fun _ => any).
    { eapply rising_weaken;
        [| |apply rising_yield with (Pre := fun s => best_fitness (fst s) = fit)].
      - intros s Hs. exact Hs.
      - intros; exact I.
      - intros s <-. apply Qeq_refl. }
    intros ?. intros s _. cbn. repeat split; auto. intros ?. apply Qle_refl.
Qed.

(** The fitness values that [ABCSolver.solve] yields never fall. *)
Lemma abc_yields_rise (fuel : nat) (st : solver) (g : Rand.rng) :
  nondecreasing (map snd (fst (solve fuel (st, g)))).
Proof.
  eapply rising_nondecreasing with (best := best) (Pre := any); [|exact I].
  unfold solve.
  eapply rising_bind; [apply rising_read|]. intros n.
  apply rising_repeat_for. apply rising_cycle.
Qed.

End AbcTrace.

(* ===================================================================== *)
(** * abc_solver.py: arrays, boxes and the random order                   *)
(* ===================================================================== *)

Module GridFacts.
Import PyFacts Abc.

(** An [n] x [n] array. *)
Definition shaped {A : Type} (n : Z) (a : list (list A)) : Prop :=
  Z.of_nat (length a) = n /\ Forall (fun row => Z.of_nat (length row) = n) a.

(** The entry at a cell inside the array. *)
Definition val (a : list (list Z)) (p : Z * Z) : Z :=
  nth (Z.to_nat (snd p)) (nth (Z.to_nat (fst p)) a []) 0.

Definition flag (a : list (list bool)) (p : Z * Z) : bool :=
  nth (Z.to_nat (snd p)) (nth (Z.to_nat (fst p)) a []) false.

(** The cell is inside an [n] x [n] array. *)
Definition inside (n : Z) (p : Z * Z) : Prop :=
  0 <= fst p < n /\ 0 <= snd p < n.

Lemma index_nth {A : Type} (l : list A) (k : Z) (d : A) :
  0 <= k < Z.of_nat (length l) -> Py.index l k = Return (nth (Z.to_nat k) l d).
Proof.
  intros H. unfold Py.index.
  destruct (k <? 0) eqn:E; [apply Z.ltb_lt in E; lia|]. rewrite E.
  destruct (nth_error l (Z.to_nat k)) as [x|] eqn:N.
  - f_equal. symmetry. now apply nth_error_nth.
  - apply nth_error_None in N. lia.
Qed.

Lemma index_Return_inv {A : Type} (l : list A) (k : Z) (x d : A) :
  0 <= k -> Py.index l k = Return x ->
  k < Z.of_nat (length l) /\ x = nth (Z.to_nat k) l d.
Proof.
  intros Hk H. pose proof (index_Return_bound l k x Hk H) as B.
  split; [lia|]. rewrite (index_nth l k d) in H by lia. congruence.
Qed.

Lemma shaped_row {A : Type} (n : Z) (a : list (list A)) (r : Z) :
  shaped n a -> 0 <= r < n -> Z.of_nat (length (nth (Z.to_nat r) a [])) = n.
Proof.
  intros [L F] Hr. rewrite List.Forall_forall in F. apply F.
  apply nth_In. lia.
Qed.

Lemma at2_val (n : Z) (a : list (list Z)) (p : Z * Z) :
  shaped n a -> inside n p -> at2 a (fst p) (snd p) = Return (val a p).
Proof.
  intros S [Hr Hc]. unfold at2.
  rewrite (index_nth a (fst p) []) by (destruct S; lia). cbn [bind].
  apply index_nth. rewrite (shaped_row n a (fst p) S Hr). exact Hc.
Qed.

Lemma at2_flag (n : Z) (a : list (list bool)) (p : Z * Z) :
  shaped n a -> inside n p -> at2 a (fst p) (snd p) = Return (flag a p).
Proof.
  intros S [Hr Hc]. unfold at2.
  rewrite (index_nth a (fst p) []) by (destruct S; lia). cbn [bind].
  apply index_nth. rewrite (shaped_row n a (fst p) S Hr). exact Hc.
Qed.

Lemma set_at_Return {A : Type} (l : list A) (k : Z) (x : A) :
  0 <= k < Z.of_nat (length l) -> set_at l k x = Return (<[Z.to_nat k := x]> l).
Proof.
  intros H. unfold set_at.
  destruct (k <? 0) eqn:E; [apply Z.ltb_lt in E; lia|]. rewrite E. cbn.
  destruct (Z.of_nat (length l) <=? k) eqn:E2; [apply Z.leb_le in E2; lia|].
  reflexivity.
Qed.

Lemma nth_insert_same {A : Type} (l : list A) (i : nat) (x d : A) :
  (i < length l)%nat -> nth i (<[i := x]> l) d = x.
Proof.
  intros H. rewrite nth_lookup. now rewrite list_lookup_insert_eq.
Qed.

Lemma nth_insert_other {A : Type} (l : list A) (i j : nat) (x d : A) :
  i <> j -> nth j (<[i := x]> l) d = nth j l d.
Proof.
  intros H. rewrite !nth_lookup. now rewrite list_lookup_insert_ne.
Qed.

(** [a[r, c] = v] inside the array: the shape stays, the cell holds [v], the
    other cells hold what they held. *)
Lemma set2_spec (n : Z) (a : list (list Z)) (p : Z * Z) (v : Z) :
  shaped n a -> inside n p ->
  exists a', set2 a (fst p) (snd p) v = Return a'
             /\ shaped n a'
             /\ val a' p = v
             /\ forall q, inside n q -> q <> p -> val a' q = val a q.
Proof.
  intros S [Hr Hc]. pose proof S as [L F].
  pose proof (shaped_row n a (fst p) S Hr) as Lr.
  unfold set2. rewrite (index_nth a (fst p) []) by lia. cbn [bind].
  rewrite set_at_Return by lia. cbn [bind].
  rewrite set_at_Return by lia.
  eexists. split; [reflexivity|]. split; [|split].
  - split; [rewrite length_insert; exact L|].
    apply Forall_insert; [exact F|]. rewrite length_insert. exact Lr.
  - unfold val. rewrite nth_insert_same by lia. apply nth_insert_same. lia.
  - intros q [Hqr Hqc] Hne. unfold val.
    destruct (Z.eq_dec (fst q) (fst p)) as [E|E].
    + rewrite E, nth_insert_same by lia.
      apply nth_insert_other. intros E2. apply Hne.
      destruct p, q; cbn in *. f_equal; lia.
    + rewrite nth_insert_other by lia. reflexivity.
Qed.

(** ** Boxes *)

Lemma range_from_In (a b k : Z) : In k (range_from a b) <-> a <= k < b.
Proof.
  unfold range_from. rewrite in_map_iff. split.
  - intros (i & <- & Hi). apply range_In in Hi. lia.
  - intros H. exists (k - a). split; [lia|]. apply range_In. lia.
Qed.

Lemma range_NoDup (n : Z) : List.NoDup (Py.range n).
Proof.
  unfold Py.range. apply Stdlib.Lists.Finite.Injective_map_NoDup; [|apply List.seq_NoDup].
  intros x y. lia.
Qed.

Lemma range_from_NoDup (a b : Z) : List.NoDup (range_from a b).
Proof.
  unfold range_from. apply Stdlib.Lists.Finite.Injective_map_NoDup; [|apply range_NoDup].
  intros x y. lia.
Qed.

Lemma range_length (n : Z) : length (Py.range n) = Z.to_nat n.
Proof. unfold Py.range. now rewrite length_map, length_seq. Qed.

Lemma box_cells_In (sr sc br bc : Z) (p : Z * Z) :
  In p (box_cells sr sc br bc)
  <-> br <= fst p < br + sr /\ bc <= snd p < bc + sc.
Proof.
  unfold box_cells. rewrite in_flat_map. split.
  - intros (r & Hr & Hp). apply in_map_iff in Hp as (c & <- & Hc).
    apply range_from_In in Hr, Hc. cbn. lia.
  - intros [Hr Hc]. exists (fst p). split; [now apply range_from_In|].
    apply in_map_iff. exists (snd p). split; [now destruct p|].
    now apply range_from_In.
Qed.

Lemma pairs_NoDup {A B : Type} (xs : list A) (f : A -> list B) (mk : A -> B -> A * B) :
  (forall a b, mk a b = (a, b)) ->
  List.NoDup xs -> (forall x, List.NoDup (f x)) ->
  List.NoDup (flat_map (fun x => map (mk x) (f x)) xs).
Proof.
  intros Hmk Hx Hf. induction Hx as [|x xs Hnin Hx IH]; cbn; [constructor|].
  apply NoDup_ListNoDup. apply NoDup_app. split; [|split].
  - apply NoDup_ListNoDup.
    apply Stdlib.Lists.Finite.Injective_map_NoDup; [|apply Hf].
    intros b b'. rewrite !Hmk. congruence.
  - intros p Hp Hp'. apply list_elem_of_In in Hp, Hp'.
    apply in_map_iff in Hp as (b & <- & _).
    apply in_flat_map in Hp' as (x' & Hx' & Hp').
    apply in_map_iff in Hp' as (b' & E & _). rewrite !Hmk in E.
    injection E as -> _. contradiction.
  - apply NoDup_ListNoDup. exact IH.
Qed.

Lemma box_cells_NoDup (sr sc br bc : Z) : List.NoDup (box_cells sr sc br bc).
Proof.
  unfold box_cells.
  apply (pairs_NoDup _ (fun _ => range_from bc (bc + sc)) (fun r c => (r, c)));
    auto using range_from_NoDup.
Qed.

Lemma flat_map_const_length {A B : Type} (xs : list A) (f : A -> list B) (k : nat) :
  (forall x, length (f x) = k) -> length (flat_map f xs) = (length xs * k)%nat.
Proof.
  intros H. induction xs as [|x xs IH]; cbn; [reflexivity|].
  rewrite length_app, H, IH. lia.
Qed.

Lemma box_cells_length (sr sc br bc : Z) :
  0 <= sr -> 0 <= sc -> Z.of_nat (length (box_cells sr sc br bc)) = sr * sc.
Proof.
  intros Hr Hc. unfold box_cells.
  rewrite (flat_map_const_length _ _ (Z.to_nat sc)).
  - unfold range_from. rewrite length_map, range_length. nia.
  - intros r. unfold range_from. rewrite !length_map, range_length. f_equal. lia.
Qed.

Lemma range_step_In_iff (stop step k : Z) :
  0 < step -> In k (Py.range_step stop step)
              <-> exists q, 0 <= q /\ k = q * step /\ k < stop.
Proof.
  intros Hs. split.
  - unfold Py.range_step. intros H. apply in_map_iff in H as (i & <- & Hi).
    apply in_seq in Hi. exists (Z.of_nat i). split; [lia|]. split; [reflexivity|].
    destruct (Z.le_gt_cases stop 0) as [Hle|Hgt].
    + assert ((stop + step - 1) / step <= 0).
      { apply Z.lt_succ_r. apply Z.div_lt_upper_bound; lia. }
      lia.
    + assert (Z.of_nat i < (stop + step - 1) / step) by lia.
      assert (step * ((stop + step - 1) / step) <= stop + step - 1)
        by (apply Z.mul_div_le; lia).
      nia.
  - intros (q & Hq & -> & Hlt). now apply range_step_In.
Qed.

Lemma box_corners_In (n sr sc : Z) (p : Z * Z) :
  0 < sr -> 0 < sc ->
  In p (box_corners n sr sc)
  <-> (exists i, 0 <= i /\ fst p = i * sr /\ fst p < n)
      /\ (exists j, 0 <= j /\ snd p = j * sc /\ snd p < n).
Proof.
  intros Hr Hc. unfold box_corners. rewrite in_flat_map. split.
  - intros (br & Hbr & Hp). apply in_map_iff in Hp as (bc & <- & Hbc).
    apply range_step_In_iff in Hbr, Hbc; auto.
  - intros [Hi Hj]. exists (fst p). split; [now apply range_step_In_iff|].
    apply in_map_iff. exists (snd p). split; [now destruct p|].
    now apply range_step_In_iff.
Qed.

(** The corner of the box of a cell: [(row // sr) * sr, (col // sc) * sc]. *)
Definition corner_of (sr sc : Z) (p : Z * Z) : Z * Z :=
  (fst p / sr * sr, snd p / sc * sc).

Section Boxes.
Variables n sr sc : Z.
Hypothesis Hsr : 0 < sr.
Hypothesis Hsc : 0 < sc.
Hypothesis Hn : sr * sc = n.

(** A cell of a box of the board lies inside the board, and the box is the
    one found from the cell. *)
Lemma box_cell_inside (b p : Z * Z) :
  In b (box_corners n sr sc) -> In p (box_cells sr sc (fst b) (snd b)) ->
  inside n p /\ corner_of sr sc p = b.
Proof.
  intros Hb Hp. apply box_corners_In in Hb as [(i & Hi & Ei & Li) (j & Hj & Ej & Lj)]; auto.
  apply box_cells_In in Hp as [Hr Hc]. rewrite Ei in Hr, Li. rewrite Ej in Hc, Lj.
  assert (i < sc) by nia. assert (j < sr) by nia.
  split; [split; nia|].
  unfold corner_of. destruct b as [br bc]. cbn in *. subst br bc. f_equal.
  - f_equal. symmetry. apply Z.div_unique with (r := fst p - i * sr); lia.
  - f_equal. symmetry. apply Z.div_unique with (r := snd p - j * sc); lia.
Qed.

(** Every cell of the board is in the box found from it. *)
Lemma corner_of_spec (p : Z * Z) :
  inside n p ->
  In (corner_of sr sc p) (box_corners n sr sc)
  /\ In p (box_cells sr sc (fst (corner_of sr sc p)) (snd (corner_of sr sc p))).
Proof.
  intros [Hr Hc]. unfold corner_of. cbn [fst snd].
  pose proof (Z.div_mod (fst p) sr ltac:(lia)) as Er.
  pose proof (Z.mod_pos_bound (fst p) sr Hsr) as Br.
  pose proof (Z.div_mod (snd p) sc ltac:(lia)) as Ec.
  pose proof (Z.mod_pos_bound (snd p) sc Hsc) as Bc.
  assert (0 <= fst p / sr) by (apply Z.div_pos; lia).
  assert (0 <= snd p / sc) by (apply Z.div_pos; lia).
  split.
  - apply box_corners_In; auto. cbn [fst snd]. split; eexists; repeat split; eauto; nia.
  - apply box_cells_In. cbn [fst snd]. lia.
Qed.

End Boxes.

(** ** The random order *)

Lemma take_out_Permutation {A : Type} (k : nat) (l : list A) :
  (k < length l)%nat ->
  exists x r, Rand.take_out k l = Some (x, r) /\ Permutation (x :: r) l.
Proof.
  revert k. induction l as [|y l IH]; intros k H; [cbn in H; lia|].
  destruct k as [|k]; cbn [Rand.take_out].
  - exists y, l. split; [reflexivity | apply Permutation_refl].
  - destruct (IH k) as (x & r & -> & P); [cbn in H; lia|].
    exists x, (y :: r). split; [reflexivity|].
    eapply perm_trans; [apply perm_swap|]. now constructor.
Qed.

Lemma pick_Permutation {A : Type} (n : nat) :
  forall (l : list A) (g : Rand.rng),
    length l = n -> Permutation (fst (Rand.pick n l g)) l.
Proof.
  induction n as [|n IH]; intros l g H.
  - destruct l; [constructor | discriminate].
  - cbn [Rand.pick]. destruct (Rand.next g) as [k g'].
    destruct (take_out_Permutation (k mod length l) l) as (x & r & E & P).
    { apply Nat.mod_upper_bound. lia. }
    rewrite E. specialize (IH r g').
    destruct (Rand.pick n r g') as [xs g''] eqn:Ep. cbn [fst] in *.
    eapply perm_trans; [|exact P]. constructor. apply IH.
    apply Permutation_length in P. cbn in P. lia.
Qed.

(** [random.shuffle] returns the items in some order. *)
Lemma shuffle_Permutation {A : Type} (l : list A) (g : Rand.rng) :
  Permutation (fst (Rand.shuffle l g)) l.
Proof. unfold Rand.shuffle. now apply pick_Permutation. Qed.

End GridFacts.

(* ===================================================================== *)
(** * abc_solver.py: the members of the population                        *)
(* ===================================================================== *)

Module AbcLegal.
Import PyFacts Abc GridFacts.

(** The digits [1 .. n]. *)
Definition digits_1_to (n : Z) : list Z := map (fun i => i + 1) (Py.range n).

(** The cells of the box with corner [b], and its clues. *)
Definition cells_of (st : solver) (b : Z * Z) : list (Z * Z) :=
  box_cells (subgrid_rows st) (subgrid_cols st) (fst b) (snd b).

Definition corners (st : solver) : list (Z * Z) :=
  box_corners (size st) (subgrid_rows st) (subgrid_cols st).

Definition clues_of (st : solver) (b : Z * Z) : list Z :=
  map (val (puzzle st)) (List.filter (flag (fixed_cells st)) (cells_of st b)).

(** A solver built on a puzzle of the right shape whose clues are digits of
    the board and do not repeat inside a subgrid. *)
Record proper (st : solver) : Prop := Proper {
  proper_sr : 0 < subgrid_rows st;
  proper_sc : 0 < subgrid_cols st;
  proper_n : subgrid_rows st * subgrid_cols st = size st;
  proper_puzzle : shaped (size st) (puzzle st);
  proper_fixed : shaped (size st) (fixed_cells st);
  proper_flag : forall p, inside (size st) p ->
                          flag (fixed_cells st) p = negb (val (puzzle st) p =? 0);
  proper_clues : forall p, inside (size st) p -> 0 <= val (puzzle st) p <= size st;
  proper_boxes : forall b, In b (corners st) -> List.NoDup (clues_of st b)
}.

(** A complete grid that is legal within every subgrid and keeps the clues:
    the entries of every subgrid are a permutation of [1 .. n], and every
    fixed cell holds its clue. *)
Definition legal (st : solver) (a : list (list Z)) : Prop :=
  shaped (size st) a
  /\ (forall b, In b (corners st) ->
        Permutation (map (val a) (cells_of st b)) (digits_1_to (size st)))
  /\ (forall p, inside (size st) p -> flag (fixed_cells st) p = true ->
                val a p = val (puzzle st) p).

(** The grid keeps the clues (it may be incomplete). *)
Definition keeps_clues (st : solver) (a : list (list Z)) : Prop :=
  shaped (size st) a
  /\ forall p, inside (size st) p -> flag (fixed_cells st) p = true ->
               val a p = val (puzzle st) p.

Definition free_cells (st : solver) (cells : list (Z * Z)) : list (Z * Z) :=
  List.filter (fun p => negb (flag (fixed_cells st) p)) cells.

Lemma digits_1_to_In (n d : Z) : In d (digits_1_to n) <-> 1 <= d <= n.
Proof.
  unfold digits_1_to. rewrite in_map_iff. split.
  - intros (i & <- & Hi). apply range_In in Hi. lia.
  - intros H. exists (d - 1). split; [lia|]. apply range_In. lia.
Qed.

Lemma digits_1_to_NoDup (n : Z) : List.NoDup (digits_1_to n).
Proof.
  unfold digits_1_to. apply Stdlib.Lists.Finite.Injective_map_NoDup; [|apply range_NoDup].
  intros x y. lia.
Qed.

Lemma existsb_eqb_In (d : Z) (l : list Z) : existsb (Z.eqb d) l = true <-> In d l.
Proof.
  rewrite existsb_exists. split.
  - intros (x & Hx & E). apply Z.eqb_eq in E. now subst.
  - intros H. exists d. split; [assumption | apply Z.eqb_refl].
Qed.

(** The clues of a box together with the digits that are missing from it are
    the digits of the board. *)
Lemma existing_and_missing (n : Z) (existing : list Z) :
  List.NoDup existing -> (forall d, In d existing -> 1 <= d <= n) ->
  Permutation (existing ++ missing_digits n existing) (digits_1_to n).
Proof.
  intros N B. apply NoDup_Permutation.
  - apply NoDup_app.
    split; [now apply (proj2 (NoDup_ListNoDup _))|]. split.
    + intros d Hd Hm. apply list_elem_of_In in Hd, Hm.
      apply filter_In in Hm as [_ Hm]. apply negb_true_iff in Hm.
      apply existsb_eqb_In in Hd. congruence.
    + apply (proj2 (NoDup_ListNoDup _)). apply List.NoDup_filter. apply digits_1_to_NoDup.
  - apply (proj2 (NoDup_ListNoDup _)), digits_1_to_NoDup.
  - intros d. rewrite !list_elem_of_In, in_app_iff. unfold missing_digits.
    rewrite filter_In.
    fold (digits_1_to n). rewrite digits_1_to_In, negb_true_iff. split.
    + intros [H|[H _]]; auto.
    + intros H. destruct (existsb (Z.eqb d) existing) eqn:E; [|auto].
      left. now apply existsb_eqb_In.
Qed.

Lemma map_filter_split {A B : Type} (f : A -> B) (P : A -> bool) (l : list A) :
  Permutation (map f l)
              (map f (List.filter P l) ++ map f (List.filter (fun x => negb (P x)) l)).
Proof.
  induction l as [|x l IH]; cbn; [constructor|].
  destruct (P x); cbn.
  - now constructor.
  - eapply perm_trans; [|apply Permutation_middle]. now constructor.
Qed.

Lemma filter_lengths {A : Type} (P : A -> bool) (l : list A) :
  (length (List.filter P l) + length (List.filter (fun x => negb (P x)) l)
   = length l)%nat.
Proof. induction l as [|x l IH]; cbn; [reflexivity|]. destruct (P x); cbn; lia. Qed.

(** Exchanging the values of two cells of a list of distinct cells permutes
    the values read along the list. *)
Lemma swap_map_perm_ordered {A B : Type} (f f' : A -> B) (p q : A) (l1 l3 l4 : list A) :
  List.NoDup (l1 ++ p :: l3 ++ q :: l4) ->
  f' p = f q -> f' q = f p ->
  (forall r, In r (l1 ++ p :: l3 ++ q :: l4) -> r <> p -> r <> q -> f' r = f r) ->
  Permutation (map f' (l1 ++ p :: l3 ++ q :: l4)) (map f (l1 ++ p :: l3 ++ q :: l4)).
Proof.
  intros N Ep Eq O.
  pose proof (NoDup_remove_2 _ _ _ N) as Hp.
  pose proof (NoDup_remove_1 _ _ _ N) as N1.
  rewrite app_assoc in N1. pose proof (NoDup_remove_2 _ _ _ N1) as Hq.
  rewrite !in_app_iff in Hp, Hq. cbn [In] in Hp.
  assert (Same : forall l, (forall r, In r l -> In r l1 \/ In r l3 \/ In r l4) ->
                           map f' l = map f l).
  { intros l Hl. apply map_ext_in. intros r Hr. specialize (Hl r Hr). apply O.
    - rewrite in_app_iff. cbn [In]. rewrite in_app_iff. cbn [In]. tauto.
    - intros ->. tauto.
    - intros ->. tauto. }
  rewrite !map_app. cbn [map]. rewrite !map_app. cbn [map].
  rewrite (Same l1), (Same l3), (Same l4), Ep, Eq by tauto.
  apply Permutation_app_head.
  eapply perm_trans; [apply perm_skip; symmetry; apply Permutation_middle|].
  eapply perm_trans; [apply perm_swap|].
  apply perm_skip. apply Permutation_middle.
Qed.

Lemma swap_map_perm {A B : Type} (f f' : A -> B) (p q : A) (l : list A) :
  List.NoDup l -> In p l -> In q l ->
  f' p = f q -> f' q = f p ->
  (forall r, In r l -> r <> p -> r <> q -> f' r = f r) ->
  Permutation (map f' l) (map f l).
Proof.
  intros N Hp Hq Ep Eq O.
  destruct (in_split _ _ Hp) as (l1 & l2 & ->).
  apply in_app_or in Hq as [Hq|[<-|Hq]].
  - destruct (in_split _ _ Hq) as (l3 & l4 & ->).
    rewrite <- app_assoc in *. cbn [app] in *.
    apply swap_map_perm_ordered; auto.
  - apply Permutation_refl'. apply map_ext_in. intros r Hr.
    pose proof (NoDup_remove_2 _ _ _ N) as Hn. rewrite in_app_iff in Hn.
    pose proof Hr as Hr'.
    apply in_app_or in Hr' as [Hr'|[<-|Hr']]; [|exact Ep|];
      (apply O; [exact Hr | intros ->; tauto | intros ->; tauto]).
  - destruct (in_split _ _ Hq) as (l3 & l4 & ->).
    apply swap_map_perm_ordered; auto.
Qed.

(** The wrap-around keeps the new value among the digits. *)
Lemma wrap_range (n v : Z) : 1 <= n -> 1 <= wrap n v <= n.
Proof.
  intros H. unfold wrap.
  destruct (n <? v) eqn:E1; [|destruct (v <? 1) eqn:E2].
  - pose proof (Z.mod_pos_bound v n ltac:(lia)). lia.
  - pose proof (Z.mod_pos_bound (Z.abs v) n ltac:(lia)). lia.
  - apply Z.ltb_ge in E1, E2. lia.
Qed.

Section Config.
Variable st : solver.
Hypothesis P : proper st.

Let n := size st.

Lemma cells_inside (b p : Z * Z) :
  In b (corners st) -> In p (cells_of st b) ->
  inside n p /\ corner_of (subgrid_rows st) (subgrid_cols st) p = b.
Proof.
  intros Hb Hp. destruct P.
  eapply box_cell_inside; eauto.
Qed.

Lemma cells_length (b : Z * Z) : Z.of_nat (length (cells_of st b)) = n.
Proof.
  unfold cells_of. destruct P. rewrite box_cells_length; [assumption|lia|lia].
Qed.

(** The first pass over a box collects the clues of the box. *)
Lemma existing_clues_spec (sol : list (list Z)) (cells : list (Z * Z)) :
  shaped n sol -> (forall p, In p cells -> inside n p) ->
  existing_clues (fixed_cells st) sol cells
  = Return (map (val sol) (List.filter (flag (fixed_cells st)) cells)).
Proof.
  intros S. induction cells as [|[r c] cells IH]; intros Hin; [reflexivity|].
  cbn [existing_clues]. pose proof (Hin (r, c) (or_introl eq_refl)) as Hp.
  pose proof (at2_flag n _ (r, c) (proper_fixed st P) Hp) as E1.
  pose proof (at2_val n _ (r, c) S Hp) as E2. cbn [fst snd] in E1, E2.
  rewrite E1. cbn [bind List.filter].
  specialize (IH (fun p H => Hin p (or_intror H))).
  destruct (flag (fixed_cells st) (r, c)).
  - rewrite E2. cbn [bind]. rewrite IH. reflexivity.
  - exact IH.
Qed.

(** The second pass writes the missing digits, in order, into the free
    cells of the box and nowhere else. *)
Lemma fill_box_spec (missing : list Z) (cells : list (Z * Z)) :
  forall idx sol sol',
    shaped n sol -> (forall p, In p cells -> inside n p) -> List.NoDup cells ->
    0 <= idx -> (Z.to_nat idx <= length missing)%nat ->
    fill_box (fixed_cells st) missing cells idx sol = Return sol' ->
    shaped n sol'
    /\ (forall q, inside n q -> ~ In q (free_cells st cells) -> val sol' q = val sol q)
    /\ map (val sol') (free_cells st cells)
       = firstn (length (free_cells st cells)) (skipn (Z.to_nat idx) missing)
    /\ (Z.to_nat idx + length (free_cells st cells) <= length missing)%nat.
Proof.
  induction cells as [|[r c] cells IH]; intros idx sol sol' S Hin N Hidx Hle H.
  - injection H as <-. cbn. split; [exact S|]. split; [auto|]. split; [reflexivity|lia].
  - cbn [fill_box] in H. pose proof (Hin (r, c) (or_introl eq_refl)) as Hp.
    pose proof (at2_flag n _ (r, c) (proper_fixed st P) Hp) as E1.
    cbn [fst snd] in E1. rewrite E1 in H. cbn [bind] in H.
    inversion N as [|? ? Hnin N']; subst.
    unfold free_cells. cbn [List.filter]. fold (free_cells st cells).
    destruct (flag (fixed_cells st) (r, c)) eqn:F; cbn [negb].
    + apply IH; auto. intros p Hq. apply Hin. now right.
    + apply bind_Return in H as (v & Hv & H).
      apply bind_Return in H as (sol1 & H1 & H).
      apply (index_Return_inv _ _ _ 0) in Hv as [Hlt ->]; [|exact Hidx].
      destruct (set2_spec n sol (r, c) (nth (Z.to_nat idx) missing 0) S Hp)
        as (a' & E & S1 & V1 & O1).
      cbn [fst snd] in E. rewrite E in H1. injection H1 as <-.
      destruct (IH (idx + 1) a' sol' S1 (fun p Hq => Hin p (or_intror Hq)) N'
                   ltac:(lia) ltac:(lia) H) as (S2 & O2 & M2 & L2).
      assert (Hfree : ~ In (r, c) (free_cells st cells)).
      { unfold free_cells. rewrite filter_In. tauto. }
      split; [exact S2|]. split; [|split].
      * intros q Hq Hnq. rewrite O2 by (cbn in Hnq; tauto).
        apply O1; [exact Hq|]. intros ->. apply Hnq. left. reflexivity.
      * cbn [map length]. rewrite O2, V1 by assumption. rewrite M2.
        replace (Z.to_nat (idx + 1)) with (Datatypes.S (Z.to_nat idx)) by lia.
        rewrite (drop_S missing (nth (Z.to_nat idx) missing 0) (Z.to_nat idx)).
        -- reflexivity.
        -- destruct (lookup_lt_is_Some_2 missing (Z.to_nat idx) ltac:(lia)) as [x Hx].
           rewrite nth_lookup, Hx. reflexivity.
      * cbn [length]. lia.
Qed.

Lemma clues_are_digits (b : Z * Z) (d : Z) :
  In b (corners st) -> In d (clues_of st b) -> 1 <= d <= n.
Proof.
  intros Hb Hd. unfold clues_of in Hd. apply in_map_iff in Hd as (p & <- & Hp).
  apply filter_In in Hp as [Hp F].
  destruct (cells_inside b p Hb Hp) as [Hi _].
  rewrite (proper_flag st P p Hi) in F. apply negb_true_iff, Z.eqb_neq in F.
  pose proof (proper_clues st P p Hi). fold n. lia.
Qed.

Lemma digits_1_to_length : length (digits_1_to n) = Z.to_nat n.
Proof. unfold digits_1_to. now rewrite length_map, range_length. Qed.

(** One round of the loop over the boxes: the box is filled with the digits
    it lacks, the clues stay, and nothing outside the box changes. *)
Lemma box_filled (b : Z * Z) (sol sol' : list (list Z)) (g : Rand.rng) :
  In b (corners st) -> keeps_clues st sol ->
  fill_box (fixed_cells st)
           (fst (Rand.shuffle
                   (missing_digits n
                      (map (val sol) (List.filter (flag (fixed_cells st)) (cells_of st b))))
                   g))
           (cells_of st b) 0 sol = Return sol' ->
  keeps_clues st sol'
  /\ Permutation (map (val sol') (cells_of st b)) (digits_1_to n)
  /\ (forall q, inside n q -> ~ In q (cells_of st b) -> val sol' q = val sol q).
Proof.
  intros Hb [S K] H.
  set (cells := cells_of st b) in *.
  assert (Hin : forall p, In p cells -> inside n p)
    by (intros p Hp; now apply (cells_inside b p Hb)).
  assert (E : map (val sol) (List.filter (flag (fixed_cells st)) cells) = clues_of st b).
  { unfold clues_of. fold cells. apply map_ext_in. intros p Hp.
    apply filter_In in Hp as [Hp F]. apply K; auto. }
  rewrite E in H.
  set (missing := missing_digits n (clues_of st b)) in *.
  pose proof (shuffle_Permutation missing g) as Psh.
  set (shuffled := fst (Rand.shuffle missing g)) in *.
  pose proof (existing_and_missing n (clues_of st b)
                (proper_boxes st P b Hb) (fun d => clues_are_digits b d Hb)) as Pd.
  fold missing in Pd.
  destruct (fill_box_spec shuffled cells 0 sol sol' S Hin
              (box_cells_NoDup _ _ _ _) ltac:(lia) ltac:(cbn; lia) H)
    as (S' & O & M & L).
  assert (Hfixed : forall q, inside n q -> flag (fixed_cells st) q = true ->
                             val sol' q = val sol q).
  { intros q Hq F. apply O; [exact Hq|]. unfold free_cells. rewrite filter_In.
    rewrite F. cbn. intros [_ ?]. discriminate. }
  assert (Hk : length (free_cells st cells) = length shuffled).
  { pose proof (filter_lengths (flag (fixed_cells st)) cells) as Hl.
    fold (free_cells st cells) in Hl.
    pose proof (cells_length b) as Hc. fold cells in Hc.
    apply Permutation_length in Pd, Psh. rewrite length_app, digits_1_to_length in Pd.
    unfold clues_of in Pd. fold cells in Pd. rewrite length_map in Pd. lia. }
  split; [|split].
  - split; [exact S'|]. intros p Hp F. rewrite Hfixed by assumption. now apply K.
  - eapply perm_trans; [apply (map_filter_split _ (flag (fixed_cells st)))|].
    fold (free_cells st cells). rewrite M. cbn [Z.to_nat skipn].
    rewrite Hk, firstn_all.
    eapply perm_trans; [|exact Pd]. apply Permutation_app; [|exact Psh].
    rewrite <- E. apply Permutation_refl'. apply map_ext_in. intros p Hp.
    apply filter_In in Hp as [Hp F]. apply Hfixed; auto.
  - intros q Hq Hnq. apply O; [exact Hq|]. unfold free_cells. rewrite filter_In. tauto.
Qed.

Lemma range_step_NoDup (stop step : Z) : 0 < step -> List.NoDup (Py.range_step stop step).
Proof.
  intros H. unfold Py.range_step.
  apply Stdlib.Lists.Finite.Injective_map_NoDup; [|apply List.seq_NoDup].
  intros x y. nia.
Qed.

Lemma corners_NoDup : List.NoDup (corners st).
Proof.
  unfold corners, box_corners.
  apply (pairs_NoDup _ (fun _ => Py.range_step (size st) (subgrid_cols st))
                     (fun r c => (r, c))); auto.
  - apply range_step_NoDup. apply (proper_sr st P).
  - intros _. apply range_step_NoDup. apply (proper_sc st P).
Qed.

(** The loop over the boxes: every box it visits ends up filled, and the
    boxes it does not visit are as before. *)
Lemma fill_boxes_spec (bs : list (Z * Z)) :
  forall sol sol' g g',
    (forall b, In b bs -> In b (corners st)) -> List.NoDup bs ->
    keeps_clues st sol ->
    fill_boxes st bs sol g = Return (sol', g') ->
    keeps_clues st sol'
    /\ (forall b, In b bs ->
          Permutation (map (val sol') (cells_of st b)) (digits_1_to n))
    /\ (forall q, inside n q ->
          ~ In (corner_of (subgrid_rows st) (subgrid_cols st) q) bs ->
          val sol' q = val sol q).
Proof.
  induction bs as [|[br bc] bs IH]; intros sol sol' g g' Hbs N K H.
  - injection H as <- <-. split; [exact K|]. split; [intros ? []|auto].
  - cbn [fill_boxes] in H.
    pose proof (Hbs (br, bc) (or_introl eq_refl)) as Hb.
    inversion N as [|? ? Hnin N']; subst.
    change (box_cells (subgrid_rows st) (subgrid_cols st) br bc)
      with (cells_of st (br, bc)) in H.
    rewrite (existing_clues_spec sol (cells_of st (br, bc)) (proj1 K)) in H
      by (intros p Hp; now apply (cells_inside (br, bc) p Hb)).
    cbn [bind] in H.
    destruct (Rand.shuffle _ g) as [missing g1] eqn:Es.
    apply bind_Return in H as (sol1 & H1 & H).
    replace missing with (fst (Rand.shuffle
       (missing_digits (size st)
          (map (val sol) (List.filter (flag (fixed_cells st)) (cells_of st (br, bc)))))
       g)) in H1 by (now rewrite Es).
    destruct (box_filled (br, bc) sol sol1 g Hb K H1) as (K1 & P1 & O1).
    destruct (IH sol1 sol' g1 g' (fun b Hq => Hbs b (or_intror Hq)) N' K1 H)
      as (K2 & P2 & O2).
    split; [exact K2|]. split.
    + intros b [<-|Hq]; [|now apply P2].
      eapply perm_trans; [|exact P1]. apply Permutation_refl'.
      apply map_ext_in. intros p Hp.
      destruct (cells_inside (br, bc) p Hb Hp) as [Hi Hc].
      apply O2; [exact Hi|]. rewrite Hc. exact Hnin.
    + intros q Hq Hn. rewrite O2 by (cbn in Hn; tauto).
      apply O1; [exact Hq|]. intros Hc.
      destruct (cells_inside (br, bc) q Hb Hc) as [_ Ec].
      apply Hn. left. now rewrite Ec.
Qed.

(** Initialization: a new member of the population is legal. *)
Lemma new_member_legal (a : list (list Z)) (g g' : Rand.rng) :
  new_member st g = Return (a, g') -> legal st a.
Proof.
  intros H. unfold new_member in H.
  destruct (fill_boxes_spec (corners st) (puzzle st) a g g') as (K & Pm & _); auto.
  - apply corners_NoDup.
  - split; [apply (proper_puzzle st P) | reflexivity].
  - destruct K as [S K]. split; [exact S|]. split; [exact Pm | exact K].
Qed.

Lemma members_legal (k : nat) :
  forall (pop : list (list (list Z))) (g g' : Rand.rng),
    members st k g = Return (pop, g') ->
    Forall (legal st) pop /\ length pop = k.
Proof.
  induction k as [|k IH]; intros pop g g' H; cbn [members] in H.
  - injection H as <- <-. split; [constructor | reflexivity].
  - apply bind_Return in H as ([a g1] & Ha & H).
    apply bind_Return in H as ([rest g2] & Hr & H). injection H as <- <-.
    destruct (IH rest g1 g2 Hr) as [F L].
    split; [constructor; [eapply new_member_legal; eauto | exact F] | cbn; lia].
Qed.

(** ** The neighbor move *)

Lemma randint_range (a b v : Z) (g g' : Rand.rng) :
  Rand.randint a b g = Return (v, g') -> a <= v <= b.
Proof.
  unfold Rand.randint. destruct (Rand.next g) as [k g1].
  destruct (b <? a) eqn:E; [discriminate|]. intros [= <- _].
  apply Z.ltb_ge in E.
  pose proof (Z.mod_pos_bound (Z.of_nat k) (b - a + 1) ltac:(lia)). lia.
Qed.

(** The drawn cell is a free cell of the board. *)
Lemma pick_free_spec (fuel : nat) :
  forall (g g' : Rand.rng) (row col : Z),
    pick_free fuel st g = Return (row, col, g') ->
    inside n (row, col) /\ flag (fixed_cells st) (row, col) = false.
Proof.
  induction fuel as [|fuel IH]; intros g g' row col H; [discriminate|].
  cbn [pick_free] in H.
  apply bind_Return in H as ([r g1] & Hr & H).
  apply bind_Return in H as ([c g2] & Hc & H).
  apply bind_Return in H as (f & Hf & H).
  apply randint_range in Hr, Hc.
  assert (Hi : inside n (r, c)) by (unfold inside, n; cbn; lia).
  pose proof (at2_flag n _ (r, c) (proper_fixed st P) Hi) as E.
  cbn [fst snd] in E. rewrite E in Hf. injection Hf as <-.
  destruct (flag (fixed_cells st) (r, c)) eqn:F; [eauto|].
  injection H as <- <- <-. auto.
Qed.

Lemma positions_of_spec (a : list (list Z)) (cells : list (Z * Z)) (v : Z) :
  shaped n a -> (forall p, In p cells -> inside n p) ->
  positions_of a cells v = List.filter (fun p => val a p =? v) cells.
Proof.
  intros S Hin. unfold positions_of. apply filter_ext_in. intros p Hp.
  now rewrite (at2_val n a p S (Hin p Hp)).
Qed.

(** The loop over the positions of the new value: either nothing changes, or
    a free position of the value and the chosen cell exchange their values. *)
Lemma swap_first_spec (positions : list (Z * Z)) (a a' : list (list Z))
  (p : Z * Z) (x v : Z) :
  shaped n a -> inside n p -> (forall q, In q positions -> inside n q) ->
  swap_first (fixed_cells st) positions a (fst p) (snd p) x v = Return a' ->
  a' = a
  \/ exists q, In q positions /\ flag (fixed_cells st) q = false
               /\ shaped n a' /\ val a' p = v /\ (q <> p -> val a' q = x)
               /\ forall r, inside n r -> r <> p -> r <> q -> val a' r = val a r.
Proof.
  intros S Hp. induction positions as [|[r c] positions IH]; intros Hin H.
  - injection H as <-. now left.
  - cbn [swap_first] in H.
    pose proof (Hin (r, c) (or_introl eq_refl)) as Hq.
    pose proof (at2_flag n _ (r, c) (proper_fixed st P) Hq) as E.
    cbn [fst snd] in E. rewrite E in H. cbn [bind] in H.
    destruct (flag (fixed_cells st) (r, c)) eqn:F.
    + destruct IH as [->|(q & Hq' & R)]; auto.
      * intros q Hq'. apply Hin. now right.
      * right. exists q. split; [now right | exact R].
    + apply bind_Return in H as (a1 & H1 & H).
      destruct (set2_spec n a (r, c) x S Hq) as (b1 & E1 & S1 & V1 & O1).
      cbn [fst snd] in E1. rewrite E1 in H1. injection H1 as <-.
      destruct (set2_spec n b1 p v S1 Hp) as (b2 & E2 & S2 & V2 & O2).
      rewrite E2 in H. injection H as <-.
      right. exists (r, c). split; [now left|]. split; [exact F|].
      split; [exact S2|]. split; [exact V2|]. split.
      * intros Hne. rewrite O2 by assumption. exact V1.
      * intros r' Hr' Hnp Hnq. rewrite O2, O1 by assumption. reflexivity.
Qed.

(** The neighbor move maps a legal grid to a legal grid. *)
Lemma neighbor_search_legal (fuel : nat) (cur a : list (list Z)) (g g' : Rand.rng) :
  legal st cur -> neighbor_search fuel st cur g = Return (a, g') -> legal st a.
Proof.
  intros L H. pose proof L as (S & Pm & K). unfold neighbor_search in H.
  apply bind_Return in H as ([[row col] g1] & Hpick & H).
  apply bind_Return in H as ([nb g2] & _ & H).
  apply bind_Return in H as (x_ij & Hx & H).
  apply bind_Return in H as (x_kj & _ & H).
  destruct (Rand.perturb _ _ g2) as [v0 g3].
  apply bind_Return in H as (new_solution & Hnew & H). injection H as <- <-.
  destruct (pick_free_spec fuel g g1 row col Hpick) as [Hp F].
  pose proof (at2_val n cur (row, col) S Hp) as Ex. cbn [fst snd] in Ex.
  rewrite Ex in Hx. injection Hx as <-.
  set (p := (row, col)) in *.
  set (v := wrap (size st) v0) in *.
  assert (Hn1 : 1 <= n).
  { destruct Hp as [? _]. lia. }
  pose proof (wrap_range n v0 Hn1) as Hv. fold v in Hv.
  destruct (corner_of_spec n _ _ (proper_sr st P) (proper_sc st P) (proper_n st P) p Hp)
    as [Hb Hpb].
  set (b := corner_of (subgrid_rows st) (subgrid_cols st) p) in *.
  change (box_cells (subgrid_rows st) (subgrid_cols st)
            (row / subgrid_rows st * subgrid_rows st)
            (col / subgrid_cols st * subgrid_cols st))
    with (cells_of st b) in Hnew.
  fold (cells_of st b) in Hpb.
  assert (Hin : forall q, In q (cells_of st b) -> inside n q)
    by (intros q Hq; now apply (cells_inside b q Hb)).
  rewrite (positions_of_spec cur (cells_of st b) v S Hin) in Hnew.
  destruct (List.filter _ (cells_of st b)) as [|q0 qs] eqn:Epos.
  - (* the block holds every digit *)
    exfalso. assert (Hv' : In v (map (val cur) (cells_of st b))).
    { eapply Permutation_in; [symmetry; apply (Pm b Hb)|]. now apply digits_1_to_In. }
    apply in_map_iff in Hv' as (q & Eq & Hq).
    assert (Hf : In q (List.filter (fun p => val cur p =? v) (cells_of st b)))
      by (apply filter_In; split; [exact Hq | now apply Z.eqb_eq]).
    rewrite Epos in Hf. destruct Hf.
  - assert (Hpos : forall q, In q (q0 :: qs) ->
                             In q (cells_of st b) /\ val cur q = v).
    { intros q Hq. rewrite <- Epos in Hq. apply filter_In in Hq as [Hq E].
      apply Z.eqb_eq in E. auto. }
    destruct (swap_first_spec (q0 :: qs) cur new_solution p (val cur p) v S Hp
                (fun q Hq => Hin q (proj1 (Hpos q Hq))) Hnew)
      as [->|(q & Hq & Fq & S' & Vp & Vq & O)]; [exact L|].
    destruct (Hpos q Hq) as [Hqb Eq].
    assert (Vq' : val new_solution q = val cur p).
    { destruct (Z.eq_dec (fst q) (fst p)) as [E1|N1];
        [destruct (Z.eq_dec (snd q) (snd p)) as [E2|N2]|].
      - assert (q = p) as -> by (destruct q, p; cbn in *; congruence). congruence.
      - apply Vq. intros ->. congruence.
      - apply Vq. intros ->. congruence. }
    split; [exact S'|]. split.
    + intros b' Hb'. eapply perm_trans; [|apply (Pm b' Hb')].
      destruct (Z.eq_dec (fst b') (fst b)) as [E1|N1];
        [destruct (Z.eq_dec (snd b') (snd b)) as [E2|N2]|].
      * assert (b' = b) as -> by (destruct b', b; cbn in *; congruence).
        apply (swap_map_perm (val cur) (val new_solution) p q);
          auto using box_cells_NoDup.
        -- apply box_cells_NoDup.
        -- congruence.
      * apply Permutation_refl'. apply map_ext_in. intros r Hr.
        destruct (cells_inside b' r Hb' Hr) as [Hri Hrc].
        apply O; [exact Hri| |]; intros ->.
        -- fold b in Hrc. congruence.
        -- destruct (cells_inside b q Hb Hqb) as [_ Ec]. congruence.
      * apply Permutation_refl'. apply map_ext_in. intros r Hr.
        destruct (cells_inside b' r Hb' Hr) as [Hri Hrc].
        apply O; [exact Hri| |]; intros ->.
        -- fold b in Hrc. congruence.
        -- destruct (cells_inside b q Hb Hqb) as [_ Ec]. congruence.
    + intros r Hr Fr. rewrite O; [now apply K|exact Hr| |]; intros ->; congruence.
Qed.

End Config.

(** ** The population during a run *)

(** The attributes that a run never changes. *)
Definition config (st : solver) : Z * Z * Z * list (list Z) * list (list bool) :=
  (size st, subgrid_rows st, subgrid_cols st, puzzle st, fixed_cells st).

Lemma legal_config (st st' : solver) (a : list (list Z)) :
  config st = config st' -> legal st a -> legal st' a.
Proof.
  unfold config, legal, corners, cells_of. intros [= E1 E2 E3 E4 E5].
  rewrite E1, E2, E3, E4, E5. auto.
Qed.

Lemma proper_config (st st' : solver) :
  config st = config st' -> proper st -> proper st'.
Proof.
  unfold config. intros [= E1 E2 E3 E4 E5] [].
  constructor; unfold corners, clues_of, cells_of in *;
    rewrite <- ?E1, <- ?E2, <- ?E3, <- ?E4, <- ?E5; assumption.
Qed.

Lemma index_In {A : Type} (l : list A) (k : Z) (x : A) :
  Py.index l k = Return x -> In x l.
Proof.
  unfold Py.index. destruct (_ <? 0); [discriminate|].
  destruct (nth_error l _) eqn:E; [|discriminate].
  intros [= <-]. eapply nth_error_In; eauto.
Qed.

Lemma set_at_Forall {A : Type} (Q : A -> Prop) (l l' : list A) (k : Z) (x : A) :
  set_at l k x = Return l' -> Forall Q l -> Q x -> Forall Q l'.
Proof.
  unfold set_at. destruct (_ || _); [discriminate|]. intros [= <-] F Hx.
  now apply Forall_insert.
Qed.

Section Run.
Import GenFacts.
Variable st0 : solver.
Hypothesis P0 : proper st0.

(** The invariant of a run: the configuration is the initial one and every
    member of the population is legal. *)
Definition inv (s : solver * Rand.rng) : Prop :=
  config (fst s) = config st0 /\ Forall (legal st0) (population (fst s)).

Lemma ensures_read {A : Type} (Pre : solver * Rand.rng -> Prop)
  (f : solver -> result A) :
  ensures Pre (read f) (fun a s => Pre s /\ f (fst s) = Return a).
Proof.
  intros s H. unfold read. cbn [snd].
  destruct (f (fst s)) as [a| |] eqn:E; [|exact I|exact I]. now split.
Qed.

Lemma ensures_read_keep {A : Type} (Pre : solver * Rand.rng -> Prop)
  (f : solver -> result A) :
  ensures Pre (read f) (fun _ s => Pre s).
Proof. intros s H. unfold read. cbn. destruct (f (fst s)); cbn; auto. Qed.

Lemma ensures_update (Pre Post : solver * Rand.rng -> Prop)
  (f : solver -> result solver) :
  (forall s st', Pre s -> f (fst s) = Return st' -> Post (st', snd s)) ->
  ensures Pre (update f) (fun _ s => Post s).
Proof. intros H s Hs. unfold update. cbn. destruct (f (fst s)) eqn:E; cbn; auto. Qed.

Lemma ensures_random {A : Type} (Pre : solver * Rand.rng -> Prop)
  (Post : A -> solver * Rand.rng -> Prop)
  (f : solver -> Rand.rng -> result (A * Rand.rng)) :
  (forall s a g', Pre s -> f (fst s) (snd s) = Return (a, g') -> Post a (fst s, g')) ->
  ensures Pre (random f) Post.
Proof.
  intros H s Hs. unfold random. cbn.
  destruct (f (fst s) (snd s)) as [[a g']| |] eqn:E; cbn; auto.
Qed.

Lemma set_member_inv (i : Z) (a : list (list Z)) (fit : Q) (s : solver * Rand.rng)
  (st' : solver) :
  legal st0 a -> inv s -> set_member i a fit (fst s) = Return st' -> inv (st', snd s).
Proof.
  intros La [C F] H. unfold set_member in H.
  apply bind_Return in H as (pop & Hpop & H).
  apply bind_Return in H as (fits & _ & H).
  apply bind_Return in H as (trs & _ & H). injection H as <-.
  split; [exact C|]. cbn. eapply set_at_Forall; eauto.
Qed.

Lemma bump_trial_inv (i : Z) (s : solver * Rand.rng) (st' : solver) :
  inv s -> bump_trial i (fst s) = Return st' -> inv (st', snd s).
Proof.
  intros [C F] H. unfold bump_trial in H.
  apply bind_Return in H as (t & _ & H).
  apply bind_Return in H as (trs & _ & H). injection H as <-.
  split; [exact C | exact F].
Qed.

Lemma set_best_inv (a : list (list Z)) (fit : Q) (s : solver * Rand.rng) :
  inv s -> inv (set_best a fit (fst s), snd s).
Proof. intros [C F]. split; [exact C | exact F]. Qed.

(** The step shared by the employed and the onlooker bees keeps the
    invariant: a member is only ever replaced by the result of the neighbor
    move on it. *)
Lemma visit_inv (fuel : nat) (employed : bool) (i : Z) :
  ensures inv (visit fuel employed i) (fun _ s => inv s).
Proof.
  unfold visit.
  eapply ensures_bind; [apply ensures_read|]. intros current. cbn beta.
  eapply ensures_bind.
  { apply (ensures_random _ (fun neighbor s => inv s /\ legal st0 neighbor)).
    intros s a g' [[C F] E] H. split; [split; assumption|].
    apply index_In in E.
    apply (legal_config (fst s) st0 a C).
    apply (neighbor_search_legal (fst s) (proper_config st0 (fst s) (eq_sym C) P0)
             fuel current a (snd s) g'); [|exact H].
    apply (legal_config st0 (fst s) current (eq_sym C)).
    rewrite List.Forall_forall in F. now apply F. }
  intros neighbor. cbn beta.
  eapply ensures_bind; [apply ensures_read_keep|]. intros neighbor_fit.
  eapply ensures_bind; [apply ensures_read_keep|]. intros fit_i.
  eapply ensures_bind
    with (Mid := fun _ s => inv s /\ legal st0 neighbor).
  { destruct (Qle_bool fit_i neighbor_fit); [|destruct employed].
    - apply (ensures_update _ (fun s => inv s /\ legal st0 neighbor)).
      intros s st' [I L] H. split; [|exact L]. eapply set_member_inv; eauto.
    - apply (ensures_update _ (fun s => inv s /\ legal st0 neighbor)).
      intros s st' [I L] H. split; [|exact L]. eapply bump_trial_inv; eauto.
    - intros s H. exact H. }
  intros ?.
  eapply ensures_bind; [apply ensures_read_keep|]. intros best.
  destruct (Qle_bool best neighbor_fit).
  - apply (ensures_update _ inv). intros s st' [I L] [= <-]. now apply set_best_inv.
  - intros s [I L]. exact I.
Qed.

Lemma employed_phase_inv (fuel : nat) :
  ensures inv (employed_phase fuel) (fun _ s => inv s).
Proof.
  unfold employed_phase.
  eapply ensures_bind; [apply ensures_read_keep|]. intros bees.
  apply ensures_for_each. intros i _. apply visit_inv.
Qed.

Lemma onlooker_phase_inv (fuel : nat) :
  ensures inv (onlooker_phase fuel) (fun _ s => inv s).
Proof.
  unfold onlooker_phase.
  eapply ensures_bind; [apply ensures_read_keep|]. intros sum_fitness.
  destruct (Qlt_le_dec 0 sum_fitness); [|intros s H; exact H].
  eapply ensures_bind; [apply ensures_read_keep|]. intros bees.
  apply ensures_for_each. intros i _.
  eapply ensures_bind; [apply ensures_read_keep|]. intros fit_i.
  eapply ensures_bind; [apply ensures_read_keep|]. intros onlookers.
  apply ensures_for_each. intros ? _. apply visit_inv.
Qed.

(** The scout replaces a member by a newly initialized one. *)
Lemma scout_phase_inv : ensures inv scout_phase (fun _ s => inv s).
Proof.
  unfold scout_phase.
  eapply ensures_bind; [apply ensures_read_keep|]. intros worst.
  eapply ensures_bind; [apply ensures_read_keep|]. intros limit.
  destruct (limit <? worst); [|intros s H; exact H].
  eapply ensures_bind; [apply ensures_read_keep|]. intros idx.
  eapply ensures_bind.
  { apply (ensures_random _ (fun fresh s => inv s /\ Forall (legal st0) fresh)).
    intros s pop g' [C F] H. split; [split; assumption|].
    unfold initialize_population in H.
    apply (members_legal (fst s) (proper_config st0 (fst s) (eq_sym C) P0)) in H as [L _].
    eapply Forall_impl; [exact L|]. intros a. now apply legal_config. }
  intros fresh. cbn beta.
  eapply ensures_bind; [apply ensures_lift|]. intros member. cbn beta.
  eapply ensures_bind
    with (Mid := fun _ s => inv s /\ legal st0 member).
  { intros s [E [I F]]. apply index_In in E. rewrite List.Forall_forall in F.
    unfold read. cbn. destruct (evaluate (fst s) member); cbn; auto. }
  intros fit.
  eapply ensures_bind.
  { apply (ensures_update _ inv). intros s st' [I L] H. eapply set_member_inv; eauto. }
  intros ?.
  eapply ensures_bind; [apply ensures_read_keep|]. intros best.
  destruct (Qle_bool best fit).
  - apply (ensures_update _ inv). intros s st' I [= <-]. now apply set_best_inv.
  - intros s I. exact I.
Qed.

Lemma cycle_inv (fuel : nat) : ensures inv (cycle fuel) (fun _ s => inv s).
Proof.
  unfold cycle.
  eapply ensures_bind; [apply ensures_read_keep|]. intros best.
  destruct (Qeq_bool best 1).
  - eapply ensures_bind; [apply ensures_read_keep|]. intros solution.
    eapply ensures_bind; [apply ensures_yield|]. intros ?.
    intros s H. exact H.
  - eapply ensures_bind; [apply employed_phase_inv|]. intros ?.
    eapply ensures_bind; [apply onlooker_phase_inv|]. intros ?.
    eapply ensures_bind; [apply scout_phase_inv|]. intros ?.
    eapply ensures_bind; [apply ensures_read_keep|]. intros now.
    eapply ensures_bind; [apply ensures_yield|]. intros ?.
    intros s H. exact H.
Qed.

Lemma cycles_inv (fuel k : nat) :
  ensures inv (Gen.repeat_for k (cycle fuel)) (fun _ s => inv s).
Proof. apply ensures_repeat_for. apply cycle_inv. Qed.

End Run.

(** ** The solver that [__init__] builds *)

Definition is_clue (v : Z) : bool := negb (v =? 0).

(** The clues of the box with corner [b] of a puzzle given as an array. *)
Definition box_clues (sr sc : Z) (puzzle_input : list (list Z)) (b : Z * Z) : list Z :=
  List.filter is_clue (map (val puzzle_input) (box_cells sr sc (fst b) (snd b))).

Lemma flag_of_puzzle (a : list (list Z)) (p : Z * Z) :
  flag (map (map is_clue) a) p = is_clue (val a p).
Proof.
  unfold flag, val.
  change (@nil bool) with (map is_clue []).
  rewrite (map_nth (map is_clue) a []).
  change false with (is_clue 0). apply map_nth.
Qed.

Lemma shaped_map {A B : Type} (f : A -> B) (n : Z) (a : list (list A)) :
  shaped n a -> shaped n (map (map f) a).
Proof.
  intros [L F]. split; [now rewrite length_map|].
  apply List.Forall_forall. intros row Hrow.
  apply in_map_iff in Hrow as (r & <- & Hr). rewrite length_map.
  rewrite List.Forall_forall in F. auto.
Qed.

Lemma filter_map_comm {A B : Type} (f : A -> B) (Q : B -> bool) (l : list A) :
  List.filter Q (map f l) = map f (List.filter (fun x => Q (f x)) l).
Proof.
  induction l as [|x l IH]; cbn; [reflexivity|].
  destruct (Q (f x)); cbn; now rewrite IH.
Qed.

Lemma val_in_range (n : Z) (a : list (list Z)) (p : Z * Z) :
  shaped n a -> Forall (Forall (fun v => 0 <= v <= n)) a -> inside n p ->
  0 <= val a p <= n.
Proof.
  intros S F [Hr Hc]. unfold val.
  pose proof (shaped_row n a (fst p) S Hr) as Lr. destruct S as [L _].
  rewrite List.Forall_forall in F.
  assert (Hrow : In (nth (Z.to_nat (fst p)) a []) a) by (apply nth_In; lia).
  specialize (F _ Hrow). rewrite List.Forall_forall in F. apply F.
  apply nth_In. lia.
Qed.

Lemma subgrid_shape (n : Z) (m : Sudo.model) :
  Sudo.initialize_structures n = Return m ->
  0 < Sudo.subgrid_rows m /\ 0 < Sudo.subgrid_cols m
  /\ Sudo.subgrid_rows m * Sudo.subgrid_cols m = n.
Proof.
  intros H.
  apply BuilderFacts.initialize_structures_Return
    in H as (Hn & _ & _ & _ & Hsr & Hsc & _).
  apply BuilderFacts.subgrid_rows_from_spec in Hsr as [Hsr Hmod].
  pose proof (Z.div_mod n (Sudo.subgrid_rows m) ltac:(lia)) as E.
  rewrite Hmod, <- Hsc in E. nia.
Qed.

(** The solver that [__init__] builds on a well-posed puzzle is proper and
    starts from a legal population. *)
Lemma init_spec (puzzle_input : list (list Z)) (n : Z) (population_size : nat)
  (g g0 : Rand.rng) (m : Sudo.model) (st0 : solver) :
  Sudo.initialize_structures n = Return m ->
  shaped n puzzle_input ->
  Forall (Forall (fun v => 0 <= v <= n)) puzzle_input ->
  Forall (fun b => List.NoDup
                     (box_clues (Sudo.subgrid_rows m) (Sudo.subgrid_cols m) puzzle_input b))
         (box_corners n (Sudo.subgrid_rows m) (Sudo.subgrid_cols m)) ->
  init puzzle_input n population_size g = Return (st0, g0) ->
  config st0 = (n, Sudo.subgrid_rows m, Sudo.subgrid_cols m, puzzle_input,
                map (map is_clue) puzzle_input)
  /\ proper st0 /\ inv st0 (st0, g0).
Proof.
  intros Hm S R N H. unfold init in H. rewrite Hm in H. cbn [bind] in H.
  apply bind_Return in H as ([pop g1] & Hpop & H).
  apply bind_Return in H as (fits & _ & H).
  apply bind_Return in H as ([best ?] & _ & H).
  apply bind_Return in H as (best_fit & _ & H). injection H as <- <-.
  destruct (subgrid_shape n m Hm) as (Hsr & Hsc & Hn).
  match type of Hpop with initialize_population ?s _ = _ => set (st1 := s) in * end.
  assert (P1 : proper st1).
  { constructor; cbn; auto.
    - now apply shaped_map.
    - intros p _. apply flag_of_puzzle.
    - intros p Hp. now apply (val_in_range n).
    - intros b Hb. unfold clues_of, cells_of. cbn.
      rewrite List.Forall_forall in N. specialize (N b Hb). unfold box_clues in N.
      rewrite filter_map_comm in N.
      erewrite filter_ext; [exact N|]. intros p. apply flag_of_puzzle. }
  split; [reflexivity|].
  assert (C : forall st, config st = config st1 -> proper st)
    by (intros st C; now apply (proper_config st1)).
  split; [apply C; reflexivity|].
  split; [reflexivity|]. cbn.
  unfold initialize_population in Hpop.
  apply (members_legal st1 P1) in Hpop as [L _].
  eapply Forall_impl; [exact L|]. intros a. apply legal_config. reflexivity.
Qed.

(** C9.  A Bee-Colony solver is built on a puzzle given as an [N] x [N]
    array of entries from [0 .. N] (0 for an empty cell) in which no subgrid
    holds a clue twice.  Then every member of the initial population, and
    every member of the population after any number of cycles of [solve], is
    a complete grid in which every subgrid is a permutation of the digits
    [1 .. N] and every clue cell holds its clue.  Both steps that produce
    members keep this: a newly initialized member is legal, and the neighbor
    move maps a legal grid to a legal grid. *)
Theorem population_stays_legal (puzzle_input : list (list Z)) (n : Z)
  (population_size fuel k : nat) (g g0 g' : Rand.rng) (m : Sudo.model)
  (st0 st : solver) :
  Sudo.initialize_structures n = Return m ->
  shaped n puzzle_input ->
  Forall (Forall (fun v => 0 <= v <= n)) puzzle_input ->
  Forall (fun b => List.NoDup
                     (box_clues (Sudo.subgrid_rows m) (Sudo.subgrid_cols m) puzzle_input b))
         (box_corners n (Sudo.subgrid_rows m) (Sudo.subgrid_cols m)) ->
  init puzzle_input n population_size g = Return (st0, g0) ->
  snd (Gen.repeat_for k (cycle fuel) (st0, g0)) = Return (tt, (st, g')) ->
  config st0 = (n, Sudo.subgrid_rows m, Sudo.subgrid_cols m, puzzle_input,
                map (map is_clue) puzzle_input)
  /\ Forall (legal st0) (population st0)
  /\ Forall (legal st0) (population st)
  /\ (forall g1 g2 a, new_member st0 g1 = Return (a, g2) -> legal st0 a)
  /\ (forall fuel' g1 g2 cur a,
        legal st0 cur -> neighbor_search fuel' st0 cur g1 = Return (a, g2) ->
        legal st0 a).
Proof.
  intros Hm S R N Hinit Hrun.
  destruct (init_spec puzzle_input n population_size g g0 m st0 Hm S R N Hinit)
    as (C & P0 & I0).
  split; [exact C|]. split; [exact (proj2 I0)|]. split; [|split].
  - pose proof (cycles_inv st0 P0 fuel k (st0, g0) I0) as H.
    rewrite Hrun in H. exact (proj2 H).
  - intros g1 g2 a. now apply new_member_legal.
  - intros fuel' g1 g2 cur a. now apply neighbor_search_legal.
Qed.

End AbcLegal.

(* ===================================================================== *)
(** * abc_solver.py on a 4 x 4 board                                      *)
(* ===================================================================== *)

Module Hive4.
Import PyFacts Abc GridFacts AbcLegal.

(** Four clues, one in each subgrid. *)
Definition clues : list (list Z) :=
  [[1; 0; 0; 0];
   [0; 0; 3; 0];
   [0; 4; 0; 0];
   [0; 0; 0; 2]].

(** A stream of raw draws. *)
Definition stream : Rand.rng := Rand.Rng (fun i => (i * 7 + 3) mod 13)%nat 0.

(** The solver that [ABCSolver(clues, 4, 3)] builds. *)
Definition hive : solver * Rand.rng :=
  Eval vm_compute in
    match init clues 4 3 stream with
    | Return s => s
    | _ => (Solver 0 0 0 [] [] 0 0 0 0 [] [] [] 0%Q [], stream)
    end.

(** The solver after two cycles of [solve]. *)
Definition later : solver * Rand.rng :=
  Eval vm_compute in
    match snd (Gen.repeat_for 2 (cycle 20) hive) with
    | Return (_, s) => s
    | _ => hive
    end.

Lemma population_stays_legal_witness :
  Forall (legal (fst hive)) (population (fst later)).
Proof.
  refine (proj1 (proj2 (proj2
    (population_stays_legal clues 4 3 20 2 stream (snd hive) (snd later)
       Board4.board (fst hive) (fst later) _ _ _ _ _ _)))).
  - reflexivity.
  - split; [reflexivity | repeat constructor].
  - repeat constructor; lia.
  - vm_compute. repeat constructor; cbn; intuition discriminate.
  - vm_compute. reflexivity.
  - vm_compute. reflexivity.
Defined.

End Hive4.

(* ===================================================================== *)
(** * aco_solver.py: the cycles of [solve]                                *)
(* ===================================================================== *)

Module AcoFacts.
Import PyFacts Aco GenFacts TraceFacts.

(** No item of a list of strings equals a list. *)
Lemma list_index_Lst (ds l : list string) :
  list_index (map Str ds) (Lst l) = Raise ValueError.
Proof. induction ds as [|d ds IH]; cbn; [reflexivity|]. now rewrite IH. Qed.

Lemma count_fixed_bounds (sqs : list string) (vals : list (string * list string)) (k : Z) :
  count_fixed sqs vals = Return k -> 0 <= k <= Z.of_nat (length sqs).
Proof.
  revert k. induction sqs as [|s sqs IH]; cbn [count_fixed]; intros k H.
  - injection H as <-. cbn. lia.
  - apply bind_Return in H as (l & _ & H). apply bind_Return in H as (k' & Hk & H).
    injection H as <-. specialize (IH k' Hk). cbn [length].
    destruct (Nat.eqb (length l) 1); lia.
Qed.

(** The loop of the global update gets through the cells only when none of
    them is down to one candidate. *)
Lemma quiet_no_single (ds sqs : list string) (best : list (string * list string))
  (us : list unit) (k : Z) :
  mapM (fun s => match Py.assoc s best with
                 | Some l =>
                     if Nat.eqb (length l) 1 then
                       let! value := list_index (map Str ds) (Lst l) in Return tt
                     else Return tt
                 | None => Return tt
                 end) sqs = Return us ->
  count_fixed sqs best = Return k -> k = 0.
Proof.
  revert us k. induction sqs as [|s sqs IH]; cbn [mapM count_fixed]; intros us k H C.
  - now injection C as <-.
  - apply bind_Return in H as (u & Hu & H). apply bind_Return in H as (us' & Hus & _).
    apply bind_Return in C as (l & Hl & C). apply bind_Return in C as (k' & Hk & C).
    injection C as <-. rewrite (IH us' k' Hus Hk).
    unfold Py.getitem in Hl. destruct (Py.assoc s best) as [l0|]; [|discriminate].
    injection Hl as ->.
    destruct (Nat.eqb (length l) 1); [|reflexivity].
    rewrite list_index_Lst in Hu. discriminate.
Qed.

(** A global update that returns, while there is pheromone to add, found no
    cell of the best assignment down to one candidate. *)
Lemma global_quiet (st : solver) (vals : list (string * list string)) (k : Z) :
  global_pheromone_update st = Return tt ->
  best_solution st = Some vals ->
  count_fixed (squares st) vals = Return k ->
  (0 < best_pheromone_to_add st)%Q ->
  k = 0.
Proof.
  intros G B C Hp. unfold global_pheromone_update in G. rewrite B in G.
  destruct vals as [|p vals].
  - destruct (squares st) as [|s sqs]; cbn in C; [now injection C as <- | discriminate].
  - destruct (Qle_bool (best_pheromone_to_add st) 0) eqn:E.
    + apply Qle_bool_iff in E. exfalso. eapply Qlt_not_le; eassumption.
    + apply bind_Return in G as (us & Hus & _). eapply quiet_no_single; eassumption.
Qed.

(** What is known of an ant that is still valid: its [fixed] is the number
    it started with, or the count over its current candidates. *)
Definition ant_ok (st : solver) (a : ant) : Prop :=
  valid a = true ->
  fixed a = 0 \/ count_fixed (squares st) (ant_values a) = Return (fixed a).

Lemma step_ok (fuel : nat) (st : solver) (a a' : ant) (g g' : Rand.rng) :
  step fuel st a g = Return (a', g') -> ant_ok st a -> ant_ok st a'.
Proof.
  unfold step. intros H Ha. destruct (valid a) eqn:V; cbn [negb] in H.
  - apply bind_Return in H as (l & _ & H).
    apply bind_Return in H as ([[[vals sol]|] g1] & _ & H).
    + apply bind_Return in H as (k & Hk & H).
      apply bind_Return in H as (i & _ & H).
      destruct (size st ^ 2 =? 0); [discriminate|].
      apply bind_Return in H as (next & _ & H). injection H as <- <-.
      intros _. right. exact Hk.
    + injection H as <- <-. intros V'. discriminate.
  - injection H as <- <-. exact Ha.
Qed.

Lemma each_ant_ok (fuel : nat) (st : solver) (ants ants' : list ant) (g g' : Rand.rng) :
  each_ant fuel st ants g = Return (ants', g') ->
  Forall (ant_ok st) ants -> Forall (ant_ok st) ants'.
Proof.
  revert ants' g g'. induction ants as [|a r IH]; cbn [each_ant]; intros ants' g g' H F.
  - injection H as <- <-. constructor.
  - apply bind_Return in H as ([a' g1] & Ha & H).
    apply bind_Return in H as ([r' g2] & Hr & H). injection H as <- <-.
    inversion F; subst. constructor; [eapply step_ok | eapply IH]; eauto.
Qed.

Lemma rounds_ok (fuel : nat) (st : solver) (n : nat) :
  forall (ants ants' : list ant) (g g' : Rand.rng),
    rounds fuel st n ants g = Return (ants', g') ->
    Forall (ant_ok st) ants -> Forall (ant_ok st) ants'.
Proof.
  induction n as [|n IH]; cbn [rounds]; intros ants ants' g g' H F.
  - now injection H as <- <-.
  - apply bind_Return in H as ([ants1 g1] & H1 & H).
    eapply IH; [exact H|]. eapply each_ant_ok; eauto.
Qed.

Lemma walk_ok (fuel : nat) (st : solver) (ants : list ant) (g g' : Rand.rng) :
  walk fuel st g = Return (ants, g') -> Forall (ant_ok st) ants.
Proof.
  unfold walk. intros H. apply bind_Return in H as ([ants0 g1] & Hh & H).
  eapply rounds_ok; [exact H|]. unfold hatch in Hh.
  apply bind_Return in Hh as (copies & _ & Hh).
  apply bind_Return in Hh as ([cells g2] & _ & Hh). injection Hh as <- <-.
  apply List.Forall_forall. intros a Ha. apply in_map_iff in Ha as (p & <- & _).
  intros _. now left.
Qed.

Lemma iteration_best_In (a0 : ant) (rest : list ant) :
  In (iteration_best a0 rest) (a0 :: rest).
Proof.
  unfold iteration_best. revert a0. induction rest as [|a r IH]; intros a0; cbn [fold_left].
  - now left.
  - destruct (fixed a0 <? fixed a).
    + right. apply IH.
    + destruct (IH a0) as [E|E]; [left; exact E | right; right; exact E].
Qed.

Lemma delta_tau_pos (n k : Z) : n ^ 2 <> 0 -> k <= n ^ 2 -> (0 < delta_tau n k)%Q.
Proof.
  intros Hn Hk. unfold delta_tau.
  assert (0 < n ^ 2) by (pose proof (Z.pow_nonneg n 2); nia).
  apply Qlt_shift_div_l.
  - unfold Qlt, Qplus, inject_Z. cbn. lia.
  - unfold Qlt, Qmult, inject_Z. cbn. lia.
Qed.

(** The invariant of the loop of [solve]: no cell has been counted as fixed
    so far, and the board has [size * size] cells. *)
Definition inv (s : solver * Rand.rng) : Prop :=
  best_fixed (fst s) = 0
  /\ Z.of_nat (length (squares (fst s))) = size (fst s) ^ 2.

Definition zero (y : option (list (string * list string)) * Q) : Prop :=
  (snd y == 0)%Q.

(** After [adopt]: the best is the iteration's best ant. *)
Definition adopted (a : ant) (s : solver * Rand.rng) : Prop :=
  Z.of_nat (length (squares (fst s))) = size (fst s) ^ 2
  /\ best_solution (fst s) = Some (ant_values a)
  /\ (best_fixed (fst s) = 0
      \/ count_fixed (squares (fst s)) (ant_values a) = Return (best_fixed (fst s)))
  /\ (size (fst s) ^ 2 <> 0 -> (0 < best_pheromone_to_add (fst s))%Q).

Lemma adopt_adopted (a : ant) (s : solver * Rand.rng) :
  inv s -> ant_ok (fst s) a -> valid a = true -> adopted a (adopt a (fst s), snd s).
Proof.
  intros [B L] Ha V. specialize (Ha V). unfold adopted, adopt. cbn [fst snd].
  assert (R : 0 <= fixed a <= size (fst s) ^ 2).
  { destruct Ha as [->|C]; [pose proof (Z.pow_nonneg (size (fst s)) 2); lia|].
    apply count_fixed_bounds in C. lia. }
  rewrite B. destruct (0 <=? fixed a) eqn:E; [|apply Z.leb_gt in E; lia].
  cbn. split; [exact L|]. split; [reflexivity|]. split; [exact Ha|].
  intros Hn. pose proof (delta_tau_pos (size (fst s)) (fixed a) Hn (proj2 R)) as D.
  destruct (Qlt_le_dec _ _) as [Hlt|Hle]; [exact D|].
  eapply Qlt_le_trans; eassumption.
Qed.

(** After the global update: on a board with cells, nothing is counted as
    fixed. *)
Definition settled (s : solver * Rand.rng) : Prop :=
  Z.of_nat (length (squares (fst s))) = size (fst s) ^ 2
  /\ (best_fixed (fst s) = 0 \/ size (fst s) ^ 2 = 0).

Lemma adopted_settled (a : ant) (s : solver * Rand.rng) :
  adopted a s -> global_pheromone_update (fst s) = Return tt -> settled s.
Proof.
  intros (L & B & C & Hp) G. split; [exact L|].
  destruct C as [C|C]; [now left|].
  destruct (Z.eq_dec (size (fst s) ^ 2) 0) as [E|N]; [now right|].
  left. eapply global_quiet; eauto.
Qed.

Lemma fitness_zero (st : solver) (f : Q) :
  fitness st = Return f ->
  best_fixed st = 0 \/ size st ^ 2 = 0 ->
  best_fixed st = 0 /\ (f == 0)%Q.
Proof.
  unfold fitness. intros H Hs. destruct (size st ^ 2 =? 0) eqn:E; [discriminate|].
  apply Z.eqb_neq in E. destruct Hs as [B|B]; [|contradiction].
  split; [exact B|]. injection H as <-. rewrite B. unfold Qdiv. apply Qmult_0_l.
Qed.

(** Every cycle keeps the invariant and yields a score of zero. *)
Lemma cycle_zero (fuel : nat) : emits zero inv (cycle fuel) (fun _ s => inv s).
Proof.
  unfold cycle. eapply emits_bind.
  { apply (emits_random _ _ (fun ants s => inv s /\ Forall (ant_ok (fst s)) ants)).
    intros s ants g' HI Hw. split; [exact HI|]. eapply walk_ok; eauto. }
  intros ants. cbn beta.
  destruct (List.filter valid ants) as [|a0 rest] eqn:Ef.
  - eapply emits_bind; [apply emits_yield; intros; unfold zero; reflexivity|].
    intros u. intros s [HI _]. cbn. split; [constructor | exact HI].
  - assert (Hib : In (iteration_best a0 rest) ants
                  /\ valid (iteration_best a0 rest) = true).
    { pose proof (iteration_best_In a0 rest) as H. rewrite <- Ef in H.
      now apply filter_In in H. }
    destruct Hib as [Hin Hv]. set (ib := iteration_best a0 rest) in *.
    eapply emits_bind with (Mid := fun _ s => adopted ib s).
    { apply emits_update. intros s st' [HI HF] [= <-].
      apply adopt_adopted; auto. rewrite List.Forall_forall in HF. auto. }
    intros ?. eapply emits_bind with (Mid := fun _ s => settled s).
    { eapply emits_weaken; [apply emits_read | intros s0 H0; exact H0 |].
      intros [] s [HA G]. eapply adopted_settled; eauto. }
    intros ?. eapply emits_bind with (Mid := fun _ s => settled s).
    { apply emits_update. intros s st' H [= <-]. exact H. }
    intros ?. eapply emits_bind; [apply emits_read|]. intros now. cbn beta.
    eapply emits_bind with (Mid := fun _ s => inv s).
    { eapply emits_weaken; [apply emits_yield | intros s0 H0; exact H0 |].
      - intros s [[L B] H]. apply bind_Return in H as (f & Hf & H). injection H as <-.
        unfold zero. cbn [snd]. now apply (fitness_zero (fst s)).
      - intros u s [[L B] H]. apply bind_Return in H as (f & Hf & H).
        split; [|exact L]. now apply (fitness_zero (fst s) f). }
    intros ?. eapply emits_bind; [apply emits_read|]. intros solved.
    intros s [HI _]. cbn. split; [constructor | exact HI].
Qed.

Lemma zeros_ascend (ys : list Q) (lo : Q) (tail : list Q) :
  (lo == 0)%Q -> Forall (fun y => (y == 0)%Q) ys -> tail = [] \/ tail = [1%Q] ->
  ascends lo (ys ++ tail).
Proof.
  intros Hlo F Ht. revert lo Hlo. induction F as [|y ys Hy F IH]; intros lo Hlo.
  - destruct Ht as [->| ->]; cbn; [exact I|]. split; [|exact I].
    rewrite Hlo. discriminate.
  - cbn. split; [rewrite Hlo, Hy; apply Qle_refl | now apply IH].
Qed.

(** The scores that a run of the Ant-Colony [solve] yields never fall. *)
Lemma aco_yields_rise (fuel cycles : nat) (st : solver) (g : Rand.rng) :
  best_fixed st = 0 -> Z.of_nat (length (squares st)) = size st ^ 2 ->
  nondecreasing (map snd (fst (solve fuel cycles (st, g)))).
Proof.
  intros B L. unfold solve, Gen.bind.
  destruct (emits_repeat_while zero inv cycles (cycle fuel) (cycle_zero fuel)
              (st, g) (conj B L)) as [Y _].
  assert (Z : Forall (fun y => (y == 0)%Q)
                     (map snd (fst (Gen.repeat_while cycles (cycle fuel) (st, g))))).
  { apply List.Forall_forall. intros q Hq. apply in_map_iff in Hq as (y & <- & Hy).
    rewrite List.Forall_forall in Y. now apply Y. }
  destruct (Gen.repeat_while cycles (cycle fuel) (st, g)) as [ys [[[] s']| |]];
    cbn [fst snd] in *.
  - unfold Gen.read, Gen.yield. cbn [fst snd app]. rewrite map_app. cbn [map snd].
    apply (ascends_nondecreasing 0).
    apply zeros_ascend; [reflexivity | exact Z | now right].
  - apply (ascends_nondecreasing 0). rewrite <- (app_nil_r (map snd ys)).
    apply zeros_ascend; [reflexivity | exact Z | now left].
  - apply (ascends_nondecreasing 0). rewrite <- (app_nil_r (map snd ys)).
    apply zeros_ascend; [reflexivity | exact Z | now left].
Qed.

(** The solver that [__init__] builds. *)
Lemma init_fresh (fuel : nat) (puzzle_dict : list (string * string)) (n ants : Z)
  (bve : Q) (st : solver) :
  init fuel puzzle_dict n ants bve = Return st ->
  best_fixed st = 0 /\ Z.of_nat (length (squares st)) = size st ^ 2.
Proof.
  unfold init. intros H. apply bind_Return in H as (m & Hm & H).
  apply bind_Return in H as (v & _ & H). destruct v as [v|]; [|discriminate].
  injection H as <-. cbn. split; [reflexivity|].
  pose proof (BuilderFacts.initialize_structures_accepts _ _ Hm) as Hn.
  pose proof (BuilderFacts.well_formed_all _ _ Hm) as W.
  unfold BuilderFacts.well_formed in W.
  repeat (apply andb_prop in W as [W ?]).
  match goal with H : Nat.eqb (length (Sudo.squares m)) _ = true |- _ =>
    apply Nat.eqb_eq in H; rewrite H end.
  unfold BuilderFacts.nat_of. nia.
Qed.

(** ** Cycles in which no ant stays valid *)

(** In each of the first [n] cycles from the stream [g] every ant runs into
    a contradiction. *)
Fixpoint barren (fuel : nat) (st : solver) (n : nat) (g : Rand.rng) : bool :=
  match n with
  | O => true
  | S n' =>
      match walk fuel st g with
      | Return (ants, g') =>
          match List.filter valid ants with
          | [] => barren fuel st n' g'
          | _ => false
          end
      | _ => false
      end
  end.

Lemma barren_cycle (fuel : nat) (st : solver) (g g' : Rand.rng) (ants : list ant) :
  walk fuel st g = Return (ants, g') -> List.filter valid ants = [] ->
  cycle fuel (st, g) = ([(Some [], 0%Q)], Return (true, (st, g'))).
Proof.
  intros W F. unfold cycle, Gen.bind, Gen.random. cbn [fst snd].
  rewrite W, F. reflexivity.
Qed.

Lemma barren_loop (fuel : nat) (st : solver) (n : nat) :
  forall g, barren fuel st n g = true ->
            Gen.repeat_while n (cycle fuel) (st, g)
            = (repeat (Some [], 0%Q) n, Diverge).
Proof.
  induction n as [|n IH]; intros g H; [reflexivity|].
  cbn [barren] in H.
  destruct (walk fuel st g) as [[ants g']| |] eqn:W; try discriminate.
  destruct (List.filter valid ants) eqn:F; [|discriminate].
  cbn [Gen.repeat_while]. unfold Gen.bind at 1.
  rewrite (barren_cycle fuel st g g' ants W F), (IH g' H). reflexivity.
Qed.

Lemma barren_run (fuel : nat) (st : solver) (n : nat) (g : Rand.rng) :
  barren fuel st n g = true ->
  solve fuel n (st, g) = (repeat (Some [], 0%Q) n, Diverge).
Proof.
  intros H. unfold solve, Gen.bind. now rewrite (barren_loop fuel st n g H).
Qed.

(** A cycle that ends with the [break] has counted every cell of the board
    as fixed. *)
Lemma cycle_break (fuel : nat) (s s' : solver * Rand.rng) :
  snd (cycle fuel s) = Return (false, s') ->
  best_fixed (fst s') = size (fst s') ^ 2 /\ size (fst s') ^ 2 <> 0.
Proof.
  unfold cycle, Gen.bind, Gen.random. cbn [fst snd].
  destruct (walk fuel (fst s) (snd s)) as [[ants g']| |]; cbn [fst snd]; try discriminate.
  destruct (List.filter valid ants) as [|a0 rest]; [discriminate|].
  unfold Gen.update, Gen.read, Gen.yield, Gen.ret. cbn [fst snd].
  destruct (global_pheromone_update _) as [[]| |]; cbn [fst snd]; try discriminate.
  unfold fitness. cbn [size decay best_fixed].
  destruct (size _ ^ 2 =? 0) eqn:E0; cbn [bind fst snd]; try discriminate.
  intros [= E <-]. cbn [fst]. apply negb_false_iff, Z.eqb_eq in E.
  apply Z.eqb_neq in E0. split; assumption.
Qed.

(** From a solver that has counted no cell as fixed, the [break] is never
    reached, so a run does not return: in a cycle with a valid ant the
    global update raises as soon as a cell of the best assignment is down to
    one candidate, and without such a cell nothing is counted as fixed. *)
Lemma loop_never_returns (fuel n : nat) :
  forall s, inv s ->
            match snd (Gen.repeat_while n (cycle fuel) s) with
            | Return _ => False
            | _ => True
            end.
Proof.
  induction n as [|n IH]; intros s HI; [exact I|].
  cbn [Gen.repeat_while]. unfold Gen.bind.
  destruct (cycle_zero fuel s HI) as [_ Hpost].
  pose proof (cycle_break fuel s) as Hbreak.
  destruct (cycle fuel s) as [ys [[b s']| |]]; cbn [fst snd] in *; [|exact I|exact I].
  destruct b.
  - specialize (IH s' Hpost).
    destruct (Gen.repeat_while n (cycle fuel) s') as [zs r]. exact IH.
  - destruct (Hbreak s' eq_refl) as [E N]. destruct Hpost as [B _]. congruence.
Qed.

Lemma aco_run_never_returns (fuel cycles : nat) (st : solver) (g : Rand.rng) :
  best_fixed st = 0 -> Z.of_nat (length (squares st)) = size st ^ 2 ->
  match snd (solve fuel cycles (st, g)) with
  | Return _ => False
  | _ => True
  end.
Proof.
  intros B L. unfold solve, Gen.bind.
  pose proof (loop_never_returns fuel cycles (st, g) (conj B L)) as H.
  destruct (Gen.repeat_while cycles (cycle fuel) (st, g)) as [ys [[u s']| |]];
    cbn [fst snd] in *; [destruct H | exact I | exact I].
Qed.

(** C6 (as amended).  The loop of the Ant-Colony [solve] has no cycle
    budget.  A cycle in which no ant stays valid yields the pair of the
    empty assignment and 0.0, and the loop goes round again: after [n] such
    cycles in a row the run has yielded exactly [n] such pairs and has not
    ended, whatever [n] is. *)
Theorem aco_has_no_cycle_budget (fuel : nat) (st : solver) (n : nat) (g : Rand.rng) :
  barren fuel st n g = true ->
  fst (solve fuel n (st, g)) = repeat (Some [], 0%Q) n
  /\ snd (solve fuel n (st, g)) = Diverge.
Proof.
  intros H. rewrite (barren_run fuel st n g H).
  split; reflexivity.
Qed.

End AcoFacts.

(* ===================================================================== *)
(** * aco_solver.py on a 6 x 6 board                                      *)
(* ===================================================================== *)

Module Colony6.
Import PyFacts Aco AcoFacts.

(** Eight clues on the 6 x 6 board.  The propagation of the constructor
    finds no contradiction in them, but they leave only the digits 3 and 5
    to the three cells A3, C3 and D3 of one column, so the puzzle has no
    solution. *)
Definition puzzle : list (string * string) :=
  [("A4", "6"); ("A5", "4"); ("A6", "1"); ("C2", "1");
   ("D1", "4"); ("D2", "6"); ("E3", "2"); ("F6", "5")].

(** [ACOSolver(puzzle, 6, num_ants=2)]. *)
Definition colony : solver :=
  Eval vm_compute in
    match init 200 puzzle 6 2 (1 # 10) with
    | Return st => st
    | _ => Solver 0 [] [] [] [] 0 0 [] 0 None 0
    end.

(** The stream whose draws are all 0, read from position [pos] on. *)
Definition steady (pos : nat) : Rand.rng := Rand.Rng (fun _ => 0%nat) pos.

Lemma aco_has_no_cycle_budget_witness :
  fst (solve 200 3 (colony, steady 0)) = repeat (Some [], 0%Q) 3
  /\ snd (solve 200 3 (colony, steady 0)) = Diverge.
Proof.
  destruct (aco_has_no_cycle_budget 200 colony 3 (steady 0)) as (Y & R).
  - vm_compute. reflexivity.
  - split; [exact Y | exact R].
Defined.

(** On this stream both ants of a cycle run into a contradiction, wherever
    in the stream the cycle starts. *)
Lemma colony_walk (pos : nat) :
  match walk 200 colony (steady pos) with
  | Return (ants, g') => List.filter valid ants = [] /\ g' = steady (4 + pos)
  | _ => False
  end.
Proof. vm_compute. split; reflexivity. Qed.

Lemma colony_barren (n : nat) : forall pos, barren 200 colony n (steady pos) = true.
Proof.
  induction n as [|n IH]; intros pos; [reflexivity|].
  cbn [barren]. pose proof (colony_walk pos) as W.
  destruct (walk 200 colony (steady pos)) as [[ants g']| |]; try contradiction.
  destruct W as [-> ->]. apply IH.
Qed.

(** The solver is built without error on the puzzle, the exact search of
    [sudo.py] finds no solution of it, and the run of [solve] does not end:
    after any number of cycles it has yielded that many pairs and is still in
    its loop. *)
Lemma colony_never_ends :
  init 200 puzzle 6 2 (1 # 10) = Return colony
  /\ (exists h, Sudo.solve 400 puzzle 6 [] = Return (None, h))
  /\ forall n, fst (solve 200 n (colony, steady 0)) = repeat (Some [], 0%Q) n
               /\ length (fst (solve 200 n (colony, steady 0))) = n
               /\ snd (solve 200 n (colony, steady 0)) = Diverge.
Proof.
  split; [vm_compute; reflexivity|]. split.
  - eexists. vm_compute. reflexivity.
  - intros n. rewrite (barren_run 200 colony n (steady 0) (colony_barren n 0)).
    cbn [fst snd]. rewrite repeat_length. auto.
Qed.

End Colony6.

(* ===================================================================== *)
(** * aco_solver.py on a 4 x 4 board                                      *)
(* ===================================================================== *)

Module Colony4.
Import PyFacts Aco.

(** [ACOSolver({}, 4, num_ants=1)]: the units and peers of the 4 x 4 board. *)
Definition colony : solver :=
  Eval vm_compute in
    match init 100 [] 4 1 (1 # 10) with
    | Return st => st
    | _ => Solver 0 [] [] [] [] 0 0 [] 0 None 0
    end.

(** The candidate lists that [sudo.parse_grid] leaves for the two clues of
    [Board4.puzzle], as a dict of lists. *)
Definition parsed : list (string * list string) :=
  Eval vm_compute in
    map (fun sl : string * nat => (fst sl, default [] (snd Board4.parsed !! snd sl)))
        (fst Board4.parsed).

(** On the assignment on which [sudo.eliminate] returns the assignment
    although row A is left without a place for the 1, the elimination of
    the Ant-Colony solver, which has the loop over the units, reports the
    contradiction. *)
Lemma aco_eliminate_sees_empty_unit :
  eliminate_value 100 colony parsed "A1" "1" = Return None.
Proof. vm_compute. reflexivity. Qed.

End Colony4.

(* ===================================================================== *)
(** * hybrid_abc_cp.py: the best fitness never falls                      *)
(* ===================================================================== *)

Module HybridTrace.
Import PyFacts Sudo StoreFacts TraceFacts Hybrid.

(** The tracked global best of a run. *)
Definition best (s : solver * list (list string) * Rand.rng) : Q :=
  best_fitness (fst (fst s)).

(** No score of the solver is above 1, and the board has at most
    [size * size] cells. *)
Definition bounded_solver (st : solver) : Prop :=
  (best_fitness st <= 1)%Q
  /\ Forall (fun q => (q <= 1)%Q) (fitnesses st)
  /\ Z.of_nat (length (squares st)) <= size st ^ 2.

Definition bounded (s : solver * list (list string) * Rand.rng) : Prop :=
  bounded_solver (fst (fst s)).

(** A step that yields nothing and does not lower the best. *)
Lemma rising_silent {A : Type} (Pre : solver * list (list string) * Rand.rng -> Prop)
  (m : Gen (solver * list (list string) * Rand.rng) (yielded * Q) A)
  (Post : A -> solver * list (list string) * Rand.rng -> Prop) :
  (forall s, Pre s ->
     fst (m s) = []
     /\ match snd (m s) with
        | Return (a, s') => Post a s' /\ (best s <= best s')%Q
        | _ => True
        end) ->
  rising best Pre m Post always.
Proof.
  intros H s Hs. destruct (H s Hs) as [E R]. rewrite E. cbn [map ascends List.last].
  split; [exact I|]. destruct (snd (m s)) as [[a s']| |]; auto.
  destruct R as [R1 R2]. split; [exact R1 | intros _; exact R2].
Qed.

(** A fact that holds in every state the step can start from. *)
Lemma rising_assume {A : Type} (P : Prop)
  (Pre : solver * list (list string) * Rand.rng -> Prop)
  (m : Gen (solver * list (list string) * Rand.rng) (yielded * Q) A)
  (Post : A -> solver * list (list string) * Rand.rng -> Prop) (keep : A -> bool) :
  (forall s, Pre s -> P) -> (P -> rising best Pre m Post keep) ->
  rising best Pre m Post keep.
Proof. intros H1 H2 s Hs. exact (H2 (H1 s Hs) s Hs). Qed.

Lemma rising_attr {A : Type} (Pre : solver * list (list string) * Rand.rng -> Prop)
  (f : solver -> result A) :
  rising best Pre (attr f) (fun a s => Pre s /\ f (fst (fst s)) = Return a) always.
Proof.
  apply rising_silent. intros s Hs. unfold attr, Gen.read. cbn [fst snd].
  split; [reflexivity|]. destruct (f (fst (fst s))) eqn:E; auto.
  split; [split; [exact Hs | first [reflexivity | exact E]] | apply Qle_refl].
Qed.

Lemma rising_attr_keep {A : Type} (Pre : solver * list (list string) * Rand.rng -> Prop)
  (f : solver -> result A) :
  rising best Pre (attr f) (fun _ s => Pre s) always.
Proof.
  eapply rising_weaken; [| |apply rising_attr]; [intros s H; exact H|].
  intros a s [H _]. exact H.
Qed.

Lemma rising_modify (Pre Post : solver * list (list string) * Rand.rng -> Prop)
  (f : solver -> result solver) :
  (forall s st', Pre s -> f (fst (fst s)) = Return st' ->
                 Post (st', snd (fst s), snd s)
                 /\ (best_fitness (fst (fst s)) <= best_fitness st')%Q) ->
  rising best Pre (modify f) (fun _ s => Post s) always.
Proof.
  intros H. apply rising_silent. intros s Hs. unfold modify, Gen.update. cbn [fst snd].
  split; [reflexivity|].
  destruct (f (fst (fst s))) as [st'| |] eqn:E; cbn [bind]; [|exact I|exact I].
  destruct (H s st' Hs E) as [H1 H2]. split; [exact H1 | exact H2].
Qed.

Lemma rising_run {A : Type} (Pre : solver * list (list string) * Rand.rng -> Prop)
  (Post : A -> solver * list (list string) * Rand.rng -> Prop)
  (f : solver -> Rand.rng -> M (A * Rand.rng)) :
  (forall s a g' h', Pre s ->
     f (fst (fst s)) (snd s) (snd (fst s)) = Return (a, g', h') ->
     Post a (fst (fst s), h', g')) ->
  rising best Pre (run f) Post always.
Proof.
  intros H. apply rising_silent. intros s Hs. unfold run. cbn [fst snd].
  split; [reflexivity|].
  destruct (f _ _ _) as [[[a g'] h']| |] eqn:E; auto.
  split; [eapply H; eauto | apply Qle_refl].
Qed.

Lemma rising_look {A : Type} (Pre : solver * list (list string) * Rand.rng -> Prop)
  (Post : A -> solver * list (list string) * Rand.rng -> Prop)
  (f : solver -> M A) :
  (forall s a h', Pre s ->
     f (fst (fst s)) (snd (fst s)) = Return (a, h') ->
     Post a (fst (fst s), h', snd s)) ->
  rising best Pre (look f) Post always.
Proof.
  intros H. apply rising_silent. intros s Hs. unfold look. cbn [fst snd].
  split; [reflexivity|].
  destruct (f _ _) as [[a h']| |] eqn:E; auto.
  split; [eapply H; eauto | apply Qle_refl].
Qed.

Lemma rising_skip {A : Type} (Pre : solver * list (list string) * Rand.rng -> Prop)
  (a : A) :
  rising (T := yielded) best Pre (Gen.ret a) (fun _ s => Pre s) always.
Proof.
  apply rising_silent. intros s Hs. cbn. split; [reflexivity|].
  split; [exact Hs | apply Qle_refl].
Qed.

(** ** The scores *)

Lemma hybrid_count_fixed_bounds (sqs : list string) (values : list (string * nat))
  (h h' : list (list string)) (k : Z) :
  count_fixed sqs values h = Return (k, h') -> 0 <= k <= Z.of_nat (length sqs).
Proof.
  revert h h' k. induction sqs as [|s sqs IH]; cbn [count_fixed]; intros h h' k H.
  - injection H as <- _. cbn. lia.
  - step H as c h1 H1. step H as k' h2 H2. apply ret_Return in H as [-> _].
    specialize (IH _ _ _ H2). cbn [length]. destruct (Nat.eqb (length c) 1); lia.
Qed.

Lemma evaluate_le_1 (st : solver) (values : list (string * nat))
  (h h' : list (list string)) (q : Q) :
  Z.of_nat (length (squares st)) <= size st ^ 2 ->
  evaluate st values h = Return (q, h') -> (q <= 1)%Q.
Proof.
  intros L H. unfold evaluate in H. step H as k h1 H1.
  apply hybrid_count_fixed_bounds in H1.
  destruct (k =? size st ^ 2); [apply ret_Return in H as [-> _]; apply Qle_refl|].
  destruct (size st ^ 2 =? 0) eqn:E; [discriminate|]. apply Z.eqb_neq in E.
  apply ret_Return in H as [-> _].
  apply Qle_shift_div_r.
  - unfold Qlt, inject_Z. cbn. lia.
  - rewrite Qmult_1_l. unfold Qle, inject_Z. cbn. lia.
Qed.

Lemma set_member_bounded (i : Z) (a : list (string * nat)) (fit : Q) (st st' : solver) :
  (fit <= 1)%Q -> bounded_solver st -> set_member i a fit st = Return st' ->
  bounded_solver st' /\ best_fitness st' = best_fitness st.
Proof.
  intros Hf (B & F & L) H. unfold set_member in H.
  apply bind_Return in H as (pop & _ & H).
  apply bind_Return in H as (fits & Hfits & H).
  apply bind_Return in H as (trs & _ & H). injection H as <-.
  split; [|reflexivity]. split; [exact B|]. split; [|exact L].
  cbn. eapply AbcLegal.set_at_Forall; eauto.
Qed.

Lemma bump_trial_bounded (i : Z) (st st' : solver) :
  bounded_solver st -> bump_trial i st = Return st' ->
  bounded_solver st' /\ best_fitness st' = best_fitness st.
Proof.
  intros (B & F & L) H. unfold bump_trial in H.
  apply bind_Return in H as (t & _ & H).
  apply bind_Return in H as (trs & _ & H). injection H as <-.
  split; [|reflexivity]. split; [exact B|]. split; [exact F | exact L].
Qed.

Lemma set_best_bounded (a : list (string * nat)) (fit : Q) (st : solver) :
  (fit <= 1)%Q -> bounded_solver st -> bounded_solver (set_best a fit st).
Proof. intros Hf (B & F & L). split; [exact Hf|]. split; [exact F | exact L]. Qed.

(** The update of the best after a test [fit > self.best_fitness], and the
    yield that follows it. *)
Lemma hybrid_rising_new_best (a : list (string * nat)) (fit seen : Q) :
  (fit <= 1)%Q -> (seen < fit)%Q ->
  rising best (fun s => bounded s /\ best_fitness (fst (fst s)) = seen)
         (gen! _ := modify (fun st => Return (set_best a fit st)) in
          gen! now := attr (fun st => Return (Values (best_solution st), best_fitness st)) in
          Gen.yield now)
         (fun _ s => bounded s) always.
Proof.
  intros Hf Hlt.
  eapply rising_bind
    with (Mid := fun _ s => bounded s /\ best_fitness (fst (fst s)) = fit).
  { apply rising_modify. intros s st' [HB E] [= <-]. cbn [fst snd].
    split; [split; [now apply set_best_bounded | reflexivity]|].
    rewrite E. cbn. now apply Qlt_le_weak. }
  intros ?. eapply rising_bind; [apply rising_attr|]. intros [x q]. cbn beta.
  eapply rising_weaken; [| |apply rising_yield].
  - intros s H. exact H.
  - intros u s [[HB _] _]. exact HB.
  - intros s [[HB E] [= _ <-]]. unfold best. apply Qeq_refl.
Qed.

Lemma hybrid_rising_visit (fuel : nat) (employed : bool) (i : Z) :
  rising best bounded (visit fuel employed i) (fun _ s => bounded s) always.
Proof.
  unfold visit.
  eapply rising_bind; [apply rising_attr_keep|]. intros current.
  eapply rising_bind with (Mid := fun _ s => bounded s).
  { apply rising_run. intros s a g' h' H _. exact H. }
  intros neighbor.
  eapply rising_bind with (Mid := fun q s => bounded s /\ (q <= 1)%Q).
  { apply rising_look. intros s q h' H E. split; [exact H|].
    eapply evaluate_le_1; [|exact E]. apply H. }
  intros neighbor_fit.
  eapply rising_bind; [apply rising_attr_keep|]. intros fit_i.
  eapply rising_bind with (Mid := fun _ s => bounded s /\ (neighbor_fit <= 1)%Q).
  { destruct (Qlt_le_dec fit_i neighbor_fit); [|destruct employed].
    - apply rising_modify. intros s st' [HB Hq] H. cbn [fst snd].
      destruct (set_member_bounded _ _ _ _ _ Hq HB H) as [HB' E].
      split; [split; assumption|]. rewrite E. apply Qle_refl.
    - apply rising_modify. intros s st' [HB Hq] H. cbn [fst snd].
      destruct (bump_trial_bounded _ _ _ HB H) as [HB' E].
      split; [split; assumption|]. rewrite E. apply Qle_refl.
    - apply rising_skip. }
  intros ?.
  eapply rising_bind; [apply rising_attr|]. intros seen. cbn beta.
  destruct (Qlt_le_dec seen neighbor_fit) as [Hlt|Hle].
  - apply (rising_assume (neighbor_fit <= 1)%Q); [intros s [[_ H] _]; exact H|].
    intros Hq.
    eapply rising_weaken; [| |apply (hybrid_rising_new_best neighbor neighbor_fit seen Hq Hlt)].
    + intros s [[H _] [= E]]. split; [exact H | exact E].
    + intros ? ? H. exact H.
  - eapply rising_weaken; [| |apply rising_skip].
    + intros s H. exact H.
    + intros ? s [[H _] _]. exact H.
Qed.

Lemma hybrid_rising_employed_phase (fuel : nat) :
  rising best bounded (employed_phase fuel) (fun _ s => bounded s) always.
Proof.
  unfold employed_phase.
  eapply rising_bind; [apply rising_attr_keep|]. intros bees.
  apply rising_for_each. intros i. apply hybrid_rising_visit.
Qed.

Lemma hybrid_rising_onlooker_phase (fuel : nat) :
  rising best bounded (onlooker_phase fuel) (fun _ s => bounded s) always.
Proof.
  unfold onlooker_phase.
  eapply rising_bind; [apply rising_attr_keep|]. intros total_fitness.
  destruct (Qlt_le_dec 0 total_fitness); [|apply rising_skip].
  eapply rising_bind; [apply rising_attr_keep|]. intros bees.
  apply rising_for_each. intros i.
  eapply rising_bind; [apply rising_attr_keep|]. intros fit_i.
  eapply rising_bind; [apply rising_attr_keep|]. intros onlookers.
  apply rising_for_each. intros ?. apply hybrid_rising_visit.
Qed.

Lemma scout_bounded (st st' : solver) (g g' : Rand.rng) (h h' : list (list string)) :
  bounded_solver st -> scout st g h = Return (st', g', h') ->
  bounded_solver st' /\ best_fitness st' = best_fitness st.
Proof.
  intros (B & F & L) H. unfold scout in H.
  step_lift H as worst Hw. step_lift H as idx Hi.
  step H as mg h1 H1. destruct mg as [member g1].
  step_lift H as pop Hp. step H as fit h2 H2.
  step_lift H as fits Hf. step_lift H as trs Ht.
  apply ret_Return in H as [[= -> ->] _].
  split; [|reflexivity]. split; [exact B|]. split; [|exact L].
  cbn. eapply AbcLegal.set_at_Forall; [exact Hf | exact F |].
  eapply evaluate_le_1; [|exact H2]. exact L.
Qed.

Lemma hybrid_rising_scout_phase :
  rising best bounded scout_phase (fun _ s => bounded s) always.
Proof.
  unfold scout_phase.
  eapply rising_bind; [apply rising_attr_keep|]. intros worst.
  eapply rising_bind; [apply rising_attr_keep|]. intros limit.
  destruct (limit <? worst); [|apply rising_skip].
  eapply rising_bind
    with (Mid := fun st' s => bounded s /\ bounded_solver st'
                              /\ best_fitness st' = best_fitness (fst (fst s))).
  { apply rising_run. intros s st' g' h' HB H. cbn [fst snd].
    destruct (scout_bounded _ _ _ _ _ _ HB H) as [HB' E]. auto. }
  intros st'.
  eapply rising_bind with (Mid := fun _ s => bounded s).
  { apply rising_modify. intros s st2 (HB & HB' & E) [= <-]. cbn [fst snd].
    split; [exact HB'|]. rewrite E. apply Qle_refl. }
  intros ?.
  eapply rising_bind; [apply rising_attr|]. intros new_fit. cbn beta.
  eapply rising_bind; [apply rising_attr|]. intros seen. cbn beta.
  destruct (Qlt_le_dec seen new_fit) as [Hlt|Hle].
  - apply (rising_assume (new_fit <= 1)%Q).
    { intros s [[HB H] _]. apply bind_Return in H as (k & _ & H).
      apply AbcLegal.index_In in H. destruct HB as (_ & F & _).
      rewrite List.Forall_forall in F. now apply F. }
    intros Hq.
    eapply rising_bind
      with (Mid := fun _ s => bounded s /\ best_fitness (fst (fst s)) = seen).
    { eapply rising_weaken; [| |apply rising_attr_keep].
      - intros s H. exact H.
      - intros ? s [[HB _] [= E]]. split; [exact HB | exact E]. }
    intros member. now apply hybrid_rising_new_best.
  - eapply rising_weaken; [| |apply rising_skip].
    + intros s H. exact H.
    + intros ? s [[H _] _]. exact H.
Qed.

Lemma hybrid_rising_cycle (fuel : nat) :
  rising best bounded (cycle fuel) (fun _ s => bounded s) (fun continue => continue).
Proof.
  unfold cycle.
  eapply rising_bind; [apply rising_attr|]. intros seen. cbn beta.
  destruct (Qle_bool (999 # 1000) seen).
  - eapply rising_bind; [apply rising_attr_keep|]. intros solution.
    intros s [HB _]. cbn. split; [split; [apply HB | exact I]|].
    split; [exact HB | discriminate].
  - eapply rising_weaken with (Pre := bounded) (Post := fun _ s => bounded s);
      [intros s [H _]; exact H | intros ? ? H; exact H |].
    eapply rising_bind; [apply hybrid_rising_employed_phase|]. intros ?.
    eapply rising_bind; [apply hybrid_rising_onlooker_phase|]. intros ?.
    eapply rising_bind; [apply hybrid_rising_scout_phase|]. intros ?.
    eapply rising_bind with (Mid := fun _ s => bounded s).
    { apply rising_look. intros s d h' H _. exact H. }
    intros best_solution_yield.
    eapply rising_bind; [apply rising_attr|]. intros fit. cbn beta.
    eapply rising_bind with (Mid := fun _ s => bounded s).
    { eapply rising_weaken; [| |apply rising_yield].
      - intros s H. exact H.
      - intros ? s [HB _]. exact HB.
      - intros s [HB [= <-]]. apply Qeq_refl. }
    intros ?. intros s HB. cbn. repeat split; auto; try apply HB.
    intros _. apply Qle_refl.
Qed.

(** The fitness values that a run of the Hybrid [solve] yields never fall,
    when no score of the solver it starts from is above 1. *)
Lemma hybrid_yields_rise (fuel : nat) (st : solver) (h : list (list string))
  (g : Rand.rng) :
  bounded_solver st -> nondecreasing (map snd (fst (solve fuel (st, h, g)))).
Proof.
  intros HB.
  eapply rising_nondecreasing with (best := best) (Pre := bounded); [|exact HB].
  unfold solve.
  eapply rising_bind; [apply rising_attr_keep|]. intros n.
  apply rising_repeat_for. apply hybrid_rising_cycle.
Qed.

(** ** The solver that [__init__] builds *)

Lemma evaluate_all_le_1 (st : solver) (pop : list (list (string * nat))) :
  Z.of_nat (length (squares st)) <= size st ^ 2 ->
  forall (h h' : list (list string)) (fits : list Q),
    evaluate_all st pop h = Return (fits, h') -> Forall (fun q => (q <= 1)%Q) fits.
Proof.
  intros L. induction pop as [|a pop IH]; cbn [evaluate_all]; intros h h' fits H.
  - apply ret_Return in H as [-> _]. constructor.
  - step H as q h1 H1. step H as qs h2 H2. apply ret_Return in H as [-> _].
    constructor; [eapply evaluate_le_1; eauto | eapply IH; eauto].
Qed.

Lemma max_fitness_In (l : list Q) (q : Q) : max_fitness l = Return q -> In q l.
Proof.
  destruct l as [|x r]; [discriminate|]. cbn [max_fitness]. intros [= <-].
  revert x. induction r as [|y r IH]; intros x; cbn [fold_left]; [now left|].
  destruct (Qlt_le_dec x y).
  - right. apply IH.
  - destruct (IH x) as [E|E]; [left; exact E | right; right; exact E].
Qed.

Lemma init_bounded (puzzle_dict : list (string * string)) (n : Z) (g g' : Rand.rng)
  (h h' : list (list string)) (st : solver) :
  init puzzle_dict n g h = Return (st, g', h') -> bounded_solver st.
Proof.
  intros H. unfold init in H. step_lift H as m Hm.
  step H as values h1 H1. destruct values as [v|]; [|discriminate].
  step H as fixed h2 H2. step H as pg h3 H3. destruct pg as [pop g1].
  step H as fits h4 H4. step_lift H as k Hk. step_lift H as b Hb.
  step_lift H as best_fit Hbf. apply ret_Return in H as [[= -> ->] _].
  assert (L : Z.of_nat (length (Sudo.squares m)) <= n ^ 2).
  { pose proof (BuilderFacts.initialize_structures_accepts _ _ Hm) as Hn.
    pose proof (BuilderFacts.well_formed_all _ _ Hm) as W.
    unfold BuilderFacts.well_formed in W.
    repeat (apply andb_prop in W as [W ?]).
    match goal with H : Nat.eqb (length (Sudo.squares m)) _ = true |- _ =>
      apply Nat.eqb_eq in H; rewrite H end.
    unfold BuilderFacts.nat_of. nia. }
  assert (F : Forall (fun q => (q <= 1)%Q) fits).
  { eapply evaluate_all_le_1; [|exact H4]. exact L. }
  split; [|split; [exact F | exact L]]. cbn.
  apply max_fitness_In in Hbf. rewrite List.Forall_forall in F. now apply F.
Qed.

End HybridTrace.

(* ===================================================================== *)
(** * hybrid_abc_cp.py: the neighbor move                                 *)
(* ===================================================================== *)

Module HybridMove.
Import PyFacts Sudo StoreFacts GridFacts Hybrid.

(** The test [v != d] of the list comprehension of [assign]. *)
Definition other_than (d : string) (v : string) : bool := negb (String.eqb v d).

Lemma filter_id {A : Type} (P : A -> bool) (l : list A) :
  (forall x, In x l -> P x = true) -> List.filter P l = l.
Proof.
  induction l as [|a l IH]; intros H; cbn; [reflexivity|].
  rewrite (H a (or_introl eq_refl)). f_equal. apply IH. intros x Hx. apply H. now right.
Qed.

Lemma filter_comm {A : Type} (P Q : A -> bool) (l : list A) :
  List.filter P (List.filter Q l) = List.filter Q (List.filter P l).
Proof.
  induction l as [|a l IH]; cbn; [reflexivity|].
  destruct (P a) eqn:EP, (Q a) eqn:EQ; cbn; rewrite ?EP, ?EQ, IH; reflexivity.
Qed.

(** On a list without repetitions [remove] drops every occurrence. *)
Lemma remove_NoDup (x : string) (c : list string) :
  List.NoDup c -> In x c -> Py.remove x c = Return (List.filter (other_than x) c).
Proof.
  induction c as [|y c IH]; intros N Hx; [destruct Hx|].
  inversion N as [|? ? Hy N']; subst. cbn [Py.remove List.filter]. unfold other_than at 1.
  destruct (String.eqb x y) eqn:E.
  - apply String.eqb_eq in E as <-. rewrite String.eqb_refl. cbn [negb].
    rewrite filter_id; [reflexivity|]. intros v Hv. unfold other_than.
    apply negb_true_iff, String.eqb_neq. intros ->. contradiction.
  - rewrite String.eqb_sym, E. cbn [negb].
    destruct Hx as [->|Hx]; [rewrite String.eqb_refl in E; discriminate|].
    rewrite (IH N' Hx). reflexivity.
Qed.

Lemma other_than_In (d v : string) (c : list string) :
  In v (List.filter (other_than d) c) <-> In v c /\ v <> d.
Proof.
  rewrite filter_In. unfold other_than. rewrite negb_true_iff, String.eqb_neq. tauto.
Qed.

(** One call of [eliminate] with the board size in the place of the peers,
    for a value that the cell holds. *)
Lemma eliminate_with_size (fuel : nat) (n : Z) (values : dict) (s : cell) (l : loc)
  (d2 : digit) (c : list digit) (h : store) :
  Py.assoc s values = Some l -> h !! l = Some c -> List.NoDup c -> In d2 c ->
  eliminate (S fuel) values s d2 (AnInt n) h
  = match List.filter (other_than d2) c with
    | [] => Return (false, <[l := []]> h)
    | [_] => Raise TypeError
    | c' => Return (true, <[l := c']> h)
    end.
Proof.
  intros Hs Hl N H2. cbn [eliminate]. unfold bindM, lift, Py.getitem.
  rewrite Hs. unfold load. rewrite Hl. cbn [default from_option id].
  rewrite (proj2 (mem_In d2 c) H2). cbn [negb].
  rewrite (remove_NoDup d2 c N H2). unfold write.
  destruct (List.filter (other_than d2) c) as [|x [|y c'']]; reflexivity.
Qed.

(** The loop of [assign] over the other values of a cell, with the board
    size in the place of the peers: the values are removed one by one, and
    when the cell is down to one value its peers are looked up in the
    number. *)
Lemma drain_raises (fuel : nat) (n : Z) (values : dict) (s : cell) (l : loc) (d : digit)
  (others : list digit) :
  forall (c : list digit) (h : store),
    Py.assoc s values = Some l -> h !! l = Some c -> List.NoDup c -> In d c ->
    others = List.filter (other_than d) c -> others <> [] ->
    all_ok (fun d2 => eliminate (S fuel) values s d2 (AnInt n)) others h = Raise TypeError.
Proof.
  induction others as [|d2 rest IH]; intros c h Hs Hl N Hd E Hne; [contradiction|].
  assert (H2 : In d2 c /\ d2 <> d).
  { apply other_than_In. rewrite <- E. now left. }
  destruct H2 as [H2 Hdd].
  cbn [all_ok]. unfold bindM at 1.
  rewrite (eliminate_with_size fuel n values s l d2 c h Hs Hl N H2).
  set (c' := List.filter (other_than d2) c).
  assert (Hd' : In d c') by (apply other_than_In; auto).
  assert (N' : List.NoDup c') by (now apply List.NoDup_filter).
  assert (Er : rest = List.filter (other_than d) c').
  { unfold c'. rewrite filter_comm, <- E. cbn [List.filter]. unfold other_than at 1.
    rewrite String.eqb_refl. cbn [negb]. symmetry. apply filter_id.
    intros v Hv. unfold other_than. apply negb_true_iff, String.eqb_neq. intros ->.
    assert (Nf : List.NoDup (d2 :: rest)) by (rewrite E; now apply List.NoDup_filter).
    inversion Nf. contradiction. }
  destruct c' as [|x [|y c'']] eqn:Ec.
  - destruct Hd'.
  - reflexivity.
  - apply (IH (x :: y :: c'') (<[l := x :: y :: c'']> h)); auto.
    + apply list_lookup_insert_eq. now apply lookup_lt_Some in Hl.
    + intros ->. symmetry in Er.
      assert (Hall : forall v, In v (x :: y :: c'') -> v = d).
      { intros v Hv. destruct (String.eqb v d) eqn:Ev; [now apply String.eqb_eq|].
        exfalso. apply String.eqb_neq in Ev.
        assert (Hin : In v (List.filter (other_than d) (x :: y :: c'')))
          by (apply other_than_In; auto).
        rewrite Er in Hin. destruct Hin. }
      inversion N' as [|? ? Hx _]; subst. apply Hx.
      rewrite (Hall x (or_introl eq_refl)), (Hall y (or_intror (or_introl eq_refl))).
      now left.
Qed.

Lemma assign_raises (fuel : nat) (n : Z) (values : dict) (s : cell) (l : loc) (d : digit)
  (c : list digit) (h : store) :
  Py.assoc s values = Some l -> h !! l = Some c -> List.NoDup c -> In d c ->
  (1 < length c)%nat ->
  assign (S fuel) values s d (AnInt n) h = Raise TypeError.
Proof.
  intros Hs Hl N Hd Hlen. unfold assign, bindM, lift, Py.getitem.
  rewrite Hs. unfold load. rewrite Hl. cbn [default from_option id].
  apply (drain_raises fuel n values s l d _ c h); auto.
  destruct c as [|a [|b c]]; cbn in Hlen; try lia.
  inversion N as [|? ? Ha _]; subst.
  destruct (String.eqb a d) eqn:E.
  - apply String.eqb_eq in E as ->.
    assert (Hb : In b (List.filter (other_than d) (d :: b :: c))).
    { apply other_than_In. split; [right; now left|]. intros ->. apply Ha. now left. }
    intros E0. change (List.filter (other_than d) (d :: b :: c) = []) in E0.
    rewrite E0 in Hb. destruct Hb.
  - apply String.eqb_neq in E.
    assert (Hb : In a (List.filter (other_than d) (a :: b :: c))).
    { apply other_than_In. split; [now left | exact E]. }
    intros E0. change (List.filter (other_than d) (a :: b :: c) = []) in E0.
    rewrite E0 in Hb. destruct Hb.
Qed.

(** The cell that the loop [while True] leaves with has more than one
    candidate; the loop changes nothing. *)
Lemma pick_cell_spec (fuel : nat) (st : solver) (new_values : dict) :
  forall (g g1 : Rand.rng) (h h2 : store) (s : cell),
    pick_cell fuel st new_values g h = Return (s, g1, h2) ->
    h2 = h /\ exists c, candidates new_values s h = Return (c, h)
                        /\ (1 < length c)%nat.
Proof.
  induction fuel as [|fuel IH]; intros g g1 h h2 s H; [discriminate|].
  cbn [pick_cell] in H. step_lift H as sg Hc. destruct sg as [s0 g0].
  destruct (Py.mem s0 (fixed_cells st)); [eauto|].
  step H as c h1 H1. pose proof H1 as H1'.
  apply candidates_Return in H1' as [-> _].
  destruct (Nat.ltb 1 (length c)) eqn:E; [|eauto].
  apply ret_Return in H as [[= -> ->] ->]. apply Nat.ltb_lt in E. eauto.
Qed.

(** C7.  Whenever the neighbor move of the Hybrid solver has chosen its
    cell, it raises [TypeError] at the first candidate it tries: the call
    [assign(new_values.copy(), s, d, self.size)] hands the board size to
    [assign] as the peers, the other candidates of the cell are removed, and
    the peers of the cell are then looked up in that number.  No second
    candidate is tried, and neither a changed assignment nor the parent is
    returned.  (The candidates of the chosen cell are pairwise different, as
    they are in every assignment that propagation produces.) *)
Theorem hybrid_neighbor_move_raises (fuel : nat) (st : solver)
  (current_solution new_values : dict) (g g1 : Rand.rng) (h h1 h2 : store)
  (s : cell) (c : list digit) :
  deepcopy current_solution h = Return (new_values, h1) ->
  pick_cell fuel st new_values g h1 = Return (s, g1, h2) ->
  candidates new_values s h2 = Return (c, h2) ->
  List.NoDup c ->
  neighbor_search fuel st current_solution g h = Raise TypeError.
Proof.
  intros Hcopy Hpick Hc N.
  destruct (pick_cell_spec _ _ _ _ _ _ _ _ Hpick) as (-> & c0 & Hc0 & Hlen).
  rewrite Hc in Hc0. injection Hc0 as <-.
  destruct fuel as [|fuel]; [discriminate|].
  unfold neighbor_search, bindM at 1. rewrite Hcopy.
  unfold bindM at 1. rewrite Hpick. unfold bindM at 1. rewrite Hc.
  unfold Rand.sample. replace (Z.of_nat (length c) <? 0) with false by (symmetry; lia).
  rewrite Z.ltb_irrefl. cbn [orb]. rewrite Nat2Z.id.
  pose proof (pick_Permutation (length c) c g1 eq_refl) as Pm.
  destruct (Rand.pick (length c) c g1) as [ds g2]. cbn [fst] in Pm.
  unfold bindM at 1, lift at 1.
  destruct ds as [|d rest].
  { apply Permutation_length in Pm. cbn in Pm. lia. }
  assert (Hd : In d c) by (eapply Permutation_in; [exact Pm | now left]).
  apply candidates_Return in Hc as (_ & l & Hl & E).
  assert (Hlk : h1 !! l = Some c).
  { destruct (h1 !! l) as [c1|] eqn:E1; cbn in E; [congruence|].
    subst c. cbn in Hlen. lia. }
  unfold bindM at 1. cbn [try_moves]. unfold bindM at 1.
  rewrite (assign_raises fuel (size st) new_values s l d c h1 Hl Hlk N Hd Hlen).
  reflexivity.
Qed.

End HybridMove.

(* ===================================================================== *)
(** * hybrid_abc_cp.py on a 4 x 4 board                                   *)
(* ===================================================================== *)

Module Hybrid4.
Import Sudo Hybrid.

(** A solver on the 4 x 4 board as the constructor would leave it if its
    calls of [assign] went through: the puzzle is the assignment that
    [parse_grid] makes of the two clues of [Board4.puzzle], the fixed cells
    are its cells with one candidate, and the population holds that
    assignment. *)
Definition bee : solver :=
  Eval vm_compute in
    let values := fst Board4.parsed in
    let fixed := match single_cells values (Sudo.squares Board4.board) (snd Board4.parsed) with
                 | Return (l, _) => l
                 | _ => []
                 end in
    Solver 4 (Sudo.squares Board4.board) (Sudo.units Board4.board)
           (Sudo.peers Board4.board) (Sudo.digits Board4.board)
           values fixed 1000 10 20 10 [values] [3 # 16] values (3 # 16) [0].

Lemma hybrid_neighbor_move_raises_witness :
  neighbor_search 100 bee (fst Board4.parsed) Hive4.stream (snd Board4.parsed)
  = Raise TypeError.
Proof.
  eapply (HybridMove.hybrid_neighbor_move_raises 100 bee (fst Board4.parsed)).
  - vm_compute. reflexivity.
  - vm_compute. reflexivity.
  - vm_compute. reflexivity.
  - repeat constructor; cbn; intuition discriminate.
Defined.

(** The constructor does not get as far as a population: on a puzzle with a
    clue its first call of [assign], with six arguments, raises; so does the
    first one made for the population on an empty 4 x 4 puzzle. *)
Lemma hybrid_constructor_raises :
  init Board4.puzzle 4 Hive4.stream [] = Raise TypeError
  /\ init [] 4 Hive4.stream [] = Raise TypeError.
Proof. split; vm_compute; reflexivity. Qed.

End Hybrid4.

(* ===================================================================== *)
(** * msabc_solver.py: the first cycle                                    *)
(* ===================================================================== *)

Module MsabcFacts.
Import Msabc.

(** C8.  A run of the Multi-Swarm [solve] with a cycle budget of at least
    one ends in its first cycle, before any sub-swarm is advanced and before
    anything is yielded: the loop over the sub-swarms looks up
    [self.subswarms], and the constructor has bound the sub-swarms to
    [self.swarms]. *)
Theorem msabc_first_cycle_raises (st : solver) (g : Rand.rng) :
  0 < max_cycles st -> solve (st, g) = ([], Raise AttributeError).
Proof.
  intros H. unfold solve, Gen.bind, Gen.read. cbn [fst snd].
  destruct (Z.to_nat (max_cycles st)) as [|k] eqn:E; [lia|].
  reflexivity.
Qed.

(** The body of the loop over the sub-swarms could not run either: an
    [ABCSolver] has no attribute [abc]. *)
Lemma advance_raises (swarm : Abc.solver) (s : solver * Rand.rng) :
  advance swarm s = ([], Raise AttributeError).
Proof. reflexivity. Qed.

(** [MSABCSolver(clues, 4, 3, 2, 0.5, 10)] on the 4 x 4 puzzle of [Hive4]. *)
Definition coordinator : solver * Rand.rng :=
  Eval vm_compute in
    match init Hive4.clues 4 3 2 (1 # 2) 10 Hive4.stream with
    | Return s => s
    | _ => (Solver 0 0 0 0 0 [] None None, Hive4.stream)
    end.

Lemma msabc_first_cycle_raises_witness :
  length (swarms (fst coordinator)) = 2%nat
  /\ solve coordinator = ([], Raise AttributeError).
Proof.
  split; [reflexivity|].
  apply (msabc_first_cycle_raises (fst coordinator) (snd coordinator)).
  reflexivity.
Defined.

End MsabcFacts.

(* ===================================================================== *)
(** * The three population-based solvers                                  *)
(* ===================================================================== *)

Module Solvers.
Import TraceFacts.

(** The solver that [HybridABCSolver({}, 1)] builds on the board of one
    cell. *)
Definition lone_bee : Hybrid.solver * Rand.rng * list (list string) :=
  Eval vm_compute in
    match Hybrid.init [] 1 Hive4.stream [] with
    | Return s => s
    | _ => (Hybrid.Solver 0 [] [] [] [] [] [] 0 0 0 0 [] [] [] 0 [], Hive4.stream, [])
    end.

(** C5.  In every run of a population-based solver the fitness that is
    yielded never falls: each yielded value is at least the one yielded
    before it.  For the Bee-Colony solver this holds from any state of the
    solver.  For the Hybrid solver it holds from any state in which no
    score is above 1 and the board has at most [size * size] cells, and for
    the Ant-Colony solver from any state in which no cell has been counted
    as fixed yet and the board has [size * size] cells; the solvers that the
    two constructors return are such states. *)
Theorem best_fitness_never_falls :
  (forall (fuel : nat) (st : Abc.solver) (g : Rand.rng),
      nondecreasing (map snd (fst (Abc.solve fuel (st, g)))))
  /\ (forall (fuel : nat) (st : Hybrid.solver) (h : list (list string)) (g : Rand.rng),
         HybridTrace.bounded_solver st ->
         nondecreasing (map snd (fst (Hybrid.solve fuel (st, h, g)))))
  /\ (forall (puzzle_dict : list (string * string)) (n : Z) (g g' : Rand.rng)
             (h h' : list (list string)) (st : Hybrid.solver),
         Hybrid.init puzzle_dict n g h = Return (st, g', h') ->
         HybridTrace.bounded_solver st)
  /\ (forall (fuel cycles : nat) (st : Aco.solver) (g : Rand.rng),
         Aco.best_fixed st = 0 ->
         Z.of_nat (length (Aco.squares st)) = Aco.size st ^ 2 ->
         nondecreasing (map snd (fst (Aco.solve fuel cycles (st, g)))))
  /\ (forall (fuel : nat) (puzzle_dict : list (string * string)) (n ants : Z)
             (bve : Q) (st : Aco.solver),
         Aco.init fuel puzzle_dict n ants bve = Return st ->
         Aco.best_fixed st = 0
         /\ Z.of_nat (length (Aco.squares st)) = Aco.size st ^ 2).
Proof.
  split; [|split; [|split; [|split]]].
  - intros. apply AbcTrace.abc_yields_rise.
  - intros. now apply HybridTrace.hybrid_yields_rise.
  - intros. eapply HybridTrace.init_bounded; eauto.
  - intros. now apply AcoFacts.aco_yields_rise.
  - intros. eapply AcoFacts.init_fresh; eauto.
Qed.

Lemma best_fitness_never_falls_witness :
  nondecreasing (map snd (fst (Abc.solve 20%nat Hive4.hive)))
  /\ nondecreasing
       (map snd (fst (Hybrid.solve 20%nat
                        (fst (fst lone_bee), snd lone_bee, snd (fst lone_bee)))))
  /\ nondecreasing
       (map snd (fst (Hybrid.solve 20%nat
                        (Hybrid4.bee, snd Board4.parsed, Hive4.stream))))
  /\ nondecreasing
       (map snd (fst (Aco.solve 200%nat 3%nat (Colony6.colony, Colony6.steady 0)))).
Proof.
  destruct best_fitness_never_falls as (Habc & Hhybrid & Hinit & Haco & Hfresh).
  split; [|split; [|split]].
  - apply (Habc 20%nat (fst Hive4.hive) (snd Hive4.hive)).
  - apply Hhybrid.
    apply (Hinit [] 1 Hive4.stream (snd (fst lone_bee)) [] (snd lone_bee)).
    vm_compute. reflexivity.
  - apply Hhybrid. split; [|split].
    + vm_compute. discriminate.
    + repeat constructor. vm_compute. discriminate.
    + vm_compute. discriminate.
  - destruct (Hfresh 200%nat Colony6.puzzle 6 2 (1 # 10) Colony6.colony) as [B L].
    + vm_compute. reflexivity.
    + now apply Haco.
Defined.

End Solvers.

(* ===================================================================== *)
(** * sudo.py: the board that the builder returns                         *)
(* ===================================================================== *)

Module BoardFacts.
Import PyFacts Sudo BuilderFacts.

(** ** The subgrid dimensions *)

(** The countdown stops at the first divisor it meets: nothing between the
    result and the start divides the size. *)
Lemma subgrid_rows_from_greatest (size : Z) (k : nat) (sr : Z) :
  subgrid_rows_from size k = Return sr ->
  forall d, sr < d <= Z.of_nat k -> size mod d <> 0.
Proof.
  induction k as [|k IH]; [discriminate|].
  cbn [subgrid_rows_from].
  destruct (size mod Z.of_nat (S k) =? 0) eqn:E.
  - intros [= <-] d Hd. lia.
  - intros H d Hd. apply Z.eqb_neq in E.
    destruct (Z.eq_dec d (Z.of_nat (S k))) as [->|Hne]; [exact E|].
    apply (IH H). lia.
Qed.

(** X1.  The subgrids of a returned model are [subgrid_rows] by
    [subgrid_cols] with [subgrid_rows * subgrid_cols = size] and
    [subgrid_rows <= subgrid_cols], and of all the ways to write the size as
    [r * c] with [r <= c] the builder takes the one with the greatest [r]:
    the subgrid is as square as the size allows. *)
Theorem subgrid_is_squarest (size : Z) (m : model) :
  initialize_structures size = Return m ->
  subgrid_rows m * subgrid_cols m = size
  /\ 1 <= subgrid_rows m <= subgrid_cols m
  /\ forall r c, 1 <= r -> r <= c -> r * c = size -> r <= subgrid_rows m.
Proof.
  intros H. apply initialize_structures_Return in H
    as (H1 & _ & _ & _ & Hsr & Hsc & _).
  pose proof (subgrid_rows_from_greatest _ _ _ Hsr) as Hmax.
  apply subgrid_rows_from_spec in Hsr as [Hsr Hmod].
  set (sr := subgrid_rows m) in *. set (sc := subgrid_cols m) in *.
  pose proof (Z.sqrt_spec size ltac:(lia)) as Hsq.
  set (q := Z.sqrt size) in *.
  assert (Hq : 0 <= q) by apply Z.sqrt_nonneg.
  rewrite Z2Nat.id in Hsr, Hmax by assumption.
  assert (Hdiv : size = sr * sc).
  { subst sc. rewrite Hsc. pose proof (Z.div_mod size sr). lia. }
  cbv zeta in Hsq. clearbody sr sc q.
  split; [lia|]. split.
  - split; [lia|].
    destruct (Z.le_gt_cases sr sc) as [|Hlt]; [assumption|]. exfalso.
    assert (sr * sc < sr * sr) by nia.
    assert (sr * sr <= q * q) by nia. lia.
  - intros r c Hr Hrc Hprod.
    destruct (Z.le_gt_cases r sr) as [|Hgt]; [assumption|]. exfalso.
    apply (Hmax r).
    + split; [assumption|].
      destruct (Z.le_gt_cases r q) as [|Hq']; [assumption|]. exfalso.
      assert (q + 1 <= r) by lia.
      assert ((q + 1) * (q + 1) <= r * c) by nia. lia.
    + rewrite <- Hprod, Z.mul_comm. apply Z.mod_mul. lia.
Qed.

Lemma subgrid_is_squarest_witness :
  exists m, initialize_structures 12 = Return m
            /\ subgrid_rows m * subgrid_cols m = 12
            /\ 1 <= subgrid_rows m <= subgrid_cols m
            /\ forall r c, 1 <= r -> r <= c -> r * c = 12 -> r <= subgrid_rows m.
Proof.
  destruct (initialize_structures 12) as [m| |] eqn:E; try (vm_compute in E; discriminate).
  exists m. split; [reflexivity|]. exact (subgrid_is_squarest 12 m E).
Defined.

(** ** Sizes *)

(** The counts of the board, as a test on a model: every cell is in the
    peers dict with [3 * size - subgrid_rows - subgrid_cols - 1] pairwise
    different peers. *)
Definition peer_counts (size : Z) (m : model) : bool :=
  forallb (fun s =>
             match Py.assoc s (peers m) with
             | Some ps =>
                 nodupb ps
                 && (Z.of_nat (length ps)
                     =? 3 * size - subgrid_rows m - subgrid_cols m - 1)
             | None => false
             end)
          (squares m)
  && Nat.eqb (length (peers m)) (length (squares m))
  && Nat.eqb (String.length (rows m)) (nat_of size)
  && Nat.eqb (length (cols m)) (nat_of size).

Lemma peer_counts_all (size : Z) (m : model) :
  initialize_structures size = Return m -> peer_counts size m = true.
Proof. apply holds_at_all. vm_compute. reflexivity. Qed.

(** X2.  The board of a returned model: [size * size] pairwise different
    cells, [size] pairwise different digits, [size] row and column labels,
    units of [size] pairwise different cells of the board, and for every
    cell [3 * size - subgrid_rows - subgrid_cols - 1] pairwise different
    peers (the row, the column and the subgrid of the cell, the cell itself
    and the cells counted twice left out). *)
Theorem board_counts (size : Z) (m : model) :
  initialize_structures size = Return m ->
  Z.of_nat (length (squares m)) = size * size /\ List.NoDup (squares m)
  /\ Z.of_nat (length (digits m)) = size /\ List.NoDup (digits m)
  /\ Z.of_nat (String.length (rows m)) = size
  /\ Z.of_nat (length (cols m)) = size
  /\ (forall u, In u (unitlist m) ->
        Z.of_nat (length u) = size /\ List.NoDup u /\ incl u (squares m))
  /\ (forall s, In s (squares m) ->
        exists ps, Py.assoc s (peers m) = Some ps /\ List.NoDup ps
                   /\ Z.of_nat (length ps)
                      = 3 * size - subgrid_rows m - subgrid_cols m - 1).
Proof.
  intros H.
  pose proof (initialize_structures_accepts _ _ H) as Hsize.
  pose proof (well_formed_all _ _ H) as WF. unfold well_formed in WF.
  apply andb_prop in WF as [WF _]. apply andb_prop in WF as [WF Hunits].
  apply andb_prop in WF as [WF Hsqlen]. apply andb_prop in WF as [WF Hsqnd].
  apply andb_prop in WF as [Hdnd Hdlen].
  apply Nat.eqb_eq in Hsqlen, Hdlen. unfold nat_of in *.
  pose proof (peer_counts_all _ _ H) as PC. unfold peer_counts in PC.
  apply andb_prop in PC as [PC Hcols]. apply andb_prop in PC as [PC Hrows].
  apply andb_prop in PC as [Hpeers _].
  apply Nat.eqb_eq in Hcols, Hrows. unfold nat_of in *.
  rewrite forallb_forall in Hunits, Hpeers.
  split; [nia|]. split; [now apply nodupb_NoDup|].
  split; [lia|]. split; [now apply nodupb_NoDup|].
  split; [lia|]. split; [lia|]. split.
  - intros u Hu. specialize (Hunits u Hu).
    apply andb_prop in Hunits as [Hu1 Husq]. apply andb_prop in Hu1 as [Hund Hulen].
    apply Nat.eqb_eq in Hulen. rewrite forallb_forall in Husq.
    split; [lia|]. split; [now apply nodupb_NoDup|].
    intros s Hs. apply mem_In. auto.
  - intros s Hs. specialize (Hpeers s Hs).
    destruct (Py.assoc s (peers m)) as [ps|]; [|discriminate].
    apply andb_prop in Hpeers as [Hnd Hlen]. apply Z.eqb_eq in Hlen.
    exists ps. split; [reflexivity|]. split; [now apply nodupb_NoDup | exact Hlen].
Qed.

Lemma board_counts_witness :
  exists m, initialize_structures 6 = Return m
            /\ Z.of_nat (length (squares m)) = 6 * 6
            /\ Z.of_nat (length (digits m)) = 6
            /\ (forall s, In s (squares m) ->
                  exists ps, Py.assoc s (peers m) = Some ps /\ List.NoDup ps
                             /\ Z.of_nat (length ps)
                                = 3 * 6 - subgrid_rows m - subgrid_cols m - 1).
Proof.
  destruct (initialize_structures 6) as [m| |] eqn:E; try (vm_compute in E; discriminate).
  exists m. split; [reflexivity|].
  destruct (board_counts 6 m E) as (H1 & _ & H2 & _ & _ & _ & _ & H3).
  repeat split; assumption.
Defined.

Lemma board_lengths (size : Z) (m : model) :
  initialize_structures size = Return m ->
  length (squares m) = (Z.to_nat size * Z.to_nat size)%nat
  /\ length (digits m) = Z.to_nat size
  /\ List.NoDup (squares m) /\ List.NoDup (digits m).
Proof.
  intros H.
  pose proof (well_formed_all _ _ H) as WF. unfold well_formed in WF.
  apply andb_prop in WF as [WF _]. apply andb_prop in WF as [WF _].
  apply andb_prop in WF as [WF Hsqlen]. apply andb_prop in WF as [WF Hsqnd].
  apply andb_prop in WF as [Hdnd Hdlen].
  apply Nat.eqb_eq in Hsqlen, Hdlen. unfold nat_of in *.
  repeat split; try assumption; now apply nodupb_NoDup.
Qed.

(** ** Peers *)

Lemma unit_cells_on_board (size : Z) (m : model) (u : list cell) (s : cell) :
  initialize_structures size = Return m -> In u (unitlist m) -> In s u ->
  In s (squares m).
Proof.
  intros H Hu Hs.
  pose proof (well_formed_all _ _ H) as WF. unfold well_formed in WF.
  apply andb_prop in WF as [WF _]. apply andb_prop in WF as [_ Hunits].
  rewrite forallb_forall in Hunits. specialize (Hunits u Hu).
  apply andb_prop in Hunits as [_ Husq]. rewrite forallb_forall in Husq.
  apply mem_In. auto.
Qed.

(** X3.  The peers of a cell are the other cells of its units, each once:
    [s2] is a peer of [s] exactly when it is another cell and some unit
    holds both.  Being peers is therefore mutual, and no cell is its own
    peer. *)
Theorem peers_are_unit_mates (size : Z) (m : model) (s : cell) (ps : list cell) :
  initialize_structures size = Return m ->
  Py.assoc s (peers m) = Some ps ->
  List.NoDup ps
  /\ ~ In s ps
  /\ (forall s2, In s2 ps <->
                 s2 <> s /\ exists u, In u (unitlist m) /\ In s u /\ In s2 u)
  /\ (forall s2, In s2 ps ->
                 exists ps2, Py.assoc s2 (peers m) = Some ps2 /\ In s ps2).
Proof.
  intros H Hp.
  destruct (peers_lookup_inv _ _ _ _ H Hp) as [Hs Hps].
  assert (Hiff : forall s2, In s2 ps <->
                 s2 <> s /\ exists u, In u (unitlist m) /\ In s u /\ In s2 u).
  { intros s2. split.
    - intros Hin. eapply peers_share_a_unit; eassumption.
    - intros (Hne & u & Hu & Hsu & Hs2u).
      destruct (unit_mates_are_peers _ _ u s s2 H Hu Hsu Hs2u Hne Hs) as (ps' & Hps' & Hin).
      congruence. }
  split; [|split; [|split]].
  - subst ps. unfold peers_of. apply List.NoDup_filter, dedup_NoDup.
  - intros Hin. apply Hiff in Hin as [Hne _]. congruence.
  - exact Hiff.
  - intros s2 Hin. apply Hiff in Hin as (Hne & u & Hu & Hsu & Hs2u).
    eapply unit_mates_are_peers; try eassumption.
    + congruence.
    + eapply unit_cells_on_board; eassumption.
Qed.

Lemma peers_are_unit_mates_witness :
  exists m ps, initialize_structures 4 = Return m
               /\ Py.assoc "B3" (peers m) = Some ps
               /\ List.NoDup ps /\ ~ In "B3" ps
               /\ (forall s2, In s2 ps ->
                     exists ps2, Py.assoc s2 (peers m) = Some ps2 /\ In "B3" ps2).
Proof.
  destruct (initialize_structures 4) as [m| |] eqn:E; try (vm_compute in E; discriminate).
  destruct (Py.assoc "B3" (peers m)) as [ps|] eqn:Ep.
  2:{ exfalso. injection E as <-. vm_compute in Ep. discriminate. }
  exists m, ps. split; [reflexivity|]. split; [exact Ep|].
  destruct (peers_are_unit_mates 4 m "B3" ps E Ep) as (H1 & H2 & _ & H4).
  repeat split; assumption.
Defined.

(** ** The cell IDs that [grid_values] accepts *)

Lemma chars_single (r : string) (x : string) :
  In x (Py.chars r) -> exists c, x = String c EmptyString.
Proof.
  unfold Py.chars. rewrite in_map_iff. intros (c & <- & _). eauto.
Qed.

(** A key is a cell ID of [cross(rows, cols)] exactly when its first
    character is a row label and the rest is a column label. *)
Lemma cross_chars_In (r : string) (cs : list string) (k : string) :
  In k (cross (Py.chars r) cs) <->
  exists c t, k = String c t /\ In (String c EmptyString) (Py.chars r) /\ In t cs.
Proof.
  unfold cross. rewrite in_flat_map. split.
  - intros (a & Ha & Hk). apply in_map_iff in Hk as (b & <- & Hb).
    destruct (chars_single _ _ Ha) as [c ->]. exists c, b. cbn. auto.
  - intros (c & t & -> & Hc & Ht). exists (String c EmptyString).
    split; [assumption|]. apply in_map_iff. exists t. cbn. auto.
Qed.

Lemma str_index_0 (c : ascii) (t : string) :
  Py.str_index (String c t) 0 = Return (String c EmptyString).
Proof. reflexivity. Qed.

(** The test on one key of the dict. *)
Definition check_key (m : model) (kv : cell * string) : result unit :=
  let! k0 := Py.str_index (fst kv) 0 in
  if Py.mem k0 (Py.chars (rows m)) && Py.mem (tail_of (fst kv)) (cols m)
  then Return tt else Raise ValueError.

Lemma check_key_spec (size : Z) (m : model) (kv : cell * string) :
  initialize_structures size = Return m ->
  (In (fst kv) (squares m) -> check_key m kv = Return tt)
  /\ (~ In (fst kv) (squares m) ->
      check_key m kv = Raise ValueError
      \/ (fst kv = "" /\ check_key m kv = Raise IndexError)).
Proof.
  intros H. apply initialize_structures_Return in H as (_ & _ & _ & Hsq & _).
  rewrite Hsq. destruct kv as [k v]. cbn [fst]. unfold check_key. cbn [fst].
  split.
  - intros Hin. apply cross_chars_In in Hin as (c & t & -> & Hc & Ht).
    rewrite str_index_0. cbn [bind tail_of].
    apply mem_In in Hc, Ht. now rewrite Hc, Ht.
  - intros Hnin. destruct k as [|c t]; [right; split; reflexivity|]. left.
    rewrite str_index_0. cbn [bind tail_of].
    destruct (Py.mem (String c "") (Py.chars (rows m))) eqn:Ec; [|reflexivity].
    destruct (Py.mem t (cols m)) eqn:Et; [|reflexivity].
    exfalso. apply Hnin. apply cross_chars_In. exists c, t.
    apply mem_In in Ec, Et. auto.
Qed.

Lemma mapM_check (m : model) (g : grid) :
  (Forall (fun kv => check_key m kv = Return tt) g ->
   exists us, mapM (check_key m) g = Return us)
  /\ (forall e kv, In kv g -> check_key m kv = Raise e ->
        Forall (fun kv' => check_key m kv' = Return tt \/ check_key m kv' = Raise e) g ->
        mapM (check_key m) g = Raise e).
Proof.
  split.
  - induction 1 as [|kv g Hkv _ [us IH]]; [eexists; reflexivity|].
    cbn [mapM]. rewrite Hkv, IH. eexists. reflexivity.
  - intros e kv Hin Hkv F. induction F as [|kv' g Hkv' F IH]; [destruct Hin|].
    cbn [mapM]. destruct Hkv' as [E|E]; rewrite E; [|reflexivity].
    cbn [bind]. destruct Hin as [->|Hin]; [congruence|].
    rewrite (IH Hin). reflexivity.
Qed.

(** The keys of a dict that [grid_values] hands back are cell IDs. *)
Lemma grid_values_keys (size : Z) (m : model) (g g' : grid) :
  initialize_structures size = Return m ->
  grid_values g size = Return g' ->
  g' = g /\ forall s d, In (s, d) g -> In s (squares m).
Proof.
  intros H Hg. unfold grid_values in Hg. rewrite H in Hg. cbn [bind] in Hg.
  apply bind_Return in Hg as (us & Hus & Hg). injection Hg as <-.
  split; [reflexivity|]. intros s d Hin.
  destruct (mapM_Return_each _ _ _ Hus (s, d) Hin) as [u Hu].
  change (check_key m (s, d) = Return u) in Hu.
  destruct (in_dec string_dec s (squares m)) as [|Hnin]; [assumption|].
  destruct (proj2 (check_key_spec _ _ (s, d) H) Hnin) as [E|[_ E]]; congruence.
Qed.

(** X4.  [grid_values] on a dict hands the dict back exactly when every key
    is a cell ID of the board (a row label followed by a column label); the
    values are not looked at.  With any other key it raises: [ValueError], or
    [IndexError] on the empty key, whose first character cannot be read. *)
Theorem grid_values_accepts_cell_ids (size : Z) (m : model) (g : grid) :
  initialize_structures size = Return m ->
  (grid_values g size = Return g <-> Forall (fun kv => In (fst kv) (squares m)) g)
  /\ (forall g', grid_values g size = Return g' -> g' = g)
  /\ (~ Forall (fun kv => In (fst kv) (squares m)) g ->
      grid_values g size = Raise ValueError
      \/ (In "" (map fst g) /\ grid_values g size = Raise IndexError)).
Proof.
  intros H.
  assert (E : grid_values g size
              = let! _ := mapM (check_key m) g in Return g).
  { unfold grid_values. rewrite H. reflexivity. }
  assert (Hret : Forall (fun kv => In (fst kv) (squares m)) g ->
                 grid_values g size = Return g).
  { intros F. rewrite E.
    destruct (proj1 (mapM_check m g)) as [us ->]; [|reflexivity].
    eapply List.Forall_impl; [|exact F]. intros kv. apply (check_key_spec _ _ kv H). }
  assert (Hraise : ~ Forall (fun kv => In (fst kv) (squares m)) g ->
      grid_values g size = Raise ValueError
      \/ (In "" (map fst g) /\ grid_values g size = Raise IndexError)).
  { intros NF. rewrite E. clear E Hret.
    induction g as [|kv g IH]; [exfalso; apply NF; constructor|].
    cbn [mapM map].
    destruct (in_dec string_dec (fst kv) (squares m)) as [Hin|Hnin].
    - rewrite (proj1 (check_key_spec _ _ kv H) Hin). cbn [bind].
      destruct IH as [IH|[I1 IH]].
      + intros F. apply NF. constructor; assumption.
      + left. destruct (mapM (check_key m) g); try discriminate; reflexivity || exact IH.
      + right. split; [right; exact I1|].
        destruct (mapM (check_key m) g); try discriminate; exact IH.
    - destruct (proj2 (check_key_spec _ _ kv H) Hnin) as [->|[Hk ->]].
      + left. reflexivity.
      + right. split; [left; exact Hk | reflexivity]. }
  split; [split|split].
  - intros Hg.
    destruct (List.Forall_dec (fun kv : cell * string => In (fst kv) (squares m))
                (fun kv => in_dec string_dec (fst kv) (squares m)) g) as [F|NF];
      [exact F|].
    destruct (Hraise NF) as [R|[_ R]]; congruence.
  - exact Hret.
  - intros g' Hg'. rewrite E in Hg'.
    apply bind_Return in Hg' as (us & _ & Hg'). congruence.
  - exact Hraise.
Qed.

Lemma grid_values_accepts_cell_ids_witness :
  exists m, initialize_structures 4 = Return m
            /\ (grid_values [("C2", "1"); ("B3", "x")] 4
                = Return [("C2", "1"); ("B3", "x")]
                <-> Forall (fun kv => In (fst kv) (squares m))
                           [("C2", "1"); ("B3", "x")]).
Proof.
  destruct (initialize_structures 4) as [m| |] eqn:E; try (vm_compute in E; discriminate).
  exists m. split; [reflexivity|].
  exact (proj1 (grid_values_accepts_cell_ids 4 m [("C2", "1"); ("B3", "x")] E)).
Defined.

End BoardFacts.

(* ===================================================================== *)
(** * sudo.py: propagation and search come to an end                      *)
(* ===================================================================== *)

(** The recursion of [eliminate] and of [search] is bounded in the model by
    a budget.  This part shows that the budget is never what stops them: every
    recursive call of [eliminate] follows the removal of a candidate, and every
    recursive call of [search] works on an assignment with fewer candidates. *)

Module Termination.
Import PyFacts Sudo BuilderFacts StoreFacts PropagationFacts BoardFacts.

(** A computation that returns or raises. *)
Definition runs {A : Type} (r : result A) : Prop := r <> Diverge.

Lemma runs_Return {A : Type} (a : A) : runs (Return a).
Proof. discriminate. Qed.

Lemma runs_Raise {A : Type} (e : exn) : runs (@Raise A e).
Proof. discriminate. Qed.

Lemma runs_cases {A : Type} (r : result A) :
  runs r <-> (exists a, r = Return a) \/ (exists e, r = Raise e).
Proof.
  unfold runs. destruct r; split; intros H; eauto; try discriminate.
  - congruence.
  - destruct H as [[a H]|[e H]]; discriminate.
Qed.

Lemma bind_runs {A B : Type} (r : result A) (f : A -> result B) :
  runs r -> (forall a, r = Return a -> runs (f a)) -> runs (bind r f).
Proof. destruct r; cbn; intros H Hf; [now apply Hf | discriminate | now destruct H]. Qed.

Lemma mapM_runs {A B : Type} (f : A -> result B) (l : list A) :
  (forall x, In x l -> runs (f x)) -> runs (mapM f l).
Proof.
  induction l as [|x l IH]; intros Hf; [apply runs_Return|].
  cbn [mapM]. apply bind_runs; [apply Hf; left; reflexivity|].
  intros y _. apply bind_runs; [apply IH; intros; apply Hf; now right|].
  intros ys _. apply runs_Return.
Qed.

Lemma bindM_runs {A B : Type} (m : M A) (f : A -> M B) (h : store) :
  runs (m h) -> (forall a h1, m h = Return (a, h1) -> runs (f a h1)) ->
  runs (bindM m f h).
Proof.
  unfold bindM. destruct (m h) as [[a h1]| |]; intros H Hf;
    [now apply Hf | discriminate | now destruct H].
Qed.

Lemma lift_runs {A : Type} (r : result A) (h : store) : runs r -> runs (lift r h).
Proof. unfold lift. destruct r; intros H; [discriminate | discriminate | now destruct H]. Qed.

Lemma getitem_runs {V : Type} (d : list (string * V)) (k : string) :
  runs (Py.getitem d k).
Proof. unfold Py.getitem. destruct (Py.assoc k d); discriminate. Qed.

Lemma index_runs {A : Type} (l : list A) (k : Z) : runs (Py.index l k).
Proof.
  unfold Py.index. destruct (_ <? 0); [discriminate|].
  destruct (nth_error _ _); discriminate.
Qed.

Lemma remove_runs (d : digit) (c : list digit) : runs (Py.remove d c).
Proof.
  induction c as [|y c IH]; cbn [Py.remove]; [discriminate|].
  destruct (String.eqb d y); [discriminate|].
  apply bind_runs; [exact IH | intros; discriminate].
Qed.

Lemma remove_mem (d : digit) (c : list digit) :
  Py.mem d c = true -> exists c', Py.remove d c = Return c'.
Proof.
  induction c as [|y c IH]; cbn; [discriminate|].
  destruct (String.eqb d y); [eauto|]. cbn. intros H.
  destruct (IH H) as [c' ->]. cbn. eauto.
Qed.

Lemma candidates_runs (values : dict) (s : cell) (h : store) :
  runs (candidates values s h).
Proof.
  unfold candidates. apply bindM_runs; [apply lift_runs, getitem_runs|].
  intros l h1 _. discriminate.
Qed.

(** The builder returns or raises. *)
Lemma initialize_structures_runs (size : Z) : runs (initialize_structures size).
Proof.
  unfold initialize_structures. destruct (size <? 1); [discriminate|].
  apply bind_runs.
  { generalize (Z.to_nat (Z.sqrt size)). intros k.
    induction k as [|k IH]; cbn [subgrid_rows_from]; [discriminate|].
    destruct (_ =? 0); [discriminate | exact IH]. }
  intros sr _. apply bind_runs.
  { unfold make_digits. destruct (9 <? size); [|discriminate].
    apply bind_runs; [|intros; discriminate].
    apply mapM_runs. intros i _. unfold Py.chr.
    destruct (_ || _); discriminate. }
  intros ds _. apply bind_runs; [|intros; discriminate].
  unfold subgrid_units. apply bind_runs; [|intros; discriminate].
  apply mapM_runs. intros i _. apply mapM_runs. intros j _.
  unfold subgrid. apply bind_runs; [|intros; discriminate].
  apply mapM_runs. intros x _. apply mapM_runs. intros y _.
  apply bind_runs; [apply index_runs|]. intros r _.
  apply bind_runs; [apply index_runs|]. intros c _. discriminate.
Qed.

(** ** The candidates that a dict holds *)

(** The number of candidates in the lists of the dict. *)
Definition held (values : dict) (h : store) : nat :=
  list_sum (map (fun kv : cell * loc => length (default [] (h !! snd kv))) values).

Definition len_at (h : store) (l : loc) : nat := length (default [] (h !! l)).

Lemma list_sum_cons (x : nat) (l : list nat) : list_sum (x :: l) = (x + list_sum l)%nat.
Proof. reflexivity. Qed.

Lemma held_len_at (values : dict) (h : store) :
  held values h = list_sum (map (fun kv : cell * loc => len_at h (snd kv)) values).
Proof. reflexivity. Qed.

Lemma len_at_insert_other (h : store) (l l0 : loc) (c' : list digit) :
  l0 <> l -> len_at (<[l := c']> h) l0 = len_at h l0.
Proof. intros Hne. unfold len_at. rewrite list_lookup_insert_ne; congruence. Qed.

Lemma len_at_insert_same (h : store) (l : loc) (c' : list digit) :
  (length c' < len_at h l)%nat -> len_at (<[l := c']> h) l = length c'.
Proof.
  unfold len_at. intros H. destruct (h !! l) as [c|] eqn:E; [|cbn in H; lia].
  rewrite list_lookup_insert_eq; [reflexivity|]. eapply lookup_lt_Some. exact E.
Qed.

(** Writing a shorter list through a reference of the dict leaves it with
    fewer candidates. *)
Lemma held_write (values : dict) (h : store) (l : loc) (c' : list digit) :
  (length c' < len_at h l)%nat ->
  (held values (<[l := c']> h) <= held values h)%nat
  /\ (In l (locs values) -> (held values (<[l := c']> h) < held values h)%nat).
Proof.
  intros Hlen. rewrite !held_len_at. unfold locs.
  induction values as [|[k l0] values [IH1 IH2]]; cbn [map snd]; rewrite ?list_sum_cons; [split; [lia | intros []]|].
  destruct (Nat.eq_dec l0 l) as [->|Hne].
  - rewrite len_at_insert_same by assumption. split; [lia|]. intros _. lia.
  - rewrite len_at_insert_other by assumption. split; [lia|].
    intros [E|Hin]; [congruence|]. specialize (IH2 Hin). lia.
Qed.

Lemma held_extends (values : dict) (h h' : store) :
  (forall l, In l (locs values) -> (l < length h)%nat) ->
  extends h h' -> held values h' = held values h.
Proof.
  intros W [_ E]. unfold held, locs in *.
  induction values as [|[k l] values IH]; cbn [map snd]; rewrite ?list_sum_cons; [reflexivity|].
  rewrite E by (apply W; left; reflexivity).
  rewrite IH; [reflexivity|]. intros l0 Hl0. apply W. now right.
Qed.

Lemma view_len_at (values : dict) (h : store) (s : cell) (l : loc) :
  Py.assoc s values = Some l -> length (view values h s) = len_at h l.
Proof. intros E. unfold view, len_at. now rewrite E. Qed.

(** ** Propagation *)

Lemma ret_runs {A : Type} (a : A) (h : store) : runs (ret a h).
Proof. discriminate. Qed.

Lemma all_ok_held {A : Type} (f : A -> M bool) (mu : store -> nat) (xs : list A) :
  (forall x h b h', In x xs -> f x h = Return (b, h') -> (mu h' <= mu h)%nat) ->
  forall h b h', all_ok f xs h = Return (b, h') -> (mu h' <= mu h)%nat.
Proof.
  induction xs as [|x xs IH]; intros Hf h b h' H.
  - apply ret_Return in H as [_ ->]. lia.
  - cbn [all_ok] in H. step H as ok h1 H1.
    pose proof (Hf x h ok h1 (or_introl eq_refl) H1) as L1.
    destruct ok.
    + eapply IH in H; [lia|]. intros y h2 b2 h2' Hy. apply Hf. now right.
    + apply ret_Return in H as [_ ->]. exact L1.
Qed.

Lemma all_ok_runs {A : Type} (f : A -> M bool) (mu : store -> nat) (n : nat)
  (xs : list A) :
  (forall x h, In x xs -> (mu h < n)%nat -> runs (f x h)) ->
  (forall x h b h', In x xs -> f x h = Return (b, h') -> (mu h' <= mu h)%nat) ->
  forall h, (mu h < n)%nat -> runs (all_ok f xs h).
Proof.
  induction xs as [|x xs IH]; intros Hr Hm h Hh; [apply ret_runs|].
  cbn [all_ok]. apply bindM_runs; [apply Hr; [left; reflexivity | exact Hh]|].
  intros b h1 H1. destruct b; [|apply ret_runs].
  apply IH.
  - intros y h2 Hy. apply Hr. now right.
  - intros y h2 b2 h2' Hy. apply Hm. now right.
  - pose proof (Hm x h true h1 (or_introl eq_refl) H1). lia.
Qed.

(** [eliminate] never adds a candidate, and removes one when the digit is
    there. *)
Lemma eliminate_held (fuel : nat) (values : dict) (peers : peers_arg) :
  forall s d h b h',
    eliminate fuel values s d peers h = Return (b, h') ->
    (held values h' <= held values h)%nat
    /\ (In d (view values h s) -> (held values h' < held values h)%nat).
Proof.
  induction fuel as [|fuel IH]; intros s d h b h' H; [discriminate|].
  cbn [eliminate] in H. step_lift H as l Hl. step_load H as c Hc.
  apply getitem_loc in Hl as [Hl Hin].
  assert (Hv : view values h s = c) by (unfold view; rewrite Hl; auto).
  case_if H.
  { apply ret_Return in H as [_ ->]. split; [lia|].
    rewrite Hv. intros Hd. apply mem_In in Hd.
    apply negb_true_iff in E. congruence. }
  step_lift H as c' Hc'. step H as u h1 Hw.
  unfold write in Hw. injection Hw as _ <-.
  apply remove_spec in Hc' as (_ & Hlen & _).
  assert (Hlt : (length c' < len_at h l)%nat).
  { unfold len_at. rewrite <- Hc. lia. }
  destruct (held_write values h l c' Hlt) as [_ W]. specialize (W Hin).
  assert (K : (held values h' <= held values (<[l := c']> h))%nat).
  { destruct c' as [|d2 [|d3 rest]].
    - apply ret_Return in H as [_ ->]. lia.
    - step_lift H as ps Hps.
      eapply (all_ok_held _ (held values)) in H; [exact H|].
      intros s2 h2 b2 h2' _ H2. exact (proj1 (IH _ _ _ _ _ H2)).
    - apply ret_Return in H as [_ ->]. lia. }
  split; [lia | intros _; lia].
Qed.

(** [eliminate] returns or raises as soon as the budget exceeds the number
    of candidates that the dict holds. *)
Lemma eliminate_runs (fuel : nat) :
  forall values s d peers h,
    (held values h < fuel)%nat -> runs (eliminate fuel values s d peers h).
Proof.
  induction fuel as [|fuel IH]; intros values s d peers h Hh; [lia|].
  cbn [eliminate].
  apply bindM_runs; [apply lift_runs, getitem_runs|].
  intros l h1 Hl. apply lift_Return in Hl as [Hl ->].
  apply getitem_loc in Hl as [Hl Hin].
  apply bindM_runs; [discriminate|].
  intros c h1 Hc. apply load_Return in Hc as [Hc ->].
  destruct (negb (Py.mem d c)) eqn:E; [apply ret_runs|].
  apply bindM_runs; [apply lift_runs, remove_runs|].
  intros c' h1 Hc'. apply lift_Return in Hc' as [Hc' ->].
  apply bindM_runs; [discriminate|].
  intros u h1 Hw. unfold write in Hw. injection Hw as _ <-.
  apply remove_spec in Hc' as (_ & Hlen & _).
  assert (Hlt : (length c' < len_at h l)%nat).
  { unfold len_at. rewrite <- Hc. lia. }
  destruct (held_write values h l c' Hlt) as [_ W]. specialize (W Hin).
  destruct c' as [|d2 [|d3 rest]]; [apply ret_runs | | apply ret_runs].
  apply bindM_runs.
  { apply lift_runs. destruct peers; cbn [subscript];
      [apply getitem_runs | discriminate]. }
  intros ps h1 Hps. apply lift_Return in Hps as [_ ->].
  apply (all_ok_runs _ (held values) fuel).
  - intros s2 h2 _ H2. now apply IH.
  - intros s2 h2 b2 h2' _ H2. exact (proj1 (eliminate_held _ _ _ _ _ _ _ _ H2)).
  - lia.
Qed.

Lemma assign_held (fuel : nat) (values : dict) (peers : peers_arg) (s : cell)
  (d : digit) (h h' : store) (b : bool) :
  assign fuel values s d peers h = Return (b, h') ->
  (held values h' <= held values h)%nat
  /\ ((exists d2, In d2 (view values h s) /\ d2 <> d) ->
      (held values h' < held values h)%nat).
Proof.
  unfold assign. intros H. step_lift H as l Hl. step_load H as c Hc.
  apply getitem_loc in Hl as [Hl Hin].
  assert (Hv : view values h s = c) by (unfold view; rewrite Hl; auto).
  assert (Hle : forall xs h0 b0 h0',
             all_ok (fun d2 => eliminate fuel values s d2 peers) xs h0 = Return (b0, h0') ->
             (held values h0' <= held values h0)%nat).
  { intros xs h0 b0 h0' H0. eapply (all_ok_held _ (held values)) in H0; [exact H0|].
    intros d2 h2 b2 h2' _ H2. exact (proj1 (eliminate_held _ _ _ _ _ _ _ _ H2)). }
  split; [eapply Hle; exact H|].
  intros (d2 & Hd2 & Hne). rewrite Hv in Hd2.
  assert (Hf : In d2 (List.filter (fun v => negb (String.eqb v d)) c)).
  { apply filter_In. split; [assumption|].
    apply negb_true_iff. now apply String.eqb_neq. }
  destruct (List.filter (fun v => negb (String.eqb v d)) c) as [|x xs] eqn:Ef;
    [destruct Hf|].
  assert (Hx : In x (view values h s)).
  { rewrite Hv. assert (In x (x :: xs)) by (left; reflexivity).
    rewrite <- Ef in H0. now apply filter_In in H0. }
  cbn [all_ok] in H. step H as ok h1 H1.
  destruct (eliminate_held _ _ _ _ _ _ _ _ H1) as [_ S1]. specialize (S1 Hx).
  destruct ok.
  - apply Hle in H. lia.
  - apply ret_Return in H as [_ ->]. exact S1.
Qed.

Lemma assign_runs (fuel : nat) (values : dict) (peers : peers_arg) (s : cell)
  (d : digit) (h : store) :
  (held values h < fuel)%nat -> runs (assign fuel values s d peers h).
Proof.
  intros Hh. unfold assign.
  apply bindM_runs; [apply lift_runs, getitem_runs|].
  intros l h1 Hl. apply lift_Return in Hl as [_ ->].
  apply bindM_runs; [discriminate|].
  intros c h1 Hc. apply load_Return in Hc as [_ ->].
  apply (all_ok_runs _ (held values) fuel).
  - intros d2 h2 _ H2. now apply eliminate_runs.
  - intros d2 h2 b2 h2' _ H2. exact (proj1 (eliminate_held _ _ _ _ _ _ _ _ H2)).
  - exact Hh.
Qed.

(** X5.  Propagation comes to an end: [eliminate] and [assign] return or
    raise whenever the budget exceeds the number of candidates that the dict
    holds, whatever they are given as peers.  They never add a candidate, and
    [eliminate] takes one away when the digit is a candidate of the cell. *)
Theorem propagation_terminates (fuel : nat) (values : dict) (s : cell) (d : digit)
  (peers : peers_arg) (h : store) :
  (held values h < fuel)%nat ->
  runs (eliminate fuel values s d peers h)
  /\ runs (assign fuel values s d peers h)
  /\ (forall b h', eliminate fuel values s d peers h = Return (b, h') ->
        (held values h' <= held values h)%nat
        /\ (In d (view values h s) -> (held values h' < held values h)%nat))
  /\ (forall b h', assign fuel values s d peers h = Return (b, h') ->
        (held values h' <= held values h)%nat).
Proof.
  intros Hh. split; [now apply eliminate_runs|]. split; [now apply assign_runs|].
  split.
  - intros b h'. apply eliminate_held.
  - intros b h' H. exact (proj1 (assign_held _ _ _ _ _ _ _ _ H)).
Qed.

(** ** The fresh assignment and the clues *)

Lemma fresh_values_total (sqs : list cell) (ds : list digit) (h : store) :
  exists values h', fresh_values sqs ds h = Return (values, h').
Proof.
  revert h. induction sqs as [|s sqs IH]; intros h; [eexists _, _; reflexivity|].
  cbn [fresh_values]. unfold bindM at 1. cbn [alloc].
  destruct (IH (h ++ [ds])) as (vs & h' & E).
  unfold bindM. rewrite E. eexists _, _. reflexivity.
Qed.

Lemma fresh_values_held (sqs : list cell) (ds : list digit) (h h' : store)
  (values : dict) :
  fresh_values sqs ds h = Return (values, h') ->
  held values h' = (length sqs * length ds)%nat.
Proof.
  intros H. apply fresh_values_spec in H as (_ & _ & K & _ & C).
  assert (L : length values = length sqs) by (rewrite <- K; now rewrite length_map).
  rewrite <- L. clear K L. unfold held, locs in *.
  induction values as [|[k l] values IH]; cbn [map snd length]; rewrite ?list_sum_cons; [reflexivity|].
  rewrite (C l) by (left; reflexivity). cbn [default from_option id].
  rewrite IH; [lia|]. intros l0 Hl0. apply C. now right.
Qed.

Lemma assign_clues_held (fuel : nat) (values : dict) (digits : list digit)
  (peers : peers_arg) (items : grid) :
  forall h b h',
    assign_clues fuel values digits peers items h = Return (b, h') ->
    (held values h' <= held values h)%nat.
Proof.
  induction items as [|[s d] items IH]; intros h b h' H.
  - apply ret_Return in H as [_ ->]. lia.
  - cbn [assign_clues] in H. case_if H; [|eauto].
    step H as ok h1 Ha. apply assign_held in Ha as [Ha _].
    destruct ok.
    + apply IH in H. lia.
    + apply ret_Return in H as [_ ->]. exact Ha.
Qed.

Lemma assign_clues_runs (fuel : nat) (values : dict) (digits : list digit)
  (peers : peers_arg) (items : grid) :
  forall h, (held values h < fuel)%nat ->
            runs (assign_clues fuel values digits peers items h).
Proof.
  induction items as [|[s d] items IH]; intros h Hh; [apply ret_runs|].
  cbn [assign_clues]. destruct (_ && _); [|now apply IH].
  apply bindM_runs; [now apply assign_runs|].
  intros b h1 Ha. apply assign_held in Ha as [Ha _].
  destruct b; [apply IH; lia | apply ret_runs].
Qed.

Lemma grid_values_runs (g : grid) (size : Z) : runs (grid_values g size).
Proof.
  unfold grid_values. apply bind_runs; [apply initialize_structures_runs|].
  intros m _. apply bind_runs; [|intros; discriminate].
  apply mapM_runs. intros kv _. apply bind_runs; [apply index_runs|].
  intros k0 _. destruct (_ && _); discriminate.
Qed.

Lemma cube_of_board (size : Z) (m : model) :
  initialize_structures size = Return m ->
  (length (squares m) * length (digits m))%nat = Z.to_nat (size ^ 3).
Proof.
  intros H. destruct (board_lengths size m H) as (Hs & Hd & _).
  pose proof (initialize_structures_accepts _ _ H) as Hsize.
  rewrite Hs, Hd. replace (size ^ 3) with (size * size * size) by ring.
  rewrite !Z2Nat.inj_mul by lia. reflexivity.
Qed.

(** [parse_grid] returns or raises once the budget exceeds [size ^ 3], the
    number of candidates of the fresh assignment. *)
Lemma parse_grid_runs (fuel : nat) (g : grid) (size : Z) (h : store) :
  (Z.to_nat (size ^ 3) < fuel)%nat -> runs (parse_grid fuel g size h).
Proof.
  intros Hf. unfold parse_grid.
  apply bindM_runs; [apply lift_runs, initialize_structures_runs|].
  intros m h1 Hm. apply lift_Return in Hm as [Hm ->].
  destruct (fresh_values_total (squares m) (digits m) h) as (values & h1 & Hv).
  apply bindM_runs; [rewrite Hv; discriminate|].
  intros values' h1' Hv'. rewrite Hv in Hv'. injection Hv' as <- <-.
  apply fresh_values_held in Hv. rewrite (cube_of_board _ _ Hm) in Hv.
  apply bindM_runs; [apply lift_runs, grid_values_runs|].
  intros gd h2 Hgd. apply lift_Return in Hgd as [_ ->].
  apply bindM_runs; [apply assign_clues_runs; lia|].
  intros b h2 _. apply ret_runs.
Qed.

Lemma parse_grid_held (fuel : nat) (g : grid) (size : Z) (h h' : store)
  (values : dict) :
  parse_grid fuel g size h = Return (Some values, h') ->
  (held values h' <= Z.to_nat (size ^ 3))%nat.
Proof.
  intros H. unfold parse_grid in H. step_lift H as m Hm.
  step H as vs h1 Hf. step_lift H as gd Hgd. step H as b h2 Hc.
  apply ret_Return in H as [H ->]. destruct b; [|discriminate].
  injection H as ->. apply fresh_values_held in Hf.
  rewrite (cube_of_board _ _ Hm) in Hf. apply assign_clues_held in Hc. lia.
Qed.

(** ** The search *)

Lemma copy_values_total (values : dict) (h : store) :
  exists new_values h', copy_values values h = Return (new_values, h').
Proof.
  revert h. induction values as [|[k l] values IH]; intros h;
    [eexists _, _; reflexivity|].
  cbn [copy_values]. unfold bindM at 1. cbn [load].
  unfold bindM at 1. cbn [alloc].
  destruct (IH (h ++ [default [] (h !! l)])) as (vs & h' & E).
  unfold bindM. rewrite E. eexists _, _. reflexivity.
Qed.

Lemma copy_values_held (values new_values : dict) (h h' : store) :
  (forall l, In l (locs values) -> (l < length h)%nat) ->
  copy_values values h = Return (new_values, h') ->
  held new_values h' = held values h.
Proof.
  intros W H. apply copy_values_content in H; [|exact W]. clear W.
  unfold held. induction H as [|[k l] [k' l'] vs nvs [_ Hl] F IH];
    cbn [map snd] in *; rewrite ?list_sum_cons; [reflexivity|].
  rewrite Hl, IH. reflexivity.
Qed.

Lemma all_single_runs (values : dict) (sqs : list cell) (h : store) :
  runs (all_single values sqs h).
Proof.
  revert h. induction sqs as [|s sqs IH]; intros h; [apply ret_runs|].
  cbn [all_single]. apply bindM_runs; [apply candidates_runs|].
  intros c h1 _. destruct (Nat.eqb _ _); [apply IH | apply ret_runs].
Qed.

Lemma first_values_runs (values : dict) (sqs : list cell) (h : store) :
  runs (first_values values sqs h).
Proof.
  revert h. induction sqs as [|s sqs IH]; intros h; [apply ret_runs|].
  cbn [first_values]. apply bindM_runs; [apply candidates_runs|].
  intros c h1 _. apply bindM_runs; [apply lift_runs, index_runs|].
  intros d h2 _. apply bindM_runs; [apply IH|].
  intros r h3 _. apply ret_runs.
Qed.

Lemma open_cells_runs (values : dict) (sqs : list cell) (h : store) :
  runs (open_cells values sqs h).
Proof.
  revert h. induction sqs as [|s sqs IH]; intros h; [apply ret_runs|].
  cbn [open_cells]. apply bindM_runs; [apply candidates_runs|].
  intros c h1 _. apply bindM_runs; [apply IH|].
  intros r h2 _. apply ret_runs.
Qed.

(** The cells that [search] chooses from have more than one candidate. *)
Lemma open_cells_spec (values : dict) (sqs : list cell) :
  forall h cs h', open_cells values sqs h = Return (cs, h') ->
                  forall n s, In (n, s) cs ->
                              n = length (view values h s) /\ (1 < n)%nat.
Proof.
  induction sqs as [|s sqs IH]; intros h cs h' H n t Hin.
  - apply ret_Return in H as [-> _]. destruct Hin.
  - cbn [open_cells] in H. step H as c h1 Hc.
    apply candidates_Return in Hc as (-> & l & Hl & ->).
    step H as r h2 Hr. apply ret_Return in H as [-> _].
    destruct (Nat.ltb 1 _) eqn:E; [|eapply IH; eassumption].
    destruct Hin as [Hin|Hin]; [|eapply IH; eassumption].
    injection Hin as <- <-. apply Nat.ltb_lt in E.
    unfold view. rewrite Hl. auto.
Qed.

Lemma py_min_In (l : list (nat * cell)) (x : nat * cell) :
  py_min l = Return x -> In x l.
Proof.
  destruct l as [|y r]; [discriminate|]. cbn [py_min]. intros [= <-].
  revert y. induction r as [|z r IH]; intros y; [left; reflexivity|].
  cbn [fold_left]. destruct (IH (if pair_lt z y then z else y)) as [E|Hin].
  - rewrite <- E. destruct (pair_lt z y); [right; left | left]; reflexivity.
  - right. right. exact Hin.
Qed.

Lemma another_candidate (c : list digit) (d : digit) :
  List.NoDup c -> (2 <= length c)%nat -> exists d2, In d2 c /\ d2 <> d.
Proof.
  intros N L. destruct c as [|a [|b c]]; cbn in L; try lia.
  destruct (string_dec a d) as [->|Hne].
  - exists b. split; [right; left; reflexivity|].
    inversion N as [|? ? Hnin _]; subst. intros ->. apply Hnin. left. reflexivity.
  - exists a. split; [left; reflexivity | assumption].
Qed.

Section Search.
Variables (size : Z) (m : model).
Hypothesis Hm : initialize_structures size = Return m.

Lemma good_locs (values : dict) (h : store) :
  good m values h -> forall l, In l (locs values) -> (l < length h)%nat.
Proof. intros ((_ & W) & _). exact W. Qed.

(** The loop over the candidates of the chosen cell comes to an end when the
    recursive call does on every assignment with fewer candidates. *)
Lemma try_candidates_runs (recur : option dict -> M (option solution))
  (fuel : nat) (values : dict) (s : cell) (l : loc) :
  (forall v h r h', recur v h = Return (r, h') -> extends h h') ->
  (forall nv h, good m nv h -> (held nv h + 1 < fuel)%nat -> runs (recur (Some nv) h)) ->
  (forall h, runs (recur None h)) ->
  Py.assoc s values = Some l ->
  forall idx h,
    good m values h -> (held values h < fuel)%nat ->
    (2 <= length (view values h s))%nat ->
    runs (try_candidates recur fuel values s l (PeersDict (peers m)) idx h).
Proof.
  intros Hext Hrec Hnone Hl. induction idx as [|i idx IH]; intros h G Hh H2;
    [apply ret_runs|].
  cbn [try_candidates]. apply bindM_runs; [discriminate|].
  intros c h1 Hc. apply load_Return in Hc as [Hc ->].
  assert (Hv : view values h s = c) by (unfold view; rewrite Hl; auto).
  destruct (nth_error c i) as [d|] eqn:En; [|apply ret_runs].
  assert (Hspec : runs (speculate recur fuel values s d (PeersDict (peers m)) h)).
  { unfold speculate.
    destruct (copy_values_total values h) as (nv & h2 & Hcopy).
    apply bindM_runs; [rewrite Hcopy; discriminate|].
    intros nv' h2' Hcopy'. rewrite Hcopy in Hcopy'. injection Hcopy' as <- <-.
    destruct (copy_values_good m _ _ _ _ G Hcopy) as (Gnv & _ & Vnv).
    pose proof (copy_values_held _ _ _ _ (good_locs _ _ G) Hcopy) as Hheld.
    apply bindM_runs; [apply assign_runs; lia|].
    intros b h3 Ha. destruct b; [|apply Hnone].
    apply Hrec; [eapply assign_good; eassumption|].
    apply assign_held in Ha as [_ Ha].
    assert ((held nv h3 < held nv h2)%nat); [|lia].
    apply Ha. rewrite Vnv, Hv. apply another_candidate.
    - rewrite <- Hv. apply G.
    - now rewrite <- Hv. }
  apply bindM_runs; [exact Hspec|].
  intros r1 h1 Hs.
  pose proof (speculate_extends _ _ _ _ _ _ Hext _ _ _ Hs) as E1.
  assert (G1 : good m values h1) by (eapply good_extends; eassumption).
  assert (K1 : held values h1 = held values h)
    by (apply held_extends; [exact (good_locs _ _ G) | exact E1]).
  assert (V1 : view values h1 s = view values h s)
    by (apply view_extends; [apply G | exact E1]).
  destruct r1 as [[|x sol]|]; [|apply ret_runs|];
    apply IH; try assumption; try lia; now rewrite V1.
Qed.

(** The search returns or raises on every propagated assignment once the
    budget exceeds the number of its candidates by more than one. *)
Lemma search_runs (fuel : nat) :
  forall values h,
    good m values h -> (held values h + 1 < fuel)%nat ->
    runs (search fuel (Some values) size h).
Proof.
  induction fuel as [|fuel IH]; intros values h G Hh; [lia|].
  cbn [search]. apply bindM_runs; [apply lift_runs, initialize_structures_runs|].
  intros m' h1 Hm'. apply lift_Return in Hm' as [Hm' ->].
  rewrite Hm in Hm'. injection Hm' as <-.
  apply bindM_runs; [apply all_single_runs|].
  intros done h1 Hd. apply all_single_store in Hd as ->.
  destruct done.
  { apply bindM_runs; [apply first_values_runs|]. intros sol h1 _. apply ret_runs. }
  apply bindM_runs; [apply open_cells_runs|].
  intros cs h1 Hcs. pose proof (open_cells_store _ _ _ _ _ Hcs) as ->.
  apply bindM_runs; [apply lift_runs; destruct cs; discriminate|].
  intros ns h1 Hns. apply lift_Return in Hns as [Hns ->].
  apply py_min_In in Hns. destruct ns as [n s].
  destruct (open_cells_spec _ _ _ _ _ Hcs n s Hns) as [-> Hn]. cbn [snd].
  apply bindM_runs; [apply lift_runs, getitem_runs|].
  intros l h1 Hl. apply lift_Return in Hl as [Hl ->].
  apply getitem_loc in Hl as [Hl _].
  apply bindM_runs; [discriminate|].
  intros c0 h1 Hc0. apply load_Return in Hc0 as [_ ->].
  apply try_candidates_runs; try assumption; try lia.
  - intros v h0 r h0'. apply search_extends.
  - intros h0. destruct fuel; [lia|]. apply ret_runs.
Qed.

End Search.

(** X6.  The exact search comes to an end on every puzzle: with a budget
    above [size ^ 3 + 1], [parse_grid], [search] on what it returns and
    [solve] return or raise.  Every recursive call of [search] works on a copy
    that holds fewer candidates than the assignment at the choice point, which
    starts with at most [size ^ 3]. *)
Theorem exact_search_terminates (fuel : nat) (g : grid) (size : Z) (h : store) :
  (Z.to_nat (size ^ 3) + 1 < fuel)%nat ->
  runs (parse_grid fuel g size h)
  /\ (forall values h', parse_grid fuel g size h = Return (Some values, h') ->
                        runs (search fuel (Some values) size h'))
  /\ runs (solve fuel g size h).
Proof.
  intros Hf.
  assert (P : runs (parse_grid fuel g size h)) by (apply parse_grid_runs; lia).
  assert (S : forall values h', parse_grid fuel g size h = Return (Some values, h') ->
                                runs (search fuel (Some values) size h')).
  { intros values h' Hp.
    pose proof Hp as Hp'. unfold parse_grid in Hp'. step_lift Hp' as m Hm.
    destruct (parse_grid_good _ _ Hm _ _ _ _ _ Hp) as [G _].
    apply parse_grid_held in Hp.
    eapply search_runs; [exact Hm | exact G | lia]. }
  split; [exact P|]. split; [exact S|].
  unfold solve. apply bindM_runs; [exact P|].
  intros v h1 Hp. destruct v as [[|kv values]|]; try apply ret_runs.
  apply bindM_runs; [now apply S|].
  intros r h2 _. destruct r as [[|x sol]|]; apply ret_runs.
Qed.

Lemma propagation_terminates_witness :
  runs (eliminate 70 (fst Board4.parsed) "A1" "2" (PeersDict (peers Board4.board))
                  (snd Board4.parsed)).
Proof.
  refine (proj1 (propagation_terminates 70 (fst Board4.parsed) "A1" "2"
                   (PeersDict (peers Board4.board)) (snd Board4.parsed) _)).
  vm_compute. lia.
Defined.

Lemma exact_search_terminates_witness :
  runs (solve 66 Board4.puzzle 4 []).
Proof.
  refine (proj2 (proj2 (exact_search_terminates 66 Board4.puzzle 4 [] _))).
  vm_compute. lia.
Defined.

End Termination.

(* ===================================================================== *)
(** * sudo.py: what a solution is made of                                 *)
(* ===================================================================== *)

Module SearchFacts.
Import PyFacts Sudo BuilderFacts StoreFacts PropagationFacts BoardFacts.

(** Every digit of [sol] is a candidate of its cell in the assignment. *)
Definition within (values : dict) (h : store) (sol : solution) : Prop :=
  forall s d, In (s, d) sol -> In d (view values h s).

Section Search.
Variables (size : Z) (m : model).
Hypothesis Hm : initialize_structures size = Return m.

Lemma solved_within (values : dict) (h : store) :
  (forall s, In s (squares m) -> length (view values h s) = 1%nat) ->
  within values h (map (fun s => (s, hd "" (view values h s))) (squares m)).
Proof.
  intros Hone s d Hin. apply in_map_iff in Hin as (t & E & Ht).
  injection E as <- <-. specialize (Hone t Ht).
  destruct (view values h t); [discriminate | left; reflexivity].
Qed.

Lemma within_shrinks (values nv : dict) (h h2 h3 : store) (sol : solution) :
  (forall t, view nv h2 t = view values h t) -> shrinks nv h2 h3 ->
  within nv h3 sol -> within values h sol.
Proof.
  intros V S W s d Hin. rewrite <- V. apply (S s). now apply W.
Qed.

Lemma try_candidates_within (recur : option dict -> M (option solution))
  (fuel : nat) (values : dict) (s : cell) (l : loc) :
  (forall v h r h', recur v h = Return (r, h') -> extends h h') ->
  (forall nv h x sol h', good m nv h -> recur (Some nv) h = Return (Some (x :: sol), h') ->
                         within nv h (x :: sol)) ->
  (forall h r h', recur None h = Return (r, h') -> r = None) ->
  forall idx h x sol h',
    good m values h ->
    try_candidates recur fuel values s l (PeersDict (peers m)) idx h
      = Return (Some (x :: sol), h') ->
    within values h (x :: sol).
Proof.
  intros Hext Hrec Hnone. induction idx as [|i idx IH]; intros h x sol h' G H.
  - apply ret_Return in H as [H _]. discriminate.
  - cbn [try_candidates] in H. step_load H as c Hc.
    destruct (nth_error c i) as [d|].
    2:{ apply ret_Return in H as [H _]. discriminate. }
    step H as r1 h1 Hs.
    pose proof (speculate_extends _ _ _ _ _ _ Hext _ _ _ Hs) as E1.
    assert (G1 : good m values h1) by (eapply good_extends; eassumption).
    assert (V1 : forall t, view values h1 t = view values h t)
      by (intros t; apply view_extends; [apply G | exact E1]).
    assert (Later : forall x0 sol0,
               try_candidates recur fuel values s l (PeersDict (peers m)) idx h1
                 = Return (Some (x0 :: sol0), h') -> within values h (x0 :: sol0)).
    { intros x0 sol0 H0 t d0 Hin. rewrite <- V1. eapply IH; eassumption. }
    destruct r1 as [[|x1 sol1]|]; [now apply Later| |now apply Later].
    apply ret_Return in H as [H _]. injection H as <- <-.
    unfold speculate in Hs. step Hs as nv h2 Hcopy. step Hs as b h3 Hassign.
    destruct (copy_values_good m _ _ _ _ G Hcopy) as (Gnv & _ & Vnv).
    destruct b; [|apply Hnone in Hs; discriminate].
    pose proof (assign_good m _ _ _ _ _ _ Gnv Hassign) as G3.
    apply assign_post in Hassign as [(_ & S3 & _) _]; [|apply Gnv|apply Gnv].
    eapply within_shrinks; [exact Vnv | exact S3|].
    eapply Hrec; eassumption.
Qed.

(** The search draws every digit of a solution from the candidates that the
    assignment had for the cell. *)
Lemma search_within (fuel : nat) :
  forall values h x sol h',
    good m values h ->
    search fuel (Some values) size h = Return (Some (x :: sol), h') ->
    within values h (x :: sol).
Proof.
  induction fuel as [|fuel IH]; intros values h x sol h' G H; [discriminate|].
  cbn [search] in H. step_lift H as m' Hm'.
  rewrite Hm in Hm'. injection Hm' as <-.
  step H as done h1 Hd.
  pose proof (all_single_store _ _ _ _ _ Hd) as ->.
  destruct done.
  - step H as sol0 h1 Hsol. apply first_values_spec in Hsol as ->.
    apply ret_Return in H as [H _]. injection H as H. rewrite H.
    apply solved_within. eapply all_single_true. exact Hd.
  - step H as cs h1 Hcs. apply open_cells_store in Hcs as ->.
    step_lift H as ns Hns. step_lift H as l Hl. step_load H as c0 Hc0.
    eapply try_candidates_within; [| | |exact G|exact H].
    + intros v h0 r h0'. apply search_extends.
    + intros nv h0 x0 sol0 h0' G0 H0. eapply IH; eassumption.
    + intros h0 r h0' H0. destruct fuel; [discriminate|]. cbn [search] in H0.
      now apply ret_Return in H0.
Qed.

(** After the clue loop of [parse_grid] a clue is the only candidate its
    cell can still have. *)
Lemma assign_clues_pins (fuel : nat) (values : dict) (items : grid) :
  forall h h',
    good m values h ->
    assign_clues fuel values (digits m) (PeersDict (peers m)) items h = Return (true, h') ->
    forall s d, In (s, d) items -> d <> "." -> In d (digits m) ->
                forall x, In x (view values h' s) -> x = d.
Proof.
  induction items as [|[s0 d0] items IH]; intros h h' G H s d Hin Hdot Hdig x Hx;
    [destruct Hin|].
  cbn [assign_clues] in H.
  destruct (negb (String.eqb d0 ".") && Py.mem d0 (digits m)) eqn:E.
  - step H as b h1 Ha. destruct b; [|apply ret_Return in H as [H _]; discriminate].
    pose proof (assign_good m _ _ _ _ _ _ G Ha) as G1.
    destruct Hin as [Hin|Hin]; [|eapply IH; eassumption].
    injection Hin as -> ->.
    apply assign_post in Ha as [_ Pin]; [|apply G|apply G].
    apply (Pin eq_refl).
    assert (S : shrinks values h1 h').
    { clear -H G1. revert h1 h' H G1.
      induction items as [|[s1 d1] items IH]; intros h1 h' H G1.
      - apply ret_Return in H as [_ ->]. apply shrinks_refl.
      - cbn [assign_clues] in H. case_if H; [|eauto].
        step H as b h2 Ha. destruct b; [|apply ret_Return in H as [H _]; discriminate].
        pose proof (assign_good m _ _ _ _ _ _ G1 Ha) as G2.
        apply assign_post in Ha as [(_ & S2 & _) _]; [|apply G1|apply G1].
        eapply shrinks_trans; [exact S2 | eauto]. }
    now apply (S s).
  - destruct Hin as [Hin|Hin]; [|eapply IH; eassumption].
    injection Hin as -> ->. exfalso.
    apply andb_false_iff in E as [E|E].
    + apply negb_false_iff, String.eqb_eq in E. contradiction.
    + apply mem_false in E. contradiction.
Qed.

Lemma assoc_of_keys (sol : solution) (s : cell) :
  In s (map fst sol) -> exists d, Py.assoc s sol = Some d /\ In (s, d) sol.
Proof.
  intros Hin. destruct (Py.assoc s sol) as [d|] eqn:E.
  - exists d. split; [reflexivity | now apply assoc_In].
  - apply assoc_None in E. contradiction.
Qed.

End Search.

(** X7.  A solution is drawn from the candidates: when [search] returns a
    complete assignment for a propagated assignment [values] -- in particular
    for the one that [parse_grid] made of a puzzle -- it has exactly the cells
    of the board as keys, and the digit of every cell is one of the candidates
    that [values] had for the cell before the search. *)
Theorem search_draws_from_candidates (fuel fuel' : nat) (g : grid) (size : Z)
  (values : dict) (h h1 h' : store) (sol : solution) :
  parse_grid fuel' g size h = Return (Some values, h1) ->
  search fuel (Some values) size h1 = Return (Some sol, h') ->
  exists m, initialize_structures size = Return m
            /\ map fst sol = squares m
            /\ forall s, In s (squares m) ->
                 exists d, Py.assoc s sol = Some d /\ In d (view values h1 s).
Proof.
  intros Hp Hs.
  pose proof Hp as Hp'. unfold parse_grid in Hp'. step_lift Hp' as m Hm.
  exists m. split; [exact Hm|].
  destruct (parse_grid_good _ _ Hm _ _ _ _ _ Hp) as [G _].
  pose proof (search_sound _ _ Hm _ _ _ _ _ G Hs) as [K _].
  split; [exact K|]. intros s Hsq.
  destruct (assoc_of_keys sol s) as (d & Hd & Hin); [now rewrite K|].
  exists d. split; [exact Hd|].
  destruct sol as [|x sol]; [destruct Hin|].
  exact (search_within _ _ Hm _ _ _ _ _ _ G Hs s d Hin).
Qed.

(** X8.  A solution keeps the clues: when [solve] returns a complete
    assignment for a puzzle, every cell that the puzzle gives a digit of the
    alphabet holds that digit in it. *)
Theorem solve_keeps_clues (fuel : nat) (g : grid) (size : Z) (h h' : store)
  (sol : solution) (s : cell) (d : digit) :
  solve fuel g size h = Return (Some sol, h') ->
  In (s, d) g -> d <> "." ->
  (exists m, initialize_structures size = Return m /\ In d (digits m)) ->
  Py.assoc s sol = Some d.
Proof.
  intros H Hin Hdot (m & Hm & Hdig).
  unfold solve in H. step H as v h1 Hp.
  destruct v as [[|kv values]|];
    try (apply ret_Return in H as [H _]; discriminate).
  step H as r h2 Hs.
  destruct r as [[|x sol0]|];
    try (apply ret_Return in H as [H _]; discriminate).
  apply ret_Return in H as [H _]. injection H as ->.
  set (vs := kv :: values) in *.
  pose proof Hp as Hp'. unfold parse_grid in Hp'. step_lift Hp' as m' Hm'.
  rewrite Hm in Hm'. injection Hm' as <-.
  step Hp' as vs0 h3 Hf. step_lift Hp' as gd Hgd. step Hp' as b h4 Hc.
  apply ret_Return in Hp' as [Hb ->]. destruct b; [|discriminate].
  injection Hb as ->.
  destruct (grid_values_keys _ _ _ _ Hm Hgd) as [-> Hkeys].
  apply fresh_values_good with (size := size) in Hf as [G0 _]; [|exact Hm].
  pose proof (assign_clues_pins m _ _ _ _ _ G0 Hc s d Hin Hdot Hdig) as Pin.
  pose proof (assign_clues_good m _ _ _ _ _ G0 Hc) as G.
  pose proof (search_sound _ _ Hm _ _ _ _ _ G Hs) as [K _].
  destruct (assoc_of_keys (x :: sol0) s) as (d' & Hd' & Hin');
    [rewrite K; eapply Hkeys; exact Hin|].
  rewrite Hd'. f_equal. apply Pin.
  exact (search_within _ _ Hm _ _ _ _ _ _ G Hs s d' Hin').
Qed.

Lemma search_draws_from_candidates_witness :
  exists m, initialize_structures 4 = Return m
            /\ map fst (fst Board4.solved) = squares m
            /\ forall s, In s (squares m) ->
                 exists d, Py.assoc s (fst Board4.solved) = Some d
                           /\ In d (view (fst Board4.parsed) (snd Board4.parsed) s).
Proof.
  apply (search_draws_from_candidates 100 100 Board4.puzzle 4 (fst Board4.parsed) []
           (snd Board4.parsed) (snd Board4.solved) (fst Board4.solved));
    vm_compute; reflexivity.
Defined.

Lemma solve_keeps_clues_witness :
  Py.assoc "B3" (fst Board4.solved) = Some "1".
Proof.
  apply (solve_keeps_clues 100 Board4.puzzle 4 [] (snd Board4.solved)
           (fst Board4.solved) "B3" "1").
  - vm_compute. reflexivity.
  - right. left. reflexivity.
  - discriminate.
  - exists Board4.board. split; [vm_compute; reflexivity | left; reflexivity].
Defined.

End SearchFacts.

(* ===================================================================== *)
(** * abc_solver.py: the fitness, and what a fitness of 1 means           *)
(* ===================================================================== *)

Module AbcSolved.
Import PyFacts Abc GridFacts AbcLegal GenFacts.

(** ** [evaluate] *)

(** [self.size - len(set(row))]. *)
Definition repeats (n : Z) (row : list Z) : Z := n - distinct row.

Fixpoint zsum (l : list Z) : Z :=
  match l with
  | [] => 0
  | x :: r => x + zsum r
  end.

Lemma fold_left_repeats (n : Z) (l : list (list Z)) (acc : Z) :
  fold_left (fun p row => p + (n - distinct row)) l acc
  = acc + zsum (map (repeats n) l).
Proof.
  revert acc. induction l as [|row l IH]; intros acc; cbn [fold_left map zsum]; [lia|].
  rewrite IH. unfold repeats. lia.
Qed.

Lemma penalty_sum (n : Z) (a : list (list Z)) :
  penalty n a = zsum (map (repeats n) a) + zsum (map (repeats n) (columns a)).
Proof. unfold penalty. rewrite !fold_left_repeats. lia. Qed.

Lemma distinct_bounds (l : list Z) : 0 <= distinct l <= Z.of_nat (length l).
Proof.
  induction l as [|x l IH]; cbn [distinct length]; [lia|].
  destruct (existsb (Z.eqb x) l); lia.
Qed.

(** A list has as many different items as it has items exactly when it
    repeats none. *)
Lemma distinct_full (l : list Z) :
  distinct l = Z.of_nat (length l) <-> List.NoDup l.
Proof.
  induction l as [|x l IH]; cbn [distinct length].
  - split; [constructor | reflexivity].
  - pose proof (distinct_bounds l) as B.
    destruct (existsb (Z.eqb x) l) eqn:E.
    + apply existsb_eqb_In in E. split; [lia|].
      intros N. inversion N; subst. contradiction.
    + assert (Hx : ~ In x l).
      { intros Hin. apply existsb_eqb_In in Hin. congruence. }
      split.
      * intros H. constructor; [exact Hx|]. apply IH. lia.
      * intros N. inversion N; subst. apply IH in H2. lia.
Qed.

Lemma zsum_zero {A : Type} (f : A -> Z) (l : list A) :
  (forall x, In x l -> 0 <= f x) ->
  0 <= zsum (map f l)
  /\ (zsum (map f l) = 0 <-> forall x, In x l -> f x = 0).
Proof.
  induction l as [|y l IH]; intros H; cbn [map zsum].
  - split; [lia|]. split; [intros _ x [] | reflexivity].
  - destruct IH as [I0 [I1 I2]]; [intros x Hx; apply H; now right|].
    pose proof (H y (or_introl eq_refl)) as Hy.
    split; [lia|]. split.
    + intros E x [<-|Hx]; [lia|]. apply I1; [lia | exact Hx].
    + intros E. rewrite (E y (or_introl eq_refl)).
      rewrite I2; [lia|]. intros x Hx. apply E. now right.
Qed.

(** The columns of an array of [n] rows have [n] entries. *)
Lemma columns_length (n : Z) (a : list (list Z)) (col : list Z) :
  shaped n a -> In col (columns a) -> Z.of_nat (length col) = n.
Proof.
  intros [L _] H. destruct a as [|row0 a]; [destruct H|].
  unfold columns in H. apply in_map_iff in H as (j & <- & _).
  now rewrite length_map.
Qed.

(** No row and no column holds a value twice. *)
Definition duplicate_free (a : list (list Z)) : Prop :=
  Forall (fun row => List.NoDup row) a
  /\ Forall (fun col => List.NoDup col) (columns a).

Lemma repeats_zero (n : Z) (l : list Z) :
  Z.of_nat (length l) = n ->
  0 <= repeats n l /\ (repeats n l = 0 <-> List.NoDup l).
Proof.
  intros L. unfold repeats. pose proof (distinct_bounds l) as B.
  split; [lia|]. rewrite <- distinct_full. lia.
Qed.

Lemma penalty_zero (n : Z) (a : list (list Z)) :
  shaped n a -> 0 <= penalty n a /\ (penalty n a = 0 <-> duplicate_free a).
Proof.
  intros S. rewrite penalty_sum.
  assert (Hr : forall row, In row a -> Z.of_nat (length row) = n).
  { destruct S as [_ F]. rewrite List.Forall_forall in F. exact F. }
  assert (Hc : forall col, In col (columns a) -> Z.of_nat (length col) = n)
    by (intros col; now apply columns_length).
  destruct (zsum_zero (repeats n) a) as (R0 & R1 & R2);
    [intros row Hrow; apply repeats_zero; auto|].
  destruct (zsum_zero (repeats n) (columns a)) as (C0 & C1 & C2);
    [intros col Hcol; apply repeats_zero; auto|].
  split; [lia|]. unfold duplicate_free. rewrite !List.Forall_forall. split.
  - intros E. split.
    + intros row Hrow. apply (repeats_zero n); [auto|]. apply R1; [lia | exact Hrow].
    + intros col Hcol. apply (repeats_zero n); [auto|]. apply C1; [lia | exact Hcol].
  - intros [Nr Nc]. rewrite R2, C2; [lia| |].
    + intros col Hcol. apply (repeats_zero n); auto.
    + intros row Hrow. apply (repeats_zero n); auto.
Qed.

(** The fitness of a grid on a board of size [n]. *)
Definition fit_of (n : Z) (a : list (list Z)) : Q :=
  (1 / inject_Z (1 + penalty n a))%Q.

Lemma unit_fraction (z : Z) :
  1 <= z ->
  (0 < 1 / inject_Z z)%Q /\ (1 / inject_Z z <= 1)%Q
  /\ (Qeq_bool (1 / inject_Z z) 1 = true <-> z = 1).
Proof.
  intros Hz. destruct z as [|p|p]; try lia.
  rewrite Qeq_bool_iff.
  unfold Qlt, Qle, Qeq, Qdiv, Qmult, Qinv, inject_Z. cbn [Qnum Qden].
  cbn. split; [lia|]. split; lia.
Qed.

Lemma evaluate_fit_of (st : solver) (a : list (list Z)) :
  shaped (size st) a -> evaluate st a = Return (fit_of (size st) a).
Proof.
  intros S. unfold evaluate, fit_of.
  destruct (penalty_zero _ _ S) as [P0 _].
  destruct (1 + penalty (size st) a =? 0) eqn:E; [apply Z.eqb_eq in E; lia|].
  reflexivity.
Qed.

(** X9.  [evaluate] on an [N] x [N] array returns a fitness above 0 and at
    most 1 (it never divides by zero), and the fitness is 1 exactly when no
    row and no column of the array holds a value twice. *)
Theorem evaluate_is_one_without_repeats (st : solver) (a : list (list Z)) :
  shaped (size st) a ->
  exists q, evaluate st a = Return q
            /\ (0 < q)%Q /\ (q <= 1)%Q
            /\ (Qeq_bool q 1 = true <-> duplicate_free a).
Proof.
  intros S. exists (fit_of (size st) a). split; [now apply evaluate_fit_of|].
  destruct (penalty_zero _ _ S) as [P0 Pz].
  destruct (unit_fraction (1 + penalty (size st) a) ltac:(lia)) as (U1 & U2 & U3).
  split; [exact U1|]. split; [exact U2|].
  unfold fit_of. rewrite U3, <- Pz. lia.
Qed.

Lemma evaluate_is_one_without_repeats_witness :
  exists q, evaluate (fst Hive4.hive) Hive4.clues = Return q
            /\ (0 < q)%Q /\ (q <= 1)%Q
            /\ (Qeq_bool q 1 = true <-> duplicate_free Hive4.clues).
Proof.
  apply (evaluate_is_one_without_repeats (fst Hive4.hive) Hive4.clues).
  split; [reflexivity|]. repeat constructor.
Defined.

(** ** A fitness of 1 *)

(** A solved board: legal within the subgrids, the clues in place, and every
    row and every column a permutation of the digits [1 .. N]. *)
Definition solved (st : solver) (a : list (list Z)) : Prop :=
  legal st a
  /\ Forall (fun row => Permutation row (digits_1_to (size st))) a
  /\ Forall (fun col => Permutation col (digits_1_to (size st))) (columns a).

Lemma perm_of_digits (n : Z) (l : list Z) :
  List.NoDup l -> Z.of_nat (length l) = n -> (forall x, In x l -> 1 <= x <= n) ->
  Permutation l (digits_1_to n).
Proof.
  intros N L R. apply NoDup_Permutation_bis; [exact N| |].
  - unfold digits_1_to. rewrite length_map, range_length. lia.
  - intros x Hx. apply digits_1_to_In. auto.
Qed.

(** The entries of a legal grid are digits of the board. *)
Lemma legal_entries (st : solver) (a : list (list Z)) (p : Z * Z) :
  proper st -> legal st a -> inside (size st) p -> 1 <= val a p <= size st.
Proof.
  intros P (S & Pm & _) Hp. destruct P as [Hsr Hsc Hn _ _ _ _ _].
  destruct (corner_of_spec _ _ _ Hsr Hsc Hn p Hp) as [Hb Hc].
  apply digits_1_to_In.
  eapply Permutation_in; [apply (Pm _ Hb)|].
  apply in_map. exact Hc.
Qed.

Lemma row_entries (n : Z) (a : list (list Z)) (row : list Z) (x : Z) :
  shaped n a -> In row a -> In x row -> exists p, inside n p /\ x = val a p.
Proof.
  intros [L F] Hrow Hx. rewrite List.Forall_forall in F.
  pose proof (F row Hrow) as Lr.
  apply (In_nth _ _ []) in Hrow as (r & Hr & Er).
  apply (In_nth _ _ 0) in Hx as (c & Hc & Ec).
  exists (Z.of_nat r, Z.of_nat c). unfold inside, val. cbn [fst snd].
  rewrite !Nat2Z.id, Er, Ec. split; [lia | reflexivity].
Qed.

Lemma column_entries (n : Z) (a : list (list Z)) (col : list Z) (x : Z) :
  shaped n a -> In col (columns a) -> In x col -> exists p, inside n p /\ x = val a p.
Proof.
  intros S Hcol Hx. pose proof S as [L F]. rewrite List.Forall_forall in F.
  destruct a as [|row0 a0]; [destruct Hcol|].
  unfold columns in Hcol.
  apply in_map_iff in Hcol as (j & <- & Hj). apply in_seq in Hj.
  apply in_map_iff in Hx as (row & <- & Hrow).
  assert (L0 : Z.of_nat (length row0) = n).
  { apply F. left. reflexivity. }
  apply (In_nth _ _ []) in Hrow as (r & Hr & Er).
  exists (Z.of_nat r, Z.of_nat j). unfold inside, val. cbn [fst snd].
  rewrite !Nat2Z.id, Er. split; [lia | reflexivity].
Qed.

(** A legal grid that repeats no value in a row or a column is solved. *)
Lemma duplicate_free_solved (st : solver) (a : list (list Z)) :
  proper st -> legal st a -> duplicate_free a -> solved st a.
Proof.
  intros P L [Nr Nc]. pose proof L as (S & _).
  rewrite List.Forall_forall in Nr, Nc.
  split; [exact L|]. split; apply List.Forall_forall.
  - intros row Hrow. apply perm_of_digits; [now apply Nr| |].
    + destruct S as [_ F]. rewrite List.Forall_forall in F. now apply F.
    + intros x Hx. destruct (row_entries _ _ _ _ S Hrow Hx) as (p & Hp & ->).
      now apply legal_entries.
  - intros col Hcol. apply perm_of_digits; [now apply Nc| |].
    + now apply (columns_length _ a).
    + intros x Hx. destruct (column_entries _ _ _ _ S Hcol Hx) as (p & Hp & ->).
      now apply legal_entries.
Qed.

Section Emits.
Context {S Y : Type}.
Variable Q : Y -> Prop.

Lemma emits_skip {A : Type} (Inv : S -> Prop) (a : A) :
  emits Q Inv (Gen.ret a) (fun _ s => Inv s).
Proof. intros s H. cbn. auto. Qed.

Lemma emits_lift {A : Type} (Pre : S -> Prop) (r : result A) :
  emits Q Pre (Gen.lift r) (fun a s => r = Return a /\ Pre s).
Proof. intros s H. cbn. split; [constructor|]. destruct r; auto. Qed.

Lemma emits_for_each {A : Type} (Inv : S -> Prop) (l : list A)
  (body : A -> Gen S Y unit) :
  (forall x, In x l -> emits Q Inv (body x) (fun _ s => Inv s)) ->
  emits Q Inv (Gen.for_each l body) (fun _ s => Inv s).
Proof.
  induction l as [|x l IH]; intros H; cbn [Gen.for_each].
  - apply emits_skip.
  - eapply emits_bind; [apply H; now left|]. intros ?. apply IH.
    intros y Hy. apply H. now right.
Qed.

Lemma emits_repeat_for (Inv : S -> Prop) (n : nat) (body : Gen S Y bool) :
  emits Q Inv body (fun _ s => Inv s) ->
  emits Q Inv (Gen.repeat_for n body) (fun _ s => Inv s).
Proof.
  intros H. induction n as [|n IH]; cbn [Gen.repeat_for].
  - apply emits_skip.
  - eapply emits_bind; [exact H|]. intros [|]; [exact IH | apply emits_skip].
Qed.

End Emits.

Lemma best_of_In (st : solver) (pop : list (list (list Z))) (b : list (list Z)) (fb : Q) :
  best_of st pop = Return (b, fb) -> In b pop.
Proof.
  revert b fb. induction pop as [|a rest IH]; intros b fb H; [discriminate|].
  cbn [best_of] in H. apply bind_Return in H as (fa & _ & H).
  destruct rest as [|a2 rest]; [injection H as <- _; now left|].
  apply bind_Return in H as ([b2 fb2] & H2 & H).
  destruct (Qle_bool fb2 fa); injection H as <- _; [now left|].
  right. eapply IH. exact H2.
Qed.

Section Run.
Variable st0 : solver.
Hypothesis P0 : proper st0.

(** The invariant of a run, with what it knows of the best grid: it is
    legal, and the tracked fitness is its fitness. *)
Definition knows_best (s : solver * Rand.rng) : Prop :=
  inv st0 s
  /\ legal st0 (best_solution (fst s))
  /\ best_fitness (fst s) = fit_of (size st0) (best_solution (fst s)).

(** A yielded fitness of 1 comes with a solved board. *)
Definition sound (y : list (list Z) * Q) : Prop :=
  Qeq_bool (snd y) 1 = true -> solved st0 (fst y).

Lemma knows_best_sound (s : solver * Rand.rng) :
  knows_best s -> sound (best_solution (fst s), best_fitness (fst s)).
Proof.
  intros (_ & L & E) H. cbn [fst snd] in *. rewrite E in H.
  apply duplicate_free_solved; [exact P0 | exact L|].
  destruct L as (S & _). destruct (penalty_zero _ _ S) as [Pn Pz].
  apply Pz. unfold fit_of in H.
  destruct (unit_fraction (1 + penalty (size st0) (best_solution (fst s))) ltac:(lia))
    as (_ & _ & U).
  apply U in H. lia.
Qed.

Lemma size_of_config (st : solver) : config st = config st0 -> size st = size st0.
Proof. unfold config. intros [= E _]. exact E. Qed.

Lemma evaluate_in_run (s : solver * Rand.rng) (a : list (list Z)) (q : Q) :
  inv st0 s -> legal st0 a -> evaluate (fst s) a = Return q ->
  q = fit_of (size st0) a.
Proof.
  intros [C _] (S & _) H. rewrite <- (size_of_config _ C) in *.
  rewrite (evaluate_fit_of _ _ S) in H. congruence.
Qed.

Lemma emits_read_abc {A : Type} (Pre : solver * Rand.rng -> Prop)
  (f : solver -> result A) :
  emits sound Pre (read f) (fun a s => Pre s /\ f (fst s) = Return a).
Proof. exact (emits_read sound Pre f). Qed.

Lemma emits_read_keep {A : Type} (Pre : solver * Rand.rng -> Prop)
  (f : solver -> result A) :
  emits sound Pre (read f) (fun _ s => Pre s).
Proof.
  eapply emits_weaken;
    [apply emits_read_abc | intros s H; exact H | intros a s [H _]; exact H].
Qed.

Lemma emits_update_abc (Pre Post : solver * Rand.rng -> Prop)
  (f : solver -> result solver) :
  (forall s st', Pre s -> f (fst s) = Return st' -> Post (st', snd s)) ->
  emits sound Pre (update f) (fun _ s => Post s).
Proof. exact (emits_update sound Pre Post f). Qed.

Lemma emits_random_abc {A : Type} (Pre : solver * Rand.rng -> Prop)
  (Post : A -> solver * Rand.rng -> Prop)
  (f : solver -> Rand.rng -> result (A * Rand.rng)) :
  (forall s a g', Pre s -> f (fst s) (snd s) = Return (a, g') -> Post a (fst s, g')) ->
  emits sound Pre (random f) Post.
Proof. exact (emits_random sound Pre Post f). Qed.

Lemma set_member_knows (i : Z) (a : list (list Z)) (fit : Q) (s : solver * Rand.rng)
  (st' : solver) :
  legal st0 a -> knows_best s -> set_member i a fit (fst s) = Return st' ->
  knows_best (st', snd s).
Proof.
  intros La (I & L & E) H. split; [apply (set_member_inv st0 i a fit s st'); assumption|].
  unfold set_member in H.
  apply bind_Return in H as (pop & _ & H).
  apply bind_Return in H as (fits & _ & H).
  apply bind_Return in H as (trs & _ & H). injection H as <-.
  split; [exact L | exact E].
Qed.

Lemma bump_trial_knows (i : Z) (s : solver * Rand.rng) (st' : solver) :
  knows_best s -> bump_trial i (fst s) = Return st' -> knows_best (st', snd s).
Proof.
  intros (I & L & E) H. split; [apply (bump_trial_inv st0 i s st'); assumption|].
  unfold bump_trial in H.
  apply bind_Return in H as (t & _ & H).
  apply bind_Return in H as (trs & _ & H). injection H as <-.
  split; [exact L | exact E].
Qed.

Lemma set_best_knows (a : list (list Z)) (s : solver * Rand.rng) :
  legal st0 a -> knows_best s ->
  knows_best (set_best a (fit_of (size st0) a) (fst s), snd s).
Proof.
  intros La (I & _ & _). split; [now apply set_best_inv|].
  split; [exact La | reflexivity].
Qed.

(** The step shared by the employed and the onlooker bees: the best grid is
    only ever replaced by a legal neighbor, together with its fitness. *)
Lemma visit_knows (fuel : nat) (employed : bool) (i : Z) :
  emits sound knows_best (visit fuel employed i) (fun _ s => knows_best s).
Proof.
  unfold visit.
  eapply emits_bind; [apply emits_read_abc|]. intros current. cbn beta.
  eapply emits_bind.
  { apply (emits_random_abc _ (fun neighbor s => knows_best s /\ legal st0 neighbor)).
    intros s a g' [K E] H. pose proof K as ([C F] & _).
    split; [exact K|].
    apply index_In in E.
    apply (legal_config (fst s) st0 a C).
    apply (neighbor_search_legal (fst s) (proper_config st0 (fst s) (eq_sym C) P0)
             fuel current a (snd s) g'); [|exact H].
    apply (legal_config st0 (fst s) current (eq_sym C)).
    rewrite List.Forall_forall in F. now apply F. }
  intros neighbor. cbn beta.
  eapply emits_bind.
  { eapply emits_weaken with
      (Post := fun q s => (knows_best s /\ legal st0 neighbor)
                          /\ evaluate (fst s) neighbor = Return q);
      [apply emits_read_abc | intros s H; exact H | intros a s H; exact H]. }
  intros neighbor_fit. cbn beta.
  eapply emits_bind
    with (Mid := fun _ s => knows_best s /\ legal st0 neighbor
                            /\ neighbor_fit = fit_of (size st0) neighbor).
  { eapply emits_weaken; [apply emits_read_keep | |].
    - intros s H. exact H.
    - intros ? s [[K L] E]. split; [exact K|]. split; [exact L|].
      eapply evaluate_in_run; [apply K | exact L | exact E]. }
  intros fit_i.
  eapply emits_bind
    with (Mid := fun _ s => knows_best s /\ legal st0 neighbor
                            /\ neighbor_fit = fit_of (size st0) neighbor).
  { destruct (Qle_bool fit_i neighbor_fit); [|destruct employed].
    - apply (emits_update_abc _ (fun s => knows_best s /\ legal st0 neighbor
                                          /\ neighbor_fit = fit_of (size st0) neighbor)).
      intros s st' (K & L & E) H. split; [|auto]. eapply set_member_knows; eauto.
    - apply (emits_update_abc _ (fun s => knows_best s /\ legal st0 neighbor
                                          /\ neighbor_fit = fit_of (size st0) neighbor)).
      intros s st' (K & L & E) H. split; [|auto]. eapply bump_trial_knows; eauto.
    - apply emits_skip. }
  intros ?.
  eapply emits_bind; [apply emits_read_keep|]. intros best.
  destruct (Qle_bool best neighbor_fit).
  - apply (emits_update_abc _ knows_best). intros s st' (K & L & ->) [= <-].
    now apply set_best_knows.
  - eapply emits_weaken; [apply emits_skip | intros s H; exact H
                          | intros ? s (K & _); exact K].
Qed.

Lemma employed_phase_knows (fuel : nat) :
  emits sound knows_best (employed_phase fuel) (fun _ s => knows_best s).
Proof.
  unfold employed_phase.
  eapply emits_bind; [apply emits_read_keep|]. intros bees.
  apply emits_for_each. intros i _. apply visit_knows.
Qed.

Lemma onlooker_phase_knows (fuel : nat) :
  emits sound knows_best (onlooker_phase fuel) (fun _ s => knows_best s).
Proof.
  unfold onlooker_phase.
  eapply emits_bind; [apply emits_read_keep|]. intros sum_fitness.
  destruct (Qlt_le_dec 0 sum_fitness); [|apply emits_skip].
  eapply emits_bind; [apply emits_read_keep|]. intros bees.
  apply emits_for_each. intros i _.
  eapply emits_bind; [apply emits_read_keep|]. intros fit_i.
  eapply emits_bind; [apply emits_read_keep|]. intros onlookers.
  apply emits_for_each. intros ? _. apply visit_knows.
Qed.

Lemma scout_phase_knows :
  emits sound knows_best scout_phase (fun _ s => knows_best s).
Proof.
  unfold scout_phase.
  eapply emits_bind; [apply emits_read_keep|]. intros worst.
  eapply emits_bind; [apply emits_read_keep|]. intros limit.
  destruct (limit <? worst); [|apply emits_skip].
  eapply emits_bind; [apply emits_read_keep|]. intros idx.
  eapply emits_bind.
  { apply (emits_random_abc _ (fun fresh s => knows_best s /\ Forall (legal st0) fresh)).
    intros s pop g' K H. pose proof K as ([C F] & _). split; [exact K|].
    unfold initialize_population in H.
    apply (members_legal (fst s) (proper_config st0 (fst s) (eq_sym C) P0)) in H as [L _].
    eapply Forall_impl; [exact L|]. intros a. now apply legal_config. }
  intros fresh. cbn beta.
  eapply emits_bind; [apply emits_lift|]. intros member. cbn beta.
  eapply emits_bind
    with (Mid := fun fit s => knows_best s /\ legal st0 member
                              /\ fit = fit_of (size st0) member).
  { eapply emits_weaken; [apply emits_read_abc | intros s H; exact H|].
    intros fit s [[E [K F]] Ev]. apply index_In in E.
    rewrite List.Forall_forall in F. specialize (F _ E).
    split; [exact K|]. split; [exact F|].
    eapply evaluate_in_run; [apply K | exact F | exact Ev]. }
  intros fit.
  eapply emits_bind
    with (Mid := fun _ s => knows_best s /\ legal st0 member
                            /\ fit = fit_of (size st0) member).
  { apply (emits_update_abc _ (fun s => knows_best s /\ legal st0 member
                                        /\ fit = fit_of (size st0) member)).
    intros s st' (K & L & E) H. split; [|auto]. eapply set_member_knows; eauto. }
  intros ?.
  eapply emits_bind; [apply emits_read_keep|]. intros best.
  destruct (Qle_bool best fit).
  - apply (emits_update_abc _ knows_best). intros s st' (K & L & ->) [= <-].
    now apply set_best_knows.
  - eapply emits_weaken; [apply emits_skip | intros s H; exact H
                          | intros ? s (K & _); exact K].
Qed.

Lemma cycle_knows (fuel : nat) :
  emits sound knows_best (cycle fuel) (fun _ s => knows_best s).
Proof.
  unfold cycle.
  eapply emits_bind; [apply emits_read_abc|]. intros best. cbn beta.
  destruct (Qeq_bool best 1) eqn:B.
  - eapply emits_bind
      with (Mid := fun sol s => knows_best s /\ best_fitness (fst s) = best
                                /\ best_solution (fst s) = sol).
    { eapply emits_weaken; [apply emits_read_abc | intros s H; exact H|].
      intros sol s [[K [= E1]] [= E2]]. auto. }
    intros solution. cbn beta.
    eapply emits_bind.
    { apply emits_yield. intros s (K & E1 & E2) _. cbn [fst].
      pose proof (knows_best_sound s K) as Snd. unfold sound in Snd.
      cbn [fst snd] in Snd. rewrite E1, E2 in Snd. now apply Snd. }
    intros ?. eapply emits_weaken; [apply emits_skip | intros s H; exact H
                                    | intros ? s (K & _); exact K].
  - eapply emits_bind.
    { eapply emits_weaken; [apply (employed_phase_knows fuel)
                            | intros s [K _]; exact K | intros ? s K; exact K]. }
    intros ?.
    eapply emits_bind; [apply onlooker_phase_knows|]. intros ?.
    eapply emits_bind; [apply scout_phase_knows|]. intros ?.
    eapply emits_bind; [apply emits_read_abc|]. intros now. cbn beta.
    eapply emits_bind.
    { apply emits_yield. intros s [K [= <-]]. now apply knows_best_sound. }
    intros ?. eapply emits_weaken; [apply emits_skip | intros s H; exact H
                                    | intros ? s (K & _); exact K].
Qed.

Lemma solve_knows (fuel : nat) :
  emits sound knows_best (solve fuel) (fun _ s => knows_best s).
Proof.
  unfold solve.
  eapply emits_bind; [apply emits_read_keep|]. intros k.
  apply emits_repeat_for. apply cycle_knows.
Qed.

End Run.

(** The solver that [__init__] builds knows its best grid. *)
Lemma init_knows_best (puzzle_input : list (list Z)) (n : Z) (population_size : nat)
  (g g0 : Rand.rng) (m : Sudo.model) (st0 : solver) :
  Sudo.initialize_structures n = Return m ->
  shaped n puzzle_input ->
  Forall (Forall (fun v => 0 <= v <= n)) puzzle_input ->
  Forall (fun b => List.NoDup
                     (box_clues (Sudo.subgrid_rows m) (Sudo.subgrid_cols m) puzzle_input b))
         (box_corners n (Sudo.subgrid_rows m) (Sudo.subgrid_cols m)) ->
  init puzzle_input n population_size g = Return (st0, g0) ->
  proper st0 /\ knows_best st0 (st0, g0).
Proof.
  intros Hm S R N H.
  destruct (init_spec _ _ _ _ _ _ _ Hm S R N H) as (C & P0 & I0).
  split; [exact P0|]. split; [exact I0|].
  unfold init in H. rewrite Hm in H. cbn [bind] in H.
  apply bind_Return in H as ([pop g1] & Hpop & H).
  apply bind_Return in H as (fits & _ & H).
  apply bind_Return in H as ([best ?] & Hbest & H).
  apply bind_Return in H as (best_fit & Hfit & H). injection H as <- <-.
  cbn [fst best_solution best_fitness size] in *.
  apply best_of_In in Hbest.
  destruct I0 as [_ F]. cbn [fst population] in F.
  rewrite List.Forall_forall in F. specialize (F _ Hbest).
  split; [exact F|].
  destruct F as (Sb & _). cbn [size] in Sb.
  match type of Hfit with evaluate ?s _ = _ =>
    rewrite (evaluate_fit_of s best Sb) in Hfit end.
  cbn [size] in Hfit. congruence.
Qed.

(** X10.  A fitness of 1 means solved.  On a puzzle given as an [N] x [N]
    array of entries from [0 .. N] in which no subgrid holds a clue twice,
    every pair that [solve] yields with a fitness of 1 holds a solved board:
    every row, every column and every subgrid of the grid is a permutation of
    [1 .. N], and every clue is in its place. *)
Theorem fitness_one_means_solved (puzzle_input : list (list Z)) (n : Z)
  (population_size fuel : nat) (g g0 : Rand.rng) (m : Sudo.model) (st0 : solver) :
  Sudo.initialize_structures n = Return m ->
  shaped n puzzle_input ->
  Forall (Forall (fun v => 0 <= v <= n)) puzzle_input ->
  Forall (fun b => List.NoDup
                     (box_clues (Sudo.subgrid_rows m) (Sudo.subgrid_cols m) puzzle_input b))
         (box_corners n (Sudo.subgrid_rows m) (Sudo.subgrid_cols m)) ->
  init puzzle_input n population_size g = Return (st0, g0) ->
  Forall (fun y : list (list Z) * Q =>
            Qeq_bool (snd y) 1 = true ->
            legal st0 (fst y)
            /\ Forall (fun row => Permutation row (digits_1_to n)) (fst y)
            /\ Forall (fun col => Permutation col (digits_1_to n)) (columns (fst y)))
         (fst (solve fuel (st0, g0))).
Proof.
  intros Hm S R N H.
  destruct (init_spec _ _ _ _ _ _ _ Hm S R N H) as (C & _).
  assert (En : size st0 = n) by (unfold config in C; congruence).
  destruct (init_knows_best _ _ _ _ _ _ _ Hm S R N H) as [P0 K0].
  destruct (solve_knows st0 P0 fuel (st0, g0) K0) as [Y _].
  eapply Forall_impl; [exact Y|]. intros y Hy Hq. specialize (Hy Hq).
  unfold solved in Hy. now rewrite En in Hy.
Qed.

Lemma fitness_one_means_solved_witness :
  Forall (fun y : list (list Z) * Q =>
            Qeq_bool (snd y) 1 = true ->
            legal (fst Hive4.hive) (fst y)
            /\ Forall (fun row => Permutation row (digits_1_to 4)) (fst y)
            /\ Forall (fun col => Permutation col (digits_1_to 4)) (columns (fst y)))
         (fst (solve 20 (fst Hive4.hive, snd Hive4.hive))).
Proof.
  refine (fitness_one_means_solved Hive4.clues 4 3 20 Hive4.stream (snd Hive4.hive)
            Board4.board (fst Hive4.hive) _ _ _ _ _).
  - reflexivity.
  - split; [reflexivity | repeat constructor].
  - repeat constructor; lia.
  - vm_compute. repeat constructor; cbn; intuition discriminate.
  - vm_compute. reflexivity.
Defined.

End AbcSolved.

(* ===================================================================== *)
(** * abc_solver.py: the neighbor move needs a second grid                *)
(* ===================================================================== *)

Module AbcStall.
Import PyFacts Abc GridFacts AbcLegal.

Lemma array_equal_refl (a : list (list Z)) : array_equal a a = true.
Proof.
  unfold array_equal. rewrite Nat.eqb_refl. cbn [andb].
  induction a as [|row a IH]; cbn [combine forallb]; [reflexivity|].
  rewrite IH, Nat.eqb_refl. cbn [fst snd andb]. rewrite andb_true_r.
  induction row as [|x row IHr]; cbn [combine forallb]; [reflexivity|].
  cbn [fst snd]. now rewrite Z.eqb_refl, IHr.
Qed.

Lemma choice_Return {A : Type} (l : list A) (g : Rand.rng) :
  l <> [] -> exists x g', Rand.choice l g = Return (x, g') /\ In x l.
Proof.
  intros Hl. unfold Rand.choice. destruct (Rand.next g) as [k g'].
  destruct (nth_error l (k mod length l)) as [x|] eqn:E.
  - exists x, g'. split; [reflexivity|]. eapply nth_error_In. exact E.
  - apply nth_error_None in E. destruct l; [congruence|].
    pose proof (Nat.mod_upper_bound k (length (a :: l))). cbn [length] in *. lia.
Qed.

(** Drawing "another" member goes on for ever when every member equals the
    current grid. *)
Lemma pick_other_stalls (st : solver) (current : list (list Z)) :
  population st <> [] ->
  Forall (fun a => array_equal a current = true) (population st) ->
  forall fuel g, pick_other fuel st current g = Diverge.
Proof.
  intros Hne F. induction fuel as [|fuel IH]; intros g; [reflexivity|].
  cbn [pick_other].
  destruct (choice_Return (population st) g Hne) as (nb & g1 & -> & Hin).
  cbn [bind]. rewrite List.Forall_forall in F. rewrite (F nb Hin). apply IH.
Qed.

Lemma pick_free_step (st : solver) (fuel : nat) (g : Rand.rng) :
  1 <= size st -> shaped (size st) (fixed_cells st) ->
  exists row col g2,
    pick_free (S fuel) st g
    = if flag (fixed_cells st) (row, col) then pick_free fuel st g2
      else Return (row, col, g2).
Proof.
  intros Hn S. cbn [pick_free]. unfold Rand.randint.
  destruct (Rand.next g) as [k1 g1].
  destruct (size st - 1 <? 0) eqn:E; [apply Z.ltb_lt in E; lia|].
  cbn [bind]. destruct (Rand.next g1) as [k2 g2]. cbn [bind].
  set (row := 0 + Z.of_nat k1 mod (size st - 1 - 0 + 1)).
  set (col := 0 + Z.of_nat k2 mod (size st - 1 - 0 + 1)).
  assert (Hi : inside (size st) (row, col)).
  { unfold inside, row, col. cbn [fst snd].
    pose proof (Z.mod_pos_bound (Z.of_nat k1) (size st - 1 - 0 + 1) ltac:(lia)).
    pose proof (Z.mod_pos_bound (Z.of_nat k2) (size st - 1 - 0 + 1) ltac:(lia)).
    lia. }
  pose proof (at2_flag _ _ (row, col) S Hi) as Ef. cbn [fst snd] in Ef.
  rewrite Ef. cbn [bind]. exists row, col, g2. reflexivity.
Qed.

Lemma pick_free_runs (st : solver) :
  1 <= size st -> shaped (size st) (fixed_cells st) ->
  forall fuel g, pick_free fuel st g = Diverge
                 \/ exists r, pick_free fuel st g = Return r.
Proof.
  intros Hn S. induction fuel as [|fuel IH]; intros g; [now left|].
  destruct (pick_free_step st fuel g Hn S) as (row & col & g2 & ->).
  destruct (flag (fixed_cells st) (row, col)); [apply IH|].
  right. eexists. reflexivity.
Qed.

Lemma neighbor_search_needs_another_member_aux (fuel : nat) (st : solver)
  (current_solution : list (list Z)) (g : Rand.rng) :
  population st <> [] ->
  Forall (fun a => array_equal a current_solution = true) (population st) ->
  forall r, neighbor_search fuel st current_solution g <> Return r.
Proof.
  intros Hne F r.
  pose proof (pick_other_stalls st current_solution Hne F fuel) as Stall.
  unfold neighbor_search.
  destruct (pick_free fuel st g) as [[[row col] g1]| |]; cbn [bind]; try discriminate.
  rewrite Stall. discriminate.
Qed.

Lemma neighbor_search_needs_another_member_aux2 (fuel : nat) (st : solver)
  (current_solution : list (list Z)) (g : Rand.rng) :
  population st <> [] ->
  Forall (fun a => array_equal a current_solution = true) (population st) ->
  1 <= size st -> shaped (size st) (fixed_cells st) ->
  neighbor_search fuel st current_solution g = Diverge.
Proof.
  intros Hne F Hn S.
  pose proof (pick_other_stalls st current_solution Hne F fuel) as Stall.
  unfold neighbor_search.
  destruct (pick_free_runs st Hn S fuel g) as [->|[[[row col] g1] ->]];
    [reflexivity|]. cbn [bind]. rewrite Stall. reflexivity.
Qed.

(** X11.  The neighbor move needs a second grid: when every member of the
    population equals the current grid (as with a population of one), the
    loop that draws "another" member never ends, so [neighbor_search] returns
    nothing; on a board with a flag for every cell it does not raise either. *)
Theorem neighbor_search_needs_another_member (fuel : nat) (st : solver)
  (current_solution : list (list Z)) (g : Rand.rng) :
  population st <> [] ->
  Forall (fun a => array_equal a current_solution = true) (population st) ->
  (forall r, neighbor_search fuel st current_solution g <> Return r)
  /\ (1 <= size st -> shaped (size st) (fixed_cells st) ->
      neighbor_search fuel st current_solution g = Diverge).
Proof.
  intros Hne F. split.
  - now apply neighbor_search_needs_another_member_aux.
  - intros Hn S. now apply neighbor_search_needs_another_member_aux2.
Qed.

(** The solver that [ABCSolver(clues, 4, 1)] builds: a population of one. *)
Definition lone_hive : solver * Rand.rng :=
  Eval vm_compute in
    match init Hive4.clues 4 1 Hive4.stream with
    | Return s => s
    | _ => (Solver 0 0 0 [] [] 0 0 0 0 [] [] [] 0%Q [], Hive4.stream)
    end.

Lemma neighbor_search_needs_another_member_witness :
  neighbor_search 50 (fst lone_hive) (nth 0 (population (fst lone_hive)) [])
                  (snd lone_hive) = Diverge.
Proof.
  refine (proj2 (neighbor_search_needs_another_member 50 (fst lone_hive)
                   (nth 0 (population (fst lone_hive)) []) (snd lone_hive) _ _) _ _).
  - discriminate.
  - repeat constructor.
  - cbn. lia.
  - split; [reflexivity | repeat constructor].
Defined.

(** ** A population of one *)

(** Two computations that stop the same way, neither with a result. *)
Definition same_stop {A B : Type} (r : result A) (r' : result B) : Prop :=
  match r, r' with
  | Raise e, Raise e' => e = e'
  | Diverge, Diverge => True
  | _, _ => False
  end.

Lemma same_stop_trans {A B C : Type} (r1 : result A) (r2 : result B) (r3 : result C) :
  same_stop r1 r2 -> same_stop r2 r3 -> same_stop r1 r3.
Proof. destruct r1, r2, r3; cbn; try tauto; congruence. Qed.

Lemma same_stop_spec {A B : Type} (r : result A) (r' : result B) :
  same_stop r r' ->
  (forall x, r <> Return x) /\ (r' = Diverge -> r = Diverge).
Proof. destruct r, r'; cbn; intros H; try tauto; split; congruence. Qed.

Lemma bind_stop {S Y A B : Type} (m : Gen S Y A) (f : A -> Gen S Y B) (s : S) :
  fst (m s) = [] -> (forall r, snd (m s) <> Return r) ->
  fst (Gen.bind m f s) = [] /\ same_stop (snd (Gen.bind m f s)) (snd (m s)).
Proof.
  unfold Gen.bind. destruct (m s) as [ys [[a s']| |]]; cbn [fst snd]; intros -> H.
  - now destruct (H (a, s')).
  - split; reflexivity.
  - split; [reflexivity | exact I].
Qed.

Lemma bind_step {S Y A B : Type} (m : Gen S Y A) (f : A -> Gen S Y B) (s s' : S)
  (a : A) :
  m s = ([], Return (a, s')) -> Gen.bind m f s = f a s'.
Proof. unfold Gen.bind. intros ->. destruct (f a s'). reflexivity. Qed.

Section Lone.
Variables (fuel : nat) (s : solver * Rand.rng) (a : list (list Z)).
Hypothesis Hp : population (fst s) = [a].

Lemma lone_search_stalls : forall r, neighbor_search fuel (fst s) a (snd s) <> Return r.
Proof.
  apply neighbor_search_needs_another_member_aux.
  - rewrite Hp. discriminate.
  - rewrite Hp. constructor; [apply array_equal_refl | constructor].
Qed.

(** A visit of the only member yields nothing and stops where the neighbor
    move does. *)
Lemma visit_stalls (employed : bool) :
  fst (visit fuel employed 0 s) = []
  /\ same_stop (snd (visit fuel employed 0 s))
               (neighbor_search fuel (fst s) a (snd s)).
Proof.
  unfold visit.
  rewrite (bind_step _ _ s s a) by (unfold read; now rewrite Hp).
  pose proof lone_search_stalls as St.
  match goal with |- context [Gen.bind ?m ?f s] =>
    destruct (bind_stop m f s) as [Y R] end.
  - reflexivity.
  - intros r. unfold random. cbn [snd].
    destruct (neighbor_search fuel (fst s) a (snd s)) as [x| |];
      [now destruct (St x) | discriminate | discriminate].
  - split; [exact Y|]. eapply same_stop_trans; [exact R|].
    unfold random. cbn [snd].
    destruct (neighbor_search fuel (fst s) a (snd s)) as [x| |];
      [now destruct (St x) | reflexivity | exact I].
Qed.

Hypothesis Hbees : employed_bees (fst s) = 1%nat.

Lemma employed_phase_stalls :
  fst (employed_phase fuel s) = []
  /\ same_stop (snd (employed_phase fuel s))
               (neighbor_search fuel (fst s) a (snd s)).
Proof.
  unfold employed_phase.
  rewrite (bind_step _ _ s s [0]).
  2:{ unfold read, bee_indices. now rewrite Hbees. }
  cbn [Gen.for_each].
  destruct (visit_stalls true) as [Y R].
  destruct (bind_stop (visit fuel true 0) (fun _ => Gen.ret tt) s Y) as [Y' R'].
  - apply (same_stop_spec _ _ R).
  - split; [exact Y'|]. eapply same_stop_trans; eassumption.
Qed.

Hypothesis Hbest : Qeq_bool (best_fitness (fst s)) 1 = false.

Lemma cycle_stalls :
  fst (cycle fuel s) = []
  /\ same_stop (snd (cycle fuel s)) (neighbor_search fuel (fst s) a (snd s)).
Proof.
  unfold cycle.
  rewrite (bind_step _ _ s s (best_fitness (fst s))) by reflexivity.
  rewrite Hbest.
  destruct employed_phase_stalls as [Y R].
  match goal with |- context [Gen.bind (employed_phase fuel) ?f s] =>
    destruct (bind_stop (employed_phase fuel) f s Y) as [Y' R'] end.
  - apply (same_stop_spec _ _ R).
  - split; [exact Y'|]. eapply same_stop_trans; eassumption.
Qed.

Hypothesis Hcycles : 0 < max_cycles (fst s).

Lemma solve_stalls :
  fst (solve fuel s) = []
  /\ same_stop (snd (solve fuel s)) (neighbor_search fuel (fst s) a (snd s)).
Proof.
  unfold solve.
  rewrite (bind_step _ _ s s (max_cycles (fst s))) by reflexivity.
  destruct (Z.to_nat (max_cycles (fst s))) as [|k] eqn:E; [lia|].
  cbn [Gen.repeat_for].
  destruct cycle_stalls as [Y R].
  match goal with |- context [Gen.bind (cycle fuel) ?f s] =>
    destruct (bind_stop (cycle fuel) f s Y) as [Y' R'] end.
  - apply (same_stop_spec _ _ R).
  - split; [exact Y'|]. eapply same_stop_trans; eassumption.
Qed.

End Lone.

Lemma members_one (st : solver) (g g' : Rand.rng) (pop : list (list (list Z))) :
  members st 1 g = Return (pop, g') -> exists a, pop = [a].
Proof.
  cbn [members]. intros H.
  apply bind_Return in H as ([a g1] & _ & H). cbn [bind] in H.
  injection H as <- _. eauto.
Qed.

(** X12.  A solver built with [population_size = 1] never yields: unless the
    only member already has fitness 1, the first neighbor move of [solve]
    draws "another" member for ever.  Nothing is yielded and [solve] does not
    come to an end; on an [N] x [N] puzzle it does not raise either. *)
Theorem lone_bee_never_yields (puzzle_input : list (list Z)) (n : Z)
  (g g0 : Rand.rng) (st : solver) (fuel : nat) :
  init puzzle_input n 1 g = Return (st, g0) ->
  Qeq_bool (best_fitness st) 1 = false ->
  fst (solve fuel (st, g0)) = []
  /\ (forall r, snd (solve fuel (st, g0)) <> Return r)
  /\ (shaped n puzzle_input -> snd (solve fuel (st, g0)) = Diverge).
Proof.
  intros H Hbest. unfold init in H.
  apply bind_Return in H as (m & Hm & H).
  apply bind_Return in H as ([pop g1] & Hpop & H).
  apply bind_Return in H as (fits & _ & H).
  apply bind_Return in H as ([best ?] & _ & H).
  apply bind_Return in H as (best_fit & _ & H). injection H as <- <-.
  unfold initialize_population in Hpop. cbn [employed_bees] in Hpop.
  apply members_one in Hpop as [a ->].
  match goal with |- context [solve fuel (?st, ?gg)] =>
    set (st1 := st) in *; set (g2 := gg) in * end.
  destruct (solve_stalls fuel (st1, g2) a eq_refl eq_refl Hbest ltac:(cbn; lia))
    as [Y R].
  split; [exact Y|]. split; [apply (same_stop_spec _ _ R)|].
  intros S. apply (same_stop_spec _ _ R). cbn [fst snd].
  apply neighbor_search_needs_another_member_aux2.
  - discriminate.
  - constructor; [apply array_equal_refl | constructor].
  - cbn. apply BuilderFacts.initialize_structures_accepts in Hm. lia.
  - cbn. now apply shaped_map.
Qed.

Lemma lone_bee_never_yields_witness :
  fst (solve 50 lone_hive) = [] /\ snd (solve 50 lone_hive) = Diverge.
Proof.
  destruct (lone_bee_never_yields Hive4.clues 4 Hive4.stream (snd lone_hive)
              (fst lone_hive) 50) as (Y & _ & D).
  - vm_compute. reflexivity.
  - vm_compute. reflexivity.
  - change lone_hive with (fst lone_hive, snd lone_hive). split; [exact Y|].
    apply D. split; [reflexivity | repeat constructor].
Defined.

End AbcStall.

(* ===================================================================== *)
(** * aco_solver.py: the unit rule, the ants and the scores               *)
(* ===================================================================== *)

Module AcoRules.
Import PyFacts Aco BuilderFacts BoardFacts.

(** ** Keys *)

Lemma setitem_keys {V : Type} (d : list (string * V)) (k : string) (v : V) :
  In k (map fst d) -> map fst (setitem d k v) = map fst d.
Proof.
  induction d as [|[k' v'] d IH]; cbn [setitem map fst]; [intros []|].
  destruct (String.eqb k k') eqn:E; [reflexivity|].
  apply String.eqb_neq in E. intros [H|H]; [congruence|].
  cbn [map fst]. now rewrite IH.
Qed.

Lemma setitem_assoc_same {V : Type} (d : list (string * V)) (k : string) (v : V) :
  In k (map fst d) -> Py.assoc k (setitem d k v) = Some v.
Proof.
  induction d as [|[k' v'] d IH]; cbn [setitem map fst]; [intros []|].
  destruct (String.eqb k k') eqn:E.
  - intros _. cbn [Py.assoc]. now rewrite E.
  - apply String.eqb_neq in E. intros [H|H]; [congruence|].
    cbn [Py.assoc]. apply String.eqb_neq in E. rewrite E. auto.
Qed.

Lemma setitem_assoc_other {V : Type} (d : list (string * V)) (k k2 : string) (v : V) :
  k2 <> k -> Py.assoc k2 (setitem d k v) = Py.assoc k2 d.
Proof.
  intros Hne. induction d as [|[k' v'] d IH]; cbn [setitem Py.assoc].
  - apply String.eqb_neq in Hne. now rewrite Hne.
  - destruct (String.eqb k k') eqn:E; cbn [Py.assoc].
    + apply String.eqb_eq in E. subst k'.
      apply String.eqb_neq in Hne. now rewrite Hne.
    + destruct (String.eqb k2 k'); [reflexivity | exact IH].
Qed.

Lemma getitem_key {V : Type} (d : list (string * V)) (k : string) (v : V) :
  Py.getitem d k = Return v -> Py.assoc k d = Some v /\ In k (map fst d).
Proof.
  unfold Py.getitem. destruct (Py.assoc k d) as [v'|] eqn:E; [|discriminate].
  intros [= ->]. split; [reflexivity|]. eapply assoc_In_key. exact E.
Qed.

(** ** Places *)

(** The cell admits the digit. *)
Definition admits (values : list (string * list string)) (d s : string) : bool :=
  match Py.assoc s values with
  | Some l => Py.mem d l
  | None => false
  end.

(** Some cell of the unit admits the digit. *)
Definition has_place (values : list (string * list string)) (d : string)
  (u : list string) : Prop :=
  exists s, In s u /\ admits values d s = true.

(** Every place that there was is matched by a place that there is. *)
Definition keeps (ul : list (list string)) (v v' : list (string * list string)) : Prop :=
  forall u d, In u ul -> has_place v d u -> has_place v' d u.

Lemma keeps_refl (ul : list (list string)) (v : list (string * list string)) :
  keeps ul v v.
Proof. intros u d _ H. exact H. Qed.

Lemma keeps_trans (ul : list (list string)) (v1 v2 v3 : list (string * list string)) :
  keeps ul v1 v2 -> keeps ul v2 v3 -> keeps ul v1 v3.
Proof. intros H1 H2 u d Hu H. apply H2, H1; assumption. Qed.

Lemma remove_mem_other (d d' : string) (l l' : list string) :
  Py.remove d l = Return l' -> d' <> d -> Py.mem d' l' = Py.mem d' l.
Proof.
  revert l'. induction l as [|y l IH]; intros l' H Hne; [discriminate|].
  cbn [Py.remove] in H. destruct (String.eqb d y) eqn:E.
  - injection H as <-. apply String.eqb_eq in E. subst y.
    unfold Py.mem. cbn [existsb]. apply String.eqb_neq in Hne. now rewrite Hne.
  - apply bind_Return in H as (r & Hr & H). injection H as <-.
    unfold Py.mem in *. cbn [existsb]. f_equal. now apply IH.
Qed.

Lemma places_spec (values : list (string * list string)) (d : string) (u : list string)
  (ps : list string) :
  places values d u = Return ps ->
  forall s, In s ps <-> In s u /\ admits values d s = true.
Proof.
  revert ps. induction u as [|s0 u IH]; intros ps H s.
  - injection H as <-. cbn. tauto.
  - cbn [places] in H. apply bind_Return in H as (l & Hl & H).
    apply bind_Return in H as (ps' & Hps & H). injection H as <-.
    apply getitem_key in Hl as [Hl _]. specialize (IH ps' Hps s).
    assert (A : admits values d s0 = Py.mem d l) by (unfold admits; now rewrite Hl).
    destruct (Py.mem d l) eqn:E; cbn [In]; rewrite IH; split.
    + intros [<-|[? ?]]; auto.
    + intros [[<-|?] ?]; auto.
    + intros [? ?]; auto.
    + intros [[<-|?] ?]; [congruence | auto].
Qed.

(** The loop [thread]: the steps compose, and what a step established of its
    item still holds at the end when later steps keep it. *)
Lemma thread_keeps {A : Type} (ul : list (list string))
  (f : list (string * list string) -> A -> result (option (list (string * list string))))
  (Q : A -> list (string * list string) -> Prop) (xs : list A) :
  (forall v x v', In x xs -> f v x = Return (Some v') -> keeps ul v v' /\ Q x v') ->
  (forall x v v', Q x v -> keeps ul v v' -> Q x v') ->
  forall v v', thread f v xs = Return (Some v') ->
               keeps ul v v' /\ forall x, In x xs -> Q x v'.
Proof.
  intros Hf HQ. induction xs as [|x xs IH]; intros v v' H.
  - injection H as <-. split; [apply keeps_refl | intros x []].
  - cbn [thread] in H. apply bind_Return in H as (r & Hr & H).
    destruct r as [v1|]; [|discriminate].
    destruct (Hf v x v1 (or_introl eq_refl) Hr) as [K1 Q1].
    destruct (IH (fun v0 y v0' Hy => Hf v0 y v0' (or_intror Hy)) v1 v' H) as [K2 Q2].
    split; [eapply keeps_trans; eassumption|].
    intros y [<-|Hy]; [eapply HQ; eassumption | now apply Q2].
Qed.

Section Board.
Variables (n : Z) (m : Sudo.model) (st : solver).
Hypothesis Hm : Sudo.initialize_structures n = Return m.
Hypothesis Hu : units st = Sudo.units m.

Let ul := Sudo.unitlist m.

Lemma units_of_cell (s : string) (us : list (list string)) :
  Py.getitem (units st) s = Return us ->
  forall u, In u ul -> In s u -> In u us.
Proof.
  intros H u Hin Hs. apply getitem_key in H as [H _]. rewrite Hu in H.
  apply initialize_structures_Return in Hm
    as (_ & _ & _ & _ & _ & _ & _ & _ & Hunits & _).
  rewrite Hunits in H.
  apply (assoc_map_key_inv
           (fun s => List.filter (fun u => Py.mem s u) (Sudo.unitlist m))) in H
    as [_ ->].
  apply filter_In. split; [exact Hin | now apply mem_In].
Qed.

Lemma assign_with_keeps
  (eliminate : list (string * list string) -> string -> string
               -> result (option (list (string * list string)))) :
  (forall v s d v', eliminate v s d = Return (Some v') -> keeps ul v v') ->
  forall v s d v', assign_with eliminate v s d = Return (Some v') -> keeps ul v v'.
Proof.
  intros He v s d v' H. unfold assign_with in H.
  apply bind_Return in H as (l & _ & H).
  eapply (thread_keeps ul _ (fun _ _ => True)) in H; [apply H| |auto].
  intros v0 x v0' _ H0. split; [eapply He; exact H0 | exact I].
Qed.

(** A successful [_eliminate_value] takes the last place of no digit in no
    unit. *)
Lemma eliminate_value_keeps (fuel : nat) :
  forall values s d values',
    eliminate_value fuel st values s d = Return (Some values') ->
    keeps ul values values'.
Proof.
  induction fuel as [|fuel IH]; intros values s d values' H; [discriminate|].
  cbn [eliminate_value] in H.
  apply bind_Return in H as (l & Hl & H). apply getitem_key in Hl as [Hl Hkey].
  destruct (negb (Py.mem d l)) eqn:E.
  { injection H as <-. apply keeps_refl. }
  apply bind_Return in H as (l' & Hl' & H).
  set (v1 := setitem values s l') in *.
  assert (A1 : forall d' s0, (s0 <> s \/ d' <> d) -> admits values d' s0 = true ->
                             admits v1 d' s0 = true).
  { intros d' s0 Hor Ha. unfold admits, v1 in *.
    destruct (string_dec s0 s) as [->|Hne].
    - rewrite setitem_assoc_same by assumption. rewrite Hl in Ha.
      destruct Hor as [?|Hd]; [congruence|].
      now rewrite (remove_mem_other d d' l l' Hl' Hd).
    - now rewrite setitem_assoc_other. }
  destruct l' as [|d2 rest]; [discriminate|].
  apply bind_Return in H as (r & Hr & H).
  destruct r as [v2|]; [|discriminate].
  assert (K12 : keeps ul v1 v2).
  { destruct rest as [|d3 rest]; [|injection Hr as <-; apply keeps_refl].
    apply bind_Return in Hr as (ps & _ & Hr).
    eapply (thread_keeps ul _ (fun _ _ => True)) in Hr; [apply Hr| |auto].
    intros v0 x v0' _ H0. split; [eapply IH; exact H0 | exact I]. }
  apply bind_Return in H as (us & Hus & H).
  eapply (thread_keeps ul _ (fun u v => In u ul -> has_place v d u)) in H.
  - destruct H as [K2 Q2]. intros u d' Hin Hp.
    destruct (string_dec d' d) as [->|Hd].
    + destruct (in_dec string_dec s u) as [Hs|Hs].
      * apply Q2; [|exact Hin]. eapply units_of_cell; eassumption.
      * apply K2, K12; try assumption.
        destruct Hp as (s0 & Hs0 & Ha). exists s0. split; [exact Hs0|].
        apply A1; [left; congruence | exact Ha].
    + apply K2, K12; try assumption.
      destruct Hp as (s0 & Hs0 & Ha). exists s0. split; [exact Hs0|].
      apply A1; [now right | exact Ha].
  - intros v0 u v0' _ H0. apply bind_Return in H0 as (dplaces & Hdp & H0).
    pose proof (places_spec _ _ _ _ Hdp) as Pl.
    destruct dplaces as [|p [|p2 rest2]]; [discriminate| |].
    + assert (K : keeps ul v0 v0')
        by (eapply assign_with_keeps; [exact IH | exact H0]).
      split; [exact K|]. intros Hin. apply K; [exact Hin|].
      exists p. apply Pl. now left.
    + injection H0 as <-. split; [apply keeps_refl|]. intros _.
      exists p. apply Pl. now left.
  - intros u v v' Hq K Hin. apply K; auto.
Qed.

Lemma assign_value_keeps (fuel : nat) (values : list (string * list string))
  (s d : string) (values' : list (string * list string)) :
  assign_value fuel st values s d = Return (Some values') -> keeps ul values values'.
Proof.
  unfold assign_value. apply assign_with_keeps.
  intros v s0 d0 v'. apply eliminate_value_keeps.
Qed.

End Board.

(** X13.  The unit rule of the Ant-Colony propagation: a successful
    [_eliminate_value] or [_assign_value] takes the last place of no digit in
    no unit.  Whenever some cell of a unit of the board admitted a digit
    before the call, some cell of that unit admits it in the assignment that
    the call returns. *)
Theorem unit_rule_keeps_a_place (n : Z) (m : Sudo.model) (st : solver) (fuel : nat)
  (values values' : list (string * list string)) (s d : string) :
  Sudo.initialize_structures n = Return m ->
  units st = Sudo.units m ->
  eliminate_value fuel st values s d = Return (Some values')
  \/ assign_value fuel st values s d = Return (Some values') ->
  forall u d', In u (Sudo.unitlist m) ->
               has_place values d' u -> has_place values' d' u.
Proof.
  intros Hm Hu [H|H] u d'.
  - exact (eliminate_value_keeps n m st Hm Hu fuel _ _ _ _ H u d').
  - exact (assign_value_keeps n m st Hm Hu fuel _ _ _ _ H u d').
Qed.

Lemma initialize_values_keeps (n : Z) (m : Sudo.model) (st : solver) (fuel : nat)
  (grid : list (string * string)) (values : list (string * list string)) :
  Sudo.initialize_structures n = Return m ->
  units st = Sudo.units m ->
  initialize_values fuel st grid = Return (Some values) ->
  keeps (Sudo.unitlist m) (map (fun s => (s, digits st)) (squares st)) values.
Proof.
  intros Hm Hu H. unfold initialize_values in H.
  eapply (thread_keeps _ _ (fun _ _ => True)) in H; [apply H| |auto].
  intros v sd v' _ H0. split; [|exact I].
  destruct (Py.mem (snd sd) (digits st)).
  - eapply assign_value_keeps; eassumption.
  - injection H0 as <-. apply keeps_refl.
Qed.

(** X14.  The solver that [ACOSolver.__init__] builds has a place for every
    digit in every unit: in the candidate table [self.values] every row,
    every column and every subgrid has a cell that still admits the digit.
    (A puzzle whose clues leave a digit without a place in some unit is
    refused with [ValueError].) *)
Theorem constructor_leaves_a_place_for_every_digit (fuel : nat)
  (puzzle_dict : list (string * string)) (n ants : Z) (bve : Q) (st : solver) :
  init fuel puzzle_dict n ants bve = Return st ->
  exists m, Sudo.initialize_structures n = Return m
            /\ forall u d, In u (Sudo.unitlist m) -> In d (Sudo.digits m) ->
                           exists s, In s u /\ exists l, Py.assoc s (values st) = Some l
                                                         /\ In d l.
Proof.
  unfold init. intros H. apply bind_Return in H as (m & Hm & H).
  exists m. split; [exact Hm|].
  apply bind_Return in H as (v & Hv & H). destruct v as [v|]; [|discriminate].
  injection H as <-. cbn [values].
  intros u d Hin Hd.
  match type of Hv with
  | initialize_values _ ?s0 _ = _ =>
      pose proof (initialize_values_keeps n m s0 fuel puzzle_dict v Hm eq_refl Hv
                    u d Hin) as K
  end.
  cbn [digits squares] in K.
  destruct K as (s & Hs & Ha).
  - pose proof (well_formed_all _ _ Hm) as WF. unfold well_formed in WF.
    apply andb_prop in WF as [WF _]. apply andb_prop in WF as [_ Hunits].
    rewrite forallb_forall in Hunits. specialize (Hunits u Hin).
    apply andb_prop in Hunits as [Hu1 Husq]. apply andb_prop in Hu1 as [_ Hulen].
    apply Nat.eqb_eq in Hulen. rewrite forallb_forall in Husq.
    pose proof (initialize_structures_accepts _ _ Hm) as Hn.
    destruct u as [|s0 u]; [unfold nat_of in Hulen; cbn in Hulen; lia|].
    exists s0. split; [now left|]. unfold admits.
    rewrite (assoc_map_key (fun _ => Sudo.digits m)).
    + now apply mem_In.
    + apply mem_In, Husq. now left.
  - exists s. split; [exact Hs|]. unfold admits in Ha.
    destruct (Py.assoc s v) as [l|]; [|discriminate].
    exists l. split; [reflexivity | now apply mem_In].
Qed.

Lemma unit_rule_keeps_a_place_witness :
  exists values',
    assign_value 100 Colony4.colony Colony4.parsed "A1" "1" = Return (Some values')
    /\ has_place values' "2" ["A1"; "A2"; "A3"; "A4"].
Proof.
  eexists. split; [vm_compute; reflexivity|].
  refine (unit_rule_keeps_a_place 4 Board4.board Colony4.colony 100 Colony4.parsed
            _ "A1" "1" _ _ (or_intror _) ["A1"; "A2"; "A3"; "A4"] "2" _ _).
  - vm_compute. reflexivity.
  - vm_compute. reflexivity.
  - vm_compute. reflexivity.
  - vm_compute. tauto.
  - exists "A2". split; [cbn; tauto | vm_compute; reflexivity].
Defined.

Lemma constructor_leaves_a_place_for_every_digit_witness :
  exists m, Sudo.initialize_structures 4 = Return m
            /\ forall u d, In u (Sudo.unitlist m) -> In d (Sudo.digits m) ->
                           exists s, In s u
                                     /\ exists l, Py.assoc s (values Colony4.colony) = Some l
                                                  /\ In d l.
Proof.
  apply (constructor_leaves_a_place_for_every_digit 100 [] 4 1 (1 # 10) Colony4.colony).
  vm_compute. reflexivity.
Defined.

(** ** The ants of a cycle *)

Lemma thread_inv {A : Type} (P : list (string * list string) -> Prop)
  (f : list (string * list string) -> A -> result (option (list (string * list string))))
  (xs : list A) :
  (forall v x v', P v -> f v x = Return (Some v') -> P v') ->
  forall v v', P v -> thread f v xs = Return (Some v') -> P v'.
Proof.
  intros Hf. induction xs as [|x xs IH]; intros v v' Hv H.
  - injection H as <-. exact Hv.
  - cbn [thread] in H. apply bind_Return in H as (r & Hr & H).
    destruct r as [v1|]; [|discriminate]. eapply IH; [|exact H]. eapply Hf; eassumption.
Qed.

(** The propagation writes under the keys that the dict has: the cells of
    the table stay the same. *)
Lemma eliminate_value_keys (st : solver) (ks : list string) (fuel : nat) :
  forall values s d values',
    map fst values = ks ->
    eliminate_value fuel st values s d = Return (Some values') ->
    map fst values' = ks.
Proof.
  induction fuel as [|fuel IH]; intros values s d values' Hk H; [discriminate|].
  cbn [eliminate_value] in H.
  apply bind_Return in H as (l & Hl & H). apply getitem_key in Hl as [Hl Hkey].
  destruct (negb (Py.mem d l)); [injection H as <-; exact Hk|].
  apply bind_Return in H as (l' & Hl' & H).
  assert (K1 : map fst (setitem values s l') = ks)
    by (rewrite setitem_keys; assumption).
  destruct l' as [|d2 rest]; [discriminate|].
  apply bind_Return in H as (r & Hr & H).
  destruct r as [v2|]; [|discriminate].
  assert (K2 : map fst v2 = ks).
  { destruct rest as [|d3 rest]; [|injection Hr as <-; exact K1].
    apply bind_Return in Hr as (ps & _ & Hr).
    eapply (thread_inv (fun v => map fst v = ks)); [|exact K1|exact Hr].
    intros v x v' Hv H0. exact (IH _ _ _ _ Hv H0). }
  apply bind_Return in H as (us & _ & H).
  eapply (thread_inv (fun v => map fst v = ks)); [|exact K2|exact H].
  intros v u v' Hv H0. apply bind_Return in H0 as (dplaces & _ & H0).
  destruct dplaces as [|p [|p2 rest2]]; [discriminate| |injection H0 as <-; exact Hv].
  unfold assign_with in H0. apply bind_Return in H0 as (l0 & _ & H0).
  eapply (thread_inv (fun v => map fst v = ks)); [|exact Hv|exact H0].
  intros v1 x v1' Hv1 H1. exact (IH _ _ _ _ Hv1 H1).
Qed.

Lemma initialize_values_keys (fuel : nat) (st : solver) (grid : list (string * string))
  (values : list (string * list string)) :
  initialize_values fuel st grid = Return (Some values) ->
  map fst values = squares st.
Proof.
  unfold initialize_values. intros H.
  eapply (thread_inv (fun v => map fst v = squares st)); [| |exact H].
  - intros v sd v' Hv H0. cbv beta in H0. destruct (Py.mem (snd sd) (digits st)).
    + unfold assign_value, assign_with in H0.
      apply bind_Return in H0 as (l0 & _ & H0).
      eapply (thread_inv (fun v => map fst v = squares st)); [|exact Hv|exact H0].
      intros v1 x v1' Hv1 H1. exact (eliminate_value_keys _ _ _ _ _ _ _ Hv1 H1).
    + injection H0 as <-. exact Hv.
  - rewrite map_map. cbn [fst]. apply map_id.
Qed.

Lemma mapM_returns {A B : Type} (f : A -> result B) (l : list A) :
  (forall x, In x l -> exists y, f x = Return y) -> exists ys, mapM f l = Return ys.
Proof.
  induction l as [|a l IH]; intros H; [now exists []|].
  destruct (H a (or_introl eq_refl)) as (y & Hy).
  destruct IH as (ys & Hys); [intros x Hx; apply H; now right|].
  exists (y :: ys). cbn [mapM]. rewrite Hy. cbn [bind]. rewrite Hys. reflexivity.
Qed.

Lemma key_assoc {V : Type} (d : list (string * V)) (k : string) :
  In k (map fst d) -> exists v, Py.assoc k d = Some v.
Proof.
  induction d as [|[k' v'] d IH]; [intros []|].
  cbn [map fst Py.assoc]. destruct (String.eqb k k') eqn:E; [eauto|].
  apply String.eqb_neq in E. intros [H|H]; [congruence | auto].
Qed.

Lemma copy_of_returns (st : solver) :
  map fst (values st) = squares st -> exists c, copy_of st = Return c.
Proof.
  intros Hk. unfold copy_of. apply mapM_returns. intros s Hs.
  rewrite <- Hk in Hs. apply key_assoc in Hs as (l & Hl).
  exists (s, l). unfold Py.getitem. rewrite Hl. reflexivity.
Qed.

Lemma hatch_needs_cells (st : solver) (g : Rand.rng) :
  map fst (values st) = squares st ->
  num_ants st < 0 \/ Z.of_nat (length (squares st)) < num_ants st ->
  hatch st g = Raise ValueError.
Proof.
  intros Hk Hn. unfold hatch.
  destruct (mapM_returns (fun _ : Z => copy_of st) (Py.range (num_ants st)))
    as (copies & ->).
  { intros _ _. now apply copy_of_returns. }
  cbn [bind]. unfold Rand.sample.
  replace ((num_ants st <? 0) || (Z.of_nat (length (squares st)) <? num_ants st))
    with true; [reflexivity|].
  symmetry. apply orb_true_iff. destruct Hn; [left | right]; now apply Z.ltb_lt.
Qed.

(** X15.  More ants than cells.  [ACOSolver.solve] draws the starting cells
    with [random.sample(self.squares, self.num_ants)]: on a solver built
    with more ants than the board has cells (the default of 50 ants on every
    board up to 7 x 7), or with a negative number of ants, the first step of
    the generator raises [ValueError], before anything is yielded. *)
Theorem more_ants_than_cells_raises (fuel0 : nat) (puzzle_dict : list (string * string))
  (n ants : Z) (bve : Q) (st : solver) (fuel cycles : nat) (g : Rand.rng) :
  init fuel0 puzzle_dict n ants bve = Return st ->
  ants < 0 \/ n * n < ants ->
  solve fuel (S cycles) (st, g) = ([], Raise ValueError).
Proof.
  intros Hinit Hn.
  assert (Hh : hatch st g = Raise ValueError).
  { destruct (AcoFacts.init_fresh _ _ _ _ _ _ Hinit) as [_ Hlen].
    unfold init in Hinit. apply bind_Return in Hinit as (m & Hm & H).
    apply bind_Return in H as (v & Hv & H). destruct v as [v|]; [|discriminate].
    apply initialize_values_keys in Hv. cbn [squares] in Hv.
    injection H as <-. cbn [squares size] in Hlen.
    apply hatch_needs_cells; cbn [values squares num_ants]; [exact Hv|].
    rewrite Hlen. replace (n ^ 2) with (n * n) by ring. exact Hn. }
  unfold solve. cbn [Gen.repeat_while]. unfold Gen.bind at 1 2.
  unfold cycle, Gen.bind at 1, Gen.random. cbn [fst snd]. unfold walk.
  rewrite Hh. cbn [bind]. reflexivity.
Qed.

(** [ACOSolver({'A1': '3'}, 4)]: the 4 x 4 board with the default of 50
    ants. *)
Definition crowd : solver :=
  Eval vm_compute in
    match init 100 [("A1", "3")] 4 50 (1 # 10) with
    | Return st => st
    | _ => Solver 0 [] [] [] [] 0 0 [] 0 None 0
    end.

Lemma more_ants_than_cells_raises_witness :
  solve 100 1 (crowd, Rand.Rng (fun _ => 0%nat) 0) = ([], Raise ValueError).
Proof.
  apply (more_ants_than_cells_raises 100 [("A1", "3")] 4 50 (1 # 10)).
  - vm_compute. reflexivity.
  - right. lia.
Defined.

(** X16.  The scores of the Ant-Colony run.  From the solver that
    [ACOSolver.__init__] builds, whatever the puzzle, the number of ants and
    the random draws, every pair that [solve] yields carries the score 0.0,
    and the generator never finishes: the [break] and the final
    [yield self.best_solution, 1.0] are not reached. *)
Theorem aco_never_reports_progress (fuel0 : nat) (puzzle_dict : list (string * string))
  (n ants : Z) (bve : Q) (st : solver) (fuel cycles : nat) (g : Rand.rng) :
  init fuel0 puzzle_dict n ants bve = Return st ->
  Forall (fun y => (snd y == 0)%Q) (fst (solve fuel cycles (st, g)))
  /\ forall r, snd (solve fuel cycles (st, g)) <> Return r.
Proof.
  intros Hinit. destruct (AcoFacts.init_fresh _ _ _ _ _ _ Hinit) as [B L].
  pose proof (AcoFacts.loop_never_returns fuel cycles (st, g) (conj B L)) as Hloop.
  pose proof (GenFacts.emits_repeat_while AcoFacts.zero AcoFacts.inv cycles (cycle fuel)
                (AcoFacts.cycle_zero fuel) (st, g) (conj B L)) as [Hz _].
  unfold solve, Gen.bind.
  destruct (Gen.repeat_while cycles (cycle fuel) (st, g)) as [ys [[u s']| |]];
    cbn [fst snd] in *; [destruct Hloop | |]; (split; [exact Hz | discriminate]).
Qed.

Lemma aco_never_reports_progress_witness :
  Forall (fun y => (snd y == 0)%Q)
         (fst (solve 100 3 (Colony4.colony, Rand.Rng (fun _ => 0%nat) 0)))
  /\ forall r, snd (solve 100 3 (Colony4.colony, Rand.Rng (fun _ => 0%nat) 0)) <> Return r.
Proof.
  apply (aco_never_reports_progress 100 [] 4 1 (1 # 10)).
  vm_compute. reflexivity.
Defined.

End AcoRules.

(* ===================================================================== *)
(** * hybrid_abc_cp.py: the constructor                                   *)
(* ===================================================================== *)

Module HybridBuild.
Import PyFacts Sudo Hybrid StoreFacts BuilderFacts.

Lemma classic_digit_clue (items : grid) (ds : list digit) :
  (exists s d, In (s, d) items /\ In d ds)
  \/ ~ (exists s d, In (s, d) items /\ In d ds).
Proof.
  induction items as [|[s d] items IH].
  - right. intros (s & d & [] & _).
  - destruct (in_dec string_dec d ds) as [Hd|Hd].
    + left. exists s, d. split; [now left | exact Hd].
    + destruct IH as [(s0 & d0 & Hin & Hd0)|Hno].
      * left. exists s0, d0. split; [now right | exact Hd0].
      * right. intros (s0 & d0 & [[= -> ->]|Hin] & Hd0); [contradiction|].
        apply Hno. eauto.
Qed.

(** A clue that is a digit stops the loop of [dict_to_values] at the call of
    [assign]. *)
Lemma clue_loop_digit (st : solver) (items : grid) (v : dict) (h : store) :
  (exists s d, In (s, d) items /\ In d (digits st)) ->
  clue_loop st (Some v) items h = Raise TypeError.
Proof.
  induction items as [|[s d] items IH]; intros (s0 & d0 & Hin & Hd); [destruct Hin|].
  cbn [clue_loop]. destruct (Py.mem d (digits st)) eqn:E; [reflexivity|].
  destruct Hin as [[= -> ->]|Hin].
  - apply mem_In in Hd. congruence.
  - apply IH. eauto.
Qed.

Lemma clue_loop_blank (st : solver) (items : grid) (v : option dict) (h : store) :
  ~ (exists s d, In (s, d) items /\ In d (digits st)) ->
  clue_loop st v items h = Return (v, h).
Proof.
  induction items as [|[s d] items IH]; intros Hno; [reflexivity|].
  cbn [clue_loop]. destruct (Py.mem d (digits st)) eqn:E.
  - exfalso. apply Hno. exists s, d. split; [now left | now apply mem_In].
  - apply IH. intros (s0 & d0 & Hin & Hd). apply Hno. exists s0, d0. split; [now right | exact Hd].
Qed.

Lemma single_cells_returns (values : dict) (sqs : list cell) (h : store) :
  (forall s, In s sqs -> In s (map fst values)) ->
  exists fixed, single_cells values sqs h = Return (fixed, h).
Proof.
  induction sqs as [|s sqs IH]; intros Hk; [now exists []|].
  destruct IH as (r & Hr); [intros s' Hs'; apply Hk; now right|].
  destruct (AcoRules.key_assoc values s (Hk s (or_introl eq_refl))) as (l & Hl).
  cbn [single_cells]. unfold bindM at 1, candidates, bindM at 1, lift, Py.getitem.
  rewrite Hl. cbn [load]. unfold bindM at 1. rewrite Hr. eexists. reflexivity.
Qed.

(** [deepcopy] only allocates, and the copy has the keys of the dict. *)
Lemma deepcopy_from_appends (values : dict) :
  forall memo h, exists vs suffix,
    deepcopy_from memo values h = Return (vs, h ++ suffix)
    /\ map fst vs = map fst values.
Proof.
  induction values as [|[k l] values IH]; intros memo h.
  - exists [], []. rewrite app_nil_r. split; reflexivity.
  - cbn [deepcopy_from].
    destruct (List.find (fun p => Nat.eqb (fst p) l) memo) as [[l0 l']|].
    + destruct (IH memo h) as (vs & suf & E & K).
      exists ((k, l') :: vs), suf. unfold bindM at 1. rewrite E.
      split; [reflexivity | cbn; now rewrite K].
    + unfold bindM at 1. cbn [load]. unfold bindM at 1. cbn [alloc].
      destruct (IH ((l, length h) :: memo) (h ++ [default [] (h !! l)]))
        as (vs & suf & E & K).
      exists ((k, length h) :: vs), ([default [] (h !! l)] ++ suf).
      unfold bindM at 1. rewrite E. rewrite <- app_assoc.
      split; [reflexivity | cbn; now rewrite K].
Qed.

(** The first cell of the copy holds a new list with the candidates of the
    first cell of the dict. *)
Lemma deepcopy_first (k : cell) (l : loc) (values : dict) (h : store) :
  exists l' vs h', deepcopy ((k, l) :: values) h = Return ((k, l') :: vs, h')
                   /\ h' !! l' = Some (default [] (h !! l)).
Proof.
  unfold deepcopy. cbn [deepcopy_from List.find].
  unfold bindM at 1. cbn [load]. unfold bindM at 1. cbn [alloc].
  destruct (deepcopy_from_appends values [(l, length h)] (h ++ [default [] (h !! l)]))
    as (vs & suf & E & _).
  exists (length h), vs, ((h ++ [default [] (h !! l)]) ++ suf).
  unfold bindM at 1. rewrite E. split; [reflexivity|].
  rewrite <- app_assoc. rewrite lookup_app_r by lia.
  replace (length h - length h)%nat with 0%nat by lia. reflexivity.
Qed.

(** With two or more candidates in the first cell, the first member of the
    population is not made: the first candidate tried is handed to [assign]
    with six arguments. *)
Lemma create_cp_solution_raises (st : solver) (g : Rand.rng) (h : store)
  (s : cell) (rest : list cell) (l : loc) (vs : dict) (c : list digit) :
  squares st = s :: rest ->
  puzzle st = (s, l) :: vs ->
  h !! l = Some c ->
  (2 <= length c)%nat ->
  create_cp_solution st g h = Raise TypeError.
Proof.
  intros Hs Hp Hc Hlen. unfold create_cp_solution. rewrite Hp, Hs.
  destruct (deepcopy_first s l vs h) as (l' & vs' & h' & E & Hl').
  unfold bindM at 1. rewrite E. rewrite Hc in Hl'.
  change (default [] (Some c)) with c in Hl'.
  cbn [fill_cells]. unfold bindM at 1, bindM at 1, candidates, bindM at 1, lift.
  unfold Py.getitem. cbn [Py.assoc]. rewrite String.eqb_refl. cbn [load].
  rewrite Hl'. change (default [] (Some c)) with c.
  destruct (Nat.eqb (length c) 1) eqn:E1; [apply Nat.eqb_eq in E1; lia|].
  unfold Rand.sample.
  replace ((Z.of_nat (length c) <? 0) || (Z.of_nat (length c) <? Z.of_nat (length c)))
    with false
    by (symmetry; apply orb_false_iff; split; apply Z.ltb_ge; lia).
  rewrite Nat2Z.id.
  pose proof (GridFacts.pick_Permutation (length c) c g eq_refl) as Pm.
  destruct (Rand.pick (length c) c g) as [ds g1]. cbn [fst] in Pm.
  apply Permutation_length in Pm.
  destruct ds as [|d ds]; [cbn in Pm; lia|].
  reflexivity.
Qed.

(** X17.  [HybridABCSolver.__init__] builds no solver: on every board that
    the builder accepts, with a puzzle that has a digit among its clues or
    with a board of more than one cell, the constructor raises [TypeError],
    at the first call of [sudo.assign] with six arguments (in
    [dict_to_values] for the first clue, in [create_cp_solution] for the
    first candidate of the first cell otherwise). *)
Theorem hybrid_constructor_raises_type_error (puzzle_dict : grid) (n : Z)
  (m : model) (g : Rand.rng) (h : store) :
  initialize_structures n = Return m ->
  2 <= n \/ (exists s d, In (s, d) puzzle_dict /\ In d (Sudo.digits m)) ->
  init puzzle_dict n g h = Raise TypeError.
Proof.
  intros Hm Hor. unfold init. unfold bindM at 1, lift. rewrite Hm.
  match goal with |- context [dict_to_values ?s _] => set (st0 := s) end.
  destruct (Termination.fresh_values_total (Sudo.squares m) (Sudo.digits m) h)
    as (v & h1 & Hv).
  assert (Hd : dict_to_values st0 puzzle_dict h
               = clue_loop st0 (Some v) puzzle_dict h1).
  { unfold dict_to_values, bindM. cbn [squares digits st0]. now rewrite Hv. }
  destruct (classic_digit_clue puzzle_dict (Sudo.digits m)) as [Hclue|Hno].
  { unfold bindM at 1. rewrite Hd. now rewrite clue_loop_digit. }
  destruct Hor as [Hn|Hclue]; [|contradiction].
  unfold bindM at 1. rewrite Hd. rewrite clue_loop_blank by exact Hno.
  apply PropagationFacts.fresh_values_spec in Hv as (_ & _ & K & S & C).
  destruct (single_cells_returns v (Sudo.squares m) h1) as (fixed & Hf).
  { intros s Hs. now rewrite K. }
  unfold bindM at 1. rewrite Hf.
  destruct (BoardFacts.board_lengths _ _ Hm) as (Lsq & Ldg & _).
  destruct (Sudo.squares m) as [|s0 rest] eqn:Esq;
    [cbn in Lsq; nia|].
  destruct v as [|[k l] vs]; [discriminate|].
  cbn [map fst] in K. injection K as -> K.
  unfold bindM at 1. cbn [members]. unfold bindM at 1.
  erewrite create_cp_solution_raises; [reflexivity | cbn [squares]; reflexivity
                                       | cbn [puzzle]; reflexivity | | ].
  - apply C. cbn. now left.
  - lia.
Qed.

Lemma hybrid_constructor_raises_type_error_witness :
  init [] 9 Hive4.stream [] = Raise TypeError.
Proof.
  destruct (initialize_structures_returns 9 ltac:(lia)) as (m & Hm).
  apply (hybrid_constructor_raises_type_error [] 9 m Hive4.stream [] Hm).
  left. lia.
Defined.

End HybridBuild.

(* ===================================================================== *)
(** * The puzzle as a text: from the file to the dict                     *)
(* ===================================================================== *)

Module TextFacts.
Import PyFacts Sudo Text BuilderFacts.

(** ** Strings without blanks *)

(** No character of the string is blank. *)
Definition solid (s : string) : bool :=
  forallb (fun c => negb (isspace c)) (list_ascii_of_string s).

Lemma solid_cons (c : ascii) (s : string) :
  solid (String c s) = negb (isspace c) && solid s.
Proof. reflexivity. Qed.

Lemma newline_isspace (c : ascii) : Ascii.eqb c newline = true -> isspace c = true.
Proof. intros H. apply Ascii.eqb_eq in H. subst c. reflexivity. Qed.

Lemma lstrip_solid (s : string) : solid s = true -> lstrip s = s.
Proof.
  destruct s as [|c s]; [reflexivity|]. rewrite solid_cons.
  intros H. apply andb_prop in H as [H _]. cbn [lstrip].
  now destruct (isspace c).
Qed.

Lemma rstrip_solid (s : string) : solid s = true -> rstrip s = s.
Proof.
  induction s as [|c s IH]; [reflexivity|]. rewrite solid_cons.
  intros H. apply andb_prop in H as [Hc Hs]. cbn [rstrip].
  rewrite (IH Hs). now destruct (isspace c).
Qed.

Lemma strip_solid (s : string) : solid s = true -> strip s = s.
Proof.
  intros H. unfold strip. rewrite (lstrip_solid s H). now apply rstrip_solid.
Qed.

Lemma split_on_solid (s : string) : solid s = true -> split_on newline s = [s].
Proof.
  induction s as [|c s IH]; [reflexivity|]. rewrite solid_cons.
  intros H. apply andb_prop in H as [Hc Hs]. cbn [split_on].
  destruct (Ascii.eqb c newline) eqn:E.
  - apply newline_isspace in E. rewrite E in Hc. discriminate.
  - now rewrite (IH Hs).
Qed.

Lemma split_on_line (a b : string) :
  solid a = true ->
  split_on newline (String.append a (String newline b)) = a :: split_on newline b.
Proof.
  induction a as [|c a IH].
  - intros _. cbn [String.append split_on]. now rewrite Ascii.eqb_refl.
  - rewrite solid_cons. intros H. apply andb_prop in H as [Hc Ha].
    cbn [String.append split_on].
    destruct (Ascii.eqb c newline) eqn:E.
    + apply newline_isspace in E. rewrite E in Hc. discriminate.
    + now rewrite (IH Ha).
Qed.

(** Two lines without blanks are read as they are. *)
Lemma stripped_lines_two (a b : string) :
  solid a = true -> solid b = true -> a <> "" -> b <> "" ->
  stripped_lines (String.append a (String newline b)) = [a; b].
Proof.
  intros Ha Hb Na Nb. unfold stripped_lines.
  rewrite (split_on_line a b Ha), (split_on_solid b Hb).
  cbn [map]. rewrite (strip_solid a Ha), (strip_solid b Hb).
  cbn [List.filter]. destruct a; [congruence|]. destruct b; [congruence|]. reflexivity.
Qed.

Lemma stripped_lines_one (a : string) :
  solid a = true -> a <> "" -> stripped_lines a = [a].
Proof.
  intros Ha Na. unfold stripped_lines. rewrite (split_on_solid a Ha).
  cbn [map]. rewrite (strip_solid a Ha). cbn [List.filter].
  destruct a; [congruence|]. reflexivity.
Qed.

(** ** The size line *)

(** The decimal numeral of a board size is read back as the size, whatever
    the limit on the digits of an int. *)
Lemma size_line (size : Z) :
  1 <= size <= 26 ->
  solid (Py.str size) = true
  /\ Py.str size <> ""
  /\ isdigit (Py.str size) = true
  /\ forall max_str_digits, int max_str_digits (Py.str size) = Return size.
Proof.
  intros H. apply board_sizes_In in H. unfold board_sizes in H.
  cbn [seq map] in H.
  repeat (destruct H as [<-|H];
          [repeat split; try discriminate; intros; vm_compute; reflexivity|]).
  destruct H.
Qed.

(** ** The cells of the text *)

Definition zero_to_dot (val : string) : string :=
  if String.eqb val "0" then "." else val.

Lemma chars_cons (c : ascii) (s : string) :
  Py.chars (String c s) = String c "" :: Py.chars s.
Proof. reflexivity. Qed.

(** The characters of the alphabet are not blank. *)
Lemma alphabet_solid (s : string) :
  Forall (fun c => In c SudoText.puzzle_alphabet) (Py.chars s) -> solid s = true.
Proof.
  induction s as [|c s IH]; [reflexivity|]. rewrite chars_cons, solid_cons.
  intros H. apply Forall_cons_1 in H as [Hc Hs]. rewrite (IH Hs), andb_true_r.
  unfold SudoText.puzzle_alphabet in Hc. cbn in Hc.
  repeat (destruct Hc as [Hc|Hc]; [injection Hc as <-; reflexivity|]).
  destruct Hc.
Qed.

Lemma alphabet_filter (s : string) :
  Forall (fun c => In c SudoText.puzzle_alphabet) (Py.chars s) ->
  List.filter (fun c => Py.mem c SudoText.puzzle_alphabet) (Py.chars s) = Py.chars s.
Proof.
  intros H. induction H as [|c l Hc _ IH]; [reflexivity|].
  cbn [List.filter]. apply mem_In in Hc. now rewrite Hc, IH.
Qed.

(** ** Filling the dict *)

Lemma setitem_fresh {V : Type} (d : list (string * V)) (k : string) (v : V) :
  ~ In k (map fst d) -> Aco.setitem d k v = d ++ [(k, v)].
Proof.
  induction d as [|[k' v'] d IH]; intros H; [reflexivity|].
  cbn [Aco.setitem]. cbn [map fst] in H.
  destruct (String.eqb k k') eqn:E.
  - apply String.eqb_eq in E. subst k'. exfalso. apply H. now left.
  - cbn. f_equal. apply IH. intros Hin. apply H. now right.
Qed.

(** With a character for every cell and no cell named twice, the loops pair
    the cells with the characters, in order. *)
Lemma fill_dict_zip (cell_ids : list string) :
  forall (pre post : list string) (d : list (string * string)),
    List.NoDup cell_ids ->
    (forall k, In k cell_ids -> ~ In k (map fst d)) ->
    length post = length cell_ids ->
    SudoText.fill_dict cell_ids (pre ++ post) (Z.of_nat (length pre)) d
    = Return (d ++ combine cell_ids (map zero_to_dot post)).
Proof.
  induction cell_ids as [|k cell_ids IH]; intros pre post d Hnd Hfresh Hlen.
  - cbn. now rewrite app_nil_r.
  - destruct post as [|v post]; [discriminate|].
    cbn [SudoText.fill_dict].
    assert (Hi : Py.index (pre ++ v :: post) (Z.of_nat (length pre)) = Return v).
    { unfold Py.index.
      destruct (Z.of_nat (length pre) <? 0) eqn:E; [apply Z.ltb_lt in E; lia|].
      rewrite E. rewrite Nat2Z.id.
      rewrite nth_error_app2 by lia.
      replace (length pre - length pre)%nat with 0%nat by lia. reflexivity. }
    rewrite Hi. cbn [bind].
    rewrite setitem_fresh by (apply Hfresh; now left).
    replace (pre ++ v :: post) with ((pre ++ [v]) ++ post)
      by (rewrite <- app_assoc; reflexivity).
    replace (Z.of_nat (length pre) + 1) with (Z.of_nat (length (pre ++ [v])))
      by (rewrite length_app; cbn; lia).
    inversion Hnd as [|? ? Hk Hnd']; subst.
    rewrite IH.
    + cbn [map combine]. rewrite <- app_assoc. reflexivity.
    + exact Hnd'.
    + intros k' Hk' Hin. rewrite map_app, in_app_iff in Hin.
      destruct Hin as [Hin|[<-|[]]].
      * apply (Hfresh k'); [now right | exact Hin].
      * contradiction.
    + cbn in Hlen. lia.
Qed.

Lemma cell_ids_squares (size : Z) (m : model) :
  initialize_structures size = Return m ->
  flat_map (fun row => map (fun col => String.append row col) (cols m))
           (Py.chars (rows m)) = squares m.
Proof.
  intros H. apply initialize_structures_Return in H as (_ & _ & _ & -> & _).
  reflexivity.
Qed.

(** The text branch once the lines are known. *)
Lemma grid_values_cells (size : Z) (m : model) (puzzle_str : string) :
  initialize_structures size = Return m ->
  Z.of_nat (String.length puzzle_str) = size * size ->
  Forall (fun c => In c SudoText.puzzle_alphabet) (Py.chars puzzle_str) ->
  (let puzzle_chars :=
     flat_map (fun line => List.filter (fun c => Py.mem c SudoText.puzzle_alphabet)
                                       (Py.chars line)) [puzzle_str] in
   if negb (Z.of_nat (length puzzle_chars) =? size * size) then Raise ValueError
   else SudoText.fill_dict
          (flat_map (fun row => map (fun col => String.append row col) (cols m))
                    (Py.chars (rows m)))
          puzzle_chars 0 [])
  = Return (combine (squares m) (map zero_to_dot (Py.chars puzzle_str))).
Proof.
  intros Hm Hlen Hal. cbn zeta. cbn [flat_map]. rewrite app_nil_r.
  rewrite (alphabet_filter _ Hal), chars_length, Hlen, Z.eqb_refl. cbn [negb].
  rewrite (cell_ids_squares _ _ Hm).
  destruct (BoardFacts.board_lengths _ _ Hm) as (Lsq & _ & Nsq & _).
  pose proof (initialize_structures_accepts _ _ Hm) as Hn.
  apply (fill_dict_zip (squares m) [] (Py.chars puzzle_str) []).
  - exact Nsq.
  - intros k _ [].
  - rewrite chars_length, Lsq. nia.
Qed.

Lemma grid_values_with_size_line (max_str_digits : nat) (size : Z) (m : model)
  (puzzle_str : string) :
  initialize_structures size = Return m ->
  Z.of_nat (String.length puzzle_str) = size * size ->
  Forall (fun c => In c SudoText.puzzle_alphabet) (Py.chars puzzle_str) ->
  SudoText.grid_values max_str_digits (App.with_size_line size puzzle_str) size
  = Return (combine (squares m) (map zero_to_dot (Py.chars puzzle_str))).
Proof.
  intros Hm Hlen Hal.
  pose proof (initialize_structures_accepts _ _ Hm) as Hn.
  destruct (size_line size Hn) as (S1 & N1 & D1 & I1).
  assert (N2 : puzzle_str <> "") by (intros ->; cbn in Hlen; nia).
  unfold SudoText.grid_values. rewrite Hm. cbn [bind].
  unfold App.with_size_line.
  rewrite (stripped_lines_two _ _ S1 (alphabet_solid _ Hal) N1 N2).
  rewrite D1, I1. cbn [bind]. rewrite Z.eqb_refl.
  now apply grid_values_cells.
Qed.

(** X18.  A text of the size line and [N * N] cell characters.  On the text
    [f"{N}\n{puzzle_str}"], where [puzzle_str] has one character of the
    puzzle alphabet for each cell and no other character, [grid_values]
    returns the dict that gives the k-th square of the board, in the order of
    [squares] (row by row), the k-th character, with ['0'] read as ['.'];
    the limit on the digits of an int plays no part. *)
Theorem text_with_size_line_fills_the_board (max_str_digits : nat) (size : Z)
  (m : model) (puzzle_str : string) :
  initialize_structures size = Return m ->
  Z.of_nat (String.length puzzle_str) = size * size ->
  Forall (fun c => In c SudoText.puzzle_alphabet) (Py.chars puzzle_str) ->
  SudoText.grid_values max_str_digits (App.with_size_line size puzzle_str) size
  = Return (combine (squares m) (map zero_to_dot (Py.chars puzzle_str))).
Proof.
  intros Hm Hlen Hal.
  exact (grid_values_with_size_line max_str_digits size m puzzle_str Hm Hlen Hal).
Qed.

Lemma text_with_size_line_fills_the_board_witness :
  SudoText.grid_values 4300 (App.with_size_line 4 "10000030.4.....2") 4
  = Return (combine (squares Board4.board)
                    (map zero_to_dot (Py.chars "10000030.4.....2"))).
Proof.
  apply (text_with_size_line_fills_the_board 4300 4 Board4.board).
  - vm_compute. reflexivity.
  - reflexivity.
  - unfold SudoText.puzzle_alphabet.
    repeat (constructor; [cbn; tauto|]). constructor.
Defined.

(** ** The cells that [parse_puzzle] writes *)

(** The cell is empty or holds a digit of the board. *)
Definition cell_char (m : model) (c : string) : Prop :=
  c = "." \/ In c (digits m).

(** The cell written for the number [num]. *)
Definition cell_for (num : Z) : result string :=
  if num <=? 9 then Return (Py.str num) else Py.chr (65 + num - 10).

(** What the digits of a board have to do with the cells of a text, as a
    test on a model. *)
Definition cells_on_board (size : Z) (m : model) : bool :=
  negb (Py.mem "0" (digits m))
  && forallb (fun d => Py.mem d SudoText.puzzle_alphabet) (digits m)
  && forallb (fun d => match d with
                       | String a EmptyString =>
                           implb (isdigit_char a)
                                 (isdecimal a && negb (Ascii.eqb a "0"%char))
                       | _ => false
                       end) (digits m)
  && forallb (fun num => match cell_for num with
                         | Return c => Py.mem c (digits m)
                         | _ => false
                         end)
             (map (fun i => i + 1) (Py.range size)).

Lemma cells_on_board_all (size : Z) (m : model) :
  initialize_structures size = Return m -> cells_on_board size m = true.
Proof. apply holds_at_all. vm_compute. reflexivity. Qed.

Lemma board_digit (size : Z) (m : model) (d : string) :
  initialize_structures size = Return m ->
  In d (digits m) ->
  d <> "0" /\ In d SudoText.puzzle_alphabet
  /\ exists a, d = String a EmptyString
               /\ (isdigit_char a = true ->
                   isdecimal a = true /\ 1 <= digit_value a).
Proof.
  intros Hm Hd. pose proof (cells_on_board_all _ _ Hm) as C.
  unfold cells_on_board in C.
  apply andb_prop in C as [C _]. apply andb_prop in C as [C C3].
  apply andb_prop in C as [C1 C2].
  rewrite forallb_forall in C2, C3. specialize (C2 d Hd). specialize (C3 d Hd).
  split.
  { intros ->. apply mem_In in Hd. rewrite Hd in C1. discriminate. }
  split; [now apply mem_In|].
  destruct d as [|a [|? ?]]; try discriminate. exists a. split; [reflexivity|].
  intros Hdig. rewrite Hdig in C3. cbn [implb] in C3.
  apply andb_prop in C3 as [Hdec Hnz]. split; [exact Hdec|].
  unfold isdecimal in Hdec. apply andb_prop in Hdec as [Hlo _].
  apply Nat.leb_le in Hlo. unfold digit_value.
  assert (code a <> 48%nat).
  { intros E. apply negb_true_iff, Ascii.eqb_neq in Hnz. apply Hnz.
    rewrite <- (ascii_nat_embedding a). unfold code in E. rewrite E. reflexivity. }
  lia.
Qed.

Lemma cell_char_alphabet (size : Z) (m : model) (c : string) :
  initialize_structures size = Return m ->
  cell_char m c -> In c SudoText.puzzle_alphabet /\ zero_to_dot c = c.
Proof.
  intros Hm [->|Hd].
  - split; [|reflexivity]. unfold SudoText.puzzle_alphabet. cbn. tauto.
  - destruct (board_digit _ _ _ Hm Hd) as (Hz & Ha & _). split; [exact Ha|].
    unfold zero_to_dot. destruct (String.eqb c "0") eqn:E; [|reflexivity].
    apply String.eqb_eq in E. contradiction.
Qed.

Lemma cell_for_on_board (size : Z) (m : model) (num : Z) :
  initialize_structures size = Return m ->
  1 <= num <= size ->
  exists c, cell_for num = Return c /\ In c (digits m).
Proof.
  intros Hm Hn. pose proof (cells_on_board_all _ _ Hm) as C.
  unfold cells_on_board in C. apply andb_prop in C as [_ C].
  rewrite forallb_forall in C. specialize (C num).
  destruct (cell_for num) as [c| |].
  - exists c. split; [reflexivity|]. apply mem_In. apply C.
    apply in_map_iff. exists (num - 1). split; [lia|]. apply range_In. lia.
  - discriminate C. apply in_map_iff. exists (num - 1). split; [lia|].
    apply range_In. lia.
  - discriminate C. apply in_map_iff. exists (num - 1). split; [lia|].
    apply range_In. lia.
Qed.

Lemma cell_of_on_board (max_str_digits : nat) (size : Z) (m : model)
  (val c : string) :
  initialize_structures size = Return m ->
  App.cell_of max_str_digits size val = Some c ->
  cell_char m c.
Proof.
  intros Hm. pose proof (initialize_structures_accepts _ _ Hm) as Hs.
  unfold App.cell_of.
  destruct (String.eqb val "0" || String.eqb val "."); [intros [= <-]; now left|].
  destruct (int max_str_digits val) as [num| |]; try (intros [= <-]; now left).
  destruct ((1 <=? num) && (num <=? size)) eqn:E; [|intros [= <-]; now left].
  apply andb_prop in E as [E1 E2]. apply Z.leb_le in E1, E2.
  destruct (cell_for_on_board _ _ num Hm (conj E1 E2)) as (c' & Hc' & Hin).
  unfold cell_for in Hc'.
  destruct (num <=? 9).
  - injection Hc' as <-. intros [= <-]. now right.
  - destruct (2147483647 <? 65 + num - 10) eqn:E3; [apply Z.ltb_lt in E3; lia|].
    rewrite Hc'. intros [= <-]. now right.
Qed.

Lemma cells_of_on_board (max_str_digits : nat) (size : Z) (m : model)
  (vals cells : list string) :
  initialize_structures size = Return m ->
  App.cells_of max_str_digits size vals = Some cells ->
  Forall (cell_char m) cells.
Proof.
  intros Hm. revert cells. induction vals as [|val vals IH]; intros cells H.
  - injection H as <-. constructor.
  - cbn [App.cells_of] in H.
    destruct (App.cell_of max_str_digits size val) as [c|] eqn:Ec; [|discriminate].
    destruct (App.cells_of max_str_digits size vals) as [cs|]; [|discriminate].
    injection H as <-. constructor; [|now apply IH].
    eapply cell_of_on_board; eassumption.
Qed.

Lemma cell_char_single (size : Z) (m : model) (c : string) :
  initialize_structures size = Return m ->
  cell_char m c -> exists a, c = String a EmptyString.
Proof.
  intros Hm [->|Hd]; [eauto|].
  destruct (board_digit _ _ _ Hm Hd) as (_ & _ & a & -> & _). eauto.
Qed.

(** Joining strings of one character gives the string of the characters. *)
Lemma chars_concat (cells : list string) :
  Forall (fun c => exists a, c = String a EmptyString) cells ->
  Py.chars (String.concat "" cells) = cells.
Proof.
  induction 1 as [|c cells [a ->] _ IH]; [reflexivity|].
  cbn [String.concat]. destruct cells as [|c2 cells].
  - reflexivity.
  - cbn [String.append]. rewrite chars_cons. now rewrite IH.
Qed.

Lemma parse_puzzle_cells (max_str_digits : nat) (content : string) (size : Z)
  (puzzle_str : string) (m : model) :
  App.parse_puzzle max_str_digits content = App.Result (Return (size, puzzle_str)) ->
  initialize_structures size = Return m ->
  Z.of_nat (String.length puzzle_str) = size * size
  /\ Forall (cell_char m) (Py.chars puzzle_str).
Proof.
  unfold App.parse_puzzle. intros H Hm.
  destruct (stripped_lines content) as [|first puzzle_lines]; [discriminate|].
  destruct (negb (isdigit first)); [discriminate|].
  destruct (int max_str_digits first) as [size'| |]; try discriminate.
  destruct (App.cells_of max_str_digits size' (flat_map split puzzle_lines))
    as [cells|] eqn:Ec; [|discriminate].
  destruct (negb (Z.of_nat (String.length (String.concat "" cells)) =? size' * size'))
    eqn:El; [discriminate|].
  injection H as -> <-. apply negb_false_iff, Z.eqb_eq in El.
  split; [exact El|].
  pose proof (cells_of_on_board _ _ _ _ _ Hm Ec) as F.
  rewrite chars_concat; [exact F|].
  eapply List.Forall_impl; [|exact F]. intros c. apply (cell_char_single _ _ _ Hm).
Qed.

Lemma cell_chars_plain (size : Z) (m : model) (l : list string) :
  initialize_structures size = Return m ->
  Forall (cell_char m) l ->
  Forall (fun c => In c SudoText.puzzle_alphabet) l /\ map zero_to_dot l = l.
Proof.
  intros Hm F. induction F as [|c l Hc _ [IH1 IH2]]; [split; [constructor | reflexivity]|].
  destruct (cell_char_alphabet _ _ _ Hm Hc) as [Ha Hz].
  split; [constructor; assumption|]. cbn [map]. now rewrite Hz, IH2.
Qed.

(** X19.  From the file to the dict.  When [parse_puzzle] returns a size and
    a puzzle string for a board that the builder accepts, every character of
    the string is ['.'] or a digit of that board ('1' to '9', then 'A', 'B',
    ... for 10, 11, ...), and the call
    [grid_values(f"{puzzle_size}\n{puzzle_str}", puzzle_size)] that the app
    makes next returns the dict that gives the k-th square of the board the
    k-th character of the string. *)
Theorem parsed_puzzle_reaches_every_square (max_str_digits : nat) (content : string)
  (size : Z) (puzzle_str : string) (m : model) :
  App.parse_puzzle max_str_digits content = App.Result (Return (size, puzzle_str)) ->
  initialize_structures size = Return m ->
  Forall (fun c => c = "." \/ In c (digits m)) (Py.chars puzzle_str)
  /\ SudoText.grid_values max_str_digits (App.with_size_line size puzzle_str) size
     = Return (combine (squares m) (Py.chars puzzle_str)).
Proof.
  intros H Hm. destruct (parse_puzzle_cells _ _ _ _ _ H Hm) as [Hlen F].
  split; [exact F|].
  destruct (cell_chars_plain _ _ _ Hm F) as [Hal Hz].
  rewrite (grid_values_with_size_line _ _ _ _ Hm Hlen Hal). now rewrite Hz.
Qed.

(** The file of the 4 x 4 puzzle with the clues 1, 3, 4 and 2, a line for
    each row. *)
Definition file4 : string :=
  String.concat (String newline EmptyString)
                ["4"; "1 0 0 0"; "0 0 3 0"; " 0 4 0 0"; ". . . 2 "].

Lemma parsed_puzzle_reaches_every_square_witness :
  Forall (fun c => c = "." \/ In c (digits Board4.board)) (Py.chars "1.....3..4.....2")
  /\ SudoText.grid_values 4300 (App.with_size_line 4 "1.....3..4.....2") 4
     = Return (combine (squares Board4.board) (Py.chars "1.....3..4.....2")).
Proof.
  apply (parsed_puzzle_reaches_every_square 4300 file4 4 "1.....3..4.....2"
           Board4.board).
  - vm_compute. reflexivity.
  - vm_compute. reflexivity.
Defined.

(** ** A text without the size line *)

Lemma digit_value_decimal (a : ascii) : isdecimal a = true -> 0 <= digit_value a <= 9.
Proof.
  unfold isdecimal, digit_value. intros H. apply andb_prop in H as [H1 H2].
  apply Nat.leb_le in H1, H2. lia.
Qed.

(** A run of decimal digits is read to its end; the value does not fall
    below what was read before, and it is ten times that or more when a digit
    follows. *)
Lemma digits_from_decimal (r : string) :
  forallb isdecimal (list_ascii_of_string r) = true ->
  forall acc n, 0 <= acc ->
    exists v, digits_from r acc n = Some (v, (n + String.length r)%nat)
              /\ acc <= v /\ (r <> "" -> 10 * acc <= v).
Proof.
  induction r as [|c r IH]; intros H acc n Hacc.
  - exists acc. cbn. rewrite Nat.add_0_r. repeat split; [lia | congruence].
  - cbn [list_ascii_of_string forallb] in H. apply andb_prop in H as [Hc Hr].
    pose proof (digit_value_decimal c Hc) as Hv.
    destruct (IH Hr (10 * acc + digit_value c) (S n)) as (v & E & L & _); [lia|].
    exists v. cbn [digits_from String.length]. rewrite Hc, E.
    replace (S n + String.length r)%nat with (n + S (String.length r))%nat by lia.
    repeat split; lia.
Qed.

(** A literal that starts with a decimal digit has no sign to take off. *)
Lemma int_of_decimal (max_str_digits : nat) (c : ascii) (r : string) :
  isdecimal c = true ->
  solid (String c r) = true ->
  int max_str_digits (String c r)
  = match digits_from r (digit_value c) 1 with
    | Some (v, n) =>
        if Nat.ltb 640 n && Nat.ltb 0 max_str_digits && Nat.ltb max_str_digits n
        then Raise ValueError else Return v
    | None => Raise ValueError
    end.
Proof.
  intros Hc Hs. unfold int. rewrite (strip_solid _ Hs).
  destruct c as [[] [] [] [] [] [] [] []]; cbv in Hc; try discriminate Hc; reflexivity.
Qed.

(** The digit characters among the cells are '1' to '9'. *)
Lemma digit_cells (size : Z) (m : model) (s : string) :
  initialize_structures size = Return m ->
  Forall (cell_char m) (Py.chars s) ->
  forallb isdigit_char (list_ascii_of_string s) = true ->
  forallb isdecimal (list_ascii_of_string s) = true
  /\ forall a r, s = String a r -> 1 <= digit_value a.
Proof.
  intros Hm. induction s as [|a s IH]; intros F D.
  - split; [reflexivity | discriminate].
  - rewrite chars_cons in F. apply Forall_cons_1 in F as [Ha Fs].
    cbn [list_ascii_of_string forallb] in D. apply andb_prop in D as [Da Ds].
    assert (A : isdecimal a = true /\ 1 <= digit_value a).
    { destruct Ha as [E|Hd].
      - injection E as ->. discriminate Da.
      - destruct (board_digit _ _ _ Hm Hd) as (_ & _ & a' & E & Hdec).
        injection E as <-. now apply Hdec. }
    destruct (IH Fs Ds) as [IH1 _]. cbn [list_ascii_of_string forallb].
    destruct A as [A1 A2]. rewrite A1, IH1. split; [reflexivity|].
    intros a' r [= <- <-]. exact A2.
Qed.

(** An all-digit puzzle string of a board with four cells or more reads as a
    number that is no board size. *)
Lemma int_of_cells (max_str_digits : nat) (size : Z) (m : model) (s : string) :
  initialize_structures size = Return m ->
  Forall (cell_char m) (Py.chars s) ->
  isdigit s = true ->
  (4 <= String.length s <= 676)%nat ->
  max_str_digits = 0%nat \/ (676 <= max_str_digits)%nat ->
  exists v, int max_str_digits s = Return v /\ 100 <= v.
Proof.
  intros Hm F D Hlen Hlim. unfold isdigit in D. apply andb_prop in D as [_ D].
  destruct (digit_cells _ _ _ Hm F D) as [Hdec H1].
  pose proof (cell_chars_plain _ _ _ Hm F) as [Hal _].
  pose proof (alphabet_solid _ Hal) as Hs.
  destruct s as [|a1 [|a2 [|a3 r]]]; try (cbn in Hlen; lia).
  specialize (H1 a1 _ eq_refl).
  cbn [list_ascii_of_string forallb] in Hdec.
  apply andb_prop in Hdec as [D1 Hdec]. apply andb_prop in Hdec as [D2 Hdec].
  apply andb_prop in Hdec as [D3 Hdec].
  pose proof (digit_value_decimal a2 D2). pose proof (digit_value_decimal a3 D3).
  rewrite (int_of_decimal _ _ _ D1 Hs). cbn [digits_from]. rewrite D2, D3.
  destruct (digits_from_decimal r Hdec
              (10 * (10 * digit_value a1 + digit_value a2) + digit_value a3) 3)
    as (v & -> & L & _); [lia|].
  exists v. cbn [String.length] in Hlen.
  replace (Nat.ltb 640 (3 + String.length r) && Nat.ltb 0 max_str_digits
           && Nat.ltb max_str_digits (3 + String.length r)) with false.
  - split; [reflexivity | lia].
  - symmetry. destruct Hlim as [->|Hlim].
    + rewrite andb_false_r. reflexivity.
    + apply andb_false_intro2. apply Nat.ltb_ge. lia.
Qed.

Lemma one_cell_board (m : model) (c : string) :
  initialize_structures 1 = Return m ->
  cell_char m c -> c = "." \/ c = "1".
Proof.
  intros Hm [->|Hd]; [now left|]. right.
  vm_compute in Hm. injection Hm as <-. cbn in Hd. destruct Hd as [<-|[]]. reflexivity.
Qed.

Lemma grid_values_without_size_line (max_str_digits : nat) (size : Z) (m : model)
  (puzzle_str : string) :
  initialize_structures size = Return m ->
  Z.of_nat (String.length puzzle_str) = size * size ->
  Forall (cell_char m) (Py.chars puzzle_str) ->
  max_str_digits = 0%nat \/ (676 <= max_str_digits)%nat ->
  SudoText.grid_values max_str_digits puzzle_str size
  = if (size =? 1) && String.eqb puzzle_str "1" then Raise ValueError
    else Return (combine (squares m) (Py.chars puzzle_str)).
Proof.
  intros Hm Hlen F Hlim.
  pose proof (initialize_structures_accepts _ _ Hm) as Hn.
  destruct (cell_chars_plain _ _ _ Hm F) as [Hal Hz].
  assert (N2 : puzzle_str <> "") by (intros ->; cbn in Hlen; nia).
  pose proof (grid_values_cells _ _ _ Hm Hlen Hal) as G. rewrite Hz in G.
  unfold SudoText.grid_values. rewrite Hm. cbn [bind].
  rewrite (stripped_lines_one _ (alphabet_solid _ Hal) N2).
  destruct (isdigit puzzle_str) eqn:D.
  - destruct (Z.eq_dec size 1) as [->|Hne].
    + destruct puzzle_str as [|a [|? ?]]; try (cbn in Hlen; lia).
      rewrite chars_cons in F. apply Forall_cons_1 in F as [Ha _].
      destruct (one_cell_board _ _ Hm Ha) as [E|E]; injection E as ->.
      * discriminate D.
      * vm_compute. reflexivity.
    + destruct (int_of_cells max_str_digits size m puzzle_str Hm F D) as (v & -> & Hv);
        [nia | exact Hlim |].
      cbn [bind].
      replace (v =? size) with false by (symmetry; apply Z.eqb_neq; lia).
      replace (size =? 1) with false by (symmetry; apply Z.eqb_neq; lia).
      exact G.
  - cbn [bind].
    replace ((size =? 1) && String.eqb puzzle_str "1") with false; [exact G|].
    symmetry. apply andb_false_intro2. apply String.eqb_neq. intros ->.
    discriminate D.
Qed.

(** X20.  A puzzle string without the size line, as the app hands it to
    [solve] for the exact solver.  For a string of [N * N] cells (['.'] or
    digits of the board) [grid_values] returns the dict that gives the k-th
    square the k-th character, with one exception: on the board of one cell
    the string ["1"] is taken for the size line and dropped, and the call
    raises [ValueError].  (The interpreter's limit on the digits of an int is
    taken to be off or at least 676.) *)
Theorem text_without_size_line (max_str_digits : nat) (size : Z) (m : model)
  (puzzle_str : string) :
  initialize_structures size = Return m ->
  Z.of_nat (String.length puzzle_str) = size * size ->
  Forall (fun c => c = "." \/ In c (digits m)) (Py.chars puzzle_str) ->
  max_str_digits = 0%nat \/ (676 <= max_str_digits)%nat ->
  SudoText.grid_values max_str_digits puzzle_str size
  = if (size =? 1) && String.eqb puzzle_str "1" then Raise ValueError
    else Return (combine (squares m) (Py.chars puzzle_str)).
Proof.
  intros Hm Hlen F Hlim.
  exact (grid_values_without_size_line max_str_digits size m puzzle_str Hm Hlen F Hlim).
Qed.

Lemma text_without_size_line_witness :
  SudoText.grid_values 4300 "1234341221434321" 4
  = Return (combine (squares Board4.board) (Py.chars "1234341221434321")).
Proof.
  apply (text_without_size_line 4300 4 Board4.board "1234341221434321").
  - vm_compute. reflexivity.
  - reflexivity.
  - repeat (constructor; [right; cbn; tauto|]). constructor.
  - right. lia.
Defined.

(** ** Solving a text *)

Lemma setitem_key_In {V : Type} (d : list (string * V)) (k0 k : string) (v : V) :
  In k (map fst (Aco.setitem d k0 v)) -> In k (map fst d) \/ k = k0.
Proof.
  induction d as [|[k' v'] d IH]; cbn [Aco.setitem map fst].
  - intros [<-|[]]. now right.
  - destruct (String.eqb k0 k'); cbn [map fst].
    + intros [<-|H]; [left; now left | left; now right].
    + intros [<-|H]; [left; now left|].
      destruct (IH H) as [H'|H']; [left; now right | now right].
Qed.

Lemma fill_dict_keys (cell_ids : list string) :
  forall (puzzle_chars : list string) (index : Z) (d d' : list (string * string)),
    SudoText.fill_dict cell_ids puzzle_chars index d = Return d' ->
    forall k, In k (map fst d') -> In k (map fst d) \/ In k cell_ids.
Proof.
  induction cell_ids as [|c cell_ids IH]; intros pc i d d' H k Hk.
  - injection H as <-. now left.
  - cbn [SudoText.fill_dict] in H. apply bind_Return in H as (val & _ & H).
    destruct (IH _ _ _ _ H k Hk) as [H1|H1].
    + apply setitem_key_In in H1 as [H1| ->]; [now left | right; now left].
    + right. now right.
Qed.

(** The dict read from a text has cells of the board for keys. *)
Lemma text_keys (max_str_digits : nat) (text : string) (size : Z) (m : model)
  (d : list (string * string)) :
  initialize_structures size = Return m ->
  SudoText.grid_values max_str_digits text size = Return d ->
  Forall (fun kv => In (fst kv) (squares m)) d.
Proof.
  intros Hm H. unfold SudoText.grid_values in H. rewrite Hm in H. cbn [bind] in H.
  apply bind_Return in H as (lines & _ & H).
  destruct (negb _) in H; [discriminate|].
  rewrite (cell_ids_squares _ _ Hm) in H.
  apply List.Forall_forall. intros [k v] Hin.
  destruct (fill_dict_keys _ _ _ _ _ H k) as [[]|Hk]; [|exact Hk].
  apply in_map_iff. exists (k, v). auto.
Qed.

Lemma dict_of_cells_accepted (size : Z) (m : model) (d : list (string * string)) :
  initialize_structures size = Return m ->
  Forall (fun kv => In (fst kv) (squares m)) d ->
  Sudo.grid_values d size = Return d.
Proof.
  intros Hm F. unfold Sudo.grid_values. rewrite Hm. cbn [bind].
  change ((let! _ := mapM (BoardFacts.check_key m) d in Return d) = Return d).
  destruct (proj1 (BoardFacts.mapM_check m d)) as [us ->]; [|reflexivity].
  eapply List.Forall_impl; [|exact F].
  intros kv. apply (BoardFacts.check_key_spec _ _ kv Hm).
Qed.

(** X21.  Solving a text is solving its dict: [solve] on a [str] comes to
    what [solve] comes to on the dict that [grid_values] reads from the text,
    and it raises what [grid_values] raises when the text is refused. *)
Theorem solve_text_is_solve_dict (max_str_digits fuel : nat) (text : string)
  (size : Z) (h : store) :
  SudoText.solve max_str_digits fuel text size h
  = match SudoText.grid_values max_str_digits text size with
    | Return d => Sudo.solve fuel d size h
    | Raise e => Raise e
    | Diverge => Diverge
    end.
Proof.
  unfold SudoText.solve, Sudo.solve, SudoText.parse_grid, Sudo.parse_grid.
  destruct (initialize_structures size) as [m|e|] eqn:Hm.
  - destruct (SudoText.grid_values max_str_digits text size) as [d|e|] eqn:Hd.
    + pose proof (text_keys _ _ _ _ _ Hm Hd) as K.
      rewrite (dict_of_cells_accepted _ _ _ Hm K). reflexivity.
    + unfold bindM, lift.
      destruct (fresh_values (squares m) (digits m) h) as [[v h1]| |] eqn:Ef;
        try reflexivity.
      all: destruct (Termination.fresh_values_total (squares m) (digits m) h)
          as (v' & h' & E'); congruence.
    + unfold bindM, lift.
      destruct (fresh_values (squares m) (digits m) h) as [[v h1]| |] eqn:Ef;
        try reflexivity.
      all: destruct (Termination.fresh_values_total (squares m) (digits m) h)
          as (v' & h' & E'); congruence.
  - unfold SudoText.grid_values. rewrite Hm. reflexivity.
  - unfold SudoText.grid_values. rewrite Hm. reflexivity.
Qed.

End TextFacts.

(* ===================================================================== *)
(** * norvig.py: propagation and search on the 9 x 9 board                *)
(* ===================================================================== *)

Module NorvigFacts.
Import PyFacts Norvig.

(** ** Digit sets *)

Lemma has_without (d a : ascii) (c : string) :
  has a (without d c) = has a c && negb (Ascii.eqb a d).
Proof.
  unfold has. induction c as [|b c IH]; [reflexivity|].
  cbn [without]. destruct (Ascii.eqb b d) eqn:E.
  - apply Ascii.eqb_eq in E. subst b. cbn [list_ascii_of_string existsb].
    rewrite IH. destruct (Ascii.eqb a d), (existsb (Ascii.eqb a) (list_ascii_of_string c));
      reflexivity.
  - cbn [list_ascii_of_string existsb]. rewrite IH.
    destruct (Ascii.eqb a b) eqn:E2.
    + apply Ascii.eqb_eq in E2. subst b. rewrite E. reflexivity.
    + reflexivity.
Qed.

Lemma has_single (a b : ascii) : has a (String b EmptyString) = Ascii.eqb a b.
Proof. unfold has. cbn. apply orb_false_r. Qed.

Lemma has_empty (a : ascii) : has a EmptyString = false.
Proof. reflexivity. Qed.

(** ** The candidates of a square *)

(** The digit set of the square, empty when the grid has no such key. *)
Definition cand (g : list (string * string)) (s : string) : string :=
  match Py.assoc s g with
  | Some c => c
  | None => EmptyString
  end.

Lemma cand_getitem (g : list (string * string)) (s c : string) :
  Py.getitem g s = Return c -> cand g s = c /\ In s (map fst g).
Proof.
  intros H. apply AcoRules.getitem_key in H as [H K]. unfold cand. now rewrite H.
Qed.

Lemma cand_setitem_same (g : list (string * string)) (s c : string) :
  In s (map fst g) -> cand (Aco.setitem g s c) s = c.
Proof. intros H. unfold cand. now rewrite AcoRules.setitem_assoc_same. Qed.

Lemma cand_setitem_other (g : list (string * string)) (s t c : string) :
  t <> s -> cand (Aco.setitem g s c) t = cand g t.
Proof. intros H. unfold cand. now rewrite AcoRules.setitem_assoc_other. Qed.

(** ** What a successful call leaves *)

(** From [g] to [g']: the same squares, no digit added, no square emptied,
    every square that has come down to one digit has that digit taken from
    all its peers, and every unit still has a place for each digit it had a
    place for. *)
Record after (g g' : list (string * string)) : Prop := After {
  after_keys : map fst g' = map fst g;
  after_shrinks : forall s a, has a (cand g' s) = true -> has a (cand g s) = true;
  after_nonempty : forall s, cand g s <> "" -> cand g' s <> "";
  after_single : forall t a,
      cand g' t = String a "" ->
      cand g t = String a ""
      \/ forall p, In p (peer_set t) -> has a (cand g' p) = false;
  after_places : forall u a,
      In u all_units ->
      (exists s, In s u /\ has a (cand g s) = true) ->
      exists s, In s u /\ has a (cand g' s) = true
}.

Lemma after_refl (g : list (string * string)) : after g g.
Proof. constructor; auto. Qed.

Lemma has_false_shrinks (g g' : list (string * string)) (p : string) (a : ascii) :
  after g g' -> has a (cand g p) = false -> has a (cand g' p) = false.
Proof.
  intros P H. destruct (has a (cand g' p)) eqn:E; [|reflexivity].
  apply (after_shrinks _ _ P) in E. congruence.
Qed.

Lemma after_trans (g1 g2 g3 : list (string * string)) :
  after g1 g2 -> after g2 g3 -> after g1 g3.
Proof.
  intros P Q. constructor.
  - rewrite (after_keys _ _ Q). apply (after_keys _ _ P).
  - intros s a H. apply (after_shrinks _ _ P), (after_shrinks _ _ Q), H.
  - intros s H. apply (after_nonempty _ _ Q), (after_nonempty _ _ P), H.
  - intros t a H. destruct (after_single _ _ Q t a H) as [H2|H2]; [|now right].
    destruct (after_single _ _ P t a H2) as [H1|H1]; [now left|].
    right. intros p Hp. eapply has_false_shrinks; [exact Q | now apply H1].
  - intros u a Hu H. apply (after_places _ _ Q u a Hu), (after_places _ _ P u a Hu), H.
Qed.

(** The walk [all_of]: the steps compose, and what a step established of its
    item still holds at the end when later steps keep it. *)
Lemma all_of_after {A : Type}
  (f : list (string * string) -> A -> result (bool * list (string * string)))
  (Q : A -> list (string * string) -> Prop) (xs : list A) :
  (forall g x g', In x xs -> f g x = Return (true, g') -> after g g' /\ Q x g') ->
  (forall x g g', Q x g -> after g g' -> Q x g') ->
  forall g g', all_of f g xs = Return (true, g') ->
               after g g' /\ forall x, In x xs -> Q x g'.
Proof.
  intros Hf HQ. induction xs as [|x xs IH]; intros g g' H.
  - injection H as <-. split; [apply after_refl | intros x []].
  - cbn [all_of] in H. apply bind_Return in H as ([ok g1] & Hx & H).
    destruct ok; [|discriminate].
    destruct (Hf g x g1 (or_introl eq_refl) Hx) as [P1 Q1].
    destruct (IH (fun g0 y g0' Hy => Hf g0 y g0' (or_intror Hy)) g1 g' H) as [P2 Q2].
    split; [eapply after_trans; eassumption|].
    intros y [<-|Hy]; [eapply HQ; eassumption | now apply Q2].
Qed.

Lemma dplaces_spec (g : list (string * string)) (d : ascii) (u ps : list string) :
  dplaces g d u = Return ps ->
  forall s, In s ps <-> In s u /\ has d (cand g s) = true.
Proof.
  revert ps. induction u as [|s0 u IH]; intros ps H s.
  - injection H as <-. cbn. tauto.
  - cbn [dplaces] in H. apply bind_Return in H as (c & Hc & H).
    apply bind_Return in H as (ps' & Hps & H). injection H as <-.
    apply cand_getitem in Hc as [Hc _]. specialize (IH ps' Hps s). rewrite <- Hc.
    destruct (has d (cand g s0)) eqn:E; cbn [In]; rewrite IH; split.
    + intros [<-|[? ?]]; auto.
    + intros [[<-|?] ?]; auto.
    + intros [? ?]; auto.
    + intros [[<-|?] ?]; [congruence | auto].
Qed.

(** ** The board *)

(** What the propagation uses of the board, as a test. *)
Definition board_ok : bool :=
  nodupb squares
  && Nat.eqb (length squares) 81
  && forallb (fun u =>
                nodupb u && Nat.eqb (length u) 9
                && forallb (fun s => Py.mem s squares) u
                && forallb (fun s =>
                              forallb (fun t => String.eqb t s || Py.mem t (peer_set s)) u)
                           u)
             all_units
  && forallb (fun s => negb (Py.mem s (peer_set s))) squares.

Lemma board_ok_true : board_ok = true.
Proof. vm_compute. reflexivity. Qed.

Lemma unit_facts (u : list string) :
  In u all_units ->
  List.NoDup u /\ length u = 9%nat
  /\ (forall s, In s u -> In s squares)
  /\ (forall s t, In s u -> In t u -> t <> s -> In t (peer_set s)).
Proof.
  intros Hu. pose proof board_ok_true as B. unfold board_ok in B.
  apply andb_prop in B as [B _]. apply andb_prop in B as [_ B].
  rewrite forallb_forall in B. specialize (B u Hu).
  apply andb_prop in B as [B B4]. apply andb_prop in B as [B B3].
  apply andb_prop in B as [B1 B2].
  split; [now apply nodupb_NoDup|]. split; [now apply Nat.eqb_eq|].
  rewrite forallb_forall in B3, B4. split.
  - intros s Hs. apply mem_In. now apply B3.
  - intros s t Hs Ht Hne. specialize (B4 s Hs). rewrite forallb_forall in B4.
    specialize (B4 t Ht). apply orb_prop in B4 as [E|E].
    + apply String.eqb_eq in E. contradiction.
    + now apply mem_In.
Qed.

Lemma units_of_square (s : string) (us : list (list string)) :
  Py.getitem units s = Return us ->
  forall u, In u all_units -> In s u -> In u us.
Proof.
  intros H u Hin Hs. apply AcoRules.getitem_key in H as [H _]. unfold units in H.
  apply (assoc_map_key_inv
           (fun s => List.filter (fun u => Py.mem s u) all_units)) in H as [_ ->].
  apply filter_In. split; [exact Hin | now apply mem_In].
Qed.

(** ** Propagation *)

(** Each set of [peers] holds the peers of its square, in the order in which
    it is walked. *)
Definition in_some_order (peers : list (string * list string)) : Prop :=
  forall s ps, Py.assoc s peers = Some ps -> Permutation ps (peer_set s).

Lemma has_In (a : ascii) (c : string) :
  has a c = true <-> In a (list_ascii_of_string c).
Proof.
  unfold has. rewrite existsb_exists. split.
  - intros (b & Hb & E). apply Ascii.eqb_eq in E. now subst.
  - intros H. exists a. split; [exact H | apply Ascii.eqb_refl].
Qed.

Section Propagation.
Variable peers : list (string * list string).
Hypothesis Hpeers : in_some_order peers.

(** [fill] around an [eliminate] that leaves what it should. *)
Lemma fill_with_after
  (elim : list (string * string) -> string -> ascii
          -> result (bool * list (string * string))) :
  (forall g s d g', elim g s d = Return (true, g') ->
                    after g g' /\ has d (cand g' s) = false) ->
  forall g s d g',
    fill_with elim g s d = Return (true, g') ->
    after g g' /\ forall a, has a (cand g' s) = true -> a = d.
Proof.
  intros He g s d g' H. unfold fill_with in H.
  apply bind_Return in H as (c & Hc & H). apply cand_getitem in Hc as [Hc _].
  destruct (String.eqb c (String d "")) eqn:E.
  - injection H as <-. split; [apply after_refl|].
    apply String.eqb_eq in E. rewrite Hc, E. intros a Ha.
    rewrite has_single in Ha. now apply Ascii.eqb_eq in Ha.
  - eapply (all_of_after _ (fun d2 g0 => has d2 (cand g0 s) = false)) in H.
    + destruct H as [P Q]. split; [exact P|]. intros a Ha.
      destruct (Ascii.eqb a d) eqn:Ead; [now apply Ascii.eqb_eq in Ead|].
      assert (Hin : In a (List.filter (fun d2 => negb (Ascii.eqb d2 d))
                                      (list_ascii_of_string c))).
      { apply filter_In. split; [|now rewrite Ead].
        apply has_In. rewrite <- Hc. now apply (after_shrinks _ _ P). }
      rewrite (Q a Hin) in Ha. discriminate.
    + intros g0 d2 g0' _ H0. now apply He.
    + intros d2 g0 g0' H0 P0. eapply has_false_shrinks; eassumption.
Qed.

(** A successful [eliminate] leaves a grid without the digit in the square,
    and every unit keeps its places. *)
Lemma eliminate_after (fuel : nat) :
  forall g s d g',
    eliminate fuel peers g s d = Return (true, g') ->
    after g g' /\ has d (cand g' s) = false.
Proof.
  induction fuel as [|fuel IH]; intros g s d g' H; [discriminate|].
  cbn [eliminate] in H.
  apply bind_Return in H as (c & Hc & H). apply cand_getitem in Hc as [Hc Hkey].
  destruct (negb (has d c)) eqn:E.
  { injection H as <-. split; [apply after_refl|].
    rewrite Hc. now apply negb_true_iff in E. }
  apply negb_false_iff in E.
  set (g0 := Aco.setitem g s (without d c)) in *.
  assert (K0 : map fst g0 = map fst g) by (apply AcoRules.setitem_keys; exact Hkey).
  assert (S0 : cand g0 s = without d c) by (apply cand_setitem_same; exact Hkey).
  assert (O0 : forall t, t <> s -> cand g0 t = cand g t)
    by (intros t Ht; now apply cand_setitem_other).
  assert (H0 : forall t a, has a (cand g0 t) = true -> has a (cand g t) = true).
  { intros t a Ha. destruct (string_dec t s) as [->|Hne].
    - rewrite S0, has_without in Ha. apply andb_prop in Ha as [Ha _]. now rewrite Hc.
    - now rewrite <- (O0 t Hne). }
  destruct (without d c) as [|d2 rest] eqn:Ec'; [discriminate|].
  apply bind_Return in H as ([ok g1] & Hr & H).
  destruct ok; [|discriminate]. cbn [negb] in H.
  assert (P01 : after g0 g1
                /\ (rest = "" -> forall p, In p (peer_set s) -> has d2 (cand g1 p) = false)).
  { destruct rest as [|d3 rest].
    - apply bind_Return in Hr as (ps & Hps & Hr).
      apply AcoRules.getitem_key in Hps as [Hps _].
      eapply (all_of_after _ (fun s2 g2 => has d2 (cand g2 s2) = false)) in Hr.
      + destruct Hr as [P Q]. split; [exact P|]. intros _ p Hp. apply Q.
        eapply Permutation_in; [symmetry; apply (Hpeers _ _ Hps) | exact Hp].
      + intros g2 s2 g2' _ H2. now apply IH.
      + intros s2 g2 g2' H2 P2. eapply has_false_shrinks; eassumption.
    - injection Hr as <-. split; [apply after_refl | discriminate]. }
  destruct P01 as [P01 C1].
  apply bind_Return in H as (us & Hus & H).
  eapply (all_of_after _ (fun u g2 => In u all_units ->
                                      exists s', In s' u /\ has d (cand g2 s') = true)) in H.
  - destruct H as [P12 Q12].
    pose proof (after_trans _ _ _ P01 P12) as P02.
    split.
    + constructor.
      * rewrite (after_keys _ _ P02). exact K0.
      * intros t a Ha. apply H0. now apply (after_shrinks _ _ P02).
      * intros t Ht. apply (after_nonempty _ _ P02).
        destruct (string_dec t s) as [->|Hne]; [rewrite S0; discriminate|].
        now rewrite (O0 t Hne).
      * intros t a Ha. destruct (after_single _ _ P02 t a Ha) as [Ht|Ht]; [|now right].
        destruct (string_dec t s) as [->|Hne]; [|left; now rewrite <- (O0 t Hne)].
        right. rewrite S0 in Ht. injection Ht as -> ->.
        intros p Hp. eapply has_false_shrinks; [exact P12 | now apply C1].
      * intros u a Hu (s0 & Hs0 & Ha).
        destruct (Ascii.eqb a d) eqn:Ead.
        -- apply Ascii.eqb_eq in Ead. subst a.
           destruct (in_dec string_dec s u) as [Hs|Hs].
           ++ apply Q12; [|exact Hu]. eapply units_of_square; eassumption.
           ++ apply (after_places _ _ P02 u d Hu). exists s0. split; [exact Hs0|].
              rewrite O0; [exact Ha | intros ->; contradiction].
        -- apply (after_places _ _ P02 u a Hu). exists s0. split; [exact Hs0|].
           destruct (string_dec s0 s) as [->|Hne]; [|now rewrite (O0 s0 Hne)].
           rewrite S0, <- Ec', has_without, Ead. rewrite Hc in Ha. now rewrite Ha.
    + eapply has_false_shrinks; [exact P02|].
      rewrite S0, <- Ec', has_without, Ascii.eqb_refl. apply andb_false_r.
  - intros g2 u g2' _ H2. apply bind_Return in H2 as (places & Hpl & H2).
    pose proof (dplaces_spec _ _ _ _ Hpl) as Pl.
    destruct places as [|p [|p2 rest2]]; [discriminate| |].
    + destruct (fill_with_after _ IH _ _ _ _ H2) as [P _].
      split; [exact P|]. intros Hu. apply (after_places _ _ P u d Hu).
      exists p. apply Pl. now left.
    + injection H2 as <-. split; [apply after_refl|]. intros _.
      exists p. apply Pl. now left.
  - intros u g2 g2' Hq P Hu. apply (after_places _ _ P u d Hu). auto.
Qed.

Lemma fill_after (fuel : nat) (g : list (string * string)) (s : string) (d : ascii)
  (g' : list (string * string)) :
  fill fuel peers g s d = Return (true, g') ->
  after g g' /\ forall a, has a (cand g' s) = true -> a = d.
Proof. apply fill_with_after. apply eliminate_after. Qed.

End Propagation.

(** X22.  Propagation in [norvig.py].  When [eliminate] or [fill] returns
    the grid (and not [None]), whatever the order in which the sets of peers
    are walked: the grid has the same squares; no digit was added to a
    square and no square was emptied; every square that has come down to one
    digit has had that digit taken from all its peers; every unit that had a
    place for a digit still has one; and the digit that [eliminate] was
    called for is gone from its square. *)
Theorem propagation_keeps_the_units_alive (fuel : nat)
  (peers : list (string * list string)) (g g' : list (string * string))
  (s : string) (d : ascii) :
  in_some_order peers ->
  eliminate fuel peers g s d = Return (true, g')
  \/ fill fuel peers g s d = Return (true, g') ->
  map fst g' = map fst g
  /\ (forall t a, has a (cand g' t) = true -> has a (cand g t) = true)
  /\ (forall t, cand g t <> "" -> cand g' t <> "")
  /\ (forall t a, cand g' t = String a "" ->
                  cand g t = String a ""
                  \/ forall p, In p (peer_set t) -> has a (cand g' p) = false)
  /\ (forall u a, In u all_units ->
                  (exists t, In t u /\ has a (cand g t) = true) ->
                  exists t, In t u /\ has a (cand g' t) = true)
  /\ (eliminate fuel peers g s d = Return (true, g') -> has d (cand g' s) = false).
Proof.
  intros Hp H.
  assert (P : after g g').
  { destruct H as [H|H].
    - apply (eliminate_after peers Hp fuel _ _ _ _ H).
    - apply (fill_after peers Hp fuel _ _ _ _ H). }
  destruct P as [P1 P2 P3 P4 P5]. repeat split; try assumption.
  intros He. apply (eliminate_after peers Hp fuel _ _ _ _ He).
Qed.

(** ** Grids that the search works on *)

(** The squares of the board, none of them empty, digits only. *)
Definition wf (g : list (string * string)) : Prop :=
  map fst g = squares
  /\ (forall s, In s squares -> cand g s <> "")
  /\ (forall s a, has a (cand g s) = true -> has a digits = true).

(** The digit of a square with one digit is in none of its peers. *)
Definition settled (g : list (string * string)) : Prop :=
  forall t a, cand g t = String a "" ->
              forall p, In p (peer_set t) -> has a (cand g p) = false.

Lemma after_wf (g g' : list (string * string)) : after g g' -> wf g -> wf g'.
Proof.
  intros P (K & N & D). split; [|split].
  - rewrite (after_keys _ _ P). exact K.
  - intros s Hs. apply (after_nonempty _ _ P). now apply N.
  - intros s a Ha. apply (D s). now apply (after_shrinks _ _ P).
Qed.

Lemma after_settled (g g' : list (string * string)) :
  after g g' -> settled g -> settled g'.
Proof.
  intros P S t a Ht p Hp. destruct (after_single _ _ P t a Ht) as [H|H].
  - eapply has_false_shrinks; [exact P | now apply (S t a H)].
  - now apply H.
Qed.

(** Every square holds one digit, taken from [g]. *)
Definition solved_from (g sol : list (string * string)) : Prop :=
  wf sol /\ settled sol
  /\ (forall s, In s squares -> exists a, cand sol s = String a "")
  /\ (forall s a, has a (cand sol s) = true -> has a (cand g s) = true).

Lemma open_squares_spec (g : list (string * string)) (sqs : list string) :
  forall open, open_squares g sqs = Return open ->
    (forall n s, In (n, s) open -> In s sqs)
    /\ (open = [] -> forall s, In s sqs -> (String.length (cand g s) <= 1)%nat).
Proof.
  induction sqs as [|s0 sqs IH]; intros open H.
  - injection H as <-. split; [intros n s [] | intros _ s []].
  - cbn [open_squares] in H. apply bind_Return in H as (c & Hc & H).
    apply bind_Return in H as (r & Hr & H). injection H as <-.
    apply cand_getitem in Hc as [Hc _]. destruct (IH r Hr) as [I1 I2].
    destruct (Nat.ltb 1 (String.length c)) eqn:E.
    + split; [|discriminate]. intros n s [[= _ <-]|Hin]; [now left|].
      right. eapply I1; eassumption.
    + apply Nat.ltb_ge in E. split.
      * intros n s Hin. right. eapply I1; eassumption.
      * intros -> s [<-|Hs]; [now rewrite Hc | now apply I2].
Qed.

Lemma min_by_key_spec (l : list (nat * string)) :
  match min_by_key l with
  | None => l = []
  | Some x => In x l
  end.
Proof.
  induction l as [|x l IH]; [reflexivity|]. cbn [min_by_key].
  destruct (min_by_key l) as [y|].
  - destruct (Nat.ltb (fst y) (fst x)); [now right | now left].
  - now left.
Qed.

Lemma length_one (c : string) :
  c <> "" -> (String.length c <= 1)%nat -> exists a, c = String a "".
Proof.
  destruct c as [|a [|b r]]; [congruence| eauto |]. cbn. lia.
Qed.

Section Search.
Variable peers : list (string * list string).
Hypothesis Hpeers : in_some_order peers.

(** What [search] returns when it returns a grid. *)
Lemma search_solved (fuel : nat) :
  forall g sol,
    wf g -> settled g ->
    search fuel peers (Some g) = Return (Some sol) ->
    solved_from g sol.
Proof.
  induction fuel as [|fuel IH]; intros g sol W S H; [discriminate|].
  cbn [search] in H. apply bind_Return in H as (open & Hopen & H).
  destruct (open_squares_spec _ _ _ Hopen) as [O1 O2].
  pose proof (min_by_key_spec open) as M.
  destruct (min_by_key open) as [[n s]|].
  - apply bind_Return in H as (c & _ & H).
    induction (list_ascii_of_string c) as [|d ds IHds]; [discriminate|].
    cbn [try_digits] in H. apply bind_Return in H as ([ok g1] & Hfill & H).
    apply bind_Return in H as (solution & Hrec & H).
    destruct solution as [[|kv sol']|]; try (now apply IHds).
    injection H as <-.
    destruct ok.
    + destruct (fill_after peers Hpeers _ _ _ _ _ Hfill) as [P _].
      destruct (IH g1 (kv :: sol') (after_wf _ _ P W) (after_settled _ _ P S) Hrec)
        as (W' & S' & A' & Sh').
      split; [exact W'|]. split; [exact S'|]. split; [exact A'|].
      intros t a Ha. apply (after_shrinks _ _ P). now apply Sh'.
    + destruct fuel; discriminate.
  - injection H as <-. subst open.
    split; [exact W|]. split; [exact S|]. split; [|auto].
    intros s Hs. apply length_one; [now apply W | now apply O2].
Qed.

End Search.

(** ** The test [is_solution] *)

Lemma all_true_each {A : Type} (f : A -> result bool) (xs : list A) :
  (forall x, In x xs -> f x = Return true) -> all_true f xs = Return true.
Proof.
  induction xs as [|x xs IH]; intros H; [reflexivity|].
  cbn [all_true]. rewrite (H x (or_introl eq_refl)). cbn [bind].
  apply IH. intros y Hy. apply H. now right.
Qed.

Lemma getitem_cand (g : list (string * string)) (s : string) :
  In s (map fst g) -> Py.getitem g s = Return (cand g s).
Proof.
  intros H. apply AcoRules.key_assoc in H as (c & Hc).
  unfold Py.getitem, cand. now rewrite Hc.
Qed.

Lemma mapM_getitem (g : list (string * string)) (u : list string) :
  (forall s, In s u -> In s (map fst g)) ->
  mapM (fun s => Py.getitem g s) u = Return (map (cand g) u).
Proof.
  induction u as [|s u IH]; intros H; [reflexivity|].
  cbn [mapM map]. rewrite (getitem_cand g s (H s (or_introl eq_refl))). cbn [bind].
  rewrite IH; [reflexivity|]. intros t Ht. apply H. now right.
Qed.

Lemma is_substring_single (a : ascii) (c : string) :
  has a c = true -> is_substring (String a "") c = true.
Proof.
  unfold has. induction c as [|b c IH]; [discriminate|].
  cbn [list_ascii_of_string existsb]. intros H.
  cbn [is_substring String.prefix]. destruct (ascii_dec a b) as [->|Hne].
  - destruct c; reflexivity.
  - apply orb_prop in H as [H|H]; [apply Ascii.eqb_eq in H; contradiction|].
    rewrite (IH H). apply orb_true_r.
Qed.

Lemma has_chars (a : ascii) (c : string) :
  has a c = true <-> In (String a "") (Py.chars c).
Proof.
  rewrite has_In. unfold Py.chars. rewrite in_map_iff. split.
  - intros H. exists a. auto.
  - intros (b & [= ->] & H). exact H.
Qed.

Lemma NoDup_map_on {A B : Type} (f : A -> B) (l : list A) :
  List.NoDup l ->
  (forall x y, In x l -> In y l -> y <> x -> f x <> f y) ->
  List.NoDup (map f l).
Proof.
  induction 1 as [|x l Hx Nl IH]; intros H; [constructor|].
  cbn [map]. constructor.
  - intros Hin. apply in_map_iff in Hin as (y & Ey & Hy).
    apply (H x y); [now left | now right | intros ->; contradiction | now symmetry].
  - apply IH. intros a b Ha Hb. apply H; now right.
Qed.

(** A unit of squares with one digit each, no two alike, holds every digit. *)
Lemma unit_complete_solved (sol : list (string * string)) (u : list string) :
  wf sol -> settled sol ->
  (forall s, In s squares -> exists a, cand sol s = String a "") ->
  In u all_units ->
  unit_complete sol u = Return true.
Proof.
  intros (K & _ & D) S A Hu.
  destruct (unit_facts u Hu) as (Nu & Lu & Su & Pu).
  unfold unit_complete. rewrite mapM_getitem by (intros s Hs; rewrite K; auto).
  cbn [bind]. f_equal. apply andb_true_intro.
  assert (Incl : incl (map (cand sol) u) (Py.chars digits)).
  { intros v Hv. apply in_map_iff in Hv as (s & <- & Hs).
    destruct (A s (Su s Hs)) as [a Ea]. rewrite Ea. apply has_chars.
    apply (D s). rewrite Ea, has_single. apply Ascii.eqb_refl. }
  split.
  - apply forallb_forall. intros v Hv. apply mem_In. now apply Incl.
  - apply forallb_forall. intros d Hd. apply mem_In.
    revert d Hd. apply NoDup_length_incl; [| |exact Incl].
    + apply NoDup_map_on; [exact Nu|]. intros s t Hs Ht Hne Heq.
      destruct (A s (Su s Hs)) as [a Ea].
      assert (Hpeer : In t (peer_set s)) by (apply Pu; auto).
      pose proof (S s a Ea t Hpeer) as Hf.
      rewrite <- Heq, Ea, has_single, Ascii.eqb_refl in Hf. discriminate.
    + rewrite length_map, Lu. reflexivity.
Qed.

Lemma is_solution_solved (g sol : list (string * string)) :
  map fst g = squares ->
  solved_from g sol ->
  is_solution (Some sol) g = Return true.
Proof.
  intros Kg (W & S & A & Sh). unfold is_solution.
  rewrite all_true_each.
  - cbn [bind]. apply all_true_each. intros u Hu.
    now apply unit_complete_solved.
  - intros s Hs. destruct W as (K & _).
    rewrite (getitem_cand sol s) by (rewrite K; exact Hs). cbn [bind].
    rewrite (getitem_cand g s) by (rewrite Kg; exact Hs). cbn [bind]. f_equal.
    destruct (A s Hs) as [a Ea]. rewrite Ea. apply is_substring_single.
    apply Sh. rewrite Ea, has_single. apply Ascii.eqb_refl.
Qed.

(** X23.  What [search] finds.  On a grid over the squares of the board in
    which no square is empty and the digit of every square with one digit is
    in none of its peers, a grid that [search] returns passes the test of the
    module: [is_solution(search(grid), grid)] is true (every square holds one
    of its digits of [grid], and every unit holds each of the nine digits),
    whatever the order in which the sets of peers are walked. *)
Theorem search_finds_solutions (fuel : nat) (peers : list (string * list string))
  (g sol : list (string * string)) :
  in_some_order peers ->
  map fst g = squares ->
  (forall s, In s squares -> cand g s <> "") ->
  (forall s a, has a (cand g s) = true -> has a digits = true) ->
  (forall t a, cand g t = String a "" ->
               forall p, In p (peer_set t) -> has a (cand g p) = false) ->
  search fuel peers (Some g) = Return (Some sol) ->
  is_solution (Some sol) g = Return true
  /\ forall s, In s squares -> exists a, cand sol s = String a "" /\ has a (cand g s) = true.
Proof.
  intros Hp K N D S H.
  pose proof (search_solved peers Hp fuel g sol (conj K (conj N D)) S H) as Sol.
  split; [now apply is_solution_solved|].
  destruct Sol as (_ & _ & A & Sh). intros s Hs. destruct (A s Hs) as [a Ea].
  exists a. split; [exact Ea|]. apply Sh. rewrite Ea, has_single. apply Ascii.eqb_refl.
Qed.

(** ** The clues *)

(** The grid with which [constrain] starts. *)
Definition full_grid : list (string * string) := map (fun s => (s, digits)) squares.

Lemma cand_full_grid (s : string) :
  cand full_grid s = if Py.mem s squares then digits else "".
Proof.
  unfold cand, full_grid. destruct (Py.mem s squares) eqn:E.
  - apply mem_In in E. now rewrite (assoc_map_key (fun _ => digits)).
  - destruct (Py.assoc s (map (fun s0 => (s0, digits)) squares)) as [c|] eqn:Ea;
      [|reflexivity].
    apply assoc_In_key in Ea. rewrite map_map in Ea. cbn [fst] in Ea.
    rewrite map_id in Ea. apply mem_In in Ea. congruence.
Qed.

Lemma full_grid_wf : wf full_grid /\ settled full_grid.
Proof.
  split; [split; [|split]|].
  - unfold full_grid. rewrite map_map. cbn [fst]. apply map_id.
  - intros s Hs. rewrite cand_full_grid. apply mem_In in Hs. rewrite Hs. discriminate.
  - intros s a. rewrite cand_full_grid. destruct (Py.mem s squares); [auto | discriminate].
  - intros t a. rewrite cand_full_grid. destruct (Py.mem t squares); discriminate.
Qed.

(** Every call of [fill] in the loop of [constrain] returns the grid. *)
Fixpoint clues_fit (fuel : nat) (peers : list (string * list string))
  (items : list (string * string)) (result_grid : list (string * string)) : bool :=
  match items with
  | [] => true
  | (s, c) :: rest =>
      match c with
      | String d EmptyString =>
          match fill fuel peers result_grid s d with
          | Return (true, result_grid') => clues_fit fuel peers rest result_grid'
          | _ => false
          end
      | _ => clues_fit fuel peers rest result_grid
      end
  end.

Lemma constrain_loop_fit (fuel : nat) (peers : list (string * list string))
  (items : list (string * string)) :
  in_some_order peers ->
  forall r, clues_fit fuel peers items r = true ->
    exists g, constrain_loop fuel peers items r = Return g
              /\ after r g
              /\ forall s d, In (s, String d "") items ->
                             forall a, has a (cand g s) = true -> a = d.
Proof.
  intros Hp. induction items as [|[s c] items IH]; intros r H.
  - exists r. split; [reflexivity|]. split; [apply after_refl | intros s d []].
  - cbn [clues_fit] in H. cbn [constrain_loop].
    destruct c as [|d [|d' c']].
    + destruct (IH r H) as (g & E & P & Pin). exists g. split; [exact E|].
      split; [exact P|]. intros s0 d0 [[=]|Hin]. eapply Pin; eassumption.
    + destruct (fill fuel peers r s d) as [[[] r']| |] eqn:Ef; try discriminate.
      destruct (fill_after peers Hp _ _ _ _ _ Ef) as [P1 Pd].
      destruct (IH r' H) as (g & E & P & Pin). exists g. cbn [bind].
      split; [exact E|]. split; [eapply after_trans; eassumption|].
      intros s0 d0 [[= -> ->]|Hin]; [|eapply Pin; eassumption].
      intros a Ha. apply Pd. now apply (after_shrinks _ _ P).
    + destruct (IH r H) as (g & E & P & Pin). exists g. split; [exact E|].
      split; [exact P|]. intros s0 d0 [[=]|Hin]. eapply Pin; eassumption.
Qed.

(** X24.  The [assert] of [solve_puzzles].  For a puzzle over the squares of
    the board whose squares hold one digit (a clue) or all nine, when every
    [fill] that [constrain] makes for a clue returns the grid: [constrain]
    returns a grid, and whatever [search] then returns as a grid passes
    [is_solution(solution, puzzle)]; in particular every clue is in the
    solution. *)
Theorem constrained_search_passes_the_assert (fuel fuel' : nat)
  (peers : list (string * list string)) (puzzle : list (string * string)) :
  in_some_order peers ->
  map fst puzzle = squares ->
  (forall s c, In (s, c) puzzle -> c = digits \/ exists d, c = String d "") ->
  clues_fit fuel peers puzzle full_grid = true ->
  exists g, constrain fuel peers puzzle = Return g
            /\ forall sol, search fuel' peers (Some g) = Return (Some sol) ->
                           is_solution (Some sol) puzzle = Return true.
Proof.
  intros Hp K Shape Fit.
  destruct (constrain_loop_fit fuel peers puzzle Hp full_grid Fit) as (g & E & P & Pin).
  exists g. split; [exact E|]. intros sol Hs.
  destruct full_grid_wf as [W0 S0].
  pose proof (after_wf _ _ P W0) as W. pose proof (after_settled _ _ P S0) as S.
  destruct (search_solved peers Hp fuel' g sol W S Hs) as (Ws & Ss & As & Sh).
  apply is_solution_solved; [exact K|].
  split; [exact Ws|]. split; [exact Ss|]. split; [exact As|].
  intros s a Ha. pose proof (Sh s a Ha) as Hg.
  destruct (in_dec string_dec s squares) as [Hin|Hnin].
  - rewrite <- K in Hin. apply AcoRules.key_assoc in Hin as (c & Hc).
    unfold cand at 1. rewrite Hc. apply assoc_In in Hc.
    destruct (Shape s c Hc) as [->|[d ->]].
    + destruct W as (_ & _ & D). now apply (D s).
    + rewrite (Pin s d Hc a Hg), has_single. apply Ascii.eqb_refl.
  - exfalso. destruct W as (Kg & _). unfold cand in Hg.
    destruct (Py.assoc s g) as [c|] eqn:Ec; [|discriminate].
    apply assoc_In_key in Ec. rewrite Kg in Ec. contradiction.
Qed.

(** [peers] with every set in the order of the squares. *)
Definition peers_in_order : list (string * list string) :=
  map (fun s => (s, peer_set s)) squares.

Lemma peers_in_order_ok : in_some_order peers_in_order.
Proof.
  intros s ps H. unfold peers_in_order in H.
  apply (assoc_map_key_inv peer_set) in H as [_ ->]. reflexivity.
Qed.

(** A puzzle of thirty clues, row by row, and the grid made of it. *)
Definition picture9 : string :=
  "53..7....6..195....98....6.8...6...34..8.3..17...2...6.6....28....419..5....8..79".

Definition puzzle9 : list (string * string) :=
  combine squares
          (map (fun c => if String.eqb c "." then digits else c) (Py.chars picture9)).

Definition constrained9 : list (string * string) :=
  Eval vm_compute in
    match constrain 100 peers_in_order puzzle9 with
    | Return g => g
    | _ => []
    end.

Lemma propagation_keeps_the_units_alive_witness :
  exists g',
    fill 100 peers_in_order full_grid "A1" "5" = Return (true, g')
    /\ map fst g' = map fst full_grid
    /\ has "5" (cand g' "A2") = false.
Proof.
  eexists. split; [vm_compute; reflexivity|].
  match goal with
  | |- map fst ?g = _ /\ _ =>
      destruct (propagation_keeps_the_units_alive 100 peers_in_order full_grid g
                  "A1" "5" peers_in_order_ok (or_intror eq_refl))
        as (K & _)
  end.
  split; [exact K | vm_compute; reflexivity].
Defined.

Lemma search_finds_solutions_witness :
  exists sol,
    search 100 peers_in_order (Some constrained9) = Return (Some sol)
    /\ is_solution (Some sol) constrained9 = Return true.
Proof.
  eexists. split; [vm_compute; reflexivity|].
  refine (proj1 (search_finds_solutions 100 peers_in_order constrained9 _
                   peers_in_order_ok _ _ _ _ _)).
  - vm_compute. reflexivity.
  - intros s Hs.
    assert (F : forallb (fun s0 => negb (String.eqb (cand constrained9 s0) ""))
                        squares = true)
      by (vm_compute; reflexivity).
    rewrite forallb_forall in F. specialize (F s Hs).
    apply negb_true_iff in F. now apply String.eqb_neq.
  - intros s a Ha.
    assert (F : forallb (fun kv : string * string =>
                           forallb (fun b => has b digits)
                                   (list_ascii_of_string (snd kv))) constrained9 = true)
      by (vm_compute; reflexivity).
    rewrite forallb_forall in F. unfold cand in Ha.
    destruct (Py.assoc s constrained9) as [c|] eqn:Ec; [|discriminate].
    apply assoc_In in Ec. specialize (F _ Ec). cbn [snd] in F.
    rewrite forallb_forall in F. apply F. now apply has_In.
  - intros t a Ht p Hp.
    assert (F : forallb (fun kv : string * string =>
                           match snd kv with
                           | String b EmptyString =>
                               forallb (fun q => negb (has b (cand constrained9 q)))
                                       (peer_set (fst kv))
                           | _ => true
                           end) constrained9 = true)
      by (vm_compute; reflexivity).
    rewrite forallb_forall in F. unfold cand in Ht.
    destruct (Py.assoc t constrained9) as [c|] eqn:Ec; [|discriminate].
    apply assoc_In in Ec. specialize (F _ Ec). cbn [snd fst] in F. subst c.
    rewrite forallb_forall in F. apply negb_true_iff. now apply F.
  - vm_compute. reflexivity.
Defined.

Lemma constrained_search_passes_the_assert_witness :
  exists g, constrain 100 peers_in_order puzzle9 = Return g
            /\ forall sol, search 100 peers_in_order (Some g) = Return (Some sol) ->
                           is_solution (Some sol) puzzle9 = Return true.
Proof.
  apply (constrained_search_passes_the_assert 100 100 peers_in_order puzzle9).
  - exact peers_in_order_ok.
  - vm_compute. reflexivity.
  - intros s c Hin.
    assert (F : forallb (fun kv : string * string =>
                           String.eqb (snd kv) digits
                           || Nat.eqb (String.length (snd kv)) 1) puzzle9 = true)
      by (vm_compute; reflexivity).
    rewrite forallb_forall in F. specialize (F _ Hin). cbn [snd] in F.
    apply orb_prop in F as [F|F].
    + left. now apply String.eqb_eq.
    + right. destruct c as [|d [|? ?]]; try discriminate. eauto.
  - vm_compute. reflexivity.
Defined.

End NorvigFacts.

(* ===================================================================== *)
(** * abc_solver.py: from the dict to the array                           *)
(* ===================================================================== *)

Module AbcDictFacts.
Import PyFacts Sudo Text GridFacts BuilderFacts.

(** The number that [parse_input] writes for a value: its place among the
    digits of the board counted from 1, and 0 when it is no digit. *)
Definition number_of (ds : list string) (v : string) : Z :=
  match AbcDict.list_index ds v with
  | Return i => i + 1
  | _ => 0
  end.

(** The square in row [r] and column [c], counted from 0. *)
Definition square_at (m : model) (r c : Z) : string :=
  String.append (nth (Z.to_nat r) (Py.chars (rows m)) "") (Py.str (c + 1)).

(** The row and the column that [parse_input] works out of a cell ID. *)
Definition pos_of (cell : string) : Z * Z :=
  match cell with
  | String c0 tail =>
      (match AbcDict.ord_upper c0 with Return o => o - 65 | _ => 0 end,
       match int 0 tail with Return k => k - 1 | _ => 0 end)
  | EmptyString => (0, 0)
  end.

(** The row labels are the capitals from 'A' on. *)
Definition rows_ok (size : Z) (m : model) : bool :=
  Nat.eqb (length (Py.chars (rows m))) (Z.to_nat size)
  && forallb (fun r => match nth r (Py.chars (rows m)) "" with
                       | String a EmptyString =>
                           match AbcDict.ord_upper a with
                           | Return o => o =? 65 + Z.of_nat r
                           | _ => false
                           end
                       | _ => false
                       end)
             (seq 0 (length (Py.chars (rows m)))).

Lemma rows_ok_all (size : Z) (m : model) :
  initialize_structures size = Return m -> rows_ok size m = true.
Proof. apply holds_at_all. vm_compute. reflexivity. Qed.

Lemma row_label (size : Z) (m : model) (r : nat) :
  initialize_structures size = Return m ->
  (r < Z.to_nat size)%nat ->
  exists a, nth r (Py.chars (rows m)) "" = String a ""
            /\ AbcDict.ord_upper a = Return (65 + Z.of_nat r).
Proof.
  intros Hm Hr. pose proof (rows_ok_all _ _ Hm) as R. unfold rows_ok in R.
  apply andb_prop in R as [L R]. apply Nat.eqb_eq in L.
  rewrite forallb_forall in R. specialize (R r).
  destruct (nth r (Py.chars (rows m)) "") as [|a [|? ?]] eqn:E;
    try (discriminate R; apply in_seq; lia).
  exists a. split; [reflexivity|].
  destruct (AbcDict.ord_upper a) as [o| |];
    try (discriminate R; apply in_seq; lia).
  f_equal. apply Z.eqb_eq. apply R. apply in_seq. lia.
Qed.

(** [square_at] and [pos_of] are inverse to each other on the board. *)
Lemma square_at_located (size : Z) (m : model) (r c : Z) :
  initialize_structures size = Return m ->
  0 <= r < size -> 0 <= c < size ->
  In (square_at m r c) (squares m) /\ pos_of (square_at m r c) = (r, c).
Proof.
  intros Hm Hr Hc. pose proof (initialize_structures_accepts _ _ Hm) as Hn.
  destruct (row_label size m (Z.to_nat r) Hm ltac:(lia)) as (a & Ea & Oa).
  pose proof (rows_ok_all _ _ Hm) as R. unfold rows_ok in R.
  apply andb_prop in R as [L _]. apply Nat.eqb_eq in L.
  destruct (TextFacts.size_line (c + 1) ltac:(lia)) as (_ & _ & _ & I).
  pose proof Hm as Hm'.
  apply initialize_structures_Return in Hm' as (_ & _ & Hcols & Hsq & _).
  unfold square_at. rewrite Ea. cbn [String.append]. split.
  - rewrite Hsq. apply BoardFacts.cross_chars_In. exists a, (Py.str (c + 1)).
    split; [reflexivity|]. split.
    + rewrite <- Ea. apply nth_In. lia.
    + rewrite Hcols. apply in_map_iff. exists c. split; [reflexivity|].
      apply range_In. lia.
  - unfold pos_of. rewrite Oa, (I 0%nat). f_equal; lia.
Qed.

Lemma located (max_str_digits : nat) (size : Z) (m : model) (cell : string) :
  initialize_structures size = Return m ->
  In cell (squares m) ->
  exists c0 tail,
    cell = String c0 tail
    /\ AbcDict.ord_upper c0 = Return (fst (pos_of cell) + 65)
    /\ int max_str_digits tail = Return (snd (pos_of cell) + 1)
    /\ inside size (pos_of cell)
    /\ square_at m (fst (pos_of cell)) (snd (pos_of cell)) = cell.
Proof.
  intros Hm Hin. pose proof (initialize_structures_accepts _ _ Hm) as Hn.
  pose proof (rows_ok_all _ _ Hm) as R. unfold rows_ok in R.
  apply andb_prop in R as [L _]. apply Nat.eqb_eq in L.
  pose proof Hm as Hm'.
  apply initialize_structures_Return in Hm' as (_ & _ & Hcols & Hsq & _).
  rewrite Hsq in Hin. apply BoardFacts.cross_chars_In in Hin as (a & t & -> & Ha & Ht).
  rewrite Hcols in Ht. apply in_map_iff in Ht as (c & <- & Hc). apply range_In in Hc.
  apply (In_nth _ _ "") in Ha as (r & Hr & Er).
  destruct (row_label size m r Hm ltac:(lia)) as (a' & Ea & Oa).
  rewrite Er in Ea. injection Ea as <-.
  destruct (TextFacts.size_line (c + 1) ltac:(lia)) as (_ & _ & _ & I).
  exists a, (Py.str (c + 1)).
  assert (P : pos_of (String a (Py.str (c + 1))) = (Z.of_nat r, c)).
  { unfold pos_of. rewrite Oa, (I 0%nat). f_equal; lia. }
  rewrite P. cbn [fst snd]. split; [reflexivity|].
  split; [rewrite Oa; f_equal; lia|]. split; [apply I|].
  split; [split; cbn [fst snd]; lia|].
  unfold square_at. rewrite Nat2Z.id, Er. reflexivity.
Qed.

(** ** The array *)

Lemma nth_repeat_default {A : Type} (x d : A) (k i : nat) :
  nth i (repeat x k) d = if Nat.ltb i k then x else d.
Proof.
  revert i. induction k as [|k IH]; intros i; [now destruct i|].
  destruct i as [|i]; [reflexivity|]. cbn [repeat nth]. rewrite IH. reflexivity.
Qed.

Lemma zeros_shaped (size : Z) : 0 <= size -> shaped size (AbcDict.zeros size).
Proof.
  intros H. unfold AbcDict.zeros. split.
  - rewrite repeat_length. lia.
  - apply List.Forall_forall. intros row Hrow. apply repeat_spec in Hrow. subst row.
    rewrite repeat_length. lia.
Qed.

Lemma zeros_val (size : Z) (q : Z * Z) : val (AbcDict.zeros size) q = 0.
Proof.
  unfold val, AbcDict.zeros. rewrite nth_repeat_default.
  destruct (Nat.ltb _ _).
  - rewrite nth_repeat_default. now destruct (Nat.ltb _ _).
  - now destruct (Z.to_nat (snd q)).
Qed.

Lemma list_index_mem (ds : list string) (v : string) :
  Py.mem v ds = true -> exists i, AbcDict.list_index ds v = Return i.
Proof.
  unfold Py.mem. induction ds as [|y ds IH]; [discriminate|].
  cbn [existsb AbcDict.list_index]. intros H.
  destruct (String.eqb y v) eqn:E; [eauto|].
  rewrite String.eqb_sym, E in H. cbn in H. destruct (IH H) as [i ->]. eauto.
Qed.

Lemma number_of_other (ds : list string) (v : string) :
  Py.mem v ds = false -> number_of ds v = 0.
Proof.
  intros H. assert (E : AbcDict.list_index ds v = Raise ValueError).
  { unfold Py.mem in H. induction ds as [|y ds IH]; [reflexivity|].
    cbn [existsb AbcDict.list_index] in *. apply orb_false_elim in H as [H1 H2].
    rewrite String.eqb_sym, H1. now rewrite (IH H2). }
  unfold number_of. now rewrite E.
Qed.

(** The loop writes the number of every digit at the place of its cell and
    leaves the other entries. *)
Lemma parse_items_at (max_str_digits : nat) (size : Z) (m : model) (ds : list string)
  (d : list (string * string)) :
  initialize_structures size = Return m ->
  Forall (fun kv => In (fst kv) (squares m)) d ->
  List.NoDup (map (fun kv => pos_of (fst kv)) d) ->
  forall G, shaped size G ->
    exists G', AbcDict.parse_items max_str_digits ds d G = Return G'
               /\ shaped size G'
               /\ (forall kv, In kv d ->
                     val G' (pos_of (fst kv))
                     = if Py.mem (snd kv) ds then number_of ds (snd kv)
                       else val G (pos_of (fst kv)))
               /\ (forall q, inside size q ->
                     ~ In q (map (fun kv => pos_of (fst kv)) d) ->
                     val G' q = val G q).
Proof.
  intros Hm. induction d as [|[cell v] d IH]; intros F N G S.
  - exists G. split; [reflexivity|]. split; [exact S|]. split; [intros kv []|auto].
  - apply Forall_cons_1 in F as [Hc F]. cbn [fst] in Hc.
    cbn [map fst] in N. inversion N as [|? ? Hnin N']; subst.
    destruct (located max_str_digits size m cell Hm Hc)
      as (c0 & tail & E & Ho & Hi & Hins & _).
    destruct cell as [|c0' tail']; [discriminate E|]. injection E as -> ->.
    cbn [AbcDict.parse_items].
    set (cell := String c0 tail) in *. destruct (Py.mem v ds) eqn:Ev.
    + destruct (list_index_mem ds v Ev) as [i Ei].
      destruct (set2_spec size G (pos_of cell) (i + 1) S Hins)
        as (G1 & E1 & S1 & V1 & O1).
      destruct (IH F N' G1 S1) as (G' & E' & S' & V' & O').
      exists G'. rewrite Ho. cbn [bind]. rewrite Hi. cbn [bind]. rewrite Ei. cbn [bind].
      replace (fst (pos_of cell) + 65 - 65) with (fst (pos_of cell)) by lia.
      replace (snd (pos_of cell) + 1 - 1) with (snd (pos_of cell)) by lia.
      rewrite E1. cbn [bind]. split; [exact E'|]. split; [exact S'|]. split.
      * intros kv [<-|Hin].
        -- cbn [fst snd]. rewrite Ev. rewrite (O' _ Hins Hnin), V1.
           unfold number_of. now rewrite Ei.
        -- rewrite (V' kv Hin). destruct (Py.mem (snd kv) ds); [reflexivity|].
           apply O1.
           ++ rewrite List.Forall_forall in F.
              destruct (located max_str_digits size m (fst kv) Hm (F kv Hin))
                as (_ & _ & _ & _ & _ & Hins' & _). exact Hins'.
           ++ intros Heq. apply Hnin. rewrite <- Heq.
              apply in_map_iff. exists kv. auto.
      * intros q Hq Hnq. cbn [map fst] in Hnq.
        rewrite O'; [|exact Hq | intros Hin; apply Hnq; now right].
        apply O1; [exact Hq | intros ->; apply Hnq; now left].
    + destruct (IH F N' G S) as (G' & E' & S' & V' & O').
      exists G'. split; [exact E'|]. split; [exact S'|]. split.
      * intros kv [<-|Hin]; [|now apply V'].
        cbn [fst snd]. rewrite Ev. now apply O'.
      * intros q Hq Hnq. cbn [map fst] in Hnq.
        apply O'; [exact Hq | intros Hin; apply Hnq; now right].
Qed.

Lemma parse_input_spec (max_str_digits : nat) (size : Z) (m : model)
  (d : list (string * string)) :
  initialize_structures size = Return m ->
  List.NoDup (map fst d) ->
  Forall (fun kv => In (fst kv) (squares m)) d ->
  exists A, AbcDict.parse_input max_str_digits size (digits m) d = Return A
            /\ shaped size A
            /\ forall r c, 0 <= r < size -> 0 <= c < size ->
                 val A (r, c) = match Py.assoc (square_at m r c) d with
                                | Some v => number_of (digits m) v
                                | None => 0
                                end.
Proof.
  intros Hm N F. pose proof (initialize_structures_accepts _ _ Hm) as Hn.
  assert (Inj : forall kv, In kv d ->
                  square_at m (fst (pos_of (fst kv))) (snd (pos_of (fst kv))) = fst kv).
  { intros kv Hin. rewrite List.Forall_forall in F.
    destruct (located 0 size m (fst kv) Hm (F kv Hin)) as (_ & _ & _ & _ & _ & _ & E).
    exact E. }
  assert (Np : List.NoDup (map (fun kv => pos_of (fst kv)) d)).
  { rewrite <- (map_map fst pos_of).
    apply NoDup_map_NoDup_ForallPairs; [|exact N].
    intros k1 k2 H1 H2 Heq.
    apply in_map_iff in H1 as (kv1 & <- & H1). apply in_map_iff in H2 as (kv2 & <- & H2).
    rewrite <- (Inj kv1 H1), <- (Inj kv2 H2), Heq. reflexivity. }
  destruct (parse_items_at max_str_digits size m (digits m) d Hm F Np
              (AbcDict.zeros size) (zeros_shaped size ltac:(lia)))
    as (A & E & S & V & O).
  exists A. split; [exact E|]. split; [exact S|].
  intros r c Hr Hc.
  destruct (square_at_located size m r c Hm Hr Hc) as [Hsq Hpos].
  destruct (Py.assoc (square_at m r c) d) as [v|] eqn:Ea.
  - apply assoc_In in Ea. specialize (V _ Ea). cbn [fst snd] in V.
    rewrite Hpos in V. rewrite V, zeros_val.
    destruct (Py.mem v (digits m)) eqn:Ev; [reflexivity|].
    symmetry. now apply number_of_other.
  - rewrite O; [apply zeros_val | split; cbn [fst snd]; lia |].
    intros Hin. apply in_map_iff in Hin as (kv & Hkv & Hin).
    pose proof (Inj kv Hin) as E2. rewrite Hkv in E2. cbn [fst snd] in E2.
    apply assoc_None in Ea. apply Ea. rewrite E2.
    apply in_map_iff. exists kv. auto.
Qed.

(** X25.  From the dict to the array.  For a dict whose keys are squares of
    the board, [ABCSolver.parse_input] returns an [N] x [N] array whose entry
    in row [r], column [c] is the number of the digit that the dict gives
    the square of that row and column (1 for '1', ..., 10 for 'A', ...), and
    0 when the dict has no such key or gives it no digit; the solver built
    from the dict is the solver built from that array. *)
Theorem dict_clues_reach_the_array (max_str_digits : nat) (size : Z) (m : model)
  (d : list (string * string)) (population_size : nat) (g : Rand.rng) :
  initialize_structures size = Return m ->
  List.NoDup (map fst d) ->
  Forall (fun kv => In (fst kv) (squares m)) d ->
  exists A, AbcDict.parse_input max_str_digits size (digits m) d = Return A
            /\ shaped size A
            /\ (forall r c, 0 <= r < size -> 0 <= c < size ->
                  val A (r, c) = match Py.assoc (square_at m r c) d with
                                 | Some v => number_of (digits m) v
                                 | None => 0
                                 end)
            /\ AbcDict.init max_str_digits d size population_size g
               = Abc.init A size population_size g.
Proof.
  intros Hm N F.
  destruct (parse_input_spec max_str_digits size m d Hm N F) as (A & E & S & V).
  exists A. split; [exact E|]. split; [exact S|]. split; [exact V|].
  unfold AbcDict.init. rewrite Hm. cbn [bind]. rewrite E. reflexivity.
Qed.

Lemma dict_clues_reach_the_array_witness :
  exists A, AbcDict.parse_input 4300 4 (digits Board4.board) Board4.puzzle = Return A
            /\ shaped 4 A
            /\ (forall r c, 0 <= r < 4 -> 0 <= c < 4 ->
                  val A (r, c) = match Py.assoc (square_at Board4.board r c) Board4.puzzle with
                                 | Some v => number_of (digits Board4.board) v
                                 | None => 0
                                 end)
            /\ AbcDict.init 4300 Board4.puzzle 4 3 Hive4.stream
               = Abc.init A 4 3 Hive4.stream.
Proof.
  apply (dict_clues_reach_the_array 4300 4 Board4.board Board4.puzzle 3 Hive4.stream).
  - vm_compute. reflexivity.
  - apply nodupb_NoDup. vm_compute. reflexivity.
  - apply List.Forall_forall. intros kv Hin. apply mem_In.
    revert kv Hin. apply forallb_forall. vm_compute. reflexivity.
Defined.

(** ** From the file to the array *)

(** The values of the file after its size line, in reading order. *)
Definition file_values (content : string) : list string :=
  flat_map split (tl (stripped_lines content)).

(** The clue that a value of the file stands for: the int it reads as when
    that is a number of the board, 0 otherwise. *)
Definition clue_of (max_str_digits : nat) (size : Z) (val : string) : Z :=
  match int max_str_digits val with
  | Return num => if (1 <=? num) && (num <=? size) then num else 0
  | _ => 0
  end.

(** The cell of a number of the board stands at the place of that number
    among the digits. *)
Definition numbers_ok (size : Z) (m : model) : bool :=
  forallb (fun num => match TextFacts.cell_for num with
                      | Return c => number_of (digits m) c =? num
                      | _ => false
                      end)
          (map (fun i => i + 1) (Py.range size))
  && (number_of (digits m) "." =? 0).

Lemma numbers_ok_all (size : Z) (m : model) :
  initialize_structures size = Return m -> numbers_ok size m = true.
Proof. apply holds_at_all. vm_compute. reflexivity. Qed.

Lemma cell_of_number (max_str_digits : nat) (size : Z) (m : model) (val c : string) :
  initialize_structures size = Return m ->
  App.cell_of max_str_digits size val = Some c ->
  number_of (digits m) c = clue_of max_str_digits size val.
Proof.
  intros Hm. pose proof (initialize_structures_accepts _ _ Hm) as Hs.
  pose proof (numbers_ok_all _ _ Hm) as Nk. unfold numbers_ok in Nk.
  apply andb_prop in Nk as [Nk Dot]. apply Z.eqb_eq in Dot.
  rewrite forallb_forall in Nk.
  unfold App.cell_of, clue_of.
  destruct (String.eqb val "0" || String.eqb val ".") eqn:E.
  - intros [= <-]. rewrite Dot. apply orb_prop in E as [E|E]; apply String.eqb_eq in E;
      subst val; reflexivity.
  - destruct (int max_str_digits val) as [num| |]; try (intros [= <-]; exact Dot).
    destruct ((1 <=? num) && (num <=? size)) eqn:E2; [|intros [= <-]; exact Dot].
    apply andb_prop in E2 as [E1 E3]. apply Z.leb_le in E1, E3.
    specialize (Nk num). unfold TextFacts.cell_for in Nk.
    assert (Hin : In num (map (fun i => i + 1) (Py.range size))).
    { apply in_map_iff. exists (num - 1). split; [lia|]. apply range_In. lia. }
    destruct (num <=? 9).
    + intros [= <-]. apply Z.eqb_eq. now apply Nk.
    + destruct (2147483647 <? 65 + num - 10) eqn:E4; [apply Z.ltb_lt in E4; lia|].
      destruct (Py.chr (65 + num - 10)) as [c'| |];
        try (specialize (Nk Hin); discriminate Nk).
      intros [= <-]. apply Z.eqb_eq. now apply Nk.
Qed.

Lemma cells_of_nth (max_str_digits : nat) (size : Z) (m : model)
  (vals cells : list string) :
  initialize_structures size = Return m ->
  App.cells_of max_str_digits size vals = Some cells ->
  length cells = length vals
  /\ forall k, (k < length vals)%nat ->
       number_of (digits m) (nth k cells ".")
       = clue_of max_str_digits size (nth k vals "").
Proof.
  intros Hm. revert cells. induction vals as [|val vals IH]; intros cells H.
  - injection H as <-. split; [reflexivity | cbn; lia].
  - cbn [App.cells_of] in H.
    destruct (App.cell_of max_str_digits size val) as [c|] eqn:Ec; [|discriminate].
    destruct (App.cells_of max_str_digits size vals) as [cs|]; [|discriminate].
    injection H as <-. destruct (IH cs eq_refl) as [L N]. split; [cbn; now rewrite L|].
    intros [|k] Hk; cbn [nth].
    + eapply cell_of_number; eassumption.
    + apply N. cbn in Hk. lia.
Qed.

Lemma parse_puzzle_values (max_str_digits : nat) (content : string) (size : Z)
  (puzzle_str : string) :
  App.parse_puzzle max_str_digits content = App.Result (Return (size, puzzle_str)) ->
  exists cells,
    App.cells_of max_str_digits size (file_values content) = Some cells
    /\ puzzle_str = String.concat "" cells.
Proof.
  unfold App.parse_puzzle, file_values. intros H.
  destruct (stripped_lines content) as [|first puzzle_lines]; [discriminate|].
  destruct (negb (isdigit first)); [discriminate|].
  destruct (int max_str_digits first) as [size'| |]; try discriminate.
  cbn [tl].
  destruct (App.cells_of max_str_digits size' (flat_map split puzzle_lines))
    as [cells|] eqn:Ec; [|discriminate].
  destruct (negb _) in H; [discriminate|].
  injection H as -> <-. exists cells. split; [exact Ec | reflexivity].
Qed.

(** The item of a list of rows of equal length. *)
Lemma nth_flat_map_rows {A B : Type} (f : A -> list B) (n : nat) (l : list A)
  (da : A) (db : B) :
  (forall a, length (f a) = n) ->
  forall r i, (r < length l)%nat -> (i < n)%nat ->
    nth (r * n + i) (flat_map f l) db = nth i (f (nth r l da)) db.
Proof.
  intros Hf. induction l as [|a l IH]; intros r i Hr Hi; [cbn in Hr; lia|].
  cbn [flat_map]. destruct r as [|r].
  - cbn [Nat.mul Nat.add nth]. rewrite app_nth1 by (rewrite Hf; exact Hi). reflexivity.
  - rewrite app_nth2 by (rewrite Hf; cbn; lia). rewrite Hf.
    replace (S r * n + i - n)%nat with (r * n + i)%nat by (cbn; lia).
    cbn [nth]. apply IH; [cbn in Hr; lia | exact Hi].
Qed.

Lemma squares_nth (size : Z) (m : model) (r c : Z) :
  initialize_structures size = Return m ->
  0 <= r < size -> 0 <= c < size ->
  nth (Z.to_nat (r * size + c)) (squares m) "" = square_at m r c.
Proof.
  intros Hm Hr Hc. pose proof (rows_ok_all _ _ Hm) as R. unfold rows_ok in R.
  apply andb_prop in R as [L _]. apply Nat.eqb_eq in L.
  pose proof Hm as Hm'.
  apply initialize_structures_Return in Hm' as (_ & _ & Hcols & Hsq & _).
  rewrite Hsq. unfold cross, square_at.
  replace (Z.to_nat (r * size + c))
    with (Z.to_nat r * Z.to_nat size + Z.to_nat c)%nat by nia.
  assert (Lc : length (cols m) = Z.to_nat size).
  { rewrite Hcols, length_map. unfold Py.range. now rewrite length_map, length_seq. }
  rewrite (nth_flat_map_rows _ (Z.to_nat size) _ "" "");
    [| intros a; now rewrite length_map | lia | lia].
  rewrite (nth_indep _ "" (String.append (nth (Z.to_nat r) (Py.chars (rows m)) "") ""))
    by (rewrite length_map; lia).
  rewrite (map_nth (String.append (nth (Z.to_nat r) (Py.chars (rows m)) ""))).
  f_equal. rewrite Hcols.
  rewrite (nth_indep _ "" (Py.str (0 + 1)))
    by (rewrite length_map; unfold Py.range; rewrite length_map, length_seq; lia).
  rewrite (map_nth (fun i => Py.str (i + 1))). f_equal. f_equal.
  unfold Py.range.
  rewrite (nth_indep _ 0 (Z.of_nat 0)) by (rewrite length_map, length_seq; lia).
  rewrite (map_nth Z.of_nat), seq_nth by lia. lia.
Qed.

Lemma assoc_combine_nth (ks vs : list string) (k : nat) :
  List.NoDup ks -> length vs = length ks -> (k < length ks)%nat ->
  Py.assoc (nth k ks "") (combine ks vs) = Some (nth k vs ".").
Proof.
  intros N. revert vs k. induction N as [|x ks Hx N IH]; intros vs k L Hk;
    [cbn in Hk; lia|].
  destruct vs as [|v vs]; [discriminate|]. cbn [combine Py.assoc].
  destruct k as [|k]; cbn [nth]; [now rewrite String.eqb_refl|].
  assert (Hin : In (nth k ks "") ks) by (apply nth_In; cbn in Hk; lia).
  destruct (String.eqb (nth k ks "") x) eqn:E.
  - apply String.eqb_eq in E. rewrite E in Hin. contradiction.
  - apply IH; cbn in *; lia.
Qed.

Lemma combine_keys (ks vs : list string) :
  length vs = length ks -> map fst (combine ks vs) = ks.
Proof.
  revert vs. induction ks as [|k ks IH]; intros vs L; [reflexivity|].
  destruct vs as [|v vs]; [discriminate|]. cbn. f_equal. apply IH. cbn in L. lia.
Qed.

(** X26.  From the file to the array.  When [parse_puzzle] accepts a file
    for a board that the builder accepts, the calls that the app makes next,
    [grid_values(f"{size}\n{puzzle_str}", size)] and, inside
    [ABCSolver(puzzle_dict, size)], [parse_input], return a dict and an
    [N] x [N] array, and the entry in row [r], column [c] of the array is the
    clue that the value number [r * N + c] of the file stands for: the int
    it reads as when that is between 1 and [N], and 0 otherwise ('0', '.',
    anything else).  How the values are spread over the lines of the file
    plays no part. *)
Theorem file_values_reach_the_array (max_str_digits : nat) (content : string)
  (size : Z) (puzzle_str : string) (m : model) :
  App.parse_puzzle max_str_digits content = App.Result (Return (size, puzzle_str)) ->
  initialize_structures size = Return m ->
  exists d A,
    SudoText.grid_values max_str_digits (App.with_size_line size puzzle_str) size
    = Return d
    /\ AbcDict.parse_input max_str_digits size (digits m) d = Return A
    /\ shaped size A
    /\ forall r c, 0 <= r < size -> 0 <= c < size ->
         val A (r, c)
         = clue_of max_str_digits size
                   (nth (Z.to_nat (r * size + c)) (file_values content) "").
Proof.
  intros H Hm. pose proof (initialize_structures_accepts _ _ Hm) as Hn.
  destruct (TextFacts.parse_puzzle_cells _ _ _ _ _ H Hm) as [Hlen F].
  destruct (TextFacts.cell_chars_plain _ _ _ Hm F) as [Hal Hz].
  pose proof (TextFacts.grid_values_with_size_line max_str_digits _ _ _ Hm Hlen Hal) as G.
  rewrite Hz in G.
  destruct (parse_puzzle_values _ _ _ _ H) as (cells & Ec & Ep).
  destruct (cells_of_nth _ _ _ _ _ Hm Ec) as [Lc Nc].
  assert (Ech : Py.chars puzzle_str = cells).
  { rewrite Ep. apply TextFacts.chars_concat.
    assert (F' : Forall (TextFacts.cell_char m) cells)
      by (eapply TextFacts.cells_of_on_board; eassumption).
    eapply List.Forall_impl; [|exact F'].
    intros c. apply (TextFacts.cell_char_single _ _ _ Hm). }
  destruct (BoardFacts.board_lengths _ _ Hm) as (Lsq & _ & Nsq & _).
  assert (Lcs : length cells = length (squares m)).
  { rewrite <- Ech, chars_length, Lsq. nia. }
  set (d := combine (squares m) (Py.chars puzzle_str)) in *.
  assert (Kd : map fst d = squares m).
  { unfold d. rewrite Ech. now apply combine_keys. }
  destruct (parse_input_spec max_str_digits size m d Hm) as (A & EA & SA & VA).
  { rewrite Kd. exact Nsq. }
  { apply List.Forall_forall. intros kv Hin. rewrite <- Kd.
    apply in_map_iff. exists kv. auto. }
  exists d, A. split; [exact G|]. split; [exact EA|]. split; [exact SA|].
  intros r c Hr Hc. rewrite (VA r c Hr Hc).
  rewrite <- (squares_nth size m r c Hm Hr Hc). unfold d. rewrite Ech.
  rewrite assoc_combine_nth; [|exact Nsq | exact Lcs | rewrite Lsq; nia].
  apply Nc. rewrite <- Lc, Lcs, Lsq. nia.
Qed.

Lemma file_values_reach_the_array_witness :
  exists d A,
    SudoText.grid_values 4300 (App.with_size_line 4 "1.....3..4.....2") 4 = Return d
    /\ AbcDict.parse_input 4300 4 (digits Board4.board) d = Return A
    /\ shaped 4 A
    /\ forall r c, 0 <= r < 4 -> 0 <= c < 4 ->
         val A (r, c)
         = clue_of 4300 4 (nth (Z.to_nat (r * 4 + c)) (file_values TextFacts.file4) "").
Proof.
  apply (file_values_reach_the_array 4300 TextFacts.file4 4 "1.....3..4.....2"
           Board4.board).
  - vm_compute. reflexivity.
  - vm_compute. reflexivity.
Defined.

End AbcDictFacts.

(* ===================================================================== *)
(** * norvig.py: the propagation and the search come to an end            *)
(* ===================================================================== *)

Module NorvigRuns.
Import PyFacts Norvig NorvigFacts Termination.

(** The number of digits that the grid holds. *)
Definition total (g : list (string * string)) : nat :=
  list_sum (map (fun kv : string * string => String.length (snd kv)) g).

Lemma total_cons (k c : string) (g : list (string * string)) :
  total ((k, c) :: g) = (String.length c + total g)%nat.
Proof. reflexivity. Qed.

Lemma total_setitem (g : list (string * string)) (s c c' : string) :
  Py.assoc s g = Some c ->
  (total (Aco.setitem g s c') + String.length c = total g + String.length c')%nat.
Proof.
  induction g as [|[k v] g IH]; [discriminate|].
  cbn [Py.assoc Aco.setitem]. destruct (String.eqb s k).
  - intros [= ->]. rewrite !total_cons. lia.
  - intros H. rewrite !total_cons. specialize (IH H). lia.
Qed.

Lemma length_without (d : ascii) (c : string) :
  (String.length (without d c) <= String.length c)%nat
  /\ (has d c = true -> (String.length (without d c) < String.length c)%nat).
Proof.
  unfold has. induction c as [|a c [IH1 IH2]]; [cbn; split; [lia | discriminate]|].
  cbn [without list_ascii_of_string existsb String.length].
  destruct (Ascii.eqb a d) eqn:E.
  - split; [lia | intros _; lia].
  - cbn [String.length]. split; [lia|]. rewrite Ascii.eqb_sym, E. cbn [orb].
    intros H. specialize (IH2 H). lia.
Qed.

Lemma chars_without (d : ascii) (c : string) :
  list_ascii_of_string (without d c)
  = List.filter (fun a => negb (Ascii.eqb a d)) (list_ascii_of_string c).
Proof.
  induction c as [|a c IH]; [reflexivity|].
  cbn [without list_ascii_of_string List.filter].
  destruct (Ascii.eqb a d); cbn [negb]; [exact IH|].
  cbn [list_ascii_of_string]. now rewrite IH.
Qed.

(** No square holds a digit twice. *)
Definition plain (g : list (string * string)) : Prop :=
  forall s, List.NoDup (list_ascii_of_string (cand g s)).

(** ** The walks *)

Lemma all_of_keeps {A : Type}
  (f : list (string * string) -> A -> result (bool * list (string * string)))
  (P : list (string * string) -> list (string * string) -> Prop) (xs : list A) :
  (forall g, P g g) ->
  (forall g1 g2 g3, P g1 g2 -> P g2 g3 -> P g1 g3) ->
  (forall x g b g', In x xs -> f g x = Return (b, g') -> P g g') ->
  forall g b g', all_of f g xs = Return (b, g') -> P g g'.
Proof.
  intros Hr Ht. induction xs as [|x xs IH]; intros Hf g b g' H.
  - injection H as _ <-. apply Hr.
  - cbn [all_of] in H. apply bind_Return in H as ([ok g1] & Hx & H).
    pose proof (Hf x g ok g1 (or_introl eq_refl) Hx) as P1.
    destruct ok.
    + eapply Ht; [exact P1|]. eapply IH; [|exact H].
      intros y g2 b2 g2' Hy. apply Hf. now right.
    + injection H as _ <-. exact P1.
Qed.

Lemma all_of_runs {A : Type}
  (f : list (string * string) -> A -> result (bool * list (string * string)))
  (n : nat) (xs : list A) :
  (forall x g, In x xs -> (total g < n)%nat -> runs (f g x)) ->
  (forall x g b g', In x xs -> f g x = Return (b, g') -> (total g' <= total g)%nat) ->
  forall g, (total g < n)%nat -> runs (all_of f g xs).
Proof.
  induction xs as [|x xs IH]; intros Hr Hm g Hg; [discriminate|].
  cbn [all_of]. apply bind_runs; [apply Hr; [now left | exact Hg]|].
  intros [ok g1] H1. destruct ok; [|discriminate].
  apply IH.
  - intros y g2 Hy. apply Hr. now right.
  - intros y g2 b2 g2' Hy. apply Hm. now right.
  - pose proof (Hm x g true g1 (or_introl eq_refl) H1). lia.
Qed.

(** What every call leaves, whatever it returns: no more digits than before
    and no digit twice in a square. *)
Definition lighter (g g' : list (string * string)) : Prop :=
  (total g' <= total g)%nat /\ (plain g -> plain g').

Lemma lighter_refl (g : list (string * string)) : lighter g g.
Proof. split; [lia | auto]. Qed.

Lemma lighter_trans (g1 g2 g3 : list (string * string)) :
  lighter g1 g2 -> lighter g2 g3 -> lighter g1 g3.
Proof. intros [L1 P1] [L2 P2]. split; [lia | auto]. Qed.

Section Runs.
Variable peers : list (string * list string).

Lemma fill_with_lighter
  (elim : list (string * string) -> string -> ascii
          -> result (bool * list (string * string))) :
  (forall g s d b g', elim g s d = Return (b, g') -> lighter g g') ->
  forall g s d b g', fill_with elim g s d = Return (b, g') -> lighter g g'.
Proof.
  intros He g s d b g' H. unfold fill_with in H.
  apply bind_Return in H as (c & _ & H).
  destruct (String.eqb c (String d "")); [injection H as _ <-; apply lighter_refl|].
  eapply (all_of_keeps _ lighter); [apply lighter_refl | apply lighter_trans | | exact H].
  intros d2 g2 b2 g2' _ H2. eapply He; exact H2.
Qed.

Lemma removal_lighter (g : list (string * string)) (s c : string) (d : ascii) :
  Py.getitem g s = Return c ->
  lighter g (Aco.setitem g s (without d c))
  /\ (has d c = true -> (total (Aco.setitem g s (without d c)) < total g)%nat).
Proof.
  intros Hc. pose proof (cand_getitem _ _ _ Hc) as [Ec Hkey].
  apply AcoRules.getitem_key in Hc as [Ha _].
  pose proof (total_setitem g s c (without d c) Ha) as T.
  destruct (length_without d c) as [L1 L2].
  split; [split|].
  - lia.
  - intros P t. destruct (string_dec t s) as [->|Hne].
    + rewrite cand_setitem_same by exact Hkey. rewrite chars_without.
      apply List.NoDup_filter. rewrite <- Ec. apply P.
    + rewrite cand_setitem_other by exact Hne. apply P.
  - intros Hd. specialize (L2 Hd). lia.
Qed.

(** [eliminate] adds no digit, and takes one away when the digit is in the
    square. *)
Lemma eliminate_lighter (fuel : nat) :
  forall g s d b g',
    eliminate fuel peers g s d = Return (b, g') ->
    lighter g g' /\ (has d (cand g s) = true -> (total g' < total g)%nat).
Proof.
  induction fuel as [|fuel IH]; intros g s d b g' H; [discriminate|].
  cbn [eliminate] in H. apply bind_Return in H as (c & Hc & H).
  pose proof (cand_getitem _ _ _ Hc) as [Ec _].
  destruct (negb (has d c)) eqn:E.
  { injection H as _ <-. split; [apply lighter_refl|].
    rewrite Ec. apply negb_true_iff in E. congruence. }
  apply negb_false_iff in E.
  destruct (removal_lighter g s c d Hc) as [L0 S0]. specialize (S0 E).
  set (g0 := Aco.setitem g s (without d c)) in *.
  assert (K : lighter g0 g').
  { destruct (without d c) as [|d2 rest]; [injection H as _ <-; apply lighter_refl|].
    apply bind_Return in H as ([ok g1] & Hr & H).
    assert (L1 : lighter g0 g1).
    { destruct rest as [|d3 rest]; [|injection Hr as _ <-; apply lighter_refl].
      apply bind_Return in Hr as (ps & _ & Hr).
      eapply (all_of_keeps _ lighter);
        [apply lighter_refl | apply lighter_trans | | exact Hr].
      intros s2 g2 b2 g2' _ H2. exact (proj1 (IH _ _ _ _ _ H2)). }
    destruct ok; cbn [negb] in H; [|injection H as _ <-; exact L1].
    apply bind_Return in H as (us & _ & H).
    eapply lighter_trans; [exact L1|].
    eapply (all_of_keeps _ lighter);
      [apply lighter_refl | apply lighter_trans | | exact H].
    intros u g2 b2 g2' _ H2. apply bind_Return in H2 as (places & _ & H2).
    destruct places as [|p [|p2 rest2]].
    - injection H2 as _ <-. apply lighter_refl.
    - eapply fill_with_lighter; [|exact H2].
      intros g3 s3 d3 b3 g3' H3. exact (proj1 (IH _ _ _ _ _ H3)).
    - injection H2 as _ <-. apply lighter_refl. }
  split; [eapply lighter_trans; eassumption|].
  intros _. destruct K as [K _]. lia.
Qed.

Lemma dplaces_runs (g : list (string * string)) (d : ascii) (u : list string) :
  runs (dplaces g d u).
Proof.
  induction u as [|s u IH]; [discriminate|]. cbn [dplaces].
  apply bind_runs; [apply getitem_runs|]. intros c _.
  apply bind_runs; [exact IH|]. intros ps _. discriminate.
Qed.

Lemma fill_with_runs
  (elim : list (string * string) -> string -> ascii
          -> result (bool * list (string * string))) (n : nat) :
  (forall g s d, (total g < n)%nat -> runs (elim g s d)) ->
  (forall g s d b g', elim g s d = Return (b, g') -> lighter g g') ->
  forall g s d, (total g < n)%nat -> runs (fill_with elim g s d).
Proof.
  intros Hr Hl g s d Hg. unfold fill_with.
  apply bind_runs; [apply getitem_runs|]. intros c _.
  destruct (String.eqb c (String d "")); [discriminate|].
  apply (all_of_runs _ n).
  - intros d2 g2 _ H2. now apply Hr.
  - intros d2 g2 b2 g2' _ H2. exact (proj1 (Hl _ _ _ _ _ H2)).
  - exact Hg.
Qed.

(** [eliminate] returns or raises as soon as the budget exceeds the number
    of digits in the grid. *)
Lemma eliminate_runs_out (fuel : nat) :
  forall g s d, (total g < fuel)%nat -> runs (eliminate fuel peers g s d).
Proof.
  induction fuel as [|fuel IH]; intros g s d Hg; [lia|].
  cbn [eliminate]. apply bind_runs; [apply getitem_runs|]. intros c Hc.
  destruct (negb (has d c)) eqn:E; [discriminate|].
  apply negb_false_iff in E.
  destruct (removal_lighter g s c d Hc) as [_ S0]. specialize (S0 E).
  set (g0 := Aco.setitem g s (without d c)) in *.
  destruct (without d c) as [|d2 rest]; [discriminate|].
  assert (Hl : forall g s d b g',
             eliminate fuel peers g s d = Return (b, g') -> lighter g g')
    by (intros; eapply eliminate_lighter; eassumption).
  apply bind_runs.
  { destruct rest as [|d3 rest]; [|discriminate].
    apply bind_runs; [apply getitem_runs|]. intros ps _.
    apply (all_of_runs _ fuel).
    - intros s2 g2 _ H2. now apply IH.
    - intros s2 g2 b2 g2' _ H2. exact (proj1 (Hl _ _ _ _ _ H2)).
    - lia. }
  intros [ok g1] Hr.
  assert (L1 : (total g1 <= total g0)%nat).
  { destruct rest as [|d3 rest]; [|injection Hr as _ <-; lia].
    apply bind_Return in Hr as (ps & _ & Hr).
    eapply (all_of_keeps _ (fun a b => (total b <= total a)%nat)) in Hr;
      [exact Hr | intros; lia | intros; lia |].
    intros s2 g2 b2 g2' _ H2. exact (proj1 (Hl _ _ _ _ _ H2)). }
  destruct ok; cbn [negb]; [|discriminate].
  apply bind_runs; [apply getitem_runs|]. intros us _.
  apply (all_of_runs _ fuel).
  - intros u g2 _ H2. apply bind_runs; [apply dplaces_runs|].
    intros places _. destruct places as [|p [|p2 rest2]]; try discriminate.
    apply (fill_with_runs _ fuel); [exact IH | exact Hl | exact H2].
  - intros u g2 b2 g2' _ H2. apply bind_Return in H2 as (places & _ & H2).
    destruct places as [|p [|p2 rest2]].
    + injection H2 as _ <-. lia.
    + exact (proj1 (fill_with_lighter _ Hl _ _ _ _ _ H2)).
    + injection H2 as _ <-. lia.
  - lia.
Qed.

Lemma fill_lighter (fuel : nat) (g : list (string * string)) (s : string) (d : ascii)
  (b : bool) (g' : list (string * string)) :
  fill fuel peers g s d = Return (b, g') -> lighter g g'.
Proof.
  apply fill_with_lighter. intros g0 s0 d0 b0 g0' H0.
  exact (proj1 (eliminate_lighter fuel _ _ _ _ _ H0)).
Qed.

Lemma fill_runs (fuel : nat) (g : list (string * string)) (s : string) (d : ascii) :
  (total g < fuel)%nat -> runs (fill fuel peers g s d).
Proof.
  apply (fill_with_runs _ fuel).
  - apply eliminate_runs_out.
  - intros g0 s0 d0 b0 g0' H0. exact (proj1 (eliminate_lighter fuel _ _ _ _ _ H0)).
Qed.

(** [fill] on a square with two digits or more takes a digit away. *)
Lemma fill_takes_a_digit (fuel : nat) (g : list (string * string)) (s : string)
  (d : ascii) (b : bool) (g' : list (string * string)) :
  plain g -> (2 <= String.length (cand g s))%nat ->
  fill fuel peers g s d = Return (b, g') ->
  (total g' < total g)%nat.
Proof.
  intros P L H. unfold fill, fill_with in H.
  apply bind_Return in H as (c & Hc & H). apply cand_getitem in Hc as [Ec _].
  rewrite Ec in L. specialize (P s). rewrite Ec in P.
  destruct (String.eqb c (String d "")) eqn:E.
  { apply String.eqb_eq in E. rewrite E in L. cbn in L. lia. }
  destruct (List.filter (fun d2 => negb (Ascii.eqb d2 d)) (list_ascii_of_string c))
    as [|x xs] eqn:Ef.
  - exfalso. destruct c as [|a [|a2 c]]; try (cbn in L; lia).
    cbn [list_ascii_of_string List.filter] in Ef.
    destruct (Ascii.eqb a d) eqn:E1; [|discriminate].
    destruct (Ascii.eqb a2 d) eqn:E2; [|discriminate].
    apply Ascii.eqb_eq in E1, E2. subst a a2.
    cbn [list_ascii_of_string] in P. inversion P as [|? ? Hn _]; subst.
    apply Hn. now left.
  - assert (Hx : has x (cand g s) = true).
    { rewrite Ec. apply has_In.
      assert (Hin : In x (x :: xs)) by now left.
      rewrite <- Ef in Hin. now apply filter_In in Hin. }
    cbn [all_of] in H. apply bind_Return in H as ([ok g1] & H1 & H).
    destruct (eliminate_lighter fuel _ _ _ _ _ H1) as [_ S1]. specialize (S1 Hx).
    destruct ok; [|injection H as _ <-; exact S1].
    eapply (all_of_keeps _ (fun a b => (total b <= total a)%nat)) in H;
      [lia | intros; lia | intros; lia |].
    intros d2 g2 b2 g2' _ H2.
    exact (proj1 (proj1 (eliminate_lighter fuel _ _ _ _ _ H2))).
Qed.

Lemma open_squares_runs (g : list (string * string)) (sqs : list string) :
  runs (open_squares g sqs).
Proof.
  induction sqs as [|s sqs IH]; [discriminate|]. cbn [open_squares].
  apply bind_runs; [apply getitem_runs|]. intros c _.
  apply bind_runs; [exact IH|]. intros r _. discriminate.
Qed.

Lemma open_squares_long (g : list (string * string)) (sqs : list string) :
  forall open, open_squares g sqs = Return open ->
    forall n s, In (n, s) open -> (2 <= String.length (cand g s))%nat.
Proof.
  induction sqs as [|s0 sqs IH]; intros open H n s Hin.
  - injection H as <-. destruct Hin.
  - cbn [open_squares] in H. apply bind_Return in H as (c & Hc & H).
    apply bind_Return in H as (r & Hr & H). injection H as <-.
    apply cand_getitem in Hc as [Hc _].
    destruct (Nat.ltb 1 (String.length c)) eqn:E.
    + destruct Hin as [[= _ <-]|Hin]; [|eapply IH; eassumption].
      apply Nat.ltb_lt in E. rewrite Hc. lia.
    + eapply IH; eassumption.
Qed.

(** [search] returns or raises as soon as the budget exceeds the number of
    digits in the grid by two. *)
Lemma search_runs_out (fuel : nat) :
  forall g, plain g -> (total g + 1 < fuel)%nat -> runs (search fuel peers (Some g)).
Proof.
  induction fuel as [|fuel IH]; intros g P Hg; [lia|].
  cbn [search]. apply bind_runs; [apply open_squares_runs|]. intros open Hopen.
  pose proof (min_by_key_spec open) as M.
  destruct (min_by_key open) as [[n s]|]; [|discriminate].
  pose proof (open_squares_long _ _ _ Hopen n s M) as L.
  apply bind_runs; [apply getitem_runs|]. intros c _.
  induction (list_ascii_of_string c) as [|d ds IHds]; [discriminate|].
  cbn [try_digits]. apply bind_runs; [apply fill_runs; lia|].
  intros [ok g1] Hf.
  pose proof (fill_takes_a_digit _ _ _ _ _ _ P L Hf) as T.
  destruct (fill_lighter _ _ _ _ _ _ Hf) as [_ P1].
  apply bind_runs.
  - destruct ok; [apply IH; [now apply P1 | lia]|].
    destruct fuel; [lia | discriminate].
  - intros solution _. destruct solution as [[|kv sol]|]; try exact IHds. discriminate.
Qed.

Lemma constrain_loop_runs (fuel : nat) (items : list (string * string)) :
  forall r, (total r < fuel)%nat ->
    runs (constrain_loop fuel peers items r)
    /\ forall g, constrain_loop fuel peers items r = Return g -> lighter r g.
Proof.
  induction items as [|[s c] items IH]; intros r Hr.
  - split; [discriminate|]. intros g [= <-]. apply lighter_refl.
  - cbn [constrain_loop]. destruct c as [|d [|d' c']]; try (now apply IH).
    split.
    + apply bind_runs; [now apply fill_runs|]. intros [b r'] Hf.
      destruct (fill_lighter _ _ _ _ _ _ Hf) as [L _]. apply IH. lia.
    + intros g H. apply bind_Return in H as ([b r'] & Hf & H).
      pose proof (fill_lighter _ _ _ _ _ _ Hf) as L.
      eapply lighter_trans; [exact L|]. apply IH; [destruct L; lia | exact H].
Qed.

End Runs.

Lemma full_grid_plain : plain full_grid /\ total full_grid = 729%nat.
Proof.
  split; [|vm_compute; reflexivity].
  intros s. rewrite cand_full_grid. destruct (Py.mem s squares); [|constructor].
  cbv [digits list_ascii_of_string].
  repeat (constructor; [cbn [In]; intuition discriminate|]). constructor.
Qed.

(** X27.  Propagation and search in [norvig.py] come to an end, whatever
    [peers] holds.  [eliminate] and [fill] return or raise when the budget
    exceeds the number of digits in the grid; they never add a digit, and
    [eliminate] takes one away when the digit is in the square.  With a
    budget above 730, [constrain] returns or raises on every puzzle, and
    [search] returns or raises on every grid that [constrain] returns. *)
Theorem norvig_comes_to_an_end (fuel : nat) (peers : list (string * list string)) :
  (forall g s d, (total g < fuel)%nat ->
     runs (eliminate fuel peers g s d) /\ runs (fill fuel peers g s d))
  /\ (forall g s d b g',
        eliminate fuel peers g s d = Return (b, g') ->
        (total g' <= total g)%nat
        /\ (has d (cand g s) = true -> (total g' < total g)%nat))
  /\ (forall puzzle, (730 < fuel)%nat ->
        runs (constrain fuel peers puzzle)
        /\ forall g, constrain fuel peers puzzle = Return g ->
                     runs (search fuel peers (Some g))).
Proof.
  split; [|split].
  - intros g s d Hg. split; [now apply eliminate_runs_out | now apply fill_runs].
  - intros g s d b g' H. destruct (eliminate_lighter peers fuel _ _ _ _ _ H) as [[L _] S].
    split; assumption.
  - intros puzzle Hf. destruct full_grid_plain as [P T].
    destruct (constrain_loop_runs peers fuel puzzle full_grid ltac:(lia)) as [R L].
    split; [exact R|]. intros g Hg. destruct (L g Hg) as [Lg Pg].
    apply search_runs_out; [now apply Pg | lia].
Qed.

End NorvigRuns.
